(** * Asteria: the token stream and the garbage collector

    A shallow embedding of
      - [asteria/src/compiler/token_stream.cpp] (the lexer), and
      - [asteria/src/runtime/garbage_collector.cpp] with
        [asteria/runtime/garbage_collector.hpp] (the generational collector),
    followed by the properties of the specification that concern them. *)

From Stdlib Require Import ZArith List Ascii String Bool Lia.
From Stdlib Require Import Floats.FloatClass Floats.PrimFloat Floats.FloatOps.
From stdpp Require Import functions gmap.
Import ListNotations.

Set Default Proof Using "Type".
Set Warnings "-clear-no-such-hyp,-level-tolerance".

(** ** Bytes and byte strings *)

(** [Cow_String] holds raw bytes; literals are written with [sref]. *)
Abbreviation Cow_String := (list ascii).

Definition sref (s : string) : Cow_String := list_ascii_of_string s.

Definition NUL : ascii := Ascii.zero.

Definition char_code (c : ascii) : Z := Z.of_N (N_of_ascii c).

Definition char_eqb (a b : ascii) : bool := Ascii.eqb a b.

(** [std::char_traits<char>::lt] compares bytes as unsigned values. *)
Definition char_lt (a b : ascii) : bool := (char_code a <? char_code b)%Z.

Fixpoint string_eqb (a b : Cow_String) : bool :=
  match a, b with
  | [], [] => true
  | x :: a', y :: b' => char_eqb x y && string_eqb a' b'
  | _, _ => false
  end.

(** [std::char_traits<char>::find(s, n, c)]: the index of the first [c]
    among the first [n] bytes of [s], if any. *)
Fixpoint char_find (s : Cow_String) (n : nat) (c : ascii) : option nat :=
  match n, s with
  | S n', x :: s' =>
      if char_eqb x c then Some 0%nat
      else option_map S (char_find s' n' c)
  | _, _ => None
  end.

(** [std::strchr(s, c)]: like [char_find] over the whole of [s], except that
    the terminating null byte is part of the string. *)
Definition strchr (s : Cow_String) (c : ascii) : option nat :=
  if char_eqb c NUL then Some (List.length s)
  else char_find s (List.length s) c.

(** [p[i]] for a pointer [p] to the byte at index [pos] of a null-terminated
    buffer: reading the terminator yields [NUL]. *)
Definition char_at (str : Cow_String) (pos : nat) : ascii := nth pos str NUL.

(** [std::find_if_not(b, e, pred)] over the bytes of [str] in [[b, e)]; the
    result is an index into [str]. *)
Fixpoint find_if_not_from (pred : ascii -> bool) (l : Cow_String) (n : nat)
    (pos : nat) : nat :=
  match n, l with
  | S n', c :: l' => if pred c then find_if_not_from pred l' n' (S pos) else pos
  | _, _ => pos
  end.

Definition find_if_not (pred : ascii -> bool) (str : Cow_String) (b e : nat) : nat :=
  find_if_not_from pred (skipn b str) (e - b) b.

(** [starts_with avail s]: [tlen <= size_avail] and the first [tlen] bytes of
    [avail] compare equal to [s], where [tlen] is the length of [s]. *)
Definition starts_with (avail s : Cow_String) : bool :=
  (List.length s <=? List.length avail)%nat
  && string_eqb (firstn (List.length s) avail) s.

(** ** Parser errors *)

Module Parser_Error.

Inductive Code : Type :=
| code_no_data_loaded
| code_success
| code_utf8_sequence_invalid
| code_null_character_disallowed
| code_block_comment_unclosed
| code_string_literal_unclosed
| code_escape_sequence_incomplete
| code_escape_sequence_unknown
| code_escape_sequence_invalid_hex
| code_escape_utf_code_point_invalid
| code_numeric_literal_incomplete
| code_numeric_literal_suffix_disallowed
| code_numeric_literal_exponent_overflow
| code_integer_literal_exponent_negative
| code_integer_literal_overflow
| code_real_literal_overflow
| code_real_literal_underflow
| code_token_character_unrecognized.

Record t : Type := Parser_Error {
  line : Z;
  offset : nat;
  length : nat;
  code : Code
}.

End Parser_Error.

Abbreviation Parser_Error := Parser_Error.t.

(** ** Outcomes of a call

    A call returns, throws a [Parser_Error], throws a runtime error
    ([ASTERIA_THROW_RUNTIME_ERROR]) or terminates the program
    ([ASTERIA_TERMINATE]).  [Diverged] is the model's own: a loop ran past
    the bound the model gives it. *)
Inductive Outcome (A : Type) : Type :=
| Returned (a : A)
| Thrown (e : Parser_Error)
| Runtime_Error (msg : string)
| Terminated (msg : string)
| Diverged.

Arguments Returned {A} a.
Arguments Thrown {A} e.
Arguments Runtime_Error {A} msg.
Arguments Terminated {A} msg.
Arguments Diverged {A}.

#[global] Instance Outcome_ret : MRet Outcome := fun A a => Returned a.

#[global] Instance Outcome_bind : MBind Outcome := fun A B k m =>
  match m with
  | Returned a => k a
  | Thrown e => Thrown e
  | Runtime_Error msg => Runtime_Error msg
  | Terminated msg => Terminated msg
  | Diverged => Diverged
  end.

(** ** Tokens *)

Module Token.

Inductive Keyword : Type :=
| keyword_abs | keyword_ceil | keyword_floor | keyword_fma | keyword_iceil
| keyword_ifloor | keyword_iround | keyword_isinf | keyword_isnan
| keyword_itrunc | keyword_round | keyword_signb | keyword_sqrt
| keyword_trunc | keyword_and | keyword_assert | keyword_break
| keyword_case | keyword_catch | keyword_const | keyword_continue
| keyword_default | keyword_defer | keyword_do | keyword_each
| keyword_else | keyword_false | keyword_for | keyword_func | keyword_if
| keyword_infinity | keyword_lengthof | keyword_nan | keyword_not
| keyword_null | keyword_or | keyword_return | keyword_switch
| keyword_this | keyword_throw | keyword_true | keyword_try
| keyword_typeof | keyword_unset | keyword_var | keyword_while.

Inductive Punctuator : Type :=
| punctuator_notl | punctuator_cmp_ne | punctuator_mod | punctuator_mod_eq
| punctuator_andb | punctuator_andl | punctuator_andl_eq | punctuator_andb_eq
| punctuator_parenth_op | punctuator_parenth_cl | punctuator_mul
| punctuator_mul_eq | punctuator_add | punctuator_inc | punctuator_add_eq
| punctuator_comma | punctuator_sub | punctuator_dec | punctuator_sub_eq
| punctuator_dot | punctuator_ellipsis | punctuator_div | punctuator_div_eq
| punctuator_colon | punctuator_semicol | punctuator_cmp_lt | punctuator_sla
| punctuator_sll | punctuator_sll_eq | punctuator_sla_eq | punctuator_cmp_lte
| punctuator_spaceship | punctuator_assign | punctuator_cmp_eq
| punctuator_cmp_gt | punctuator_cmp_gte | punctuator_sra | punctuator_sra_eq
| punctuator_srl | punctuator_srl_eq | punctuator_quest | punctuator_quest_eq
| punctuator_coales | punctuator_coales_eq | punctuator_bracket_op
| punctuator_bracket_cl | punctuator_xorb | punctuator_xorb_eq
| punctuator_brace_op | punctuator_orb | punctuator_orb_eq | punctuator_orl
| punctuator_orl_eq | punctuator_brace_cl | punctuator_notb.

(** The alternatives of the token's storage. *)
Inductive Storage : Type :=
| S_keyword (keyword : Keyword)
| S_punctuator (punct : Punctuator)
| S_identifier (name : Cow_String)
| S_string_literal (value : Cow_String)
| S_integer_literal (value : Z)
| S_real_literal (value : float).

Record t : Type := Token {
  file : Cow_String;
  line : Z;
  offset : nat;
  length : nat;
  m_stor : Storage
}.

Definition is_keyword (tok : t) : bool :=
  match m_stor tok with S_keyword _ => true | _ => false end.

Definition is_punctuator (tok : t) : bool :=
  match m_stor tok with S_punctuator _ => true | _ => false end.

Definition as_keyword (tok : t) : option Keyword :=
  match m_stor tok with S_keyword k => Some k | _ => None end.

Definition as_punctuator (tok : t) : option Punctuator :=
  match m_stor tok with S_punctuator p => Some p | _ => None end.

#[global] Instance Keyword_eq_dec : EqDecision Keyword.
Proof. solve_decision. Defined.

#[global] Instance Punctuator_eq_dec : EqDecision Punctuator.
Proof. solve_decision. Defined.

End Token.

Abbreviation Token := Token.t.

(** [rocket::is_none_of(x, { ... })] *)
Definition is_none_of {A : Type} `{EqDecision A} (x : A) (l : list A) : bool :=
  forallb (fun y => negb (bool_decide (x = y))) l.

(** ** The line reader *)

Module Line_Reader.

(** The members of the class, [m_cbuf] apart: the stream buffer is not the
    reader's own, and what is left of it is passed to [advance]. *)
Record t : Type := Line_Reader {
  m_file : Cow_String;
  m_str : Cow_String;
  m_line : Z;
  m_offset : nat
}.

Definition make (xfile : Cow_String) : t :=
  {| m_file := xfile; m_str := []; m_line := 0; m_offset := 0 |}.

Definition file (r : t) : Cow_String := m_file r.
Definition line (r : t) : Z := m_line r.
Definition offset (r : t) : nat := m_offset r.

(** The buffering loop of [advance]: bytes are taken up to a line feed or
    the end of the stream.  The result is the line, the rest of the stream
    and whether the end of the stream has been hit. *)
Fixpoint buffer_line (input acc : Cow_String) : Cow_String * Cow_String * bool :=
  match input with
  | [] => (acc, [], true)
  | ich :: rest =>
      if char_eqb ich "010"%char then (acc, rest, false)
      else buffer_line rest (acc ++ [ich])
  end.

(** [m_line] is a [std::uint32_t]: the increment wraps around. *)
Definition advance (r : t) (cbuf : Cow_String) : bool * t * Cow_String :=
  let '(str, rest, eof) := buffer_line cbuf [] in
  if eof && match str with [] => true | _ => false end then
    (false, {| m_file := m_file r; m_str := []; m_line := m_line r; m_offset := 0 |},
     rest)
  else
    (true, {| m_file := m_file r; m_str := str;
              m_line := (m_line r + 1) mod 2 ^ 32; m_offset := 0 |}, rest).

Definition data_avail (r : t) : Cow_String := skipn (m_offset r) (m_str r).

Definition size_avail (r : t) : nat := (List.length (m_str r) - m_offset r)%nat.

Definition peek (r : t) (add : nat) : ascii :=
  if (size_avail r <? add)%nat then NUL
  else char_at (m_str r) (m_offset r + add).

Definition consume (r : t) (add : nat) : Outcome t :=
  if (size_avail r <? add)%nat then
    Runtime_Error "An attempt was made to seek past the end of the current line."
  else
    Returned {| m_file := m_file r; m_str := m_str r;
                m_line := m_line r; m_offset := (m_offset r + add)%nat |}.

Definition rewind (r : t) (xoffset : nat) : t :=
  {| m_file := m_file r; m_str := m_str r; m_line := m_line r;
     m_offset := xoffset |}.

End Line_Reader.

Abbreviation Line_Reader := Line_Reader.t.

(** [do_make_parser_error(reader, length, code)] *)
Definition do_make_parser_error (reader : Line_Reader) (length : nat)
    (code : Parser_Error.Code) : Parser_Error :=
  Parser_Error.Parser_Error (Line_Reader.line reader) (Line_Reader.offset reader)
    length code.

(** [do_make_parser_error(reader, pos, code)], where [pos] points into the
    line: pointers are indices into [m_str]. *)
Definition do_make_parser_error_at (reader : Line_Reader) (pos : nat)
    (code : Parser_Error.Code) : Parser_Error :=
  do_make_parser_error reader (pos - Line_Reader.offset reader) code.

(** The position of an unterminated block comment. *)
Module Tack.

Record t : Type := Tack { m_line : Z; m_offset : nat; m_length : nat }.

Definition make : t := {| m_line := 0; m_offset := 0; m_length := 0 |}.

Definition to_bool (k : t) : bool := negb (m_line k =? 0)%Z.

Definition set (k : t) (reader : Line_Reader) (xlength : nat) : t :=
  {| m_line := Line_Reader.line reader;
     m_offset := Line_Reader.offset reader;
     m_length := xlength |}.

Definition clear (k : t) : t :=
  {| m_line := 0; m_offset := m_offset k; m_length := m_length k |}.

End Tack.

(** The accepting functions work on the token sequence and on the reader;
    both are passed by reference. *)
Record Lexer : Type := mkLexer {
  seq : list Token;
  reader : Line_Reader
}.

Definition do_push_token (lx : Lexer) (length : nat) (xtoken : Token.Storage)
    : Outcome Lexer :=
  let rd := reader lx in
  let tok := Token.Token (Line_Reader.file rd) (Line_Reader.line rd)
               (Line_Reader.offset rd) length xtoken in
  rd' ← Line_Reader.consume rd length;
  Returned {| seq := seq lx ++ [tok]; reader := rd' |}.


(** ** UTF-8 conversion *)

Definition char_of_code (z : Z) : ascii := ascii_of_N (Z.to_N (z mod 256)).

(** Modelled from the spec: [utf8_encode] is declared in [utils.hpp] and its
    definition is not among the sources.  A code point outside
    [[0, 0x10FFFF]] or in the surrogate range is refused; any other is
    appended in its UTF-8 form. *)
Definition utf8_encode (text : Cow_String) (cp : Z) : option Cow_String :=
  if (cp <? 0)%Z || (0x10FFFF <? cp)%Z || ((0xD800 <=? cp)%Z && (cp <=? 0xDFFF)%Z)
  then None
  else if (cp <? 0x80)%Z then Some (text ++ [char_of_code cp])
  else if (cp <? 0x800)%Z then
    Some (text ++ [char_of_code (0xC0 + cp / 64); char_of_code (0x80 + cp mod 64)])
  else if (cp <? 0x10000)%Z then
    Some (text ++ [char_of_code (0xE0 + cp / 4096);
                   char_of_code (0x80 + (cp / 64) mod 64);
                   char_of_code (0x80 + cp mod 64)])
  else
    Some (text ++ [char_of_code (0xF0 + cp / 262144);
                   char_of_code (0x80 + (cp / 4096) mod 64);
                   char_of_code (0x80 + (cp / 64) mod 64);
                   char_of_code (0x80 + cp mod 64)]).

(** The trailing bytes of a UTF-8 sequence: [n] bytes of the form
    [10xxxxxx].  The result is the code point and the number of bytes that
    have been read, with a flag that tells whether they were well-formed. *)
Fixpoint utf8_decode_trail (n : nat) (cp : Z) (l : Cow_String) (read : nat)
    : bool * Z * nat :=
  match n, l with
  | O, _ => (true, cp, read)
  | S _, [] => (false, cp, read)
  | S n', c :: l' =>
      let next := char_code c in
      if (next <? 0x80)%Z || (0xC0 <=? next)%Z then (false, cp, S read)
      else utf8_decode_trail n' (cp * 64 + (next - 0x80))%Z l' (S read)
  end.

(** Modelled from the spec: [utf8_decode] is declared in [utils.hpp] and its
    definition is not among the sources.  It reads one well-formed UTF-8
    sequence from the bytes available (shortest form, no surrogate, at most
    [0x10FFFF]); the result tells whether it succeeded, the code point, and
    how far the position has been moved. *)
Definition utf8_decode (avail : Cow_String) : bool * Z * nat :=
  match avail with
  | [] => (false, 0%Z, 0%nat)
  | c :: rest =>
      let b := char_code c in
      if (b <? 0x80)%Z then (true, b, 1%nat)
      else if (b <? 0xC0)%Z || (0xF8 <=? b)%Z then (false, b, 1%nat)
      else
        let u8len : nat :=
          if (b <? 0xE0)%Z then 2%nat else if (b <? 0xF0)%Z then 3%nat else 4%nat in
        let lead :=
          if (b <? 0xE0)%Z then (b - 0xC0)%Z
          else if (b <? 0xF0)%Z then (b - 0xE0)%Z else (b - 0xF0)%Z in
        let minimum :=
          if (b <? 0xE0)%Z then 0x80%Z
          else if (b <? 0xF0)%Z then 0x800%Z else 0x10000%Z in
        if (List.length avail <? u8len)%nat then (false, b, 1%nat)
        else
          let '(ok, cp, read) := utf8_decode_trail (u8len - 1) lead rest 1 in
          if negb ok then (false, cp, read)
          else if (cp <? minimum)%Z then (false, cp, read)
          else if (0xD800 <=? cp)%Z && (cp <=? 0xDFFF)%Z then (false, cp, read)
          else if (0x10FFFF <? cp)%Z then (false, cp, read)
          else (true, cp, read)
  end.

(** ** Punctuators *)

Definition s_digits : Cow_String := sref "00112233445566778899AaBbCcDdEeFf".

Definition s_punct_chars : Cow_String := sref "!%&()*+,-./:;<=>?[]^{|}~".

Definition s_punctuators : list (Cow_String * Token.Punctuator) :=
  [ (sref "!",     Token.punctuator_notl);
    (sref "!=",    Token.punctuator_cmp_ne);
    (sref "%",     Token.punctuator_mod);
    (sref "%=",    Token.punctuator_mod_eq);
    (sref "&",     Token.punctuator_andb);
    (sref "&&",    Token.punctuator_andl);
    (sref "&&=",   Token.punctuator_andl_eq);
    (sref "&=",    Token.punctuator_andb_eq);
    (sref "(",     Token.punctuator_parenth_op);
    (sref ")",     Token.punctuator_parenth_cl);
    (sref "*",     Token.punctuator_mul);
    (sref "*=",    Token.punctuator_mul_eq);
    (sref "+",     Token.punctuator_add);
    (sref "++",    Token.punctuator_inc);
    (sref "+=",    Token.punctuator_add_eq);
    (sref ",",     Token.punctuator_comma);
    (sref "-",     Token.punctuator_sub);
    (sref "--",    Token.punctuator_dec);
    (sref "-=",    Token.punctuator_sub_eq);
    (sref ".",     Token.punctuator_dot);
    (sref "...",   Token.punctuator_ellipsis);
    (sref "/",     Token.punctuator_div);
    (sref "/=",    Token.punctuator_div_eq);
    (sref ":",     Token.punctuator_colon);
    (sref ";",     Token.punctuator_semicol);
    (sref "<",     Token.punctuator_cmp_lt);
    (sref "<<",    Token.punctuator_sla);
    (sref "<<<",   Token.punctuator_sll);
    (sref "<<<=",  Token.punctuator_sll_eq);
    (sref "<<=",   Token.punctuator_sla_eq);
    (sref "<=",    Token.punctuator_cmp_lte);
    (sref "<=>",   Token.punctuator_spaceship);
    (sref "=",     Token.punctuator_assign);
    (sref "==",    Token.punctuator_cmp_eq);
    (sref ">",     Token.punctuator_cmp_gt);
    (sref ">=",    Token.punctuator_cmp_gte);
    (sref ">>",    Token.punctuator_sra);
    (sref ">>=",   Token.punctuator_sra_eq);
    (sref ">>>",   Token.punctuator_srl);
    (sref ">>>=",  Token.punctuator_srl_eq);
    (sref "?",     Token.punctuator_quest);
    (sref "?=",    Token.punctuator_quest_eq);
    (sref "??",    Token.punctuator_coales);
    (sref "??=",   Token.punctuator_coales_eq);
    (sref "[",     Token.punctuator_bracket_op);
    (sref "]",     Token.punctuator_bracket_cl);
    (sref "^",     Token.punctuator_xorb);
    (sref "^=",    Token.punctuator_xorb_eq);
    (sref "{",     Token.punctuator_brace_op);
    (sref "|",     Token.punctuator_orb);
    (sref "|=",    Token.punctuator_orb_eq);
    (sref "||",    Token.punctuator_orl);
    (sref "||=",   Token.punctuator_orl_eq);
    (sref "}",     Token.punctuator_brace_cl);
    (sref "~",     Token.punctuator_notb) ].

(** [first[0]] of a table element. *)
Definition first_char {B : Type} (el : Cow_String * B) : ascii := char_at (fst el) 0.

(** The partition point of a range with respect to [pred]: the number of
    leading elements that satisfy it. *)
Fixpoint partition_point {A : Type} (pred : A -> bool) (l : list A) : nat :=
  match l with
  | [] => 0
  | x :: l' => if pred x then S (partition_point pred l') else 0
  end.

(** [std::equal_range(begin, end, ch, Prefix_Comparator())] on a table that
    is sorted: the lower bound is the partition point of [el.first[0] < ch],
    the upper bound that of [!(ch < el.first[0])]. *)
Definition equal_range {B : Type} (table : list (Cow_String * B)) (ch : ascii)
    : nat * nat :=
  (partition_point (fun el => char_lt (first_char el) ch) table,
   partition_point (fun el => negb (char_lt ch (first_char el))) table).

(** The loop of [do_accept_punctuator]: [count] is
    [range.second - range.first], and [range.second[-1]] is looked at
    first. *)
Fixpoint do_match_punctuator (table : list (Cow_String * Token.Punctuator))
    (first count : nat) (avail : Cow_String)
    : option (Cow_String * Token.Punctuator) :=
  match count with
  | O => None
  | S count' =>
      match table !! (first + count')%nat with
      | Some cur =>
          if starts_with avail (fst cur) then Some cur
          else do_match_punctuator table first count' avail
      | None => do_match_punctuator table first count' avail
      end
  end.

Definition do_accept_punctuator (lx : Lexer) : Outcome (bool * Lexer) :=
  let rd := reader lx in
  let bptr := Line_Reader.m_offset rd in
  let head := char_at (Line_Reader.m_str rd) bptr in
  match char_find s_punct_chars (List.length s_punct_chars) head with
  | None => Returned (false, lx)
  | Some _ =>
      let range := equal_range s_punctuators head in
      match do_match_punctuator s_punctuators (fst range) (snd range - fst range)
              (Line_Reader.data_avail rd) with
      | Some cur =>
          lx' ← do_push_token lx (List.length (fst cur)) (Token.S_punctuator (snd cur));
          Returned (true, lx')
      | None => Terminated "The punctuator is unhandled."
      end
  end.

(** ** String literals *)

(** The value of the digit at [dptr], an index into [s_digits]. *)
Definition dvalue_of (dptr : nat) : Z := Z.of_nat (dptr / 2).

(** The hexadecimal digits of an escape sequence, read from index [i] of the
    line on; [base] is the offset of the literal in the line. *)
Fixpoint do_read_hex (rd : Line_Reader) (base : nat) (i xcnt : nat) (cp : Z)
    : Outcome Z :=
  match xcnt with
  | O => Returned cp
  | S xcnt' =>
      match char_find s_digits 32 (char_at (Line_Reader.m_str rd) (base + i)) with
      | None =>
          Thrown (do_make_parser_error rd (i + 1)
                    Parser_Error.code_escape_sequence_invalid_hex)
      | Some dptr =>
          do_read_hex rd base (S i) xcnt' ((cp * 16 + dvalue_of dptr) mod 2 ^ 32)%Z
      end
  end.

(** The loop that translates escape sequences.  Every turn reads at least
    one byte of the line, so [fuel] need not exceed the bytes available. *)
Fixpoint do_translate_escapes (fuel : nat) (rd : Line_Reader) (head : ascii)
    (tlen : nat) (value : Cow_String) : Outcome (nat * Cow_String) :=
  match fuel with
  | O => Diverged
  | S fuel' =>
      let bptr := Line_Reader.m_offset rd in
      let str := Line_Reader.m_str rd in
      let qavail := (Line_Reader.size_avail rd - tlen)%nat in
      if (qavail =? 0)%nat then
        Thrown (do_make_parser_error rd (Line_Reader.size_avail rd)
                  Parser_Error.code_string_literal_unclosed)
      else
        let next := char_at str (bptr + tlen) in
        let tlen := S tlen in
        if char_eqb next head then Returned (tlen, value)
        else if negb (char_eqb next "\"%char) then
          do_translate_escapes fuel' rd head tlen (value ++ [next])
        else if (qavail <? 2)%nat then
          Thrown (do_make_parser_error rd (Line_Reader.size_avail rd)
                    Parser_Error.code_escape_sequence_incomplete)
        else
          let next := char_at str (bptr + tlen) in
          let tlen := S tlen in
          let simple (c : ascii) :=
            do_translate_escapes fuel' rd head tlen (value ++ [c]) in
          let hex (xcnt : nat) :=
            if (qavail <? xcnt + 2)%nat then
              Thrown (do_make_parser_error rd (Line_Reader.size_avail rd)
                        Parser_Error.code_escape_sequence_incomplete)
            else
              cp ← do_read_hex rd bptr tlen xcnt 0%Z;
              if char_eqb next "x"%char then
                do_translate_escapes fuel' rd head (tlen + xcnt)
                  (value ++ [char_of_code cp])
              else
                match utf8_encode value cp with
                | Some value' =>
                    do_translate_escapes fuel' rd head (tlen + xcnt) value'
                | None =>
                    Thrown (do_make_parser_error rd (tlen + xcnt)
                              Parser_Error.code_escape_utf_code_point_invalid)
                end in
          if char_eqb next "'"%char || char_eqb next "034"%char
             || char_eqb next "\"%char || char_eqb next "?"%char then simple next
          else if char_eqb next "a"%char then simple "007"%char
          else if char_eqb next "b"%char then simple "008"%char
          else if char_eqb next "f"%char then simple "012"%char
          else if char_eqb next "n"%char then simple "010"%char
          else if char_eqb next "r"%char then simple "013"%char
          else if char_eqb next "t"%char then simple "009"%char
          else if char_eqb next "v"%char then simple "011"%char
          else if char_eqb next "0"%char then simple "000"%char
          else if char_eqb next "Z"%char then simple "026"%char
          else if char_eqb next "e"%char then simple "027"%char
          else if char_eqb next "U"%char then hex 6%nat
          else if char_eqb next "u"%char then hex 4%nat
          else if char_eqb next "x"%char then hex 2%nat
          else
            Thrown (do_make_parser_error rd tlen
                      Parser_Error.code_escape_sequence_unknown)
  end.

Definition do_accept_string_literal (lx : Lexer) (head : ascii) (escapable : bool)
    : Outcome (bool * Lexer) :=
  let rd := reader lx in
  let bptr := Line_Reader.m_offset rd in
  if negb (char_eqb (char_at (Line_Reader.m_str rd) bptr) head) then
    Returned (false, lx)
  else
    '(tlen, value) ←
      (if escapable then
         do_translate_escapes (Line_Reader.size_avail rd) rd head 1 []
       else
         match char_find (skipn 1 (Line_Reader.data_avail rd))
                 (Line_Reader.size_avail rd - 1) head with
         | None =>
             Thrown (do_make_parser_error rd (Line_Reader.size_avail rd)
                       Parser_Error.code_string_literal_unclosed)
         | Some k =>
             Returned ((k + 2)%nat, firstn k (skipn 1 (Line_Reader.data_avail rd)))
         end);
    lx' ← do_push_token lx tlen (Token.S_string_literal value);
    Returned (true, lx').

(** ** Identifiers and keywords *)

Definition s_name_chars : Cow_String :=
  sref "ABCDEFGHIJKLMNOPQRSTUVWXYZabcdefghijklmnopqrstuvwxyz_0123456789".

Definition s_keywords : list (Cow_String * Token.Keyword) :=
  [ (sref "__abs",     Token.keyword_abs);
    (sref "__ceil",    Token.keyword_ceil);
    (sref "__floor",   Token.keyword_floor);
    (sref "__fma",     Token.keyword_fma);
    (sref "__iceil",   Token.keyword_iceil);
    (sref "__ifloor",  Token.keyword_ifloor);
    (sref "__iround",  Token.keyword_iround);
    (sref "__isinf",   Token.keyword_isinf);
    (sref "__isnan",   Token.keyword_isnan);
    (sref "__itrunc",  Token.keyword_itrunc);
    (sref "__round",   Token.keyword_round);
    (sref "__signb",   Token.keyword_signb);
    (sref "__sqrt",    Token.keyword_sqrt);
    (sref "__trunc",   Token.keyword_trunc);
    (sref "and",       Token.keyword_and);
    (sref "assert",    Token.keyword_assert);
    (sref "break",     Token.keyword_break);
    (sref "case",      Token.keyword_case);
    (sref "catch",     Token.keyword_catch);
    (sref "const",     Token.keyword_const);
    (sref "continue",  Token.keyword_continue);
    (sref "default",   Token.keyword_default);
    (sref "defer",     Token.keyword_defer);
    (sref "do",        Token.keyword_do);
    (sref "each",      Token.keyword_each);
    (sref "else",      Token.keyword_else);
    (sref "false",     Token.keyword_false);
    (sref "for",       Token.keyword_for);
    (sref "func",      Token.keyword_func);
    (sref "if",        Token.keyword_if);
    (sref "infinity",  Token.keyword_infinity);
    (sref "lengthof",  Token.keyword_lengthof);
    (sref "nan",       Token.keyword_nan);
    (sref "not",       Token.keyword_not);
    (sref "null",      Token.keyword_null);
    (sref "or",        Token.keyword_or);
    (sref "return",    Token.keyword_return);
    (sref "switch",    Token.keyword_switch);
    (sref "this",      Token.keyword_this);
    (sref "throw",     Token.keyword_throw);
    (sref "true",      Token.keyword_true);
    (sref "try",       Token.keyword_try);
    (sref "typeof",    Token.keyword_typeof);
    (sref "unset",     Token.keyword_unset);
    (sref "var",       Token.keyword_var);
    (sref "while",     Token.keyword_while) ].

(** The loop over the keywords that begin with the first byte of the
    identifier: [range.first[0]] is looked at first. *)
Fixpoint do_match_keyword (range : list (Cow_String * Token.Keyword))
    (name : Cow_String) : option Token.Keyword :=
  match range with
  | [] => None
  | cur :: range' =>
      if (List.length (fst cur) =? List.length name)%nat && string_eqb name (fst cur)
      then Some (snd cur)
      else do_match_keyword range' name
  end.

Definition do_accept_identifier_or_keyword (lx : Lexer) (keyword_as_identifier : bool)
    : Outcome (bool * Lexer) :=
  let rd := reader lx in
  let str := Line_Reader.m_str rd in
  let bptr := Line_Reader.m_offset rd in
  match char_find s_name_chars 53 (char_at str bptr) with
  | None => Returned (false, lx)
  | Some _ =>
      let eptr := (bptr + Line_Reader.size_avail rd)%nat in
      let tptr :=
        find_if_not (fun ch => bool_decide (is_Some (char_find s_name_chars 63 ch)))
          str bptr eptr in
      let tlen := (tptr - bptr)%nat in
      let name := firstn tlen (Line_Reader.data_avail rd) in
      let range := equal_range s_keywords (char_at str bptr) in
      match
        (if keyword_as_identifier then None
         else do_match_keyword
                (firstn (snd range - fst range) (skipn (fst range) s_keywords)) name)
      with
      | Some kw =>
          lx' ← do_push_token lx tlen (Token.S_keyword kw);
          Returned (true, lx')
      | None =>
          lx' ← do_push_token lx tlen (Token.S_identifier name);
          Returned (true, lx')
      end
  end.

(** ** Merging a sign into a numeric literal *)

(** The result is the previous token when it is a sign that can be merged
    into the literal that begins at the reader's position. *)
Definition do_check_mergeability (sq : list Token) (rd : Line_Reader) : option Token :=
  match last sq with
  | None => None
  | Some qstok =>
      if negb (Token.line qstok =? Line_Reader.line rd)%Z then None
      else if negb (Token.offset qstok + Token.length qstok =? Line_Reader.offset rd)%nat
      then None
      else
        match Token.as_punctuator qstok with
        | None => None
        | Some p =>
            if is_none_of p [Token.punctuator_add; Token.punctuator_sub] then None
            else if (List.length sq <? 2)%nat then Some qstok
            else
              match last (removelast sq) with
              | None => Some qstok
              | Some pt =>
                  match Token.m_stor pt with
                  | Token.S_keyword k =>
                      if is_none_of k
                           [Token.keyword_null; Token.keyword_true;
                            Token.keyword_false; Token.keyword_nan;
                            Token.keyword_infinity; Token.keyword_this]
                      then Some qstok else None
                  | Token.S_punctuator q =>
                      if is_none_of q
                           [Token.punctuator_inc; Token.punctuator_dec;
                            Token.punctuator_parenth_cl; Token.punctuator_bracket_cl;
                            Token.punctuator_brace_cl]
                      then Some qstok else None
                  | _ => None
                  end
              end
        end
  end.

(** ** Numeric literals *)

(** What the C++ implementation brings along for real literals: the
    arithmetic of [long double], its conversion to [double], and
    [std::pow] on the [double] values of two integers.  The [double] values
    themselves are binary64 numbers. *)
Class Long_Double_Arith : Type := {
  long_double : Type;
  ld_of_Z : Z -> long_double;
  ld_add : long_double -> long_double -> long_double;
  ld_mul : long_double -> long_double -> long_double;
  ld_div : long_double -> long_double -> long_double;
  ld_to_double : long_double -> float;
  std_pow : Z -> Z -> float
}.

(** [std::fpclassify(value) == FP_INFINITE] and [== FP_ZERO] *)
Definition fp_infinite (value : float) : bool :=
  match PrimFloat.classify value with PInf | NInf => true | _ => false end.

Definition fp_zero (value : float) : bool :=
  match PrimFloat.classify value with PZero | NZero => true | _ => false end.

(** The positions and characteristics that the scan of a literal finds.
    Positions are indices into the line. *)
Record Numeric_Parts : Type := {
  bintg : nat;  (* beginning of the integral part *)
  eintg : nat;  (* end of the integral part *)
  bfrac : nat;  (* beginning of the fractional part *)
  efrac : nat;  (* end of the fractional part *)
  bexp : nat;   (* beginning of the exponent part *)
  eexp : nat;   (* end of the exponent part *)
  rbase : Z;    (* base of the integral and fractional parts *)
  pbase : Z;    (* base of the exponent *)
  pneg : bool   (* is the exponent negative? *)
}.

Definition is_digit_or_sep (rdigits : nat) (ch : ascii) : bool :=
  char_eqb ch "`"%char || bool_decide (is_Some (char_find s_digits rdigits ch)).

Definition s_suffix_chars : Cow_String :=
  sref "ABCDEFGHIJKLMNOPQRSTUVWXYZabcdefghijklmnopqrstuvwxyz_".

(** From the base prefix to the check for a suffix. *)
Definition do_scan_numeric (rd : Line_Reader) : Outcome Numeric_Parts :=
  let str := Line_Reader.m_str rd in
  let bptr := Line_Reader.m_offset rd in
  let eptr := (bptr + Line_Reader.size_avail rd)%nat in
  let '(bintg, rbase) :=
    if char_eqb (char_at str bptr) "0"%char then
      let c := char_at str (bptr + 1) in
      if char_eqb c "B"%char || char_eqb c "b"%char then ((bptr + 2)%nat, 2%Z)
      else if char_eqb c "X"%char || char_eqb c "x"%char then ((bptr + 2)%nat, 16%Z)
      else (bptr, 10%Z)
    else (bptr, 10%Z) in
  let rdigits := Z.to_nat (rbase * 2) in
  let eintg := find_if_not (is_digit_or_sep rdigits) str bintg eptr in
  if (eintg =? bintg)%nat then
    Thrown (do_make_parser_error_at rd eintg Parser_Error.code_numeric_literal_incomplete)
  else
    '(bfrac, efrac) ←
      (if char_eqb (char_at str eintg) "."%char then
         let bfrac := S eintg in
         let efrac := find_if_not (is_digit_or_sep rdigits) str bfrac eptr in
         if (efrac =? bfrac)%nat then
           Thrown (do_make_parser_error_at rd efrac
                     Parser_Error.code_numeric_literal_incomplete)
         else Returned (bfrac, efrac)
       else Returned (eintg, eintg));
    let '(bexp, pbase) :=
      let c := char_at str efrac in
      if char_eqb c "E"%char || char_eqb c "e"%char then (S efrac, 10%Z)
      else if char_eqb c "P"%char || char_eqb c "p"%char then (S efrac, 2%Z)
      else (efrac, 0%Z) in
    '(bexp, eexp, pneg) ←
      (if negb (bexp =? efrac)%nat then
         let '(bexp, pneg) :=
           let c := char_at str bexp in
           if char_eqb c "+"%char then (S bexp, false)
           else if char_eqb c "-"%char then (S bexp, true)
           else (bexp, false) in
         let eexp := find_if_not (is_digit_or_sep 20) str bexp eptr in
         if (eexp =? bexp)%nat then
           Thrown (do_make_parser_error_at rd eexp
                     Parser_Error.code_numeric_literal_incomplete)
         else Returned (bexp, eexp, pneg)
       else Returned (bexp, efrac, false));
    let bsfx :=
      find_if_not (fun ch => bool_decide (is_Some (strchr s_suffix_chars ch)))
        str eexp eptr in
    if negb (eexp =? eptr)%nat && negb (bsfx =? eexp)%nat then
      Thrown (do_make_parser_error_at rd bsfx
                Parser_Error.code_numeric_literal_suffix_disallowed)
    else
      Returned {| bintg := bintg; eintg := eintg; bfrac := bfrac; efrac := efrac;
                  bexp := bexp; eexp := eexp; rbase := rbase; pbase := pbase;
                  pneg := pneg |}.

(** The bytes of the line in [[b, e)]. *)
Definition substr (str : Cow_String) (b e : nat) : Cow_String :=
  firstn (e - b) (skipn b str).

(** The loop that parses the exponent; [exp] is a [std::int32_t]. *)
Fixpoint do_parse_exponent (err : Parser_Error) (l : Cow_String) (exp : Z)
    : Outcome Z :=
  match l with
  | [] => Returned exp
  | ch :: l' =>
      match char_find s_digits 20 ch with
      | None => do_parse_exponent err l' exp
      | Some dptr =>
          let dvalue := dvalue_of dptr in
          let bound := ((0x7FFFFFFF - dvalue) / 10)%Z in
          if (bound <? exp)%Z then Thrown err
          else do_parse_exponent err l' (exp * 10 + dvalue)%Z
      end
  end.

(** The loop that parses the significant part of an integer; [value] is a
    [std::uint64_t]. *)
Fixpoint do_parse_significant (err : Parser_Error) (rbase : Z) (l : Cow_String)
    (value : Z) : Outcome Z :=
  match l with
  | [] => Returned value
  | ch :: l' =>
      match char_find s_digits (Z.to_nat (rbase * 2)) ch with
      | None => do_parse_significant err rbase l' value
      | Some dptr =>
          let dvalue := dvalue_of dptr in
          let bound := ((0x8000000000000000 - dvalue) / rbase)%Z in
          if (bound <? value)%Z then Thrown err
          else do_parse_significant err rbase l' ((value * rbase + dvalue) mod 2 ^ 64)%Z
      end
  end.

(** The loop that raises the significant part to the power of [pbase];
    [count] is the number of turns that are left, [exp - i]. *)
Fixpoint do_raise_significant (err : Parser_Error) (pbase : Z) (count : nat)
    (value : Z) : Outcome Z :=
  match count with
  | O => Returned value
  | S count' =>
      let bound := (0x8000000000000000 / pbase)%Z in
      if (bound <? value)%Z then Thrown err
      else do_raise_significant err pbase count' ((value * pbase) mod 2 ^ 64)%Z
  end.

(** The conversion of a [std::uint64_t] to [std::int64_t]. *)
Definition to_int64 (value : Z) : Z :=
  if (value <? 2 ^ 63)%Z then value else (value - 2 ^ 64)%Z.

(** The magnitude of an integer literal, as a [std::uint64_t]. *)
Definition do_parse_integer (rd : Line_Reader) (np : Numeric_Parts) (exp : Z)
    (rneg : bool) : Outcome Z :=
  let str := Line_Reader.m_str rd in
  let overflow :=
    do_make_parser_error_at rd (eexp np) Parser_Error.code_integer_literal_overflow in
  if (exp <? 0)%Z then
    Thrown (do_make_parser_error_at rd (eexp np)
              Parser_Error.code_integer_literal_exponent_negative)
  else
    value ← do_parse_significant overflow (rbase np)
              (substr str (bintg np) (eintg np)) 0%Z;
    value ←
      (if negb (value =? 0)%Z && (2 <=? pbase np)%Z then
         do_raise_significant overflow (pbase np) (Z.to_nat exp) value
       else Returned value);
    if (value =? 0x8000000000000000)%Z && negb rneg then Thrown overflow
    else Returned value.

Section Real_Literals.

Context `{LD : Long_Double_Arith}.

(** The loop over the integral part of a real literal; the state is [intg]
    and [zero]. *)
Fixpoint do_parse_real_intg (rbase : Z) (l : Cow_String) (intg : long_double)
    (zero : bool) : long_double * bool :=
  match l with
  | [] => (intg, zero)
  | ch :: l' =>
      match char_find s_digits (Z.to_nat (rbase * 2)) ch with
      | None => do_parse_real_intg rbase l' intg zero
      | Some dptr =>
          let dvalue := dvalue_of dptr in
          do_parse_real_intg rbase l'
            (ld_add (ld_mul intg (ld_of_Z rbase)) (ld_of_Z dvalue))
            (zero || negb (dvalue =? 0)%Z)
      end
  end.

(** The loop over the fractional part, whose bytes are given from the last
    to the first. *)
Fixpoint do_parse_real_frac (rbase : Z) (l : Cow_String) (frac : long_double)
    (zero : bool) : long_double * bool :=
  match l with
  | [] => (frac, zero)
  | ch :: l' =>
      match char_find s_digits (Z.to_nat (rbase * 2)) ch with
      | None => do_parse_real_frac rbase l' frac zero
      | Some dptr =>
          let dvalue := dvalue_of dptr in
          do_parse_real_frac rbase l'
            (ld_div (ld_add frac (ld_of_Z dvalue)) (ld_of_Z rbase))
            (zero || negb (dvalue =? 0)%Z)
      end
  end.

(** The value of a real literal before the sign is applied, and [zero] as
    the loops over the digits leave it. *)
Definition do_real_value (rd : Line_Reader) (np : Numeric_Parts) (exp : Z)
    : float * bool :=
  let str := Line_Reader.m_str rd in
  let zero := true in
  let '(intg, zero) :=
    do_parse_real_intg (rbase np) (substr str (bintg np) (eintg np)) (ld_of_Z 0) zero in
  let '(frac, zero) :=
    do_parse_real_frac (rbase np) (rev (substr str (bfrac np) (efrac np)))
      (ld_of_Z 0) zero in
  let value := ld_to_double (ld_add intg frac) in
  let value :=
    if (pbase np =? 2)%Z then Z.ldexp value exp
    else PrimFloat.mul value (std_pow (pbase np) exp) in
  (value, zero).

(** The check for overflow or underflow. *)
Definition do_parse_real (rd : Line_Reader) (np : Numeric_Parts) (exp : Z)
    : Outcome float :=
  let '(value, zero) := do_real_value rd np exp in
  if fp_infinite value then
    Thrown (do_make_parser_error_at rd (eexp np) Parser_Error.code_real_literal_overflow)
  else if fp_zero value && negb zero then
    Thrown (do_make_parser_error_at rd (eexp np) Parser_Error.code_real_literal_underflow)
  else Returned value.

Definition do_accept_numeric_literal (lx : Lexer) (integer_as_real : bool)
    : Outcome (bool * Lexer) :=
  let rd := reader lx in
  let str := Line_Reader.m_str rd in
  match char_find s_digits 20 (char_at str (Line_Reader.m_offset rd)) with
  | None => Returned (false, lx)
  | Some _ =>
      let qstok := do_check_mergeability (seq lx) rd in
      let rneg :=
        match qstok with
        | Some tok =>
            bool_decide (Token.as_punctuator tok = Some Token.punctuator_sub)
        | None => false
        end in
      np ← do_scan_numeric rd;
      exp ← do_parse_exponent
              (do_make_parser_error_at rd (eexp np)
                 Parser_Error.code_numeric_literal_exponent_overflow)
              (substr str (bexp np) (eexp np)) 0%Z;
      let exp := if pneg np then (- exp)%Z else exp in
      (* Overwrite the previous token. *)
      let overwritten :=
        match qstok with
        | Some tok =>
            {| seq := removelast (seq lx);
               reader := Line_Reader.rewind rd (Token.offset tok) |}
        | None => lx
        end in
      let tlen := (eexp np - Line_Reader.m_offset (reader overwritten))%nat in
      if negb integer_as_real && (bfrac np =? efrac np)%nat then
        value ← do_parse_integer rd np exp rneg;
        let value := if rneg then ((- value) mod 2 ^ 64)%Z else value in
        lx' ← do_push_token overwritten tlen (Token.S_integer_literal (to_int64 value));
        Returned (true, lx')
      else
        value ← do_parse_real rd np exp;
        let value := if rneg then PrimFloat.opp value else value in
        lx' ← do_push_token overwritten tlen (Token.S_real_literal value);
        Returned (true, lx')
  end.

End Real_Literals.

(** ** The token stream *)

Record Parser_Options : Type := {
  escapable_single_quote_string : bool;
  keyword_as_identifier : bool;
  integer_as_real : bool
}.

(** [std::search(bptr, eptr, s_bcomm_term, s_bcomm_term + 2)]: the index of
    the first [*/] in the bytes given, if any. *)
Fixpoint search_bcomm_term (l : Cow_String) : option nat :=
  match l with
  | a :: (b :: _) as l' =>
      if char_eqb a "*"%char && char_eqb b "/"%char then Some 0
      else option_map S (search_bcomm_term l')
  | _ => None
  end.

(** [a || b] on accepting functions: [b] is not run when [a] got a token. *)
Definition or_else (a : Outcome (bool * Lexer)) (b : Lexer -> Outcome (bool * Lexer))
    : Outcome (bool * Lexer) :=
  '(token_got, lx) ← a;
  if token_got : bool then Returned (true, lx) else b lx.

(** The loop that ensures a line is a valid UTF-8 string.  Every turn
    consumes at least one byte. *)
Fixpoint do_validate_utf8 (fuel : nat) (rd : Line_Reader) : Outcome Line_Reader :=
  if (Line_Reader.size_avail rd =? 0)%nat then Returned rd
  else
    match fuel with
    | O => Diverged
    | S fuel' =>
        let '(ok, cp, read) := utf8_decode (Line_Reader.data_avail rd) in
        let tptr := (Line_Reader.m_offset rd + read)%nat in
        if negb ok then
          Thrown (do_make_parser_error_at rd tptr
                    Parser_Error.code_utf8_sequence_invalid)
        else if (cp =? 0)%Z then
          Thrown (do_make_parser_error_at rd tptr
                    Parser_Error.code_null_character_disallowed)
        else
          rd' ← Line_Reader.consume rd read;
          do_validate_utf8 fuel' rd'
    end.

Section Load.

Context `{LD : Long_Double_Arith}.

(** The loop that breaks a line down into tokens.  Every turn moves the
    reader forward by at least one byte. *)
Fixpoint do_tokenize_line (fuel : nat) (options : Parser_Options) (bcomm : Tack.t)
    (lx : Lexer) : Outcome (Tack.t * Lexer) :=
  let rd := reader lx in
  if (Line_Reader.size_avail rd =? 0)%nat then Returned (bcomm, lx)
  else
    match fuel with
    | O => Diverged
    | S fuel' =>
        if Tack.to_bool bcomm then
          (* Search for the terminator of this block comment. *)
          match search_bcomm_term (Line_Reader.data_avail rd) with
          | None =>
              rd' ← Line_Reader.consume rd (Line_Reader.size_avail rd);
              Returned (bcomm, {| seq := seq lx; reader := rd' |})
          | Some k =>
              rd' ← Line_Reader.consume rd (k + 2);
              do_tokenize_line fuel' options (Tack.clear bcomm)
                {| seq := seq lx; reader := rd' |}
          end
        else
          let head := Line_Reader.peek rd 0 in
          if bool_decide (is_Some (char_find
               [" "; "009"; "011"; "012"; "013"; "010"]%char 6 head)) then
            rd' ← Line_Reader.consume rd 1;
            do_tokenize_line fuel' options bcomm {| seq := seq lx; reader := rd' |}
          else if char_eqb head "/"%char
                  && char_eqb (Line_Reader.peek rd 1) "/"%char then
            rd' ← Line_Reader.consume rd (Line_Reader.size_avail rd);
            Returned (bcomm, {| seq := seq lx; reader := rd' |})
          else if char_eqb head "/"%char
                  && char_eqb (Line_Reader.peek rd 1) "*"%char then
            rd' ← Line_Reader.consume rd 2;
            do_tokenize_line fuel' options (Tack.set bcomm rd 2)
              {| seq := seq lx; reader := rd' |}
          else
            '(token_got, lx') ←
              or_else (do_accept_punctuator lx) (fun lx =>
              or_else (do_accept_string_literal lx "034"%char true) (fun lx =>
              or_else (do_accept_string_literal lx "'"%char
                         (escapable_single_quote_string options)) (fun lx =>
              or_else (do_accept_identifier_or_keyword lx
                         (keyword_as_identifier options)) (fun lx =>
              do_accept_numeric_literal lx (integer_as_real options)))));
            if token_got : bool then do_tokenize_line fuel' options bcomm lx'
            else
              Thrown (do_make_parser_error (reader lx') 1
                        Parser_Error.code_token_character_unrecognized)
    end.

(** Is this the first line, and does it look like a shebang? *)
Definition is_shebang (rd : Line_Reader) : bool :=
  (Line_Reader.line rd =? 1)%Z && (2 <=? Line_Reader.size_avail rd)%nat
  && string_eqb (firstn 2 (Line_Reader.data_avail rd)) (sref "#!").

(** The loop that reads source code line by line.  Every line takes at
    least one byte from the stream. *)
Fixpoint do_load_lines (fuel : nat) (options : Parser_Options) (cbuf : Cow_String)
    (bcomm : Tack.t) (lx : Lexer) : Outcome (Tack.t * Lexer) :=
  match fuel with
  | O => Diverged
  | S fuel' =>
      let '(more, rd, cbuf) := Line_Reader.advance (reader lx) cbuf in
      if negb more then Returned (bcomm, {| seq := seq lx; reader := rd |})
      else if is_shebang rd then
        do_load_lines fuel' options cbuf bcomm {| seq := seq lx; reader := rd |}
      else
        rd ← do_validate_utf8 (Line_Reader.size_avail rd) rd;
        let rd := Line_Reader.rewind rd 0 in
        '(bcomm, lx) ← do_tokenize_line (Line_Reader.size_avail rd) options bcomm
                         {| seq := seq lx; reader := rd |};
        do_load_lines fuel' options cbuf bcomm
          {| seq := seq lx; reader := Line_Reader.rewind (reader lx) 0 |}
  end.

(** The body of the [try] block of [load]. *)
Definition do_load (cbuf file : Cow_String) (options : Parser_Options)
    : Outcome (list Token) :=
  '(bcomm, lx) ← do_load_lines (S (List.length cbuf)) options cbuf Tack.make
                   {| seq := []; reader := Line_Reader.make file |};
  if Tack.to_bool bcomm then
    Thrown (Parser_Error.Parser_Error (Tack.m_line bcomm) (Tack.m_offset bcomm)
              (Tack.m_length bcomm) Parser_Error.code_block_comment_unclosed)
  else Returned (seq lx).

End Load.

Module Token_Stream.

(** The alternatives of [m_stor]. *)
Inductive Storage : Type :=
| Stor_null
| Stor_error (err : Parser_Error)
| Stor_tokens (alt : list Token).

Inductive State : Type := state_empty | state_error | state_success.

Record t : Type := Token_Stream { m_stor : Storage }.

Definition state (ts : t) : State :=
  match m_stor ts with
  | Stor_null => state_empty
  | Stor_error _ => state_error
  | Stor_tokens _ => state_success
  end.

(** [load] catches parser errors only; any other failure leaves the
    function as it came. *)
Definition load `{LD : Long_Double_Arith} (ts : t) (cbuf file : Cow_String)
    (options : Parser_Options) : Outcome (bool * t) :=
  match do_load cbuf file options with
  | Returned sq => Returned (true, {| m_stor := Stor_tokens (rev sq) |})
  | Thrown err => Returned (false, {| m_stor := Stor_error err |})
  | Runtime_Error msg => Runtime_Error msg
  | Terminated msg => Terminated msg
  | Diverged => Diverged
  end.

Definition clear (ts : t) : t := {| m_stor := Stor_null |}.

Definition get_parser_error (ts : t) : Parser_Error :=
  match m_stor ts with
  | Stor_null => Parser_Error.Parser_Error 0 0 0 Parser_Error.code_no_data_loaded
  | Stor_error err => err
  | Stor_tokens _ => Parser_Error.Parser_Error 0 0 0 Parser_Error.code_success
  end.

Definition empty (ts : t) : bool :=
  match m_stor ts with
  | Stor_null => true
  | Stor_error _ => true
  | Stor_tokens alt => match alt with [] => true | _ => false end
  end.

(** The result is the token at the back of the reversed sequence, if any. *)
Definition peek_opt (ts : t) : Outcome (option Token) :=
  match m_stor ts with
  | Stor_null => Runtime_Error "No data have been loaded so far."
  | Stor_error _ => Runtime_Error "The previous load operation has failed."
  | Stor_tokens alt => Returned (last alt)
  end.

Definition shift (ts : t) : Outcome t :=
  match m_stor ts with
  | Stor_null => Runtime_Error "No data have been loaded so far."
  | Stor_error _ => Runtime_Error "The previous load operation has failed."
  | Stor_tokens alt =>
      match alt with
      | [] => Runtime_Error "There are no more tokens from this stream."
      | _ => Returned {| m_stor := Stor_tokens (removelast alt) |}
      end
  end.

End Token_Stream.

Abbreviation Token_Stream := Token_Stream.t.

(** ** One implementation of the real arithmetic

    The properties of the lexer are stated for every [Long_Double_Arith];
    this instance serves where a call is evaluated on an input.  [long
    double] is taken to be binary64, as it is where the platform has no
    wider format, and [std::pow] multiplies or divides repeatedly, so the
    value of a real literal can differ in its last bits from that of a build
    whose [long double] is wider or whose [std::pow] rounds otherwise. *)
Definition float_of_Z (z : Z) : float := PrimFloat.of_uint63 (Uint63Axioms.of_Z z).

Definition pow_by_iteration (base exp : Z) : float :=
  if (0 <=? exp)%Z then
    Nat.iter (Z.to_nat exp) (fun x => PrimFloat.mul x (float_of_Z base)) PrimFloat.one
  else
    Nat.iter (Z.to_nat (- exp)) (fun x => PrimFloat.div x (float_of_Z base)) PrimFloat.one.

#[global] Instance binary64_arith : Long_Double_Arith := {|
  long_double := float;
  ld_of_Z := float_of_Z;
  ld_add := PrimFloat.add;
  ld_mul := PrimFloat.mul;
  ld_div := PrimFloat.div;
  ld_to_double := fun x => x;
  std_pow := pow_by_iteration
|}.

Definition default_options : Parser_Options :=
  {| escapable_single_quote_string := false;
     keyword_as_identifier := false;
     integer_as_real := false |}.

(** ** What a numeric literal denotes

    The number that the digits among the bytes [l] denote in base [rbase],
    after the digits that [acc] stands for; other bytes are skipped.  This is
    the literal as the grammar reads it, with no bound on the value. *)
Fixpoint digits_value (rbase : Z) (rdigits : nat) (l : Cow_String) (acc : Z) : Z :=
  match l with
  | [] => acc
  | ch :: l' =>
      match char_find s_digits rdigits ch with
      | None => digits_value rbase rdigits l' acc
      | Some dptr => digits_value rbase rdigits l' (acc * rbase + dvalue_of dptr)%Z
      end
  end.

(** The digits of the exponent, read in base ten. *)
Definition exponent_digits (str : Cow_String) (np : Numeric_Parts) : Z :=
  digits_value 10 20 (substr str (bexp np) (eexp np)) 0.

(** The digits of the integral part, read in the base of the literal. *)
Definition significant_digits (str : Cow_String) (np : Numeric_Parts) : Z :=
  digits_value (rbase np) (Z.to_nat (rbase np * 2))
    (substr str (bintg np) (eintg np)) 0.

(** The magnitude of an integer literal with a non-negative exponent: the
    integral part times the base of the exponent to the power of the
    exponent. *)
Definition literal_magnitude (str : Cow_String) (np : Numeric_Parts) : Z :=
  if (pbase np <? 2)%Z then significant_digits str np
  else (significant_digits str np * pbase np ^ exponent_digits str np)%Z.


(** * The garbage collector *)

(** A [Variable] is known by its address, and so is a reference that a value
    owns: the address of the owner and the place of the reference among
    those that the owner holds. *)
Abbreviation var_id := nat.
Abbreviation slot := (nat * nat)%type.

(** Modelled from the spec: [Value] is declared in [value.hpp], which is not
    among the sources.  A value is null, a boolean, an integer, a real, a
    string, an array, an object or a function; arrays, objects and the
    closures of functions hold references to variables. *)
Inductive Value : Type :=
| V_null
| V_boolean (b : bool)
| V_integer (i : Z)
| V_real (r : float)
| V_string (s : Cow_String)
| V_array (elems : list var_id)
| V_object (members : list (Cow_String * var_id))
| V_function (captures : list var_id).

(** Modelled from the spec: the visitor is invoked once per reference to a
    variable that a composite value owns; strings, numbers, booleans and
    null have none. *)
Definition referenced_variables (val : Value) : list var_id :=
  match val with
  | V_array elems => elems
  | V_object members => members.*2
  | V_function captures => captures
  | _ => []
  end.

(** Modelled from the spec: [Variable] is declared in [variable.hpp], which
    is not among the sources ([Variable] is a word of Rocq's, hence the name
    of the record).  The reference count is not a member here: it is counted
    from the references that exist, see [use_count]. *)
Record Variable_Cell : Type := {
  m_value : Value;
  m_immutable : bool;
  m_initialized : bool;
  m_gc_ref : Z
}.

Definition new_Variable : Variable_Cell :=
  {| m_value := V_null; m_immutable := false; m_initialized := false; m_gc_ref := 0 |}.

Definition set_gc_ref (ref : Z) (var : Variable_Cell) : Variable_Cell :=
  {| m_value := m_value var; m_immutable := m_immutable var;
     m_initialized := m_initialized var; m_gc_ref := ref |}.

(** Modelled from the spec: [uninitialize] drops the value, which breaks the
    references it owned. *)
Definition uninitialize (var : Variable_Cell) : Variable_Cell :=
  {| m_value := V_null; m_immutable := m_immutable var;
     m_initialized := false; m_gc_ref := m_gc_ref var |}.

Definition gMax : nat := 2.

(** The memory and the collector.  [variables] holds the variables that
    exist and [roots] counts, for each, the references that neither a value
    nor the collector holds (stack slots, handles of the caller).  The other
    fields are the members of [Garbage_Collector]; a [Variable_HashMap] whose
    keys are the addresses of variables is a set of them, [m_staged] maps the
    address of the owner of a reference to the variable referred to, and the
    arrays are indexed from [0] to [gMax].  A variable that nothing refers to
    any more stays in [variables]: deallocation is not modelled. *)
Record Runtime : Type := {
  variables : gmap var_id Variable_Cell;
  roots : gmap var_id nat;
  m_recur : Z;
  m_pool : gset var_id;
  m_counts : nat -> nat;
  m_thres : nat -> nat;
  m_tracked : nat -> gset var_id;
  m_staged : gmap slot var_id;
  m_temp_1 : gset var_id;
  m_temp_2 : gset var_id;
  m_unreachable : gset var_id;
  m_reachable : gset var_id
}.

Definition set_variables (x : gmap var_id Variable_Cell) (st : Runtime) : Runtime :=
  {| variables := x; roots := roots st; m_recur := m_recur st; m_pool := m_pool st;
     m_counts := m_counts st; m_thres := m_thres st; m_tracked := m_tracked st;
     m_staged := m_staged st; m_temp_1 := m_temp_1 st; m_temp_2 := m_temp_2 st;
     m_unreachable := m_unreachable st; m_reachable := m_reachable st |}.

Definition set_roots (x : gmap var_id nat) (st : Runtime) : Runtime :=
  {| variables := variables st; roots := x; m_recur := m_recur st; m_pool := m_pool st;
     m_counts := m_counts st; m_thres := m_thres st; m_tracked := m_tracked st;
     m_staged := m_staged st; m_temp_1 := m_temp_1 st; m_temp_2 := m_temp_2 st;
     m_unreachable := m_unreachable st; m_reachable := m_reachable st |}.

Definition set_recur (x : Z) (st : Runtime) : Runtime :=
  {| variables := variables st; roots := roots st; m_recur := x; m_pool := m_pool st;
     m_counts := m_counts st; m_thres := m_thres st; m_tracked := m_tracked st;
     m_staged := m_staged st; m_temp_1 := m_temp_1 st; m_temp_2 := m_temp_2 st;
     m_unreachable := m_unreachable st; m_reachable := m_reachable st |}.

Definition set_pool (x : gset var_id) (st : Runtime) : Runtime :=
  {| variables := variables st; roots := roots st; m_recur := m_recur st; m_pool := x;
     m_counts := m_counts st; m_thres := m_thres st; m_tracked := m_tracked st;
     m_staged := m_staged st; m_temp_1 := m_temp_1 st; m_temp_2 := m_temp_2 st;
     m_unreachable := m_unreachable st; m_reachable := m_reachable st |}.

Definition set_counts (x : nat -> nat) (st : Runtime) : Runtime :=
  {| variables := variables st; roots := roots st; m_recur := m_recur st;
     m_pool := m_pool st; m_counts := x; m_thres := m_thres st;
     m_tracked := m_tracked st; m_staged := m_staged st; m_temp_1 := m_temp_1 st;
     m_temp_2 := m_temp_2 st; m_unreachable := m_unreachable st;
     m_reachable := m_reachable st |}.

Definition set_thres (x : nat -> nat) (st : Runtime) : Runtime :=
  {| variables := variables st; roots := roots st; m_recur := m_recur st;
     m_pool := m_pool st; m_counts := m_counts st; m_thres := x;
     m_tracked := m_tracked st; m_staged := m_staged st; m_temp_1 := m_temp_1 st;
     m_temp_2 := m_temp_2 st; m_unreachable := m_unreachable st;
     m_reachable := m_reachable st |}.

Definition set_tracked (x : nat -> gset var_id) (st : Runtime) : Runtime :=
  {| variables := variables st; roots := roots st; m_recur := m_recur st;
     m_pool := m_pool st; m_counts := m_counts st; m_thres := m_thres st;
     m_tracked := x; m_staged := m_staged st; m_temp_1 := m_temp_1 st;
     m_temp_2 := m_temp_2 st; m_unreachable := m_unreachable st;
     m_reachable := m_reachable st |}.

Definition set_staged (x : gmap slot var_id) (st : Runtime) : Runtime :=
  {| variables := variables st; roots := roots st; m_recur := m_recur st;
     m_pool := m_pool st; m_counts := m_counts st; m_thres := m_thres st;
     m_tracked := m_tracked st; m_staged := x; m_temp_1 := m_temp_1 st;
     m_temp_2 := m_temp_2 st; m_unreachable := m_unreachable st;
     m_reachable := m_reachable st |}.

Definition set_temp_1 (x : gset var_id) (st : Runtime) : Runtime :=
  {| variables := variables st; roots := roots st; m_recur := m_recur st;
     m_pool := m_pool st; m_counts := m_counts st; m_thres := m_thres st;
     m_tracked := m_tracked st; m_staged := m_staged st; m_temp_1 := x;
     m_temp_2 := m_temp_2 st; m_unreachable := m_unreachable st;
     m_reachable := m_reachable st |}.

Definition set_temp_2 (x : gset var_id) (st : Runtime) : Runtime :=
  {| variables := variables st; roots := roots st; m_recur := m_recur st;
     m_pool := m_pool st; m_counts := m_counts st; m_thres := m_thres st;
     m_tracked := m_tracked st; m_staged := m_staged st; m_temp_1 := m_temp_1 st;
     m_temp_2 := x; m_unreachable := m_unreachable st;
     m_reachable := m_reachable st |}.

Definition set_unreachable (x : gset var_id) (st : Runtime) : Runtime :=
  {| variables := variables st; roots := roots st; m_recur := m_recur st;
     m_pool := m_pool st; m_counts := m_counts st; m_thres := m_thres st;
     m_tracked := m_tracked st; m_staged := m_staged st; m_temp_1 := m_temp_1 st;
     m_temp_2 := m_temp_2 st; m_unreachable := x; m_reachable := m_reachable st |}.

Definition set_reachable (x : gset var_id) (st : Runtime) : Runtime :=
  {| variables := variables st; roots := roots st; m_recur := m_recur st;
     m_pool := m_pool st; m_counts := m_counts st; m_thres := m_thres st;
     m_tracked := m_tracked st; m_staged := m_staged st; m_temp_1 := m_temp_1 st;
     m_temp_2 := m_temp_2 st; m_unreachable := m_unreachable st; m_reachable := x |}.

(** A collector as its constructor leaves it, with no variable in memory. *)
Definition new_Garbage_Collector : Runtime :=
  {| variables := ∅; roots := ∅; m_recur := 0; m_pool := ∅;
     m_counts := fun _ => 0;
     m_thres := fun i => match i with 0 => 10 | 1 => 70 | 2 => 500 | _ => 0 end;
     m_tracked := fun _ => ∅; m_staged := ∅; m_temp_1 := ∅; m_temp_2 := ∅;
     m_unreachable := ∅; m_reachable := ∅ |}.

(** ** Reference counts *)

(** The references that the values in memory own, each under its address. *)
Definition all_slots (vars : gmap var_id Variable_Cell) : gmap slot var_id :=
  map_uncurry (M1 := gmap nat) (M2 := gmap nat) (M12 := gmap (nat * nat))
    ((fun var => map_seq 0 (referenced_variables (m_value var))) <$> vars).

(** How many of the references of [m] refer to [v]. *)
Definition references (m : gmap slot var_id) (v : var_id) : Z :=
  Z.of_nat (size (filter (fun kv => kv.2 = v) m)).

(** The reference that a set holds to [v], if it does. *)
Definition holds (s : gset var_id) (v : var_id) : Z := if decide (v ∈ s) then 1 else 0.

(** [use_count()] of the variable [v], the local pointer [var] of the
    function that asks apart: every reference is one that a root, a value
    in memory or a hash map of the collector holds. *)
Definition use_count (st : Runtime) (v : var_id) : Z :=
  Z.of_nat (default 0 (roots st !! v))
  + references (all_slots (variables st)) v
  + holds (m_pool st) v
  + holds (m_tracked st 0) v + holds (m_tracked st 1) v + holds (m_tracked st 2) v
  + references (m_staged st) v
  + holds (m_temp_1 st) v + holds (m_temp_2 st) v
  + holds (m_unreachable st) v + holds (m_reachable st) v.

Definition get_gc_ref (st : Runtime) (v : var_id) : Z :=
  match variables st !! v with Some var => m_gc_ref var | None => 0 end.

Definition get_value (st : Runtime) (v : var_id) : Value :=
  match variables st !! v with Some var => m_value var | None => V_null end.

(** ** Collection *)

(** [Variable_HashMap::erase_random] takes an element of the map out, which
    one is not said.  The choice is a parameter, and so is the choice of a
    key of [m_staged]. *)
Class Erase_Random : Type := {
  choose_var : gset var_id -> option var_id;
  choose_var_Some s v : choose_var s = Some v -> v ∈ s;
  choose_var_None s : choose_var s = None -> s = ∅;
  choose_ref : gmap slot var_id -> option (slot * var_id);
  choose_ref_Some m k v : choose_ref m = Some (k, v) -> m !! k = Some v;
  choose_ref_None m : choose_ref m = None -> m = ∅
}.

(** Modelled from the spec: [Value::get_variables(staged, temp)] is not among
    the sources.  Every reference that the value owns is inserted into
    [staged] under the address of its owner ([garbage_collector.hpp]), and
    where that is new, the variable referred to is inserted into [temp]. *)
Definition do_stage (acc : gmap slot var_id * gset var_id) (ref : slot * var_id)
    : gmap slot var_id * gset var_id :=
  match acc.1 !! ref.1 with
  | Some _ => acc
  | None => (<[ref.1 := ref.2]> acc.1, {[ref.2]} ∪ acc.2)
  end.

Definition get_variables (owner : var_id) (val : Value)
    (staged : gmap slot var_id) (temp : gset var_id)
    : gmap slot var_id * gset var_id :=
  foldl do_stage (staged, temp)
    (imap (fun i w => ((owner, i), w)) (referenced_variables val)).

(** [while(map.erase_random(nullptr, &var)) body]: [pick] chooses the
    element that is taken out, and [body] begins with its erasure.  A loop
    that has turns left when [fuel] is spent is [Diverged]. *)
Fixpoint while_erase {S X : Type} (pick : S -> option X) (body : X -> S -> Outcome S)
    (fuel : nat) (st : S) : Outcome S :=
  match pick st with
  | None => Returned st
  | Some x =>
      match fuel with
      | O => Diverged
      | S fuel' => st' ← body x st; while_erase pick body fuel' st'
      end
  end.

Definition set_tracked_at (i : nat) (x : gset var_id) (st : Runtime) : Runtime :=
  set_tracked (<[i := x]> (m_tracked st)) st.

Definition set_counts_at (i : nat) (x : nat) (st : Runtime) : Runtime :=
  set_counts (<[i := x]> (m_counts st)) st.

Section Collection.

Context `{ER : Erase_Random}.

(** The body of the loop that collects the variables reachable from
    [tracked]. *)
Definition do_scan_step (var : var_id) (st : Runtime) : Runtime :=
  let st := set_temp_1 (m_temp_1 st ∖ {[var]}) st in
  let st := set_variables (alter (set_gc_ref 1) var (variables st)) st in
  let '(staged, temp) :=
    get_variables var (get_value st var) (m_staged st) (m_temp_1 st) in
  set_temp_1 temp (set_staged staged st).

Definition do_scan (fuel : nat) (st : Runtime) : Outcome Runtime :=
  while_erase (fun st => choose_var (m_temp_1 st))
    (fun var st => Returned (do_scan_step var st)) fuel st.

(** [var->get_gc_ref() <= var->use_count() - 1], where [var] has been taken
    out of a map and holds a reference of its own. *)
Definition gc_ref_in_range (st : Runtime) (var : var_id) : bool :=
  (get_gc_ref st var <=? (use_count st var + 1) - 1)%Z.

(** The body of the loop that counts internal references, for the key [k]
    of [m_staged] and the variable [var] it refers to.

    Modelled from the spec: [ROCKET_ASSERT] is not among the sources.  A
    violated invariant aborts with a diagnostic, so the assertion that
    follows the increment terminates the program where it fails: the
    reference has left [m_staged] by then and the variable has not yet
    entered [m_temp_1].  The other assertions of the function are left out,
    as none of them fails: a variable that the first loop takes out of
    [m_temp_1] is held by [tracked] or by the value that refers to it when
    its counter is set to one, a variable that the third loop has found
    unreachable has a counter of one at least, and one that it has found
    reachable has a counter of zero. *)
Definition do_count_step (ref : slot * var_id) (st : Runtime) : Outcome Runtime :=
  let st := set_staged (delete ref.1 (m_staged st)) st in
  let st :=
    set_variables
      (alter (fun x => set_gc_ref (m_gc_ref x + 1) x) ref.2 (variables st)) st in
  if gc_ref_in_range st ref.2 then Returned (set_temp_1 ({[ref.2]} ∪ m_temp_1 st) st)
  else Terminated "Assertion failed: var->get_gc_ref() <= var->use_count() - 1".

Definition do_count (fuel : nat) (st : Runtime) : Outcome Runtime :=
  while_erase (fun st => choose_ref (m_staged st)) do_count_step fuel st.

(** The body of the [do ... while] loop that marks what a reachable
    variable reaches. *)
Definition do_reach_step (var : var_id) (st : Runtime) : Runtime :=
  let st := set_variables (alter (set_gc_ref 0) var (variables st)) st in
  let st := set_unreachable (m_unreachable st ∖ {[var]}) st in
  let st := set_reachable ({[var]} ∪ m_reachable st) st in
  let '(staged, temp) :=
    get_variables var (get_value st var) (m_staged st) (m_temp_2 st) in
  set_temp_2 temp (set_staged staged st).

(** [do body while(m_temp_2.erase_random(nullptr, &var))]: the body, then
    the loop. *)
Definition do_reach (fuel : nat) (var : var_id) (st : Runtime) : Outcome Runtime :=
  while_erase (fun st => choose_var (m_temp_2 st))
    (fun var st =>
       Returned (do_reach_step var (set_temp_2 (m_temp_2 st ∖ {[var]}) st)))
    fuel (do_reach_step var st).

(** [var->get_gc_ref() == var->use_count() - 1], where [var] has been taken
    out of [m_temp_1] and holds a reference of its own. *)
Definition is_internal (st : Runtime) (var : var_id) : bool :=
  (get_gc_ref st var =? (use_count st var + 1) - 1)%Z.

(** The body of the loop that marks all variables that have been collected
    so far; [bound] is the fuel of the inner loop. *)
Definition do_mark_step (bound : nat) (var : var_id) (st : Runtime) : Outcome Runtime :=
  let st := set_temp_1 (m_temp_1 st ∖ {[var]}) st in
  if is_internal st var then
    Returned (set_unreachable ({[var]} ∪ m_unreachable st) st)
  else do_reach bound var st.

Definition do_mark (fuel bound : nat) (st : Runtime) : Outcome Runtime :=
  while_erase (fun st => choose_var (m_temp_1 st)) (do_mark_step bound) fuel st.

(** The body of the loop that collects the variables of [m_unreachable];
    [tracked] is the set at index [gMax - gen], and the count of the
    variables that have been collected goes with the state. *)
Definition do_sweep_step (gen : nat) (var : var_id) (acc : Runtime * nat)
    : Runtime * nat :=
  let st := acc.1 in
  let st := set_unreachable (m_unreachable st ∖ {[var]}) st in
  let st := set_variables (alter uninitialize var (variables st)) st in
  let erased := bool_decide (var ∈ m_tracked st (gMax - gen)) in
  let st := set_tracked_at (gMax - gen) (m_tracked st (gMax - gen) ∖ {[var]}) st in
  let nvars := (acc.2 + 1)%nat in
  if erased then (set_pool ({[var]} ∪ m_pool st) st, nvars) else (st, nvars).

Definition do_sweep (fuel : nat) (gen : nat) (st : Runtime) : Outcome (Runtime * nat) :=
  while_erase (fun acc : Runtime * nat => choose_var (m_unreachable acc.1))
    (fun var acc => Returned (do_sweep_step gen var acc)) fuel (st, 0).

(** The body of the loop that pushes reachable variables to the next
    generation, whose set and count are at index [gMax - gen - 1]. *)
Definition do_promote_step (gen : nat) (var : var_id) (st : Runtime) : Runtime :=
  let st := set_reachable (m_reachable st ∖ {[var]}) st in
  let st := set_tracked_at (gMax - gen - 1)
              ({[var]} ∪ m_tracked st (gMax - gen - 1)) st in
  let erased := bool_decide (var ∈ m_tracked st (gMax - gen)) in
  let st := set_tracked_at (gMax - gen) (m_tracked st (gMax - gen) ∖ {[var]}) st in
  if erased then
    set_counts_at (gMax - gen - 1) (m_counts st (gMax - gen - 1) + 1) st
  else
    set_tracked_at (gMax - gen - 1) (m_tracked st (gMax - gen - 1) ∖ {[var]}) st.

Definition do_promote (fuel : nat) (gen : nat) (st : Runtime) : Outcome Runtime :=
  while_erase (fun st => choose_var (m_reachable st))
    (fun var st => Returned (do_promote_step gen var st)) fuel st.

Definition clear_temporaries (st : Runtime) : Runtime :=
  set_reachable ∅ (set_unreachable ∅ (set_temp_2 ∅ (set_temp_1 ∅ (set_staged ∅ st)))).

(** No loop of a collection takes more turns than there are variables in
    [tracked] and twice the references in memory. *)
Definition collection_bound (gen : nat) (st : Runtime) : nat :=
  S (size (m_tracked st (gMax - gen)) + 2 * size (all_slots (variables st))).

(** The collection proper, once the sentry has let it in. *)
Definition do_collect (gen : nat) (st : Runtime) : Outcome (Runtime * nat) :=
  let bound := collection_bound gen st in
  let st := clear_temporaries st in
  let st := set_temp_1 (m_temp_1 st ∪ m_tracked st (gMax - gen)) st in
  st ← do_scan bound st;
  st ← do_count bound st;
  let st := set_temp_1 (m_temp_1 st ∪ m_tracked st (gMax - gen)) st in
  st ← do_mark bound bound st;
  '(st, nvars) ← do_sweep bound gen st;
  st ← (if decide (gen < gMax) then do_promote bound gen st else Returned st);
  Returned (set_counts_at (gMax - gen) 0 st, nvars).

(** The sentry counts the calls that are in progress, and lets the first
    one in; the tracked set of the generation is looked up after that. *)
Definition do_collect_generation (gen : nat) (st : Runtime) : Outcome (Runtime * nat) :=
  let m_old := m_recur st in
  let st := set_recur (m_recur st + 1) st in
  if negb (m_old =? 0)%Z then Returned (set_recur (m_recur st - 1) st, 0)
  else if decide (gMax < gen) then Runtime_Error "subscript out of range"
  else
    '(st, nvars) ← do_collect gen st;
    Returned (set_recur (m_recur st - 1) st, nvars).

(** The loop of [create_variable] that performs automatic garbage
    collection.  Besides the state it returns the generations that it has
    collected, in order, which the program does not keep. *)
Fixpoint do_collect_automatically (gens : list nat) (st : Runtime)
    : Outcome (Runtime * list nat) :=
  match gens with
  | [] => Returned (st, [])
  | gen :: gens' =>
      if (m_thres st (gMax - gen) <=? m_counts st (gMax - gen))%nat then
        '(st, _) ← do_collect_generation gen st;
        '(st, collected) ← do_collect_automatically gens' st;
        Returned (st, gen :: collected)
      else do_collect_automatically gens' st
  end.

(** A cached variable, or a new one where the pool has been exhausted. *)
Definition do_allocate (st : Runtime) : var_id * Runtime :=
  match choose_var (m_pool st) with
  | Some var => (var, set_pool (m_pool st ∖ {[var]}) st)
  | None =>
      let var := fresh (dom (variables st)) in
      (var, set_variables (<[var := new_Variable]> (variables st)) st)
  end.

Definition create_variable (gen_hint : nat) (st : Runtime) : Outcome (var_id * Runtime) :=
  '(st, _) ← do_collect_automatically (List.seq 0 (gMax + 1)) st;
  let '(var, st) := do_allocate st in
  if decide (gMax < gen_hint) then Runtime_Error "subscript out of range"
  else
    let gen := (gMax - gen_hint)%nat in
    let st := set_tracked_at gen ({[var]} ∪ m_tracked st gen) st in
    let st := set_counts_at gen (m_counts st gen + 1) st in
    Returned (var, st).

(** The loop of [collect_variables]. *)
Fixpoint do_collect_up_to (gens : list nat) (st : Runtime) (nvars : nat)
    : Outcome (Runtime * nat) :=
  match gens with
  | [] => Returned (st, nvars)
  | gen :: gens' =>
      '(st, n) ← do_collect_generation gen st;
      do_collect_up_to gens' st (nvars + n)
  end.

Definition collect_variables (gen_limit : nat) (st : Runtime) : Outcome (Runtime * nat) :=
  '(st, nvars) ← do_collect_up_to (List.seq 0 (S (Nat.min gMax gen_limit))) st 0;
  Returned (set_pool ∅ st, nvars).

(** The loop of [finalize] that wipes out the variables of one set. *)
Definition do_wipe (fuel : nat) (i : nat) (st : Runtime) : Outcome Runtime :=
  while_erase (fun st => choose_var (m_tracked st i))
    (fun var st =>
       Returned (set_variables (alter uninitialize var (variables st))
                   (set_tracked_at i (m_tracked st i ∖ {[var]}) st)))
    fuel st.

Fixpoint do_wipe_all (gens : list nat) (st : Runtime) (nvars : nat)
    : Outcome (Runtime * nat) :=
  match gens with
  | [] => Returned (st, nvars)
  | gen :: gens' =>
      let tracked := m_tracked st (gMax - gen) in
      st ← do_wipe (size tracked) (gMax - gen) st;
      do_wipe_all gens' st (nvars + size tracked)
  end.

Definition finalize (st : Runtime) : Outcome (Runtime * nat) :=
  let m_old := m_recur st in
  let st := set_recur (m_recur st + 1) st in
  if negb (m_old =? 0)%Z then
    Terminated "garbage collector not finalizable while in use"
  else
    let st := clear_temporaries st in
    '(st, nvars) ← do_wipe_all (List.seq 0 (gMax + 1)) st 0;
    let nvars := (nvars + size (m_pool st))%nat in
    Returned (set_recur (m_recur st - 1) (set_pool ∅ st), nvars).

End Collection.

(** The properties of the collector. *)
Definition get_threshold (gen : nat) (st : Runtime) : Outcome nat :=
  if decide (gMax < gen) then Runtime_Error "subscript out of range"
  else Returned (m_thres st (gMax - gen)).

Definition set_threshold (gen thres : nat) (st : Runtime) : Outcome Runtime :=
  if decide (gMax < gen) then Runtime_Error "subscript out of range"
  else Returned (set_thres (<[(gMax - gen)%nat := thres]> (m_thres st)) st).

Definition count_tracked_variables (gen : nat) (st : Runtime) : Outcome nat :=
  if decide (gMax < gen) then Runtime_Error "subscript out of range"
  else Returned (size (m_tracked st (gMax - gen))).

Definition count_pooled_variables (st : Runtime) : nat := size (m_pool st).

Definition clear_pooled_variables (st : Runtime) : Runtime := set_pool ∅ st.

(** One way to take an element out of a hash map: the first one. *)
#[global, refine] Instance erase_first : Erase_Random := {|
  choose_var s := head (elements s);
  choose_ref m := head (map_to_list m)
|}.
Proof.
  - intros s v H. apply elem_of_elements. apply head_Some_elem_of in H. done.
  - intros s H. apply head_None in H. by apply elements_empty_inv, leibniz_equiv in H.
  - intros m k v H. apply elem_of_map_to_list. by apply head_Some_elem_of.
  - intros m H. apply head_None in H. by apply map_to_list_empty_iff.
Defined.

(** * The vocabulary of the properties *)

(** A token of the file [file], given by its position and its storage. *)
Definition tok (line : Z) (offset length : nat) (stor : Token.Storage) (file : Cow_String)
    : Token :=
  Token.Token file line offset length stor.

(** A token stream that nothing has been loaded into. *)
Definition no_stream : Token_Stream := {| Token_Stream.m_stor := Token_Stream.Stor_null |}.

(** What the table of punctuators has to be for the backwards search to
    find the longest match, checked entry by entry. *)
Definition punctuator_entry_ok (i : nat) : bool :=
  match s_punctuators !! i with
  | None => true
  | Some el =>
      let range := equal_range s_punctuators (first_char el) in
      negb (List.length (fst el) =? 0)%nat
      && bool_decide (is_Some (char_find s_punct_chars (List.length s_punct_chars)
                                 (first_char el)))
      && (fst range <=? i)%nat && (i <? snd range)%nat
      && forallb (fun j =>
           match s_punctuators !! j with
           | None => true
           | Some el' => (j <=? i)%nat || negb (starts_with (fst el) (fst el'))
           end) (List.seq 0 (List.length s_punctuators))
  end.

(** What [do_push_token] leaves when the token fits in the line. *)
Definition pushed (lx : Lexer) (length : nat) (xtoken : Token.Storage) : Lexer :=
  let rd := reader lx in
  {| seq := seq lx ++ [Token.Token (Line_Reader.file rd) (Line_Reader.line rd)
                         (Line_Reader.offset rd) length xtoken];
     reader := {| Line_Reader.m_file := Line_Reader.m_file rd;
                  Line_Reader.m_str := Line_Reader.m_str rd;
                  Line_Reader.m_line := Line_Reader.m_line rd;
                  Line_Reader.m_offset := Line_Reader.m_offset rd + length |} |}.

(** A reader at the beginning of the line [text], the first of its file. *)
Definition reader_at (text : string) : Line_Reader :=
  {| Line_Reader.m_file := sref "file"; Line_Reader.m_str := sref text;
     Line_Reader.m_line := 1; Line_Reader.m_offset := 0 |}.

(** The bases that [do_scan_numeric] sets. *)
Definition is_rbase (rbase : Z) : Prop := rbase = 2%Z \/ rbase = 10%Z \/ rbase = 16%Z.

(** The error that an integer literal raises when it does not fit. *)
Definition integer_literal_overflow (rd : Line_Reader) (np : Numeric_Parts)
    : Parser_Error :=
  do_make_parser_error_at rd (eexp np) Parser_Error.code_integer_literal_overflow.

(** Error codes are compared by value. *)
#[global] Instance Parser_Error_Code_eq_dec : EqDecision Parser_Error.Code.
Proof. solve_decision. Defined.

(** Does a call throw a parser error with the code [c]? *)
Definition throws {A : Type} (c : Parser_Error.Code) (o : Outcome A) : bool :=
  match o with
  | Thrown e => bool_decide (Parser_Error.code e = c)
  | _ => false
  end.

(** Does a call throw [real_literal_underflow]? *)
Abbreviation underflows := (throws Parser_Error.code_real_literal_underflow).

(** The references of a value, each under its address. *)
Definition value_slots (owner : var_id) (val : Value) : list (slot * var_id) :=
  imap (fun i w => ((owner, i), w)) (referenced_variables val).

(** The potential of the marking loops. *)
Definition marking_potential (slots : nat) (st : Runtime) : nat :=
  size (m_temp_2 st) + size (m_unreachable st) + size (m_reachable st)
  + (slots - size (m_staged st)).

(** The members that no loop before the sweep writes to. *)
Definition same_members (st st' : Runtime) : Prop :=
  roots st' = roots st /\ m_recur st' = m_recur st /\ m_pool st' = m_pool st
  /\ m_counts st' = m_counts st /\ m_thres st' = m_thres st
  /\ m_tracked st' = m_tracked st
  /\ dom (variables st') = dom (variables st)
  /\ (forall v, get_value st' v = get_value st v).

(** The sets that the first two loops do not write to. *)
Definition same_marks (st st' : Runtime) : Prop :=
  m_temp_2 st' = m_temp_2 st /\ m_unreachable st' = m_unreachable st
  /\ m_reachable st' = m_reachable st.

(** What the sweep of the set [U] makes of a state. *)
Record swept (gen : nat) (U : gset var_id) (st st' : Runtime) : Prop := {
  swept_variables v :
    variables st' !! v
    = if decide (v ∈ U) then uninitialize <$> variables st !! v else variables st !! v;
  swept_tracked :
    m_tracked st' (gMax - gen) = m_tracked st (gMax - gen) ∖ U;
  swept_tracked_ne i : i <> gMax - gen -> m_tracked st' i = m_tracked st i;
  swept_pool : m_pool st' = m_pool st ∪ (U ∩ m_tracked st (gMax - gen));
  swept_roots : roots st' = roots st;
  swept_recur : m_recur st' = m_recur st;
  swept_counts : m_counts st' = m_counts st;
  swept_thres : m_thres st' = m_thres st;
  swept_reachable : m_reachable st' = m_reachable st
}.

(** What the promotion of the set [R] makes of a state, for a generation
    that has a next one. *)
Record promoted (gen : nat) (R : gset var_id) (st st' : Runtime) : Prop := {
  promoted_tracked :
    m_tracked st' (gMax - gen) = m_tracked st (gMax - gen) ∖ R;
  promoted_next :
    m_tracked st' (gMax - gen - 1)
    = (m_tracked st (gMax - gen - 1) ∪ (R ∩ m_tracked st (gMax - gen)))
        ∖ (R ∖ m_tracked st (gMax - gen));
  promoted_tracked_ne i :
    i <> gMax - gen -> i <> gMax - gen - 1 -> m_tracked st' i = m_tracked st i;
  promoted_count :
    m_counts st' (gMax - gen - 1)
    = m_counts st (gMax - gen - 1) + size (R ∩ m_tracked st (gMax - gen));
  promoted_counts_ne i : i <> gMax - gen - 1 -> m_counts st' i = m_counts st i;
  promoted_variables : variables st' = variables st;
  promoted_pool : m_pool st' = m_pool st;
  promoted_roots : roots st' = roots st;
  promoted_recur : m_recur st' = m_recur st;
  promoted_thres : m_thres st' = m_thres st
}.

(** A caller that creates [n] variables in generation 0 and holds on to
    each of them. *)
Fixpoint allocate_and_hold `{ER : Erase_Random} (n : nat) (st : Runtime) : Runtime :=
  match n with
  | O => st
  | S n' =>
      match create_variable 0 st with
      | Returned (var, st') =>
          allocate_and_hold n' (set_roots (<[var := 1]> (roots st')) st')
      | _ => st
      end
  end.

(** A collector as new, but for the threshold of generation 0. *)
Definition new_collector_with_threshold (thres : nat) : Runtime :=
  match set_threshold 0 thres new_Garbage_Collector with
  | Returned st => st
  | _ => new_Garbage_Collector
  end.

(** The tracked sets are disjoint from one another and from the pool, and
    what they hold is allocated. *)
Definition gc_wf (st : Runtime) : Prop :=
  (forall i j v, v ∈ m_tracked st i -> v ∈ m_tracked st j -> i = j)
  /\ (forall i v, v ∈ m_tracked st i -> v ∉ m_pool st)
  /\ (forall i v, v ∈ m_tracked st i -> v ∈ dom (variables st))
  /\ (forall v, v ∈ m_pool st -> v ∈ dom (variables st)).

(** What a program does with a collector, from outside a collection: it
    calls a member function that returns, or it changes the values of
    variables and its own references to them, creating variables without
    the collector at times. *)
Inductive gc_step `{ER : Erase_Random} : Runtime -> Runtime -> Prop :=
  | gc_step_create gen_hint st var st' :
      create_variable gen_hint st = Returned (var, st') -> gc_step st st'
  | gc_step_collect gen_limit st st' nvars :
      collect_variables gen_limit st = Returned (st', nvars) -> gc_step st st'
  | gc_step_finalize st st' nvars :
      finalize st = Returned (st', nvars) -> gc_step st st'
  | gc_step_set_threshold gen thres st st' :
      set_threshold gen thres st = Returned st' -> gc_step st st'
  | gc_step_clear_pool st :
      gc_step st (clear_pooled_variables st)
  | gc_step_mutate st vars' roots' :
      dom (variables st) ⊆ dom vars' ->
      gc_step st (set_roots roots' (set_variables vars' st)).

(** The states of a collector between the calls of its member functions. *)
Inductive gc_reachable `{ER : Erase_Random} : Runtime -> Prop :=
  | gc_reachable_new : gc_reachable new_Garbage_Collector
  | gc_reachable_step st st' : gc_reachable st -> gc_step st st' -> gc_reachable st'.

(** [u] holds a reference to [v]. *)
Definition refers (st : Runtime) (u v : var_id) : Prop :=
  exists i, all_slots (variables st) !! (u, i) = Some v.


(** The number of the generations that track [v]. *)
Definition tracked_holds (st : Runtime) (v : var_id) : Z :=
  holds (m_tracked st 0) v + holds (m_tracked st 1) v + holds (m_tracked st 2) v.

(** Every reference of [v] is staged, and [v] counts the reference of
    [tracked] or [m_staged] to it. *)
Definition scanned (st : Runtime) (v : var_id) : Prop :=
  (forall i w, all_slots (variables st) !! (v, i) = Some w ->
     m_staged st !! (v, i) = Some w)
  /\ (v ∈ dom (variables st) -> get_gc_ref st v = 1%Z).

(** The first loop: [m_staged] holds references that exist, and what
    [tracked] or [m_staged] refers to waits in [m_temp_1] or has been
    scanned. *)
Definition scan_inv (tracked : gset var_id) (st : Runtime) : Prop :=
  m_staged st ⊆ all_slots (variables st)
  /\ (forall v, v ∈ tracked -> v ∈ m_temp_1 st \/ scanned st v)
  /\ (forall k v, m_staged st !! k = Some v -> v ∈ m_temp_1 st \/ scanned st v).

(** The second loop, begun in [st1]: a counter and the references still
    staged add up to what they were, and the variables whose references
    have been taken out are in [m_temp_1]. *)
Definition count_inv (st1 st : Runtime) : Prop :=
  dom (variables st) = dom (variables st1)
  /\ (forall v, v ∈ dom (variables st1) ->
        (get_gc_ref st v + references (m_staged st) v
         = get_gc_ref st1 v + references (m_staged st1) v)%Z)
  /\ (forall k v, m_staged st1 !! k = Some v ->
        v ∈ m_temp_1 st \/ exists k', m_staged st !! k' = Some v).



(** The call ends: it returns, or an assertion terminates the program. *)
Definition returns_or_aborts {A : Type} (o : Outcome A) : Prop :=
  match o with
  | Returned _ | Terminated _ => True
  | _ => False
  end.

(** Nothing but one reference of a value keeps [v]: the program does not
    hold it, no generation tracks it, it is not pooled, and the values in
    memory refer to it once. *)
Definition unowned (st : Runtime) (v : var_id) : Prop :=
  v ∈ dom (variables st) /\ default 0 (roots st !! v) = 0 /\ v ∉ m_pool st
  /\ tracked_holds st v = 0%Z /\ references (all_slots (variables st)) v = 1%Z.

(** What the assertion of the second loop asks of a collection of [gen]:
    no variable that the generation reaches refers to a variable that
    nothing else keeps. *)
Definition count_asserted (gen : nat) (st : Runtime) : Prop :=
  forall t o i v,
    t ∈ m_tracked st (gMax - gen) -> rtc (refers st) t o ->
    all_slots (variables st) !! (o, i) = Some v -> ~ unowned st v.

(** What a tracked variable reaches is tracked by the same generation or
    held by the program, the variables of [T] apart. *)
Definition generations_closed (st : Runtime) (T : gset var_id) : Prop :=
  forall i t v, i <= gMax -> t ∈ m_tracked st i -> rtc (refers st) t v ->
    v ∈ m_tracked st i \/ 1 <= default 0 (roots st !! v) \/ v ∈ T.

(** The state in which the first loop starts: the temporaries cleared,
    [tracked] merged into [m_temp_1]. *)
Definition scan_start (gen : nat) (st : Runtime) : Runtime :=
  set_temp_1 (m_temp_1 (clear_temporaries st)
              ∪ m_tracked (clear_temporaries st) (gMax - gen))
    (clear_temporaries st).

(** The third loop starts with [tracked] merged into [m_temp_1] again. *)
Definition mark_start (gen : nat) (st : Runtime) : Runtime :=
  set_temp_1 (m_temp_1 st ∪ m_tracked st (gMax - gen)) st.

(** All of a variable but the counter of the collector. *)
Definition cell_data (x : Variable_Cell) : Value * bool * bool :=
  (m_value x, m_immutable x, m_initialized x).

(** The variables are as they were, their counters apart. *)
Definition same_cells (st st' : Runtime) : Prop :=
  forall v, cell_data <$> variables st' !! v = cell_data <$> variables st !! v.

(** The variable exists and has been uninitialized. *)
Definition is_uninitialized (st : Runtime) (v : var_id) : Prop :=
  exists x, variables st !! v = Some x /\ m_value x = V_null /\ m_initialized x = false.





(** The marking loops put nothing into their sets that lies outside [P],
    once the sets are within it. *)
Definition marks_within (P : var_id -> Prop) (st0 st : Runtime) : Prop :=
  all_slots (variables st) = all_slots (variables st0)
  /\ forall x, x ∈ m_temp_1 st \/ x ∈ m_temp_2 st \/ x ∈ m_unreachable st
               \/ x ∈ m_reachable st -> P x.

(** The loop of [create_variable] examines generation [gen] in [st]: it
    collects the generation where its counter has reached its threshold,
    which leaves [st'], and leaves it alone otherwise. *)
Definition examined `{ER : Erase_Random} (gen : nat) (st st' : Runtime)
    (due : bool) : Prop :=
  due = (m_thres st (gMax - gen) <=? m_counts st (gMax - gen))
  /\ if due then exists nvars, do_collect_generation gen st = Returned (st', nvars)
     else st' = st.

(** Two variables, each holding an array that refers to the other; the
    program has dropped its own references to them. *)
Definition array_of (elems : list var_id) : Variable_Cell :=
  {| m_value := V_array elems; m_immutable := false; m_initialized := true;
     m_gc_ref := 0 |}.

(** They have been created in generation 0 of a new collector. *)
Definition two_cell_cycle : Runtime :=
  set_roots ∅
    (set_variables {[0 := array_of [1]; 1 := array_of [0]]}
       (allocate_and_hold 2 new_Garbage_Collector)).

(** The same two variables, one in the youngest generation and one in the
    next. *)
Definition cycle_across_generations : Runtime :=
  set_tracked_at (gMax - 0) {[0]}
    (set_tracked_at (gMax - 1) {[1]}
       (set_variables {[0 := array_of [1]; 1 := array_of [0]]} new_Garbage_Collector)).

(** A collector in the middle of a collection of the youngest generation:
    the sentry has let the call in, and the sweep has uninitialized one of
    two variables and pooled it. *)
Definition collection_in_progress : Runtime :=
  set_recur 1
    (set_pool {[0]}
       (set_tracked_at (gMax - 0) {[1]}
          (set_variables {[0 := new_Variable; 1 := new_Variable]}
             new_Garbage_Collector))).

(** What a full collection returns and leaves: the total, the sizes of the
    tracked sets, and the values of the variables [0] and [1]. *)
Definition collected (st : Runtime) : option (nat * list nat * list (option Value)) :=
  match collect_variables gMax st with
  | Returned (st', nvars) =>
      Some (nvars,
            [size (m_tracked st' 0); size (m_tracked st' 1); size (m_tracked st' 2)],
            [m_value <$> variables st' !! 0; m_value <$> variables st' !! 1])
  | _ => None
  end.

(** ** What the further properties speak of *)

(** The call returns or throws a parser error: it neither throws a runtime
    error nor terminates the program, and the bound of no loop is hit. *)
Definition settles {A : Type} (o : Outcome A) : Prop :=
  match o with
  | Returned _ | Thrown _ => True
  | _ => False
  end.

(** The readers are on the same line of the same file. *)
Definition same_line (rd rd' : Line_Reader) : Prop :=
  Line_Reader.m_file rd' = Line_Reader.m_file rd
  /\ Line_Reader.m_str rd' = Line_Reader.m_str rd
  /\ Line_Reader.m_line rd' = Line_Reader.m_line rd.

(** The lexer [lx], or what a numeric literal makes of it before it pushes
    its token where the sign before it is merged: the sign is taken off the
    sequence and the reader is moved back to it. *)
Definition pushes_from (lx from : Lexer) : Prop :=
  from = lx
  \/ exists qstok,
       do_check_mergeability (seq lx) (reader lx) = Some qstok
       /\ from = {| seq := removelast (seq lx);
                    reader := Line_Reader.rewind (reader lx) (Token.offset qstok) |}.

(** What an accepting function may do: leave everything as it is and
    return [false]; push one token that ends within the line and further
    on than the reader was, and return [true]; or throw a parser error. *)
Definition accepts (lx : Lexer) (o : Outcome (bool * Lexer)) : Prop :=
  match o with
  | Returned (token_got, lx') =>
      if token_got : bool then
        exists from length xtoken,
          lx' = pushed from length xtoken
          /\ pushes_from lx from
          /\ Line_Reader.m_offset (reader lx)
               < Line_Reader.m_offset (reader from) + length
               <= List.length (Line_Reader.m_str (reader lx))
      else lx' = lx
  | Thrown _ => True
  | _ => False
  end.

(** A program that shifts [n] tokens out of the stream. *)
Fixpoint shift_n (n : nat) (ts : Token_Stream) : Outcome Token_Stream :=
  match n with
  | O => Returned ts
  | S n' => ts' ← Token_Stream.shift ts; shift_n n' ts'
  end.

(** The keyword that is spelt [name], if there is one: the first entry of
    the table with these bytes. *)
Definition keyword_of (name : Cow_String) : option Token.Keyword :=
  snd <$> List.find (fun el => string_eqb name (fst el)) s_keywords.

(** A lexer at the beginning of a line, with no token so far. *)
Definition lexer_at (str : Cow_String) : Lexer :=
  {| seq := [];
     reader := {| Line_Reader.m_file := sref "file"; Line_Reader.m_str := str;
                  Line_Reader.m_line := 1; Line_Reader.m_offset := 0 |} |}.

(** The token ends before the position: on an earlier line, or on the line
    at the offset or before it. *)
Definition ends_before (t : Token) (line : Z) (offset : nat) : Prop :=
  (Token.line t < line)%Z
  \/ (Token.line t = line /\ Token.offset t + Token.length t <= offset).

(** Each token ends before the next one begins. *)
Fixpoint in_order (sq : list Token) : Prop :=
  match sq with
  | [] => True
  | t :: sq' =>
      match sq' with
      | [] => True
      | t' :: _ => ends_before t (Token.line t') (Token.offset t')
      end
      /\ in_order sq'
  end.

(** The token is of the file, on a line of it, and not empty. *)
Definition well_placed (file : Cow_String) (t : Token) : Prop :=
  Token.file t = file /\ (1 <= Token.line t)%Z /\ 1 <= Token.length t.

(** The tokens of a lexer that reads the file: they are in order, and the
    last of them ends before the reader. *)
Definition tokens_behind (file : Cow_String) (lx : Lexer) : Prop :=
  in_order (seq lx)
  /\ Forall (well_placed file) (seq lx)
  /\ forall t, last (seq lx) = Some t ->
       ends_before t (Line_Reader.m_line (reader lx)) (Line_Reader.m_offset (reader lx)).

(** The bytes that the lexer skips between tokens. *)
Definition is_blank (ch : ascii) : Prop :=
  ch ∈ [" "; "009"; "011"; "012"; "013"; "010"]%char.

(** ** What the marking loop establishes *)

(** The references to [x] that the program, the values in memory and the
    generations hold: the part of [use_count] that a collection does not
    change before it sweeps. *)
Definition held_count (st : Runtime) (x : var_id) : Z :=
  Z.of_nat (default 0 (roots st !! x))
  + references (all_slots (variables st)) x
  + tracked_holds st x.

(** The third loop, for the set [S] that it starts from in [m_temp_1] and
    the counters [gc2] that the second loop has left.  [pending] is a
    variable that has been taken out of a set and is about to be marked
    reachable. *)
Definition mark_sound (pending : option var_id) (S : gset var_id)
    (gc2 : var_id -> Z) (st : Runtime) : Prop :=
  (forall x, x ∈ S ->
     x ∈ m_temp_1 st \/ x ∈ m_unreachable st \/ x ∈ m_reachable st
     \/ pending = Some x)
  /\ (forall x, x ∈ m_unreachable st ->
        x ∈ S /\ x ∉ m_reachable st /\ (held_count st x <= gc2 x)%Z)
  /\ (forall x, x ∈ m_reachable st -> get_gc_ref st x = 0%Z)
  /\ (forall x, x ∉ m_reachable st -> get_gc_ref st x = gc2 x)
  /\ (forall r i w, r ∈ m_reachable st ->
        all_slots (variables st) !! (r, i) = Some w -> m_staged st !! (r, i) = Some w)
  /\ (forall k w, m_staged st !! k = Some w ->
        w ∈ m_reachable st \/ w ∈ m_temp_2 st \/ pending = Some w)
  /\ m_staged st ⊆ all_slots (variables st)
  /\ (forall x, x ∈ m_temp_1 st -> x ∈ S).

(** The first loop: what is in [m_temp_1] or owns a staged reference comes
    from [tracked] or is referred to by a staged reference. *)
Definition scan_owner_inv (tracked : gset var_id) (st : Runtime) : Prop :=
  (forall x, x ∈ m_temp_1 st -> x ∈ tracked \/ exists k, m_staged st !! k = Some x)
  /\ (forall o i w, m_staged st !! (o, i) = Some w ->
        o ∈ tracked \/ exists k, m_staged st !! k = Some o).

(** The second loop, begun in [st1]: [m_temp_1] receives nothing but what
    the staged references of [st1] refer to. *)
Definition count_temp_inv (st1 st : Runtime) : Prop :=
  (forall k w, m_staged st !! k = Some w -> m_staged st1 !! k = Some w)
  /\ (forall x, x ∈ m_temp_1 st ->
        x ∈ m_temp_1 st1 \/ exists k, m_staged st1 !! k = Some x).

(** What the three loops have found when the sweep begins: [S] is what the
    first loop has met, and the sets are those of the state [marked]. *)
Record marking_facts (gen : nat) (st marked : Runtime) (S : gset var_id) : Prop := {
  mf_tracked x : x ∈ m_tracked st (gMax - gen) -> x ∈ S;
  mf_closed o i w :
    o ∈ S -> all_slots (variables st) !! (o, i) = Some w -> w ∈ S;
  mf_split x : x ∈ S -> x ∈ m_unreachable marked \/ x ∈ m_reachable marked;
  mf_unreachable x :
    x ∈ m_unreachable marked -> x ∈ S /\ x ∉ m_reachable marked;
  mf_reachable_closed r i w :
    r ∈ m_reachable marked -> all_slots (variables st) !! (r, i) = Some w ->
    w ∈ m_reachable marked;
  mf_external x :
    x ∈ S -> (exists i, i <= gMax /\ x ∈ m_tracked st i) ->
    (1 <= default 0 (roots st !! x)
     \/ exists o i, all_slots (variables st) !! (o, i) = Some x /\ o ∉ S) ->
    x ∈ m_reachable marked
}.

(** Two variables that a program has created in generation 0 of a new
    collector and still holds; it has stored an array with a reference to
    the second in the first. *)
Definition held_pair : Runtime :=
  set_roots {[0 := 1; 1 := 1]}
    (set_variables {[0 := array_of [1]; 1 := new_Variable]}
       (allocate_and_hold 2 new_Garbage_Collector)).

(** The state after a call of [create_variable] that returns. *)
Definition created `{ER : Erase_Random} (gen_hint : nat) (st : Runtime) : Runtime :=
  match create_variable gen_hint st with
  | Returned (_, st') => st'
  | _ => st
  end.

(** A variable of generation 0 that refers to a variable of generation 1;
    the program holds both. *)
Definition staggered_pair : Runtime :=
  set_roots {[0 := 1; 1 := 1]}
    (set_variables {[0 := array_of [1]; 1 := new_Variable]}
       (created 1 (created 0 new_Garbage_Collector))).

(** The state after a call of [collect_variables] for the youngest
    generation that returns. *)
Definition collected_young `{ER : Erase_Random} (st : Runtime) : Runtime :=
  match collect_variables 0 st with
  | Returned (st', _) => st'
  | _ => st
  end.

(** The pair after a collection of generation 0, which has moved the first
    variable into generation 1 and has left the second tracked by none;
    the program has then dropped its reference to the second. *)
Definition stale_reference : Runtime :=
  set_roots {[0 := 1]} (collected_young staggered_pair).


(** What the loop of [finalize] makes of a state, for the tracked set at
    index [i]. *)
Record wiped (i : nat) (st st' : Runtime) : Prop := {
  wiped_variables v :
    variables st' !! v
    = if decide (v ∈ m_tracked st i) then uninitialize <$> variables st !! v
      else variables st !! v;
  wiped_tracked : m_tracked st' i = ∅;
  wiped_tracked_ne j : j <> i -> m_tracked st' j = m_tracked st j;
  wiped_pool : m_pool st' = m_pool st;
  wiped_roots : roots st' = roots st;
  wiped_recur : m_recur st' = m_recur st;
  wiped_counts : m_counts st' = m_counts st;
  wiped_thres : m_thres st' = m_thres st
}.

(** * Properties of the lexer *)

(** ** Reading lines *)

Lemma buffer_line_spec input acc str rest eof :
  Line_Reader.buffer_line input acc = (str, rest, eof) ->
  (eof = false -> List.length rest < List.length input) /\
  (eof = true -> rest = [] /\ str = acc ++ input).
Proof.
  revert acc. induction input as [|ich input IH]; intros acc; simpl.
  - intros [= <- <- <-]. split; [discriminate|]. by rewrite app_nil_r.
  - destruct (char_eqb ich "010") eqn:E.
    + intros [= <- <- <-]. split; [lia | discriminate].
    + intros H. destruct (IH _ H) as [H1 H2]. split.
      * intros ->. specialize (H1 eq_refl). lia.
      * intros ->. destruct (H2 eq_refl) as [-> ->]. by rewrite <- app_assoc.
Qed.

Lemma buffer_line_until_lf l rest acc :
  Forall (fun c => c <> "010"%char) l ->
  Line_Reader.buffer_line (l ++ "010"%char :: rest) acc = (acc ++ l, rest, false).
Proof.
  intros Hl. revert acc. induction Hl as [|c l Hc Hl IH]; intros acc; simpl.
  - by rewrite app_nil_r.
  - destruct (char_eqb c "010") eqn:E.
    + apply Ascii.eqb_eq in E. done.
    + rewrite IH. by rewrite <- app_assoc.
Qed.

Lemma buffer_line_until_eof l acc :
  Forall (fun c => c <> "010"%char) l ->
  Line_Reader.buffer_line l acc = (acc ++ l, [], true).
Proof.
  intros Hl. revert acc. induction Hl as [|c l Hc Hl IH]; intros acc; simpl.
  - by rewrite app_nil_r.
  - destruct (char_eqb c "010") eqn:E.
    + apply Ascii.eqb_eq in E. done.
    + rewrite IH. by rewrite <- app_assoc.
Qed.

Lemma advance_shorter rd cbuf rd' cbuf' :
  Line_Reader.advance rd cbuf = (true, rd', cbuf') ->
  List.length cbuf' < List.length cbuf.
Proof.
  unfold Line_Reader.advance.
  destruct (Line_Reader.buffer_line cbuf []) as [[str rest] eof] eqn:E.
  destruct (buffer_line_spec _ _ _ _ _ E) as [H1 H2].
  destruct eof; simpl.
  - destruct (H2 eq_refl) as [-> Hs]. simpl in Hs. subst str.
    destruct cbuf; [discriminate|]. intros [= <- <-]. simpl. lia.
  - intros [= <- <-]. auto.
Qed.

(** [advance] reads neither the line it replaces nor the offset. *)
Lemma advance_ignores_line r1 r2 cbuf :
  Line_Reader.m_file r1 = Line_Reader.m_file r2 ->
  Line_Reader.m_line r1 = Line_Reader.m_line r2 ->
  Line_Reader.advance r1 cbuf = Line_Reader.advance r2 cbuf.
Proof. intros Hf Hl. unfold Line_Reader.advance. by rewrite Hf, Hl. Qed.

Section Lexer_Properties.

Context `{LD : Long_Double_Arith}.

(** Once the lines of the stream fit in the bound, the bound has no say. *)
Lemma do_load_lines_fuel f1 f2 options cbuf bcomm lx :
  List.length cbuf < f1 -> List.length cbuf < f2 ->
  do_load_lines f1 options cbuf bcomm lx = do_load_lines f2 options cbuf bcomm lx.
Proof.
  revert f2 cbuf bcomm lx.
  induction f1 as [|f1 IH]; intros f2 cbuf bcomm lx H1 H2; [lia|].
  destruct f2 as [|f2]; [lia|]. simpl.
  destruct (Line_Reader.advance (reader lx) cbuf) as [[more rd] cbuf'] eqn:E.
  destruct more; simpl; [|done].
  apply advance_shorter in E.
  destruct (is_shebang rd); [apply IH; lia|].
  destruct (do_validate_utf8 _ rd) as [rd1| | | |]; simpl; try done.
  destruct (do_tokenize_line _ _ _ _) as [[bcomm' lx']| | | |]; simpl; try done.
  apply IH; lia.
Qed.

Lemma do_load_lines_ignores_line f options cbuf bcomm sq r1 r2 :
  Line_Reader.m_file r1 = Line_Reader.m_file r2 ->
  Line_Reader.m_line r1 = Line_Reader.m_line r2 ->
  do_load_lines f options cbuf bcomm {| seq := sq; reader := r1 |}
  = do_load_lines f options cbuf bcomm {| seq := sq; reader := r2 |}.
Proof.
  intros Hf Hl. destruct f as [|f]; [done|]. simpl.
  by rewrite (advance_ignores_line r1 r2 cbuf Hf Hl).
Qed.

Lemma do_load_lines_shebang_step f options junk rest bcomm sq file :
  Forall (fun c => c <> "010"%char) junk ->
  do_load_lines (S f) options (sref "#!" ++ junk ++ "010"%char :: rest) bcomm
    {| seq := sq; reader := Line_Reader.make file |}
  = do_load_lines f options rest bcomm
      {| seq := sq;
         reader := {| Line_Reader.m_file := file;
                      Line_Reader.m_str := sref "#!" ++ junk;
                      Line_Reader.m_line := 1;
                      Line_Reader.m_offset := 0 |} |}.
Proof.
  intros Hj.
  assert (Hl : Forall (fun c => c <> "010"%char) (sref "#!" ++ junk)).
  { apply Forall_app. split; [|done]. repeat constructor; discriminate. }
  cbn [do_load_lines reader seq]. unfold Line_Reader.advance.
  rewrite (app_assoc (sref "#!") junk).
  rewrite (buffer_line_until_lf _ rest [] Hl).
  cbn [andb app Line_Reader.make Line_Reader.m_line Line_Reader.m_file negb].
  match goal with
  | |- context [is_shebang ?r] => replace (is_shebang r) with true by reflexivity
  end.
  reflexivity.
Qed.

Lemma do_load_lines_empty_step f options rest bcomm sq file :
  do_load_lines (S f) options ("010"%char :: rest) bcomm
    {| seq := sq; reader := Line_Reader.make file |}
  = do_load_lines f options rest bcomm
      {| seq := sq;
         reader := {| Line_Reader.m_file := file;
                      Line_Reader.m_str := [];
                      Line_Reader.m_line := 1;
                      Line_Reader.m_offset := 0 |} |}.
Proof. destruct f; reflexivity. Qed.

(** A first line that begins with [#!] is read as an empty line would be. *)
Lemma do_load_shebang_line junk rest file options :
  Forall (fun c => c <> "010"%char) junk ->
  do_load (sref "#!" ++ junk ++ "010"%char :: rest) file options
  = do_load ("010"%char :: rest) file options.
Proof.
  intros Hj. unfold do_load. f_equal.
  rewrite do_load_lines_shebang_step by done.
  rewrite do_load_lines_empty_step.
  rewrite (do_load_lines_fuel _ (List.length ("010"%char :: rest)) options rest).
  - apply do_load_lines_ignores_line; reflexivity.
  - rewrite !length_app. simpl. lia.
  - simpl. lia.
Qed.

(** A shebang line that ends the stream leaves no token. *)
Lemma do_load_shebang_only junk file options :
  Forall (fun c => c <> "010"%char) junk ->
  do_load (sref "#!" ++ junk) file options = Returned [].
Proof.
  intros Hj. unfold do_load.
  assert (Hl : Forall (fun c => c <> "010"%char) (sref "#!" ++ junk)).
  { apply Forall_app. split; [|done]. repeat constructor; discriminate. }
  cbn [do_load_lines reader seq List.length app sref list_ascii_of_string].
  unfold Line_Reader.advance.
  change ("#"%char :: "!"%char :: junk) with (sref "#!" ++ junk).
  rewrite (buffer_line_until_eof _ [] Hl).
  reflexivity.
Qed.

(** ** The state of the stream after a load *)

Lemma load_failed_is_error ts cbuf file options ts' :
  Token_Stream.load ts cbuf file options = Returned (false, ts') ->
  exists err, Token_Stream.m_stor ts' = Token_Stream.Stor_error err.
Proof.
  unfold Token_Stream.load.
  destruct (do_load cbuf file options) as [sq|err| | |]; try discriminate.
  intros [= <-]. by exists err.
Qed.

End Lexer_Properties.

(** C9: a first line that begins with [#!] is discarded before the line is
    checked for UTF-8 and null bytes.  Whatever bytes follow [#!] on that
    line, the load does what it does when the line is empty; in particular
    it succeeds when the lines that follow lex successfully, and a stream
    that holds nothing but the shebang line loads as an empty sequence. *)
Theorem shebang_line_is_discarded `{LD : Long_Double_Arith} ts junk rest file options :
  Forall (fun c => c <> "010"%char) junk ->
  Token_Stream.load ts (sref "#!" ++ junk ++ "010"%char :: rest) file options
    = Token_Stream.load ts ("010"%char :: rest) file options
  /\ (forall ts',
        Token_Stream.load ts ("010"%char :: rest) file options = Returned (true, ts') ->
        Token_Stream.load ts (sref "#!" ++ junk ++ "010"%char :: rest) file options
          = Returned (true, ts'))
  /\ Token_Stream.load ts (sref "#!" ++ junk) file options
       = Returned (true, {| Token_Stream.m_stor := Token_Stream.Stor_tokens [] |}).
Proof.
  intros Hj.
  assert (H : Token_Stream.load ts (sref "#!" ++ junk ++ "010"%char :: rest) file options
              = Token_Stream.load ts ("010"%char :: rest) file options).
  { unfold Token_Stream.load. by rewrite do_load_shebang_line. }
  split; [done|]. split.
  - intros ts' <-. done.
  - unfold Token_Stream.load. by rewrite do_load_shebang_only.
Qed.

(** A shebang line with a byte that is not UTF-8 and a null byte, before a
    line that holds [1]. *)
Lemma shebang_line_is_discarded_witness :
  Token_Stream.load no_stream
    (sref "#!" ++ ["255"%char; "000"%char] ++ "010"%char :: sref "1")
    (sref "file") default_options
  = Returned (true, {| Token_Stream.m_stor := Token_Stream.Stor_tokens
                         [tok 2 0 1 (Token.S_integer_literal 1) (sref "file")] |}).
Proof.
  apply (proj1 (proj2 (shebang_line_is_discarded no_stream ["255"%char; "000"%char]
                         (sref "1") (sref "file") default_options
                         ltac:(repeat constructor; discriminate)))).
  vm_compute. reflexivity.
Defined.

(** C6 as the code has it: after a load that fails with a parse error the
    stream holds the error; [peek_opt] and [shift] throw, the error is what
    [get_parser_error] returns, and [empty] returns [true]. *)
Theorem failed_load_leaves_error `{LD : Long_Double_Arith} ts cbuf file options ts' :
  Token_Stream.load ts cbuf file options = Returned (false, ts') ->
  Token_Stream.state ts' = Token_Stream.state_error
  /\ Token_Stream.peek_opt ts' = Runtime_Error "The previous load operation has failed."
  /\ Token_Stream.shift ts' = Runtime_Error "The previous load operation has failed."
  /\ Token_Stream.m_stor ts' = Token_Stream.Stor_error (Token_Stream.get_parser_error ts')
  /\ Token_Stream.empty ts' = true.
Proof.
  intros H. apply load_failed_is_error in H as [err H].
  unfold Token_Stream.state, Token_Stream.peek_opt, Token_Stream.shift,
    Token_Stream.get_parser_error, Token_Stream.empty.
  rewrite H. done.
Qed.

(** The load of an unclosed string literal fails. *)
Lemma failed_load_leaves_error_witness :
  Token_Stream.state
    {| Token_Stream.m_stor := Token_Stream.Stor_error
         (Parser_Error.Parser_Error 1 0 2 Parser_Error.code_string_literal_unclosed) |}
    = Token_Stream.state_error
  /\ Token_Stream.empty
       {| Token_Stream.m_stor := Token_Stream.Stor_error
            (Parser_Error.Parser_Error 1 0 2 Parser_Error.code_string_literal_unclosed) |}
     = true.
Proof.
  pose proof (failed_load_leaves_error no_stream (sref "'a") (sref "file")
                default_options _ ltac:(vm_compute; reflexivity)) as H.
  split; [apply H | apply H].
Defined.

(** C6 as the claim has it fails: the emptiness probe of a stream whose load
    failed answers what it answers for a stream that loaded no token. *)
Lemma empty_does_not_observe_error :
  exists failed succeeded,
    Token_Stream.load no_stream (sref "'a") (sref "file") default_options
      = Returned (false, failed)
    /\ Token_Stream.load no_stream (sref "") (sref "file") default_options
      = Returned (true, succeeded)
    /\ Token_Stream.state failed = Token_Stream.state_error
    /\ Token_Stream.state succeeded = Token_Stream.state_success
    /\ Token_Stream.empty failed = Token_Stream.empty succeeded.
Proof.
  eexists _, _. split; [vm_compute; reflexivity|].
  split; [vm_compute; reflexivity|]. done.
Qed.

(** C3 as the claim has it fails: in [1 + + 2] the second [+] is not next to
    the digit, and four tokens come out. *)
Lemma spaced_sign_is_not_merged :
  do_load (sref "1 + + 2") (sref "file") default_options
  = Returned [ tok 1 0 1 (Token.S_integer_literal 1) (sref "file");
               tok 1 2 1 (Token.S_punctuator Token.punctuator_add) (sref "file");
               tok 1 4 1 (Token.S_punctuator Token.punctuator_add) (sref "file");
               tok 1 6 1 (Token.S_integer_literal 2) (sref "file") ].
Proof. vm_compute. reflexivity. Qed.

(** C3 as the code has it: in [1 + +2] the second [+] is next to the digit
    and follows an operator, so it is merged: three tokens come out, the
    last an integer literal of two bytes with the value [+2]. *)
Theorem contiguous_sign_is_merged `{LD : Long_Double_Arith} file :
  keyword_as_identifier default_options = false
  /\ do_load (sref "1 + +2") file default_options
     = Returned [ tok 1 0 1 (Token.S_integer_literal 1) file;
                  tok 1 2 1 (Token.S_punctuator Token.punctuator_add) file;
                  tok 1 4 2 (Token.S_integer_literal 2) file ].
Proof. split; [done|]. vm_compute. reflexivity. Qed.

(** ** The longest punctuator *)

Lemma string_eqb_eq a b : string_eqb a b = true <-> a = b.
Proof.
  revert b. induction a as [|x a IH]; intros [|y b]; simpl; try done.
  rewrite andb_true_iff, IH. unfold char_eqb. rewrite Ascii.eqb_eq.
  split; [intros [-> ->]; done | intros [= -> ->]; done].
Qed.

Lemma starts_with_prefix avail s : starts_with avail s = true <-> s `prefix_of` avail.
Proof.
  unfold starts_with. rewrite andb_true_iff, Nat.leb_le, string_eqb_eq. split.
  - intros [_ H]. exists (skipn (List.length s) avail).
    rewrite <- H at 1. symmetry. apply firstn_skipn.
  - intros [k ->]. split; [rewrite length_app; lia|].
    rewrite firstn_app, Nat.sub_diag, firstn_all. simpl. apply app_nil_r.
Qed.

Lemma starts_with_both avail a b :
  starts_with avail a = true -> starts_with avail b = true ->
  List.length b <= List.length a -> starts_with a b = true.
Proof.
  rewrite !starts_with_prefix. intros Ha Hb Hlen.
  destruct (prefix_weak_total _ _ _ Hb Ha) as [H|H]; [done|].
  pose proof (prefix_length _ _ H) as Hl.
  assert (a = b) as -> by (apply (prefix_length_eq _ _ H); lia). done.
Qed.

Lemma do_match_punctuator_spec table first count avail :
  match do_match_punctuator table first count avail with
  | Some cur =>
      exists i, first <= i < first + count /\ table !! i = Some cur
        /\ starts_with avail (fst cur) = true
        /\ forall j el, i < j < first + count -> table !! j = Some el ->
             starts_with avail (fst el) = false
  | None =>
      forall j el, first <= j < first + count -> table !! j = Some el ->
        starts_with avail (fst el) = false
  end.
Proof.
  induction count as [|count IH]; simpl.
  - intros j el Hj. lia.
  - destruct (table !! (first + count)%nat) as [cur|] eqn:Hc.
    + destruct (starts_with avail (fst cur)) eqn:Hs.
      * exists (first + count)%nat. repeat split; [lia|lia|done|done|].
        intros j el Hj. lia.
      * destruct (do_match_punctuator table first count avail) as [cur'|].
        -- destruct IH as (i & Hi & Hl & Hm & Hlast).
           exists i. repeat split; [lia|lia|done|done|].
           intros j el Hj Hel. destruct (decide (j = (first + count)%nat)) as [->|].
           ++ congruence.
           ++ apply (Hlast j); [lia|done].
        -- intros j el Hj Hel. destruct (decide (j = (first + count)%nat)) as [->|].
           ++ congruence.
           ++ apply (IH j); [lia|done].
    + destruct (do_match_punctuator table first count avail) as [cur'|].
      * destruct IH as (i & Hi & Hl & Hm & Hlast).
        exists i. repeat split; [lia|lia|done|done|].
        intros j el Hj Hel. destruct (decide (j = (first + count)%nat)) as [->|].
        -- congruence.
        -- apply (Hlast j); [lia|done].
      * intros j el Hj Hel. destruct (decide (j = (first + count)%nat)) as [->|].
        -- congruence.
        -- apply (IH j); [lia|done].
Qed.

Lemma s_punctuators_ok :
  forallb punctuator_entry_ok (List.seq 0 (List.length s_punctuators)) = true.
Proof. vm_compute. reflexivity. Qed.

Lemma punctuator_entry i el :
  s_punctuators !! i = Some el ->
  let range := equal_range s_punctuators (first_char el) in
  fst el <> []
  /\ is_Some (char_find s_punct_chars (List.length s_punct_chars) (first_char el))
  /\ fst range <= i < snd range
  /\ forall j el', s_punctuators !! j = Some el' -> i < j ->
       starts_with (fst el) (fst el') = false.
Proof.
  intros Hi.
  pose proof (lookup_lt_Some _ _ _ Hi) as Hlt.
  pose proof s_punctuators_ok as H. rewrite forallb_forall in H.
  specialize (H i). rewrite in_seq in H. specialize (H ltac:(lia)).
  unfold punctuator_entry_ok in H. rewrite Hi in H.
  rewrite !andb_true_iff in H. destruct H as [[[[H1 H2] H3] H4] H5].
  repeat split.
  - intros E. rewrite E in H1. done.
  - by apply bool_decide_eq_true in H2.
  - by apply Nat.leb_le in H3.
  - by apply Nat.ltb_lt in H4.
  - intros j el' Hj Hij. rewrite forallb_forall in H5.
    pose proof (lookup_lt_Some _ _ _ Hj) as Hjlt.
    specialize (H5 j). rewrite in_seq in H5. specialize (H5 ltac:(lia)).
    rewrite Hj in H5. apply orb_true_iff in H5 as [H5|H5].
    + apply Nat.leb_le in H5. lia.
    + by apply negb_true_iff in H5.
Qed.

Lemma char_at_data_avail rd :
  char_at (Line_Reader.m_str rd) (Line_Reader.m_offset rd)
  = nth 0 (Line_Reader.data_avail rd) NUL.
Proof.
  unfold char_at, Line_Reader.data_avail. rewrite nth_skipn. f_equal. lia.
Qed.

Lemma prefix_first_char {B : Type} (el : Cow_String * B) avail :
  fst el <> [] -> starts_with avail (fst el) = true ->
  first_char el = nth 0 avail NUL.
Proof.
  rewrite starts_with_prefix. intros Hne [k ->]. unfold first_char, char_at.
  destruct (fst el); done.
Qed.

Lemma length_data_avail rd :
  List.length (Line_Reader.data_avail rd) = Line_Reader.size_avail rd.
Proof. unfold Line_Reader.data_avail, Line_Reader.size_avail. apply length_skipn. Qed.

Lemma do_push_token_fits lx length xtoken :
  length <= Line_Reader.size_avail (reader lx) ->
  do_push_token lx length xtoken = Returned (pushed lx length xtoken).
Proof.
  intros H. unfold do_push_token, Line_Reader.consume.
  destruct (Nat.ltb_spec (Line_Reader.size_avail (reader lx)) length); [lia|].
  reflexivity.
Qed.

(** C5: where a punctuator begins, that is where some entry of the table is
    a prefix of what is left of the line, [do_accept_punctuator] pushes the
    token of an entry that is such a prefix and that no such prefix exceeds
    in length; and [<<<=] lexes to the one token [<<<=]. *)
Theorem punctuator_is_longest_match :
  (forall lx : Lexer,
     let avail := Line_Reader.data_avail (reader lx) in
     (exists el, el ∈ s_punctuators /\ starts_with avail (fst el) = true) ->
     exists el,
       el ∈ s_punctuators
       /\ starts_with avail (fst el) = true
       /\ (forall el', el' ∈ s_punctuators -> starts_with avail (fst el') = true ->
             List.length (fst el') <= List.length (fst el))
       /\ do_accept_punctuator lx
          = Returned (true, pushed lx (List.length (fst el))
                              (Token.S_punctuator (snd el))))
  /\ (forall (LD : Long_Double_Arith) file,
        do_load (sref "<<<=") file default_options
        = Returned [tok 1 0 4 (Token.S_punctuator Token.punctuator_sll_eq) file]).
Proof.
  split; [|intros; vm_compute; reflexivity].
  intros lx avail (el0 & Hin0 & Hs0).
  apply list_elem_of_lookup in Hin0 as [i0 Hi0].
  destruct (punctuator_entry _ _ Hi0) as (Hne0 & Hpc0 & Hr0 & _).
  pose proof (prefix_first_char el0 avail Hne0 Hs0) as Hhead.
  unfold do_accept_punctuator. rewrite char_at_data_avail. fold avail.
  rewrite <- Hhead. destruct Hpc0 as [k ->].
  pose proof (do_match_punctuator_spec s_punctuators
                (fst (equal_range s_punctuators (first_char el0)))
                (snd (equal_range s_punctuators (first_char el0))
                 - fst (equal_range s_punctuators (first_char el0)))
                avail) as Hspec.
  destruct (do_match_punctuator _ _ _ avail) as [cur|].
  - destruct Hspec as (i & Hi & Hcur & Hs & Hlast).
    exists cur. split; [apply list_elem_of_lookup; eauto|]. split; [done|].
    assert (Hlen : forall el', el' ∈ s_punctuators ->
              starts_with avail (fst el') = true ->
              List.length (fst el') <= List.length (fst cur)).
    { intros el' Hin' Hs'. apply list_elem_of_lookup in Hin' as [j Hj].
      destruct (punctuator_entry _ _ Hj) as (Hne' & _ & Hr' & Hlater').
      rewrite (prefix_first_char el' avail Hne' Hs'), <- Hhead in Hr'.
      destruct (decide (i < j)) as [Hij|Hij].
      { rewrite (Hlast j el') in Hs'; [done|lia|done]. }
      destruct (decide (List.length (fst el') <= List.length (fst cur)));
        [done|].
      destruct (decide (j = i)) as [->|Hne]; [by simplify_eq|].
      assert (Ht : starts_with (fst el') (fst cur) = true).
      { apply (starts_with_both avail); [done|done|lia]. }
      rewrite (Hlater' i cur Hcur) in Ht; [done|lia]. }
    split; [done|].
    rewrite do_push_token_fits; [done|].
    apply starts_with_prefix, prefix_length in Hs.
    by rewrite <- length_data_avail.
  - rewrite (Hspec i0 el0) in Hs0; [done|lia|done].
Qed.

(** Before [<<<= 1] the entries [<], [<<], [<<<] and [<<<=] are prefixes. *)
Lemma punctuator_is_longest_match_witness :
  exists el,
    el ∈ s_punctuators
    /\ starts_with (sref "<<<= 1") (fst el) = true
    /\ (forall el', el' ∈ s_punctuators -> starts_with (sref "<<<= 1") (fst el') = true ->
          List.length (fst el') <= List.length (fst el))
    /\ do_accept_punctuator {| seq := []; reader := reader_at "<<<= 1" |}
       = Returned (true, pushed {| seq := []; reader := reader_at "<<<= 1" |}
                           (List.length (fst el)) (Token.S_punctuator (snd el))).
Proof.
  apply (proj1 punctuator_is_longest_match {| seq := []; reader := reader_at "<<<= 1" |}).
  exists (sref "<<", Token.punctuator_sla). split; [|vm_compute; reflexivity].
  apply list_elem_of_In. vm_compute. tauto.
Defined.

(** ** The range of integer literals *)

Ltac zdiv_lia := Z.div_mod_to_equations; lia.

Lemma dvalue_of_nonneg dptr : (0 <= dvalue_of dptr)%Z.
Proof. unfold dvalue_of. lia. Qed.

Lemma digits_value_lower rbase rdigits l acc :
  (1 <= rbase)%Z -> (0 <= acc)%Z -> (acc <= digits_value rbase rdigits l acc)%Z.
Proof.
  intros Hr. revert acc. induction l as [|ch l IH]; intros acc Hacc; cbn [digits_value]; [lia|].
  destruct (char_find s_digits rdigits ch) as [dptr|]; [|by apply IH].
  pose proof (dvalue_of_nonneg dptr).
  etransitivity; [|apply IH; nia]. nia.
Qed.

Lemma do_parse_exponent_accepts err l acc :
  (0 <= acc)%Z ->
  (digits_value 10 20 l acc <= 0x7FFFFFFF)%Z ->
  do_parse_exponent err l acc = Returned (digits_value 10 20 l acc).
Proof.
  revert acc. induction l as [|ch l IH]; intros acc Hacc Hv; cbn [digits_value do_parse_exponent] in *; [done|].
  destruct (char_find s_digits 20 ch) as [dptr|]; [|by apply IH].
  pose proof (dvalue_of_nonneg dptr).
  pose proof (digits_value_lower 10 20 l (acc * 10 + dvalue_of dptr)
                ltac:(lia) ltac:(lia)).
  destruct (Z.ltb_spec ((2147483647 - dvalue_of dptr) / 10) acc) as [Hb|Hb].
  - exfalso. zdiv_lia.
  - apply IH; [zdiv_lia|done].
Qed.

Lemma do_parse_exponent_refuses err l acc :
  (0 <= acc <= 0x7FFFFFFF)%Z ->
  (0x7FFFFFFF < digits_value 10 20 l acc)%Z ->
  do_parse_exponent err l acc = Thrown err.
Proof.
  revert acc. induction l as [|ch l IH]; intros acc Hacc Hv; cbn [digits_value do_parse_exponent] in *; [lia|].
  destruct (char_find s_digits 20 ch) as [dptr|]; [|by apply IH].
  pose proof (dvalue_of_nonneg dptr).
  destruct (Z.ltb_spec ((2147483647 - dvalue_of dptr) / 10) acc) as [Hb|Hb]; [done|].
  apply IH; [zdiv_lia|done].
Qed.

Lemma do_parse_significant_spec err rbase l acc :
  is_rbase rbase -> (0 <= acc <= 2 ^ 63)%Z ->
  let v := digits_value rbase (Z.to_nat (rbase * 2)) l acc in
  do_parse_significant err rbase l acc
  = if (v <=? 2 ^ 63)%Z then Returned v else Thrown err.
Proof.
  intros Hr. revert acc. induction l as [|ch l IH]; intros acc Hacc;
    cbn [digits_value do_parse_significant].
  - destruct (Z.leb_spec acc (2 ^ 63)); [done|lia].
  - destruct (char_find s_digits (Z.to_nat (rbase * 2)) ch) as [dptr|]; [|by apply IH].
    pose proof (dvalue_of_nonneg dptr) as Hd.
    pose proof (digits_value_lower rbase (Z.to_nat (rbase * 2)) l
                  (acc * rbase + dvalue_of dptr)) as Hlow.
    destruct (Z.ltb_spec ((9223372036854775808 - dvalue_of dptr) / rbase) acc)
      as [Hb|Hb].
    + assert (2 ^ 63 < acc * rbase + dvalue_of dptr)%Z
        by (destruct Hr as [->|[->| ->]]; zdiv_lia).
      destruct (Z.leb_spec (digits_value rbase (Z.to_nat (rbase * 2)) l
                              (acc * rbase + dvalue_of dptr)) (2 ^ 63)); [|done].
      destruct Hr as [->|[->| ->]]; zdiv_lia.
    + assert (acc * rbase + dvalue_of dptr <= 2 ^ 63)%Z
        by (destruct Hr as [->|[->| ->]]; zdiv_lia).
      rewrite Z.mod_small by (destruct Hr as [->|[->| ->]]; zdiv_lia).
      apply IH. destruct Hr as [->|[->| ->]]; zdiv_lia.
Qed.

Lemma do_raise_significant_spec err pbase count value :
  pbase = 2%Z \/ pbase = 10%Z -> (1 <= value <= 2 ^ 63)%Z ->
  let v := (value * pbase ^ Z.of_nat count)%Z in
  do_raise_significant err pbase count value
  = if (v <=? 2 ^ 63)%Z then Returned v else Thrown err.
Proof.
  intros Hp. revert value. induction count as [|count IH]; intros value Hv.
  - cbn [do_raise_significant Z.of_nat]. rewrite Z.pow_0_r, Z.mul_1_r.
    destruct (Z.leb_spec value (2 ^ 63)); [done|lia].
  - cbn [do_raise_significant].
    rewrite Nat2Z.inj_succ, Z.pow_succ_r by lia.
    assert (Hpow : (1 <= pbase ^ Z.of_nat count)%Z).
    { pose proof (Z.pow_pos_nonneg pbase (Z.of_nat count)).
      destruct Hp as [->| ->]; lia. }
    destruct (Z.ltb_spec (9223372036854775808 / pbase) value) as [Hb|Hb].
    + assert (2 ^ 63 < value * pbase)%Z by (destruct Hp as [->| ->]; zdiv_lia).
      destruct (Z.leb_spec (value * (pbase * pbase ^ Z.of_nat count)) (2 ^ 63));
        [|done].
      nia.
    + assert (value * pbase <= 2 ^ 63)%Z by (destruct Hp as [->| ->]; zdiv_lia).
      rewrite Z.mod_small by (destruct Hp as [->| ->]; zdiv_lia).
      rewrite IH by (destruct Hp as [->| ->]; zdiv_lia).
      by rewrite Z.mul_assoc.
Qed.

(** The magnitude that the digits denote decides what [do_parse_integer]
    does. *)
Lemma do_parse_integer_spec rd np exp rneg :
  is_rbase (rbase np) ->
  pbase np = 0%Z \/ pbase np = 2%Z \/ pbase np = 10%Z ->
  (0 <= exp)%Z ->
  let sig := significant_digits (Line_Reader.m_str rd) np in
  let m := if (pbase np <? 2)%Z then sig else (sig * pbase np ^ exp)%Z in
  do_parse_integer rd np exp rneg
  = if (m <? 2 ^ 63)%Z || ((m =? 2 ^ 63)%Z && rneg) then Returned m
    else Thrown (integer_literal_overflow rd np).
Proof.
  intros Hr Hp Hexp sig m. unfold do_parse_integer.
  destruct (Z.ltb_spec exp 0); [lia|].
  fold (integer_literal_overflow rd np).
  rewrite do_parse_significant_spec by (done || lia).
  fold (significant_digits (Line_Reader.m_str rd) np). fold sig.
  assert (Hsig : (0 <= sig)%Z).
  { apply (digits_value_lower (rbase np)); [destruct Hr as [->|[->| ->]]; lia|lia]. }
  assert (Hpow : (2 <= pbase np -> 1 <= pbase np ^ exp)%Z).
  { intros. pose proof (Z.pow_pos_nonneg (pbase np) exp). lia. }
  assert (Hfinish : forall v : Z,
    (if (v =? 9223372036854775808)%Z && negb rneg
     then Thrown (integer_literal_overflow rd np) else Returned v)
    = if (v <=? 2 ^ 63)%Z
      then (if (v <? 2 ^ 63)%Z || ((v =? 2 ^ 63)%Z && rneg) then Returned v
            else Thrown (integer_literal_overflow rd np))
      else Returned v).
  { intros v. change 9223372036854775808%Z with (2 ^ 63)%Z.
    destruct (Z.eqb_spec v (2 ^ 63)), (Z.leb_spec v (2 ^ 63)),
      (Z.ltb_spec v (2 ^ 63)); try lia; by destruct rneg. }
  assert (Hover : forall v : Z, (2 ^ 63 < v)%Z ->
    (if (v <? 2 ^ 63)%Z || ((v =? 2 ^ 63)%Z && rneg) then Returned v
     else Thrown (integer_literal_overflow rd np))
    = Thrown (integer_literal_overflow rd np)).
  { intros v Hv. destruct (Z.eqb_spec v (2 ^ 63)), (Z.ltb_spec v (2 ^ 63));
      try lia; done. }
  destruct (Z.leb_spec sig (2 ^ 63)) as [Hs|Hs]; cbn [mbind Outcome_bind].
  - destruct (Z.eqb_spec sig 0) as [Hz|Hz]; cbn [negb andb].
    + assert (m = 0%Z) as -> by (subst m; rewrite Hz; destruct (pbase np <? 2)%Z; lia).
      cbn [mbind Outcome_bind]. rewrite Hz. reflexivity.
    + subst m. destruct (Z.leb_spec 2 (pbase np)) as [Hp2|Hp2].
      * destruct (Z.ltb_spec (pbase np) 2) as [?|_]; [lia|].
        rewrite do_raise_significant_spec by lia.
        rewrite Z2Nat.id by done.
        destruct (Z.leb_spec (sig * pbase np ^ exp) (2 ^ 63)) as [Hm|Hm];
          cbn [mbind Outcome_bind].
        -- rewrite Hfinish. by destruct (Z.leb_spec (sig * pbase np ^ exp) (2 ^ 63)); [|lia].
        -- by rewrite Hover.
      * destruct (Z.ltb_spec (pbase np) 2) as [_|?]; [|lia].
        cbn [mbind Outcome_bind].
        rewrite Hfinish. by destruct (Z.leb_spec sig (2 ^ 63)); [|lia].
  - rewrite Hover; [done|].
    subst m. destruct (pbase np <? 2)%Z eqn:E; [done|].
    apply Z.ltb_ge in E. specialize (Hpow E). nia.
Qed.

Lemma do_scan_numeric_bases rd np :
  do_scan_numeric rd = Returned np ->
  is_rbase (rbase np)
  /\ (pbase np = 0%Z \/ pbase np = 2%Z \/ pbase np = 10%Z).
Proof.
  unfold do_scan_numeric, is_rbase. intros H.
  repeat (case_match; simplify_eq; cbn [mbind Outcome_bind] in * );
    cbn [rbase pbase]; auto.
Qed.

Section Integer_Literals.

Context `{LD : Long_Double_Arith}.

(** An integer literal whose exponent is accepted and whose magnitude
    exceeds [2^63] is refused as an overflow. *)
Lemma integer_literal_too_large lx np :
  let rd := reader lx in
  let str := Line_Reader.m_str rd in
  is_Some (char_find s_digits 20 (char_at str (Line_Reader.m_offset rd))) ->
  do_scan_numeric rd = Returned np ->
  bfrac np = efrac np ->
  (exponent_digits str np <= 0x7FFFFFFF)%Z ->
  pneg np = false \/ exponent_digits str np = 0%Z ->
  (2 ^ 63 < literal_magnitude str np)%Z ->
  do_accept_numeric_literal lx false = Thrown (integer_literal_overflow rd np).
Proof.
  intros rd str [k Hk] Hscan Hfrac Hexp Hneg Hmag.
  destruct (do_scan_numeric_bases _ _ Hscan) as [Hr Hp].
  unfold do_accept_numeric_literal. fold rd. fold str. rewrite Hk, Hscan.
  cbn [mbind Outcome_bind].
  rewrite do_parse_exponent_accepts by (done || lia).
  fold (exponent_digits str np). cbn [mbind Outcome_bind].
  assert (Hnonneg : (0 <= exponent_digits str np)%Z).
  { apply (digits_value_lower 10); lia. }
  replace (if pneg np then (- exponent_digits str np)%Z else exponent_digits str np)
    with (exponent_digits str np)
    by (destruct Hneg as [-> | Hz]; [done | rewrite Hz; by destruct (pneg np)]).
  rewrite Hfrac, Nat.eqb_refl. cbn [negb andb].
  rewrite do_parse_integer_spec by done.
  fold str. fold (literal_magnitude str np).
  destruct (Z.ltb_spec (literal_magnitude str np) (2 ^ 63)); [lia|].
  destruct (Z.eqb_spec (literal_magnitude str np) (2 ^ 63)); [lia|].
  reflexivity.
Qed.

End Integer_Literals.

(** C4 as the code has it: [-0x8000000000000000] lexes to one integer
    literal with the value [INT64_MIN], the sign being merged;
    [0x8000000000000000] with no sign fails with
    [integer_literal_overflow]; and every integer literal whose exponent is
    accepted (its digits fit in 32 bits and it is not negative) and whose
    magnitude exceeds [2^63] fails with [integer_literal_overflow]. *)
Theorem integer_literal_range :
  (forall (LD : Long_Double_Arith) file,
     do_load (sref "-0x8000000000000000") file default_options
     = Returned [tok 1 0 19 (Token.S_integer_literal (- 2 ^ 63)) file])
  /\ (forall (LD : Long_Double_Arith) file,
        do_load (sref "0x8000000000000000") file default_options
        = Thrown (Parser_Error.Parser_Error 1 0 18
                    Parser_Error.code_integer_literal_overflow))
  /\ (forall (LD : Long_Double_Arith) lx np,
        let rd := reader lx in
        let str := Line_Reader.m_str rd in
        is_Some (char_find s_digits 20 (char_at str (Line_Reader.m_offset rd))) ->
        do_scan_numeric rd = Returned np ->
        bfrac np = efrac np ->
        (exponent_digits str np <= 0x7FFFFFFF)%Z ->
        pneg np = false \/ exponent_digits str np = 0%Z ->
        (2 ^ 63 < literal_magnitude str np)%Z ->
        do_accept_numeric_literal lx false
        = Thrown (integer_literal_overflow rd np)).
Proof.
  split; [intros; vm_compute; reflexivity|].
  split; [intros; vm_compute; reflexivity|].
  intros LD lx np. apply integer_literal_too_large.
Qed.

(** The literal [9223372036854775809], one more than [2^63], after a sign
    that is merged. *)
Lemma integer_literal_range_witness :
  do_accept_numeric_literal
    {| seq := [tok 1 0 1 (Token.S_punctuator Token.punctuator_sub) (sref "file")];
       reader := Line_Reader.rewind (reader_at "-9223372036854775809") 1 |} false
  = Thrown (Parser_Error.Parser_Error 1 1 19 Parser_Error.code_integer_literal_overflow).
Proof.
  eapply eq_trans.
  - eapply (proj2 (proj2 integer_literal_range) _
              {| seq := [tok 1 0 1 (Token.S_punctuator Token.punctuator_sub)
                           (sref "file")];
                 reader := Line_Reader.rewind (reader_at "-9223372036854775809") 1 |}).
    + vm_compute. eauto.
    + vm_compute. reflexivity.
    + reflexivity.
    + vm_compute. discriminate.
    + left. reflexivity.
    + vm_compute. reflexivity.
  - reflexivity.
Defined.

(** C4 as the claim has it fails: the magnitude of [1e99999999999] exceeds
    [2^63], and the literal fails with [numeric_literal_exponent_overflow],
    since the exponent is parsed before the significant part. *)
Lemma exponent_overflow_comes_first :
  exists np,
    do_scan_numeric (reader_at "1e99999999999") = Returned np
    /\ bfrac np = efrac np
    /\ pneg np = false
    /\ (2 ^ 63 < literal_magnitude (sref "1e99999999999") np)%Z
    /\ do_load (sref "1e99999999999") (sref "file") default_options
       = Thrown (Parser_Error.Parser_Error 1 0 13
                   Parser_Error.code_numeric_literal_exponent_overflow).
Proof.
  eexists. split; [vm_compute; reflexivity|].
  split; [reflexivity|]. split; [reflexivity|].
  split; [|vm_compute; reflexivity].
  unfold literal_magnitude. cbn [pbase].
  change (10 <? 2)%Z with false. cbv iota.
  match goal with
  | |- context [significant_digits ?s ?n] =>
      replace (significant_digits s n) with 1%Z by (vm_compute; reflexivity)
  end.
  match goal with
  | |- context [exponent_digits ?s ?n] =>
      replace (exponent_digits s n) with 99999999999%Z by (vm_compute; reflexivity)
  end.
  pose proof (Z.pow_le_mono_r 10 19 99999999999 ltac:(lia) ltac:(lia)) as H.
  assert (H' : (2 ^ 63 < 10 ^ 19)%Z) by (vm_compute; reflexivity).
  rewrite Z.mul_1_l.
  exact (Z.lt_le_trans _ _ _ H' H).
Qed.

(** ** Real literals that round to zero *)

Lemma throws_bind {A B : Type} c (m : Outcome A) (k : A -> Outcome B) :
  throws c m = false -> (forall a, throws c (k a) = false) ->
  throws c (m ≫= k) = false.
Proof. destruct m; simpl; auto. Qed.

Lemma do_parse_exponent_throws c err l acc :
  Parser_Error.code err <> c -> throws c (do_parse_exponent err l acc) = false.
Proof.
  intros Hc. revert acc.
  induction l as [|ch l IH]; intros acc; cbn [do_parse_exponent]; [done|].
  destruct (char_find s_digits 20 ch); [|done].
  case_match; [|done]. simpl. by apply bool_decide_eq_false.
Qed.

Lemma do_parse_significant_throws c err rbase l acc :
  Parser_Error.code err <> c ->
  throws c (do_parse_significant err rbase l acc) = false.
Proof.
  intros Hc. revert acc.
  induction l as [|ch l IH]; intros acc; cbn [do_parse_significant]; [done|].
  destruct (char_find s_digits _ ch); [|done].
  case_match; [|done]. simpl. by apply bool_decide_eq_false.
Qed.

Lemma do_raise_significant_throws c err pbase count value :
  Parser_Error.code err <> c ->
  throws c (do_raise_significant err pbase count value) = false.
Proof.
  intros Hc. revert value.
  induction count as [|count IH]; intros value; cbn [do_raise_significant]; [done|].
  case_match; [|done]. simpl. by apply bool_decide_eq_false.
Qed.

Lemma do_parse_integer_underflows rd np exp rneg :
  underflows (do_parse_integer rd np exp rneg) = false.
Proof.
  unfold do_parse_integer. case_match; [done|].
  apply throws_bind; [by apply do_parse_significant_throws|]. intros value.
  apply throws_bind.
  - case_match; [|done]. by apply do_raise_significant_throws.
  - intros value'. by case_match.
Qed.

Lemma do_scan_numeric_underflows rd : underflows (do_scan_numeric rd) = false.
Proof.
  unfold do_scan_numeric.
  repeat (case_match; simplify_eq; cbn [mbind Outcome_bind] in * ); done.
Qed.

Lemma do_push_token_throws c lx length xtoken :
  throws c (do_push_token lx length xtoken) = false.
Proof. unfold do_push_token, Line_Reader.consume. by case_match. Qed.

Section Real_Literal_Properties.

Context `{LD : Long_Double_Arith}.

(** [zero] is initialized to [true] and only ever or-ed with something. *)
Lemma do_parse_real_intg_zero rbase l intg :
  snd (do_parse_real_intg rbase l intg true) = true.
Proof.
  revert intg. induction l as [|ch l IH]; intros intg; cbn [do_parse_real_intg];
    [done|].
  destruct (char_find s_digits _ ch); [|done]. cbn [orb]. apply IH.
Qed.

Lemma do_parse_real_frac_zero rbase l frac :
  snd (do_parse_real_frac rbase l frac true) = true.
Proof.
  revert frac. induction l as [|ch l IH]; intros frac; cbn [do_parse_real_frac];
    [done|].
  destruct (char_find s_digits _ ch); [|done]. cbn [orb]. apply IH.
Qed.

Lemma do_real_value_zero rd np exp : snd (do_real_value rd np exp) = true.
Proof.
  unfold do_real_value.
  pose proof (do_parse_real_intg_zero (rbase np)
                (substr (Line_Reader.m_str rd) (bintg np) (eintg np)) (ld_of_Z 0)) as Hi.
  destruct (do_parse_real_intg _ _ _ true) as [intg zero]. simpl in Hi. subst zero.
  pose proof (do_parse_real_frac_zero (rbase np)
                (rev (substr (Line_Reader.m_str rd) (bfrac np) (efrac np)))
                (ld_of_Z 0)) as Hf.
  by destruct (do_parse_real_frac _ _ _ true) as [frac zero].
Qed.

(** Overflow is the one check of [do_parse_real] that can fail. *)
Lemma do_parse_real_spec rd np exp :
  do_parse_real rd np exp
  = let value := fst (do_real_value rd np exp) in
    if fp_infinite value then
      Thrown (do_make_parser_error_at rd (eexp np)
                Parser_Error.code_real_literal_overflow)
    else Returned value.
Proof.
  unfold do_parse_real. pose proof (do_real_value_zero rd np exp) as Hz.
  destruct (do_real_value rd np exp) as [value zero]. simpl in *. subst zero.
  by rewrite andb_false_r.
Qed.

Lemma do_parse_real_underflows rd np exp :
  underflows (do_parse_real rd np exp) = false.
Proof. rewrite do_parse_real_spec. cbv zeta. by case_match. Qed.

(** No numeric literal is refused as an underflow. *)
Lemma do_accept_numeric_literal_underflows lx integer_as_real :
  underflows (do_accept_numeric_literal lx integer_as_real) = false.
Proof.
  unfold do_accept_numeric_literal. case_match; [|done].
  apply throws_bind; [apply do_scan_numeric_underflows|]. intros np.
  apply throws_bind; [by apply do_parse_exponent_throws|]. intros exp.
  case_match.
  - apply throws_bind; [apply do_parse_integer_underflows|]. intros value.
    apply throws_bind; [apply do_push_token_throws|]. done.
  - apply throws_bind; [apply do_parse_real_underflows|]. intros value.
    apply throws_bind; [apply do_push_token_throws|]. done.
Qed.

End Real_Literal_Properties.

(** C2, evaluated: no numeric literal fails with [real_literal_underflow],
    whatever the arithmetic of [long double] and [std::pow] is.  A real
    literal whose value is an infinity fails with [real_literal_overflow],
    and any other value is returned, zero as well: [0.1e-999], which has a
    non-zero digit and rounds to zero, lexes to the real literal zero. *)
Theorem real_literal_underflow_is_never_raised :
  (forall (LD : Long_Double_Arith) lx integer_as_real,
     underflows (do_accept_numeric_literal lx integer_as_real) = false)
  /\ (forall (LD : Long_Double_Arith) rd np exp,
        do_parse_real rd np exp
        = let value := fst (do_real_value rd np exp) in
          if fp_infinite value then
            Thrown (do_make_parser_error_at rd (eexp np)
                      Parser_Error.code_real_literal_overflow)
          else Returned value)
  /\ do_load (sref "0.1e-999") (sref "file") default_options
     = Returned [tok 1 0 8 (Token.S_real_literal 0%float) (sref "file")]
  /\ fp_zero 0%float = true.
Proof.
  split; [intros; apply do_accept_numeric_literal_underflows|].
  split; [intros; apply do_parse_real_spec|].
  split; vm_compute; reflexivity.
Qed.

(** * Properties of the garbage collector *)

(** ** Loops *)

(** If [body] keeps [I], so does the loop, and nothing is left to pick. *)
Lemma while_erase_inv {S X : Type} (I : S -> Prop) (pick : S -> option X)
    (body : X -> S -> Outcome S) fuel st st' :
  (forall x st st', I st -> pick st = Some x -> body x st = Returned st' -> I st') ->
  I st -> while_erase pick body fuel st = Returned st' ->
  I st' /\ pick st' = None.
Proof.
  intros Hbody. revert st. induction fuel as [|fuel IH]; intros st HI; simpl.
  - destruct (pick st) eqn:E; [done|]. by intros [= <-].
  - destruct (pick st) as [x|] eqn:E; [|by intros [= <-]].
    destruct (body x st) as [st1| | | |] eqn:Eb; simpl; try done.
    apply IH. eauto.
Qed.

(** If every turn of [body] returns, keeps [I] and makes the measure [mu]
    smaller, the loop returns when [fuel] is no less than the measure. *)
Lemma while_erase_total {S X : Type} (I : S -> Prop) (mu : S -> nat)
    (pick : S -> option X) (body : X -> S -> Outcome S) fuel st :
  (forall x st, I st -> pick st = Some x ->
     exists st', body x st = Returned st' /\ I st' /\ mu st' < mu st) ->
  I st -> mu st <= fuel ->
  exists st', while_erase pick body fuel st = Returned st' /\ I st' /\ pick st' = None.
Proof.
  intros Hbody. revert st. induction fuel as [|fuel IH]; intros st HI Hmu; simpl.
  - destruct (pick st) as [x|] eqn:E; [|by eexists].
    destruct (Hbody x st HI E) as (st' & _ & _ & Hlt). lia.
  - destruct (pick st) as [x|] eqn:E; [|by eexists].
    destruct (Hbody x st HI E) as (st' & -> & HI' & Hlt). simpl.
    apply IH; [done|lia].
Qed.

Lemma while_erase_settles {S X : Type} (I : S -> Prop) (mu : S -> nat)
    (pick : S -> option X) (body : X -> S -> Outcome S) fuel st :
  (forall x st, I st -> pick st = Some x ->
     0 < mu st
     /\ ((exists st', body x st = Returned st' /\ I st' /\ mu st' < mu st)
         \/ exists msg, body x st = Terminated msg)) ->
  I st -> mu st <= fuel ->
  (exists st', while_erase pick body fuel st = Returned st' /\ I st' /\ pick st' = None)
  \/ exists msg, while_erase pick body fuel st = Terminated msg.
Proof.
  intros Hbody. revert st. induction fuel as [|fuel IH]; intros st HI Hmu; simpl.
  - destruct (pick st) as [x|] eqn:E; [|left; by eexists].
    destruct (Hbody x st HI E) as [Hpos _]. lia.
  - destruct (pick st) as [x|] eqn:E; [|left; by eexists].
    destruct (Hbody x st HI E) as [_ [(st' & -> & HI' & Hlt)|[msg ->]]]; simpl.
    + apply IH; [done|lia].
    + right. by eexists.
Qed.

(** ** References *)

Lemma all_slots_lookup vars o i :
  all_slots vars !! (o, i)
  = vars !! o ≫= fun var => referenced_variables (m_value var) !! i.
Proof.
  unfold all_slots. rewrite lookup_map_uncurry, lookup_fmap.
  destruct (vars !! o) as [var|]; simpl; [|done]. apply lookup_map_seq_0.
Qed.

Lemma all_slots_alter_value f v vars :
  (forall var, m_value (f var) = m_value var) ->
  all_slots (alter f v vars) = all_slots vars.
Proof.
  intros Hf. apply map_eq. intros [o i]. rewrite !all_slots_lookup.
  destruct (decide (o = v)) as [->|Hne].
  - rewrite lookup_alter_eq. destruct (vars !! v); simpl; [|done]. by rewrite Hf.
  - by rewrite lookup_alter_ne.
Qed.

Lemma all_slots_uninitialize v vars k w :
  all_slots (alter uninitialize v vars) !! k = Some w <->
  all_slots vars !! k = Some w /\ k.1 <> v.
Proof.
  destruct k as [o i]. rewrite !all_slots_lookup. simpl.
  destruct (decide (o = v)) as [->|Hne].
  - rewrite lookup_alter_eq. destruct (vars !! v); simpl; [|naive_solver].
    rewrite lookup_nil. naive_solver.
  - rewrite lookup_alter_ne by done. naive_solver.
Qed.

Lemma all_slots_insert_new v vars :
  vars !! v = None -> all_slots (<[v := new_Variable]> vars) = all_slots vars.
Proof.
  intros Hv. apply map_eq. intros [o i]. rewrite !all_slots_lookup.
  destruct (decide (o = v)) as [->|Hne].
  - rewrite lookup_insert_eq, Hv. simpl. apply lookup_nil.
  - by rewrite lookup_insert_ne.
Qed.

(** ** Staging the references of a value *)

Lemma foldl_do_stage_staged l acc k w :
  NoDup l.*1 ->
  (foldl do_stage acc l).1 !! k = Some w <->
  acc.1 !! k = Some w \/ (acc.1 !! k = None /\ (k, w) ∈ l).
Proof.
  revert acc. induction l as [|[k0 w0] l IH]; intros acc Hnd; simpl.
  - set_solver.
  - apply NoDup_cons in Hnd as [Hk0 Hnd]. rewrite IH by done.
    unfold do_stage at 1 2. simpl.
    destruct (acc.1 !! k0) as [x|] eqn:E; simpl.
    + set_solver.
    + destruct (decide (k = k0)) as [->|Hne].
      * rewrite lookup_insert_eq, E.
        assert (forall w', (k0, w') ∉ l).
        { intros w' Hin. apply Hk0. apply list_elem_of_fmap. by exists (k0, w'). }
        set_solver.
      * rewrite lookup_insert_ne by done. set_solver.
Qed.

Lemma foldl_do_stage_temp l acc w :
  NoDup l.*1 ->
  w ∈ (foldl do_stage acc l).2 <->
  w ∈ acc.2 \/ exists k, acc.1 !! k = None /\ (k, w) ∈ l.
Proof.
  revert acc. induction l as [|[k0 w0] l IH]; intros acc Hnd; simpl.
  - set_solver.
  - apply NoDup_cons in Hnd as [Hk0 Hnd]. rewrite IH by done.
    assert (Hfresh : forall w', (k0, w') ∉ l).
    { intros w' Hin. apply Hk0. apply list_elem_of_fmap. by exists (k0, w'). }
    unfold do_stage at 1 2. simpl.
    destruct (acc.1 !! k0) as [x|] eqn:E; simpl.
    + split; [set_solver|]. intros [?|(k & Hk & Hin)]; [by left|].
      apply elem_of_cons in Hin as [[= -> ->]|Hin]; [congruence|]. right. eauto.
    + split.
      * intros [Hw|(k & Hk & Hin)].
        -- apply elem_of_union in Hw as [Hw|Hw]; [|by left].
           apply elem_of_singleton in Hw as ->. right. exists k0. set_solver.
        -- right. exists k. split; [|set_solver].
           destruct (decide (k = k0)) as [->|Hne]; [done|].
           by rewrite lookup_insert_ne in Hk.
      * intros [?|(k & Hk & Hin)]; [set_solver|].
        apply elem_of_cons in Hin as [[= -> ->]|Hin]; [set_solver|].
        right. exists k. split; [|done].
        rewrite lookup_insert_ne; [done|]. intros <-. by apply (Hfresh w).
Qed.

Lemma foldl_do_stage_size l acc :
  size acc.1 <= size (foldl do_stage acc l).1
  /\ size (foldl do_stage acc l).2 + size acc.1
     <= size acc.2 + size (foldl do_stage acc l).1.
Proof.
  revert acc. induction l as [|[k0 w0] l IH]; intros acc; simpl; [lia|].
  destruct (IH (do_stage acc (k0, w0))) as [H1 H2].
  unfold do_stage in *. simpl in *.
  destruct (acc.1 !! k0) as [x|] eqn:E; simpl in *; [done|].
  rewrite map_size_insert_None in * by done.
  pose proof (size_union_alt {[w0]} acc.2) as Hu.
  rewrite size_singleton in Hu.
  pose proof (subseteq_size (acc.2 ∖ {[w0]}) acc.2 ltac:(set_solver)).
  lia.
Qed.

Lemma elem_of_value_slots owner val k w :
  (k, w) ∈ value_slots owner val <->
  exists i, k = (owner, i) /\ referenced_variables val !! i = Some w.
Proof.
  unfold value_slots. rewrite elem_of_lookup_imap. naive_solver.
Qed.

Lemma NoDup_value_slots owner val : NoDup (value_slots owner val).*1.
Proof.
  unfold value_slots. rewrite fmap_imap.
  apply NoDup_alt. intros i j k. rewrite !list_lookup_imap.
  destruct (referenced_variables val !! i), (referenced_variables val !! j);
    simpl; naive_solver.
Qed.

Lemma get_variables_staged owner val staged temp k w :
  (get_variables owner val staged temp).1 !! k = Some w <->
  staged !! k = Some w
  \/ (staged !! k = None
      /\ exists i, k = (owner, i) /\ referenced_variables val !! i = Some w).
Proof.
  unfold get_variables. fold (value_slots owner val).
  rewrite foldl_do_stage_staged by apply NoDup_value_slots.
  simpl. by rewrite elem_of_value_slots.
Qed.

Lemma get_variables_temp owner val staged temp w :
  w ∈ (get_variables owner val staged temp).2 <->
  w ∈ temp
  \/ exists i, staged !! (owner, i) = None /\ referenced_variables val !! i = Some w.
Proof.
  unfold get_variables. fold (value_slots owner val).
  rewrite foldl_do_stage_temp by apply NoDup_value_slots. simpl.
  split; (intros [?|H]; [by left|right]).
  - destruct H as (k & Hk & Hin). apply elem_of_value_slots in Hin as (i & -> & Hi).
    eauto.
  - destruct H as (i & Hk & Hi). exists (owner, i). split; [done|].
    apply elem_of_value_slots. eauto.
Qed.

Lemma get_variables_size owner val staged temp :
  size staged <= size (get_variables owner val staged temp).1
  /\ size (get_variables owner val staged temp).2 + size staged
     <= size temp + size (get_variables owner val staged temp).1.
Proof. apply (foldl_do_stage_size _ (staged, temp)). Qed.

(** ** Sizes *)

Lemma size_erase (s : gset var_id) v : v ∈ s -> size (s ∖ {[v]}) + 1 = size s.
Proof.
  intros Hv. rewrite size_difference by set_solver. rewrite size_singleton.
  assert (size s <> 0); [|lia]. intros E. apply size_empty_inv in E. set_solver.
Qed.

Lemma size_erase_le (s : gset var_id) v : size (s ∖ {[v]}) <= size s.
Proof. apply subseteq_size. set_solver. Qed.

Lemma size_add (s : gset var_id) v : size ({[v]} ∪ s) <= S (size s).
Proof.
  rewrite size_union_alt, size_singleton.
  pose proof (subseteq_size (s ∖ {[v]}) s ltac:(set_solver)). lia.
Qed.

Lemma get_value_alter_gc_ref st f v w :
  (forall var, m_value (f var) = m_value var) ->
  get_value (set_variables (alter f v (variables st)) st) w = get_value st w.
Proof.
  intros Hf. unfold get_value. simpl. destruct (decide (v = w)) as [->|Hne].
  - rewrite lookup_alter_eq. destruct (variables st !! w); simpl; by rewrite ?Hf.
  - by rewrite lookup_alter_ne.
Qed.

Lemma get_value_slot st v i w :
  referenced_variables (get_value st v) !! i = Some w ->
  all_slots (variables st) !! (v, i) = Some w.
Proof.
  unfold get_value. rewrite all_slots_lookup.
  destruct (variables st !! v); simpl; [done|]. by rewrite lookup_nil.
Qed.

Lemma slot_get_value st v i w :
  all_slots (variables st) !! (v, i) = Some w ->
  referenced_variables (get_value st v) !! i = Some w.
Proof.
  unfold get_value. rewrite all_slots_lookup.
  destruct (variables st !! v); simpl; done.
Qed.

(** Staging the references of a variable keeps [staged] within the
    references in memory. *)
Lemma get_variables_subseteq st v staged temp :
  staged ⊆ all_slots (variables st) ->
  (get_variables v (get_value st v) staged temp).1 ⊆ all_slots (variables st).
Proof.
  intros Hsub. apply map_subseteq_spec. intros k w Hk.
  apply get_variables_staged in Hk as [Hk|(_ & i & -> & Hi)].
  - by eapply map_subseteq_spec.
  - by apply get_value_slot.
Qed.

Section Termination.

Context `{ER : Erase_Random}.

(** The potential of the loops that stage references: what can still be
    staged, and what is waiting in [temp]. *)
Lemma get_variables_potential st v staged temp :
  staged ⊆ all_slots (variables st) ->
  let r := get_variables v (get_value st v) staged temp in
  size r.2 + (size (all_slots (variables st)) - size r.1)
  <= size temp + (size (all_slots (variables st)) - size staged).
Proof.
  intros Hsub r.
  pose proof (get_variables_subseteq st v staged temp Hsub) as Hsub'.
  apply map_subseteq_size in Hsub, Hsub'.
  destruct (get_variables_size v (get_value st v) staged temp) as [H1 H2].
  subst r. lia.
Qed.

Lemma do_scan_step_slots var st :
  all_slots (variables (do_scan_step var st)) = all_slots (variables st).
Proof.
  unfold do_scan_step. destruct (get_variables _ _ _ _) as [staged temp]. simpl.
  by apply all_slots_alter_value.
Qed.

Lemma do_scan_step_potential var st :
  var ∈ m_temp_1 st ->
  m_staged st ⊆ all_slots (variables st) ->
  let st' := do_scan_step var st in
  m_staged st' ⊆ all_slots (variables st)
  /\ size (m_temp_1 st') + (size (all_slots (variables st)) - size (m_staged st'))
     < size (m_temp_1 st) + (size (all_slots (variables st)) - size (m_staged st)).
Proof.
  intros Hvar Hsub st'. subst st'. unfold do_scan_step.
  set (st1 := set_variables _ _).
  assert (Hslots : all_slots (variables st1) = all_slots (variables st)).
  { subst st1. simpl. by apply all_slots_alter_value. }
  pose proof (get_variables_subseteq st1 var (m_staged st1) (m_temp_1 st1)) as H1.
  pose proof (get_variables_potential st1 var (m_staged st1) (m_temp_1 st1)) as H2.
  rewrite Hslots in H1, H2. specialize (H1 Hsub). specialize (H2 Hsub).
  destruct (get_variables _ _ _ _) as [staged temp]. simpl in *.
  split; [done|]. pose proof (size_erase _ _ Hvar). lia.
Qed.

Lemma do_scan_total fuel st :
  m_staged st ⊆ all_slots (variables st) ->
  size (m_temp_1 st) + (size (all_slots (variables st)) - size (m_staged st)) <= fuel ->
  exists st', do_scan fuel st = Returned st'
    /\ all_slots (variables st') = all_slots (variables st)
    /\ m_staged st' ⊆ all_slots (variables st)
    /\ m_temp_1 st' = ∅.
Proof.
  intros Hsub Hfuel. unfold do_scan.
  destruct (while_erase_total
    (fun st' => all_slots (variables st') = all_slots (variables st)
                /\ m_staged st' ⊆ all_slots (variables st))
    (fun st' => size (m_temp_1 st')
                + (size (all_slots (variables st)) - size (m_staged st')))
    (fun st => choose_var (m_temp_1 st))
    (fun var st => Returned (do_scan_step var st)) fuel st)
    as (st' & Hr & [Hs Hsub'] & Hp); [|done|done|].
  - intros var st1 [Hs1 Hsub1] Hpick. eexists. split; [done|].
    apply choose_var_Some in Hpick.
    rewrite <- Hs1 in Hsub1 |- *.
    destruct (do_scan_step_potential var st1 Hpick Hsub1) as [H1 H2].
    rewrite do_scan_step_slots. done.
  - exists st'. repeat split; try done. by apply choose_var_None.
Qed.

Lemma do_count_step_settles ref st :
  (exists st', do_count_step ref st = Returned st'
     /\ variables st' = alter (fun x => set_gc_ref (m_gc_ref x + 1) x) ref.2 (variables st)
     /\ m_staged st' = delete ref.1 (m_staged st)
     /\ m_temp_1 st' = {[ref.2]} ∪ m_temp_1 st)
  \/ exists msg, do_count_step ref st = Terminated msg.
Proof.
  unfold do_count_step. destruct (gc_ref_in_range _ _).
  - left. eexists. split; [done|]. done.
  - right. by eexists.
Qed.

Lemma do_count_step_Returned ref st st' :
  do_count_step ref st = Returned st' ->
  st' = set_temp_1 ({[ref.2]} ∪ m_temp_1 st)
          (set_variables
             (alter (fun x => set_gc_ref (m_gc_ref x + 1) x) ref.2 (variables st))
             (set_staged (delete ref.1 (m_staged st)) st)).
Proof.
  unfold do_count_step. destruct (gc_ref_in_range _ _); [|done]. by intros [= <-].
Qed.

(** The second loop ends within its bound: it returns with nothing staged,
    or its assertion terminates the program. *)
Lemma do_count_settles fuel st :
  size (m_staged st) <= fuel ->
  (exists st', do_count fuel st = Returned st'
     /\ all_slots (variables st') = all_slots (variables st)
     /\ m_staged st' = ∅
     /\ size (m_temp_1 st') <= size (m_temp_1 st) + size (m_staged st))
  \/ exists msg, do_count fuel st = Terminated msg.
Proof.
  intros Hfuel. unfold do_count.
  destruct (while_erase_settles
    (fun st' => all_slots (variables st') = all_slots (variables st)
                /\ size (m_temp_1 st') + size (m_staged st')
                   <= size (m_temp_1 st) + size (m_staged st))
    (fun st' => size (m_staged st'))
    (fun st => choose_ref (m_staged st)) do_count_step fuel st)
    as [(st' & Hr & [Hs Hsz] & Hp)|[msg Hr]]; [|done|done| |].
  - intros [k w] st1 [Hs1 Hsz1] Hpick. apply choose_ref_Some in Hpick.
    assert (size (m_staged st1) <> 0).
    { intros E. apply map_size_empty_inv in E. rewrite E in Hpick. done. }
    split; [lia|].
    destruct (do_count_step_settles (k, w) st1) as [(st' & -> & Hv & Hg & Ht)|[msg ->]];
      [left|right; by eexists].
    exists st'. split; [done|]. rewrite Hv, Hg, Ht. simpl.
    rewrite all_slots_alter_value by done.
    rewrite map_size_delete_Some by done.
    pose proof (size_add (m_temp_1 st1) w). repeat split; [done|lia|lia].
  - left. apply choose_ref_None in Hp. exists st'. rewrite Hp in *.
    rewrite map_size_empty in Hsz. repeat split; try done. lia.
  - right. by eexists.
Qed.

Lemma do_reach_step_spec var st :
  m_staged st ⊆ all_slots (variables st) ->
  let st' := do_reach_step var st in
  let slots := size (all_slots (variables st)) in
  all_slots (variables st') = all_slots (variables st)
  /\ m_staged st' ⊆ all_slots (variables st)
  /\ m_temp_1 st' = m_temp_1 st
  /\ marking_potential slots st' <= S (marking_potential slots st)
  /\ size (m_temp_2 st') + (slots - size (m_staged st'))
     <= size (m_temp_2 st) + (slots - size (m_staged st)).
Proof.
  intros Hsub st' slots. subst st' slots. unfold do_reach_step, marking_potential.
  set (st1 := set_reachable _ _).
  assert (Hslots : all_slots (variables st1) = all_slots (variables st)).
  { subst st1. simpl. by apply all_slots_alter_value. }
  pose proof (get_variables_subseteq st1 var (m_staged st1) (m_temp_2 st1)) as H1.
  pose proof (get_variables_potential st1 var (m_staged st1) (m_temp_2 st1)) as H2.
  rewrite Hslots in H1, H2. specialize (H1 Hsub). specialize (H2 Hsub).
  destruct (get_variables _ _ _ _) as [staged temp]. simpl in *.
  pose proof (size_erase_le (m_unreachable st) var).
  pose proof (size_add (m_reachable st) var).
  repeat split; try done; lia.
Qed.

Lemma do_reach_total fuel var st :
  m_staged st ⊆ all_slots (variables st) ->
  size (m_temp_2 st) + (size (all_slots (variables st)) - size (m_staged st)) <= fuel ->
  exists st', do_reach fuel var st = Returned st'
    /\ all_slots (variables st') = all_slots (variables st)
    /\ m_staged st' ⊆ all_slots (variables st)
    /\ m_temp_1 st' = m_temp_1 st
    /\ m_temp_2 st' = ∅
    /\ marking_potential (size (all_slots (variables st))) st'
       <= S (marking_potential (size (all_slots (variables st))) st).
Proof.
  intros Hsub Hfuel. unfold do_reach.
  destruct (do_reach_step_spec var st Hsub) as (Hs0 & Hsub0 & Ht0 & Hp0 & Hq0).
  set (slots := size (all_slots (variables st))) in *.
  destruct (while_erase_total
    (fun st' => all_slots (variables st') = all_slots (variables st)
                /\ m_staged st' ⊆ all_slots (variables st)
                /\ m_temp_1 st' = m_temp_1 st
                /\ marking_potential slots st' <= S (marking_potential slots st))
    (fun st' => size (m_temp_2 st') + (slots - size (m_staged st')))
    (fun st => choose_var (m_temp_2 st))
    (fun var st =>
       Returned (do_reach_step var (set_temp_2 (m_temp_2 st ∖ {[var]}) st)))
    fuel (do_reach_step var st))
    as (st' & Hr & (Hs & Hsub' & Ht & Hpot) & Hp); [|done|lia|].
  - intros var' st1 (Hs1 & Hsub1 & Ht1 & Hp1) Hpick. eexists. split; [done|].
    apply choose_var_Some in Hpick.
    set (st2 := set_temp_2 _ st1).
    assert (Hsub2 : m_staged st2 ⊆ all_slots (variables st2))
      by (subst st2; simpl; by rewrite Hs1).
    destruct (do_reach_step_spec var' st2 Hsub2) as (Hs2 & Hsub2' & Ht2 & Hp2 & Hq2).
    simpl in Hs2, Hsub2', Ht2, Hp2, Hq2. rewrite Hs1 in Hs2, Hsub2', Hp2, Hq2.
    fold slots in Hp2, Hq2.
    pose proof (size_erase _ _ Hpick) as He.
    unfold marking_potential in *. simpl in *.
    repeat split; try done; try congruence; lia.
  - apply choose_var_None in Hp. by exists st'.
Qed.

Lemma do_mark_total fuel bound st :
  m_staged st ⊆ all_slots (variables st) ->
  m_temp_2 st = ∅ ->
  size (m_temp_1 st) <= fuel ->
  size (all_slots (variables st)) <= bound ->
  exists st', do_mark fuel bound st = Returned st'
    /\ all_slots (variables st') = all_slots (variables st)
    /\ m_temp_1 st' = ∅
    /\ size (m_unreachable st') + size (m_reachable st')
       <= size (m_temp_1 st)
          + marking_potential (size (all_slots (variables st))) st.
Proof.
  intros Hsub Ht2 Hfuel Hbound. unfold do_mark.
  set (slots := size (all_slots (variables st))) in *.
  destruct (while_erase_total
    (fun st' => all_slots (variables st') = all_slots (variables st)
                /\ m_staged st' ⊆ all_slots (variables st)
                /\ m_temp_2 st' = ∅
                /\ size (m_temp_1 st') + marking_potential slots st'
                   <= size (m_temp_1 st) + marking_potential slots st)
    (fun st' => size (m_temp_1 st'))
    (fun st => choose_var (m_temp_1 st)) (do_mark_step bound) fuel st)
    as (st' & Hr & (Hs & Hsub' & Ht2' & Hpot) & Hp); [|done|done|].
  - intros var st1 (Hs1 & Hsub1 & Ht1 & Hp1) Hpick.
    apply choose_var_Some in Hpick. pose proof (size_erase _ _ Hpick) as He.
    unfold do_mark_step. set (st2 := set_temp_1 _ st1).
    destruct (is_internal st2 var).
    + eexists. split; [done|].
      pose proof (size_add (m_unreachable st1) var).
      unfold marking_potential in *. simpl in *. repeat split; try done; lia.
    + destruct (do_reach_total bound var st2) as (st3 & Hr & Hs3 & Hsub3 & Ht3 & Hz3 & Hp3).
      { simpl. by rewrite Hs1. }
      { simpl. rewrite Hs1, Ht1, size_empty. fold slots. lia. }
      exists st3. simpl in *. rewrite Hs1 in Hs3, Hsub3, Hp3. fold slots in Hp3.
      unfold marking_potential in *. simpl in *.
      repeat split; try done; try congruence; rewrite Ht3; simpl; lia.
  - apply choose_var_None in Hp. exists st'. rewrite Hp, size_empty in Hpot.
    unfold marking_potential in Hpot at 1. repeat split; try done. lia.
Qed.

Lemma do_sweep_total fuel gen st :
  size (m_unreachable st) <= fuel ->
  exists st' nvars, do_sweep fuel gen st = Returned (st', nvars)
    /\ m_reachable st' = m_reachable st.
Proof.
  intros Hfuel. unfold do_sweep.
  destruct (while_erase_total
    (fun acc : Runtime * nat => m_reachable acc.1 = m_reachable st)
    (fun acc => size (m_unreachable acc.1))
    (fun acc : Runtime * nat => choose_var (m_unreachable acc.1))
    (fun var acc => Returned (do_sweep_step gen var acc)) fuel (st, 0))
    as ([st' nvars] & Hr & Hs & Hp); [|done|done|].
  - intros var [st1 n1] Hs1 Hpick. eexists. split; [done|].
    apply choose_var_Some in Hpick. pose proof (size_erase _ _ Hpick) as He.
    unfold do_sweep_step. simpl in *. case_bool_decide; simpl; (split; [done|lia]).
  - by exists st', nvars.
Qed.

Lemma do_promote_total fuel gen st :
  size (m_reachable st) <= fuel ->
  exists st', do_promote fuel gen st = Returned st'.
Proof.
  intros Hfuel. unfold do_promote.
  destruct (while_erase_total (fun _ => True)
    (fun st => size (m_reachable st))
    (fun st => choose_var (m_reachable st))
    (fun var st => Returned (do_promote_step gen var st)) fuel st)
    as (st' & Hr & _ & Hp); [|done|done|].
  - intros var st1 _ Hpick. eexists. split; [done|]. split; [done|].
    apply choose_var_Some in Hpick. pose proof (size_erase _ _ Hpick) as He.
    unfold do_promote_step. simpl in *. case_bool_decide; simpl; lia.
  - by exists st'.
Qed.

(** ** What the loops leave as it is *)

Lemma same_members_refl st : same_members st st.
Proof. by repeat split. Qed.

Lemma same_members_trans st1 st2 st3 :
  same_members st1 st2 -> same_members st2 st3 -> same_members st1 st3.
Proof.
  unfold same_members. intros H1 H2. destruct_and!.
  repeat split; try congruence.
  all: intros v; etransitivity; eauto.
Qed.

Lemma do_scan_step_frame var st :
  same_members st (do_scan_step var st) /\ same_marks st (do_scan_step var st).
Proof.
  unfold do_scan_step. destruct (get_variables _ _ _ _) as [staged temp].
  unfold same_members, same_marks. simpl. rewrite dom_alter_L.
  repeat split.
  all: intros v; by apply (get_value_alter_gc_ref st).
Qed.

Lemma do_count_step_frame ref st st' :
  do_count_step ref st = Returned st' -> same_members st st' /\ same_marks st st'.
Proof.
  intros ->%do_count_step_Returned.
  unfold same_members, same_marks. simpl. rewrite dom_alter_L.
  repeat split.
  all: intros v; by apply (get_value_alter_gc_ref st).
Qed.

Lemma do_reach_step_frame var st : same_members st (do_reach_step var st).
Proof.
  unfold do_reach_step. destruct (get_variables _ _ _ _) as [staged temp].
  unfold same_members. simpl. rewrite dom_alter_L.
  repeat split.
  all: intros v; by apply (get_value_alter_gc_ref st).
Qed.

Lemma do_scan_frame fuel st st' :
  do_scan fuel st = Returned st' -> same_members st st' /\ same_marks st st'.
Proof.
  intros H. eapply (while_erase_inv
    (fun st' => same_members st st' /\ same_marks st st')) in H as [H _]; [done| |done].
  intros var st1 st2 [Hm Hk] _ [= <-].
  destruct (do_scan_step_frame var st1) as [Hm' Hk'].
  split; [by eapply same_members_trans|].
  unfold same_marks in *. destruct_and!. repeat split; congruence.
Qed.

Lemma do_count_frame fuel st st' :
  do_count fuel st = Returned st' -> same_members st st' /\ same_marks st st'.
Proof.
  intros H. eapply (while_erase_inv
    (fun st' => same_members st st' /\ same_marks st st')) in H as [H _]; [done| |done].
  intros ref st1 st2 [Hm Hk] _ Hstep.
  destruct (do_count_step_frame ref st1 st2 Hstep) as [Hm' Hk'].
  split; [by eapply same_members_trans|].
  unfold same_marks in *. destruct_and!. repeat split; congruence.
Qed.

Lemma do_reach_frame fuel var st st' :
  do_reach fuel var st = Returned st' -> same_members st st'.
Proof.
  unfold do_reach. intros H.
  eapply (while_erase_inv (fun st' => same_members st st')) in H as [H _];
    [done| |apply do_reach_step_frame].
  intros var' st1 st2 Hm _ [= <-].
  eapply same_members_trans; [done|].
  eapply same_members_trans; [|apply do_reach_step_frame]. by repeat split.
Qed.

Lemma do_mark_frame fuel bound st st' :
  do_mark fuel bound st = Returned st' -> same_members st st'.
Proof.
  unfold do_mark. intros H.
  eapply (while_erase_inv (fun st' => same_members st st')) in H as [H _];
    [done| |apply same_members_refl].
  intros var st1 st2 Hm _. unfold do_mark_step. case_match.
  - intros [= <-]. eapply same_members_trans; [done|]. by repeat split.
  - intros Hr%do_reach_frame. eapply same_members_trans; [done|].
    eapply same_members_trans; [|done]. by repeat split.
Qed.

(** A collection ends within its bounds: its first loop returns, and it
    returns when its second loop does; where the assertion of that one
    fails, it terminates the program. *)
Lemma do_collect_total gen st :
  exists st1,
    do_scan (collection_bound gen st) (scan_start gen st) = Returned st1
    /\ ((exists msg, do_count (collection_bound gen st) st1 = Terminated msg
                     /\ do_collect gen st = Terminated msg)
        \/ exists st2 r, do_count (collection_bound gen st) st1 = Returned st2
                         /\ do_collect gen st = Returned r).
Proof.
  unfold do_collect. fold (scan_start gen st).
  set (bound := collection_bound gen st).
  set (slots := size (all_slots (variables st))).
  set (ntracked := size (m_tracked st (gMax - gen))).
  assert (Hbound : bound = S (ntracked + 2 * slots)) by done.
  set (st0 := scan_start gen st).
  destruct (do_scan_total bound st0) as (st1 & Hr1 & Hs1 & Hsub1 & Ht1).
  { simpl. apply map_empty_subseteq. }
  { simpl. rewrite map_size_empty, union_empty_l_L. fold slots ntracked. lia. }
  exists st1. split; [done|].
  rewrite Hr1. apply do_scan_frame in Hr1 as [Hm1 Hk1].
  simpl in Hs1, Hsub1. cbn [mbind Outcome_bind].
  destruct (do_count_settles bound st1) as [(st2 & Hr2 & Hs2 & Hz2 & Hsz2)|[msg Hr2]].
  { apply map_subseteq_size in Hsub1. fold slots in Hsub1. lia. }
  2:{ left. exists msg. by rewrite Hr2. }
  right. exists st2. rewrite Hr2. apply do_count_frame in Hr2 as [Hm2 Hk2].
  cbn [mbind Outcome_bind].
  set (st3 := set_temp_1 _ st2).
  assert (Htracked : m_tracked st2 = m_tracked st).
  { destruct Hm1 as (_ & _ & _ & _ & _ & Hm1 & _).
    destruct Hm2 as (_ & _ & _ & _ & _ & Hm2 & _). by rewrite Hm2, Hm1. }
  assert (Hmarks : m_temp_2 st2 = ∅ /\ m_unreachable st2 = ∅ /\ m_reachable st2 = ∅).
  { destruct Hk1 as (Ha & Hb & Hc), Hk2 as (Ha' & Hb' & Hc').
    rewrite Ha', Hb', Hc', Ha, Hb, Hc. done. }
  destruct Hmarks as (Hz2a & Hz2b & Hz2c).
  assert (Htr : size (m_temp_1 st3) <= slots + ntracked).
  { subst st3. simpl. rewrite size_union_alt, Htracked.
    pose proof (subseteq_size (m_tracked st (gMax - gen) ∖ m_temp_1 st2)
                  (m_tracked st (gMax - gen)) ltac:(set_solver)).
    apply map_subseteq_size in Hsub1. fold slots in Hsub1.
    rewrite Ht1, size_empty in Hsz2. fold ntracked in H. lia. }
  assert (Hs3 : all_slots (variables st3) = all_slots (variables st))
    by (subst st3; simpl; congruence).
  destruct (do_mark_total bound bound st3) as (st4 & Hr4 & Hs4 & Ht4 & Hsz4).
  { subst st3. simpl. rewrite Hz2. apply map_empty_subseteq. }
  { done. }
  { lia. }
  { rewrite Hs3. fold slots. lia. }
  rewrite Hr4. cbn [mbind Outcome_bind].
  assert (Hpot : size (m_unreachable st4) + size (m_reachable st4)
                 <= ntracked + 2 * slots).
  { rewrite Hs3 in Hsz4. fold slots in Hsz4. unfold marking_potential in Hsz4.
    subst st3. simpl in *. rewrite Hz2a, Hz2b, Hz2c, Hz2 in Hsz4.
    rewrite !size_empty, map_size_empty in Hsz4. lia. }
  destruct (do_sweep_total bound gen st4) as (st5 & nvars & Hr5 & Hreach5); [lia|].
  rewrite Hr5. cbn [mbind Outcome_bind].
  destruct (decide (gen < gMax)); cbn [mbind Outcome_bind]; [|by eexists].
  destruct (do_promote_total bound gen st5) as (st6 & ->); [rewrite Hreach5; lia|].
  by eexists.
Qed.

(** A collection of a generation that exists returns or is terminated by
    its assertion. *)
Lemma do_collect_generation_settles gen st :
  gen <= gMax -> returns_or_aborts (do_collect_generation gen st).
Proof.
  intros Hgen. unfold do_collect_generation.
  destruct (negb _); [done|].
  destruct (decide (gMax < gen)); [lia|].
  destruct (do_collect_total gen (set_recur (m_recur st + 1) st))
    as (st1 & _ & [(msg & _ & ->)|(st2 & [st' nvars] & _ & ->)]); done.
Qed.

End Termination.

(** ** The sweep and the promotion *)

Section Sweep_And_Promote.

Context `{ER : Erase_Random}.

Lemma do_sweep_spec fuel gen st st' nvars :
  do_sweep fuel gen st = Returned (st', nvars) ->
  swept gen (m_unreachable st) st st' /\ nvars = size (m_unreachable st)
  /\ m_unreachable st' = ∅.
Proof.
  unfold do_sweep. intros H.
  eapply (while_erase_inv
    (fun acc : Runtime * nat =>
       m_unreachable acc.1 ⊆ m_unreachable st
       /\ swept gen (m_unreachable st ∖ m_unreachable acc.1) st acc.1
       /\ acc.2 = size (m_unreachable st ∖ m_unreachable acc.1))) in H
    as [(Hsub & Hsw & Hn) Hp].
  - apply choose_var_None in Hp. simpl in *. rewrite Hp in *.
    rewrite difference_empty_L in Hsw, Hn. done.
  - clear H st' nvars. intros var [st1 n1] acc2 (Hsub & Hsw & Hn) Hpick [= <-].
    apply choose_var_Some in Hpick. simpl in *.
    assert (Hdone : m_unreachable st ∖ (m_unreachable st1 ∖ {[var]})
                    = {[var]} ∪ (m_unreachable st ∖ m_unreachable st1)).
    { apply set_eq. intros x. destruct (decide (x = var)); set_solver. }
    assert (Hfst : (do_sweep_step gen var (st1, n1)).1
                   = set_pool (m_pool st1
                               ∪ ({[var]} ∩ m_tracked st1 (gMax - gen)))
                       (set_tracked_at (gMax - gen)
                          (m_tracked st1 (gMax - gen) ∖ {[var]})
                          (set_variables (alter uninitialize var (variables st1))
                             (set_unreachable (m_unreachable st1 ∖ {[var]}) st1)))).
    { clear. unfold do_sweep_step. simpl. case_bool_decide as Hin; simpl.
      - unfold set_pool. simpl. f_equal. set_solver.
      - unfold set_pool, set_tracked_at, set_tracked. simpl. f_equal. set_solver. }
    assert (Hsnd : (do_sweep_step gen var (st1, n1)).2 = n1 + 1).
    { unfold do_sweep_step. simpl. by case_bool_decide. }
    destruct Hsw.
    rewrite Hfst, Hsnd. simpl. split; [set_solver + Hsub|]. split.
    + rewrite Hdone. split; simpl; try done.
      * intros v. destruct (decide (v = var)) as [->|Hne].
        -- rewrite lookup_alter_eq, swept_variables0.
           destruct (decide (var ∈ m_unreachable st ∖ m_unreachable st1)) as [Hv|Hv];
             [exfalso; set_solver + Hv Hpick|].
           destruct (decide (var ∈ {[var]} ∪ m_unreachable st ∖ m_unreachable st1))
             as [Hv'|Hv']; [done|exfalso; set_solver + Hv'].
        -- rewrite lookup_alter_ne by done. rewrite swept_variables0.
           destruct (decide (v ∈ m_unreachable st ∖ m_unreachable st1)) as [Hv|Hv];
             destruct (decide (v ∈ {[var]} ∪ m_unreachable st ∖ m_unreachable st1))
               as [Hv'|Hv']; try done; exfalso; set_solver + Hv Hv' Hne.
      * rewrite fn_lookup_insert, swept_tracked0. clear. set_solver.
      * intros i Hi. rewrite fn_lookup_insert_ne by done. by apply swept_tracked_ne0.
      * rewrite swept_pool0, swept_tracked0. set_solver + Hpick.
    + rewrite Hdone, size_union, size_singleton by set_solver + Hpick. lia.
  - simpl. rewrite difference_diag_L. split; [done|]. split; [|by rewrite size_empty].
    split; simpl; try done; clear; set_solver.
Qed.

Lemma do_promote_step_spec gen var st :
  gen < gMax ->
  promoted gen {[var]} st (do_promote_step gen var st)
  /\ m_reachable (do_promote_step gen var st) = m_reachable st ∖ {[var]}.
Proof.
  intros Hgen.
  assert (gMax - gen - 1 <> gMax - gen) by (unfold gMax in *; lia).
  assert (gMax - gen <> gMax - gen - 1) by (unfold gMax in *; lia).
  unfold do_promote_step. simpl. rewrite fn_lookup_insert_ne by done.
  case_bool_decide as Hin; simpl.
  - split; [|done]. split; simpl; try done.
    + by rewrite fn_lookup_insert.
    + rewrite fn_lookup_insert_ne, fn_lookup_insert by done. set_solver + Hin.
    + intros i H1 H2. by rewrite !fn_lookup_insert_ne.
    + rewrite fn_lookup_insert.
      replace ({[var]} ∩ m_tracked st (gMax - gen)) with ({[var]} : gset var_id)
        by set_solver + Hin.
      rewrite size_singleton. done.
    + intros i Hi. by rewrite fn_lookup_insert_ne.
  - split; [|done]. split; simpl; try done.
    + rewrite fn_lookup_insert_ne, fn_lookup_insert by done. set_solver + Hin.
    + rewrite fn_lookup_insert. rewrite fn_lookup_insert_ne, fn_lookup_insert by done.
      set_solver + Hin.
    + intros i H1 H2. by rewrite !fn_lookup_insert_ne.
    + replace ({[var]} ∩ m_tracked st (gMax - gen)) with (∅ : gset var_id)
        by set_solver + Hin.
      rewrite size_empty. lia.
Qed.

Lemma promoted_step gen R var st st1 st2 :
  gen < gMax -> var ∉ R ->
  promoted gen R st st1 -> promoted gen {[var]} st1 st2 ->
  promoted gen ({[var]} ∪ R) st st2.
Proof.
  intros Hgen Hvar [] [].
  assert (gMax - gen - 1 <> gMax - gen) by (unfold gMax in *; lia).
  split; try congruence.
  - rewrite promoted_tracked1, promoted_tracked0. clear. set_solver.
  - rewrite promoted_next1, promoted_next0, promoted_tracked0.
    apply set_eq. intros x. destruct (decide (x = var)) as [->|Hx];
      [set_solver + Hvar|set_solver + Hx].
  - intros i H1 H2. rewrite promoted_tracked_ne1, promoted_tracked_ne0; done.
  - rewrite promoted_count1, promoted_count0, promoted_tracked0.
    destruct (decide (var ∈ m_tracked st (gMax - gen))) as [Hin|Hin].
    + replace ({[var]} ∩ (m_tracked st (gMax - gen) ∖ R)) with ({[var]} : gset var_id)
        by set_solver + Hin Hvar.
      replace (({[var]} ∪ R) ∩ m_tracked st (gMax - gen))
        with ({[var]} ∪ (R ∩ m_tracked st (gMax - gen))) by set_solver + Hin.
      pose proof (size_union (C:=gset nat) {[var]} (R ∩ m_tracked st (gMax - gen))
                    ltac:(clear -Hvar; set_solver)) as Hu.
      pose proof (size_singleton (C:=gset nat) var) as Hs.
      lia.
    + replace ({[var]} ∩ (m_tracked st (gMax - gen) ∖ R)) with (∅ : gset var_id)
        by set_solver + Hin.
      replace (({[var]} ∪ R) ∩ m_tracked st (gMax - gen))
        with (R ∩ m_tracked st (gMax - gen)) by set_solver + Hin.
      rewrite size_empty. lia.
  - intros i Hi. rewrite promoted_counts_ne1, promoted_counts_ne0; done.
Qed.

Lemma promoted_nothing gen st : promoted gen ∅ st st.
Proof.
  split; try done; try (clear; set_solver).
  rewrite intersection_empty_l_L, size_empty. lia.
Qed.

Lemma do_promote_spec fuel gen st st' :
  gen < gMax ->
  do_promote fuel gen st = Returned st' ->
  promoted gen (m_reachable st) st st' /\ m_reachable st' = ∅.
Proof.
  unfold do_promote. intros Hgen H.
  eapply (while_erase_inv
    (fun st1 => m_reachable st1 ⊆ m_reachable st
                /\ promoted gen (m_reachable st ∖ m_reachable st1) st st1)) in H
    as [[Hsub Hpr] Hp].
  - apply choose_var_None in Hp. rewrite Hp, difference_empty_L in Hpr. done.
  - clear H st'. intros var st1 st2 [Hsub Hpr] Hpick [= <-].
    apply choose_var_Some in Hpick.
    destruct (do_promote_step_spec gen var st1 Hgen) as [Hstep Hre].
    rewrite Hre. split; [set_solver + Hsub|].
    replace (m_reachable st ∖ (m_reachable st1 ∖ {[var]}))
      with ({[var]} ∪ (m_reachable st ∖ m_reachable st1)).
    + eapply promoted_step; [done|set_solver + Hpick|done|done].
    + apply set_eq. intros x.
      destruct (decide (x = var)) as [->|Hx]; [set_solver + Hpick Hsub|set_solver + Hx].
  - split; [done|]. rewrite difference_diag_L. apply promoted_nothing.
Qed.

End Sweep_And_Promote.

(** ** What a collection does *)

Section Collection_Spec.

Context `{ER : Erase_Random}.

(** A collection marks, sweeps what it has found unreachable, promotes what
    it has found reachable, and resets the count. *)
Lemma do_collect_spec gen st st' nvars :
  do_collect gen st = Returned (st', nvars) ->
  exists marked swept_st,
    same_members st marked
    /\ swept gen (m_unreachable marked) marked swept_st
    /\ m_reachable swept_st = m_reachable marked
    /\ nvars = size (m_unreachable marked)
    /\ (if decide (gen < gMax) then
          exists promoted_st,
            promoted gen (m_reachable marked) swept_st promoted_st
            /\ st' = set_counts_at (gMax - gen) 0 promoted_st
        else st' = set_counts_at (gMax - gen) 0 swept_st).
Proof.
  unfold do_collect. set (bound := collection_bound gen st).
  set (st0 := set_temp_1 _ _).
  destruct (do_scan bound st0) as [st1| | | |] eqn:E1; try done.
  cbn [mbind Outcome_bind].
  destruct (do_count bound st1) as [st2| | | |] eqn:E2; try done.
  cbn [mbind Outcome_bind]. set (st3 := set_temp_1 _ st2).
  destruct (do_mark bound bound st3) as [st4| | | |] eqn:E4; try done.
  cbn [mbind Outcome_bind].
  destruct (do_sweep bound gen st4) as [[st5 n5]| | | |] eqn:E5; try done.
  cbn [mbind Outcome_bind].
  apply do_scan_frame in E1 as [Hm1 _]. apply do_count_frame in E2 as [Hm2 _].
  apply do_mark_frame in E4. apply do_sweep_spec in E5 as (Hsw & -> & _).
  assert (Hm : same_members st st4).
  { eapply same_members_trans; [|exact E4].
    eapply same_members_trans; [|unfold st3; split_and!; try reflexivity; done].
    eapply same_members_trans; [|exact Hm2].
    eapply same_members_trans; [|exact Hm1].
    unfold st0, same_members. simpl. done. }
  destruct (decide (gen < gMax)) as [Hgen|Hgen].
  - destruct (do_promote bound gen st5) as [st6| | | |] eqn:E6; try done.
    cbn [mbind Outcome_bind]. intros [= <- <-].
    apply do_promote_spec in E6 as [Hpr _]; [|done].
    exists st4, st5. split_and!; try done; [by destruct Hsw|].
    exists st6. split; [|done]. by rewrite (swept_reachable _ _ _ _ Hsw) in Hpr.
  - cbn [mbind Outcome_bind]. intros [= <- <-].
    exists st4, st5. split_and!; try done. by destruct Hsw.
Qed.

(** ** The sentry *)

Lemma set_recur_restored st :
  set_recur (m_recur (set_recur (m_recur st + 1) st) - 1)
    (set_recur (m_recur st + 1) st) = st.
Proof.
  destruct st. unfold set_recur. simpl. f_equal. lia.
Qed.

(** A collection that is asked for while another is in progress does
    nothing. *)
Lemma do_collect_generation_recursive gen st :
  m_recur st <> 0%Z ->
  do_collect_generation gen st = Returned (st, 0).
Proof.
  intros Hrec. unfold do_collect_generation.
  destruct (Z.eqb_spec (m_recur st) 0); [done|]. cbn [negb].
  by rewrite set_recur_restored.
Qed.

Lemma do_collect_up_to_recursive gens st nvars :
  m_recur st <> 0%Z ->
  do_collect_up_to gens st nvars = Returned (st, nvars).
Proof.
  intros Hrec. revert nvars. induction gens as [|gen gens IH];
    intros nvars; simpl; [done|].
  rewrite do_collect_generation_recursive by done. simpl.
  rewrite IH. by rewrite Nat.add_0_r.
Qed.

End Collection_Spec.

(** C8 as the code has it: while a collection of the collector is in
    progress, that is while the recursion counter is positive,
    [do_collect_generation] returns [0] and leaves the collector as it is,
    the tracked sets and the counters of the generations included.
    [collect_variables] returns [0] as well and leaves the tracked sets and
    the counters as they are, but it goes on to clear the pool: what it
    leaves is the collector with no pooled variable. *)
Theorem nested_collection_only_clears_pool `{ER : Erase_Random} gen st :
  (0 < m_recur st)%Z ->
  do_collect_generation gen st = Returned (st, 0)
  /\ exists st',
       collect_variables gen st = Returned (st', 0)
       /\ st' = clear_pooled_variables st
       /\ count_pooled_variables st' = 0
       /\ m_tracked st' = m_tracked st
       /\ m_counts st' = m_counts st.
Proof.
  intros Hrec. split; [apply do_collect_generation_recursive; lia|].
  exists (clear_pooled_variables st). split_and!; try done.
  unfold collect_variables. by rewrite do_collect_up_to_recursive by lia.
Qed.

(** ** Counters and thresholds *)

Section Counters.

Context `{ER : Erase_Random}.

Lemma do_collect_generation_counts gen st st' nvars :
  gen <= gMax -> m_recur st = 0%Z ->
  do_collect_generation gen st = Returned (st', nvars) ->
  m_recur st' = 0%Z
  /\ m_thres st' = m_thres st
  /\ m_counts st' (gMax - gen) = 0
  /\ (gen < gMax ->
      m_counts st' (gMax - gen - 1)
      <= m_counts st (gMax - gen - 1) + size (m_tracked st (gMax - gen)))
  /\ (forall i, i <> gMax - gen -> (gen < gMax -> i <> gMax - gen - 1) ->
        m_counts st' i = m_counts st i).
Proof.
  intros Hgen Hrec. unfold do_collect_generation.
  rewrite Hrec. cbn [Z.eqb negb].
  destruct (decide (gMax < gen)); [lia|].
  destruct (do_collect gen _) as [[st1 n1]| | | |] eqn:E; try done.
  cbn [mbind Outcome_bind]. intros [= <- <-].
  apply do_collect_spec in E as (marked & swept_st & Hm & Hsw & _ & _ & Hfin).
  destruct Hm as (_ & Hmrec & _ & Hmcounts & Hmthres & Hmtracked & _).
  simpl in Hmrec, Hmcounts, Hmthres, Hmtracked.
  destruct Hsw.
  assert (Hshrink : size (m_tracked swept_st (gMax - gen))
                    <= size (m_tracked st (gMax - gen))).
  { rewrite swept_tracked0, Hmtracked. apply subseteq_size. clear. set_solver. }
  destruct (decide (gen < gMax)) as [Hlt|Hlt].
  - destruct Hfin as (promoted_st & Hpr & ->). destruct Hpr.
    assert (gMax - gen - 1 <> gMax - gen) by (unfold gMax in *; lia).
    simpl. split_and!.
    + rewrite promoted_recur0, swept_recur0, Hmrec. done.
    + congruence.
    + by rewrite fn_lookup_insert.
    + intros _. rewrite fn_lookup_insert_ne by done.
      rewrite promoted_count0, swept_counts0, Hmcounts.
      pose proof (subseteq_size (m_reachable marked ∩ m_tracked swept_st (gMax - gen))
                    (m_tracked swept_st (gMax - gen)) ltac:(clear; set_solver)).
      lia.
    + intros i Hi Hi'. rewrite fn_lookup_insert_ne by done.
      rewrite promoted_counts_ne0 by auto. congruence.
  - subst st1. simpl. split_and!.
    + rewrite swept_recur0, Hmrec. done.
    + congruence.
    + by rewrite fn_lookup_insert.
    + done.
    + intros i Hi _. rewrite fn_lookup_insert_ne by done. congruence.
Qed.

Lemma create_variable_counts gen_hint st st1 collected :
  gen_hint <= gMax ->
  do_collect_automatically (List.seq 0 (gMax + 1)) st = Returned (st1, collected) ->
  exists var st2,
    create_variable gen_hint st = Returned (var, st2)
    /\ m_counts st2 (gMax - gen_hint) = m_counts st1 (gMax - gen_hint) + 1
    /\ var ∈ m_tracked st2 (gMax - gen_hint).
Proof.
  intros Hgen Hr. unfold create_variable. rewrite Hr. cbn [mbind Outcome_bind].
  destruct (do_allocate st1) as [var st1'] eqn:Ea.
  destruct (decide (gMax < gen_hint)); [lia|].
  eexists _, _. split; [done|]. simpl. rewrite !fn_lookup_insert.
  split; [|clear; set_solver].
  unfold do_allocate in Ea. destruct (choose_var (m_pool st1)); by simplify_eq.
Qed.

End Counters.

(** C7 as the claim has it fails: the threshold of generation 0 of a new
    collector is 500, and the eleventh allocation collects nothing. *)
Lemma new_collector_collects_nothing :
  get_threshold 0 new_Garbage_Collector = Returned 500
  /\ m_counts (allocate_and_hold 10 new_Garbage_Collector) (gMax - 0) = 10
  /\ do_collect_automatically (List.seq 0 (gMax + 1))
       (allocate_and_hold 10 new_Garbage_Collector)
     = Returned (allocate_and_hold 10 new_Garbage_Collector, [])
  /\ m_counts (allocate_and_hold 11 new_Garbage_Collector) (gMax - 0) = 11.
Proof.
  split; [reflexivity|]. split; [vm_compute; reflexivity|].
  split; [|vm_compute; reflexivity].
  change (List.seq 0 (gMax + 1)) with [0; 1; 2].
  cbn [do_collect_automatically].
  replace (m_thres (allocate_and_hold 10 new_Garbage_Collector) (gMax - 0)
           <=? m_counts (allocate_and_hold 10 new_Garbage_Collector) (gMax - 0))
    with false by (vm_compute; reflexivity).
  replace (m_thres (allocate_and_hold 10 new_Garbage_Collector) (gMax - 1)
           <=? m_counts (allocate_and_hold 10 new_Garbage_Collector) (gMax - 1))
    with false by (vm_compute; reflexivity).
  replace (m_thres (allocate_and_hold 10 new_Garbage_Collector) (gMax - 2)
           <=? m_counts (allocate_and_hold 10 new_Garbage_Collector) (gMax - 2))
    with false by (vm_compute; reflexivity).
  reflexivity.
Qed.

(** A collection is in progress and has pooled a variable when the
    youngest generation is asked to be collected. *)
Lemma nested_collection_only_clears_pool_witness :
  do_collect_generation 0 collection_in_progress = Returned (collection_in_progress, 0)
  /\ exists st',
       collect_variables 0 collection_in_progress = Returned (st', 0)
       /\ st' = clear_pooled_variables collection_in_progress
       /\ count_pooled_variables st' = 0
       /\ m_tracked st' = m_tracked collection_in_progress
       /\ m_counts st' = m_counts collection_in_progress.
Proof.
  apply (nested_collection_only_clears_pool 0 collection_in_progress).
  vm_compute. reflexivity.
Defined.

(** C8 as the claim has it fails: the nested call of [collect_variables]
    is no no-op, the variable that was pooled is pooled no more. *)
Lemma nested_collect_variables_clears_pool :
  (0 < m_recur collection_in_progress)%Z
  /\ count_pooled_variables collection_in_progress = 1
  /\ exists st',
       collect_variables 0 collection_in_progress = Returned (st', 0)
       /\ count_pooled_variables st' = 0
       /\ st' <> collection_in_progress.
Proof.
  split; [vm_compute; reflexivity|]. split; [vm_compute; reflexivity|].
  exists (clear_pooled_variables collection_in_progress). split_and!.
  - unfold collect_variables.
    rewrite do_collect_up_to_recursive by (vm_compute; discriminate). done.
  - vm_compute. reflexivity.
  - intros E. apply (f_equal count_pooled_variables) in E. vm_compute in E.
    discriminate E.
Qed.

(** ** One generation for a variable *)

Lemma gc_wf_new : gc_wf new_Garbage_Collector.
Proof. unfold gc_wf, new_Garbage_Collector. simpl. set_solver. Qed.

Lemma gc_wf_shrink st st' :
  (forall i v, v ∈ m_tracked st' i -> v ∈ m_tracked st i) ->
  (forall v, v ∈ m_pool st' -> v ∈ m_pool st) ->
  (forall v, v ∈ dom (variables st) -> v ∈ dom (variables st')) ->
  gc_wf st -> gc_wf st'.
Proof.
  intros Ht Hp Hd (H1 & H2 & H3 & H4). repeat split.
  - intros i j v Hi Hj. eapply H1; eauto.
  - intros i v Hi Hv. eapply H2; eauto.
  - intros i v Hi. eauto.
  - intros v Hv. eauto.
Qed.

Lemma gc_wf_ext st st' :
  m_tracked st' = m_tracked st -> m_pool st' = m_pool st ->
  dom (variables st') = dom (variables st) ->
  gc_wf st -> gc_wf st'.
Proof.
  intros Ht Hp Hd. apply gc_wf_shrink.
  - intros i v. by rewrite Ht.
  - intros v. by rewrite Hp.
  - intros v. by rewrite Hd.
Qed.

Section One_Generation.

Context `{ER : Erase_Random}.

Lemma swept_dom gen U st st' :
  swept gen U st st' -> dom (variables st') = dom (variables st).
Proof.
  intros H. apply set_eq. intros v. rewrite !elem_of_dom.
  rewrite (swept_variables _ _ _ _ H). destruct (decide (v ∈ U)); [|done].
  by rewrite fmap_is_Some.
Qed.

Lemma swept_wf gen U st st' :
  swept gen U st st' -> gc_wf st -> gc_wf st'.
Proof.
  intros H (H1 & H2 & H3 & H4).
  pose proof (swept_dom _ _ _ _ H) as Hd.
  destruct H as [_ swept_tracked0 swept_tracked_ne0 swept_pool0 _ _ _ _ _].
  assert (Hsub : forall i v, v ∈ m_tracked st' i -> v ∈ m_tracked st i).
  { intros i v. destruct (decide (i = gMax - gen)) as [->|Hi].
    - rewrite swept_tracked0. clear. set_solver.
    - by rewrite swept_tracked_ne0. }
  repeat split.
  - intros i j v Hi Hj. eapply H1; eauto.
  - intros i v Hi. rewrite swept_pool0. intros [Hp|Hu]%elem_of_union.
    + eapply H2; eauto.
    + apply elem_of_intersection in Hu as [Hu Ht].
      assert (i = gMax - gen) as -> by (eapply H1; eauto).
      rewrite swept_tracked0 in Hi. clear -Hi Hu. set_solver.
  - intros i v Hi. rewrite Hd. eauto.
  - intros v. rewrite swept_pool0, Hd. intros [Hp|Hu]%elem_of_union; [eauto|].
    apply elem_of_intersection in Hu as [_ Ht]. eauto.
Qed.

Lemma promoted_wf gen R st st' :
  gen < gMax -> promoted gen R st st' -> gc_wf st -> gc_wf st'.
Proof.
  intros Hgen H (H1 & H2 & H3 & H4).
  destruct H as [promoted_tracked0 promoted_next0 promoted_tracked_ne0 _ _
                   promoted_variables0 promoted_pool0 _ _ _].
  assert (Hne : gMax - gen - 1 <> gMax - gen) by (unfold gMax in *; lia).
  assert (Hsub : forall i v, v ∈ m_tracked st' i ->
            v ∈ m_tracked st i
            \/ (i = gMax - gen - 1 /\ v ∈ m_tracked st (gMax - gen) /\ v ∈ R)).
  { intros i v. destruct (decide (i = gMax - gen)) as [->|Hi].
    - rewrite promoted_tracked0. clear. set_solver.
    - destruct (decide (i = gMax - gen - 1)) as [->|Hi'].
      + rewrite promoted_next0. clear. set_solver.
      + rewrite promoted_tracked_ne0 by done. auto. }
  assert (Hout : forall v, v ∈ m_tracked st' (gMax - gen) -> v ∉ R).
  { intros v. rewrite promoted_tracked0. clear. set_solver. }
  repeat split.
  - intros i j v Hi Hj.
    destruct (Hsub _ _ Hi) as [Hi'|(-> & Hi' & HR)],
             (Hsub _ _ Hj) as [Hj'|(-> & Hj' & HR')]; [eauto| | |done].
    + assert (i = gMax - gen) as -> by eauto. by apply Hout in Hi.
    + assert (j = gMax - gen) as -> by eauto. by apply Hout in Hj.
  - intros i v Hi. rewrite promoted_pool0.
    destruct (Hsub _ _ Hi) as [Hi'|(-> & Hi' & HR)]; eauto.
  - intros i v Hi. rewrite promoted_variables0.
    destruct (Hsub _ _ Hi) as [Hi'|(-> & Hi' & HR)]; eauto.
  - intros v. rewrite promoted_pool0, promoted_variables0. eauto.
Qed.

Lemma do_collect_wf gen st st' nvars :
  do_collect gen st = Returned (st', nvars) -> gc_wf st -> gc_wf st'.
Proof.
  intros H Hwf.
  apply do_collect_spec in H as (marked & swept_st & Hm & Hsw & _ & _ & Hfin).
  assert (gc_wf marked) as Hwf1.
  { destruct Hm as (_ & _ & Hp & _ & _ & Ht & Hd & _). by apply (gc_wf_ext st). }
  apply (swept_wf _ _ _ _ Hsw) in Hwf1.
  destruct (decide (gen < gMax)).
  - destruct Hfin as (promoted_st & Hpr & ->).
    apply (gc_wf_ext promoted_st); try done. by eapply promoted_wf.
  - subst st'. by apply (gc_wf_ext swept_st).
Qed.

Lemma do_collect_generation_wf gen st st' nvars :
  do_collect_generation gen st = Returned (st', nvars) -> gc_wf st -> gc_wf st'.
Proof.
  unfold do_collect_generation. destruct (negb _).
  - intros [= <- <-]. by apply gc_wf_ext.
  - destruct (decide (gMax < gen)); [done|].
    destruct (do_collect gen _) as [[st1 n1]| | | |] eqn:E; try done.
    cbn [mbind Outcome_bind]. intros [= <- <-] Hwf.
    apply (gc_wf_ext st1); try done.
    eapply do_collect_wf; [done|]. by apply (gc_wf_ext st).
Qed.

Lemma do_collect_automatically_wf gens st st' collected :
  do_collect_automatically gens st = Returned (st', collected) ->
  gc_wf st -> gc_wf st'.
Proof.
  revert st collected. induction gens as [|gen gens IH]; intros st collected; simpl.
  - by intros [= <- <-].
  - destruct (Nat.leb _ _); [|by apply IH].
    destruct (do_collect_generation gen st) as [[st1 n1]| | | |] eqn:E; try done.
    cbn [mbind Outcome_bind].
    destruct (do_collect_automatically gens st1) as [[st2 c2]| | | |] eqn:E2;
      try done.
    cbn [mbind Outcome_bind]. intros [= <- <-] Hwf.
    eapply IH; [done|]. by eapply do_collect_generation_wf.
Qed.

Lemma do_collect_up_to_wf gens st nvars st' nvars' :
  do_collect_up_to gens st nvars = Returned (st', nvars') ->
  gc_wf st -> gc_wf st'.
Proof.
  revert st nvars. induction gens as [|gen gens IH]; intros st nvars; simpl.
  - by intros [= <- <-].
  - destruct (do_collect_generation gen st) as [[st1 n1]| | | |] eqn:E; try done.
    cbn [mbind Outcome_bind]. intros H Hwf.
    eapply IH; [done|]. by eapply do_collect_generation_wf.
Qed.

Lemma do_allocate_wf st var st' :
  do_allocate st = (var, st') -> gc_wf st ->
  gc_wf st' /\ (var ∉ m_pool st') /\ var ∈ dom (variables st')
  /\ (forall i, not (var ∈ m_tracked st' i)).
Proof.
  unfold do_allocate. intros H (H1 & H2 & H3 & H4).
  destruct (choose_var (m_pool st)) as [v|] eqn:E.
  - apply choose_var_Some in E. injection H as <- <-. simpl. split_and!.
    + repeat split; simpl; eauto.
      * intros i w Hi Hw. apply (H2 i w Hi). clear -Hw. set_solver.
      * intros w Hw. apply H4. clear -Hw. set_solver.
    + clear. set_solver.
    + eauto.
    + intros i Hi. by eapply H2.
  - injection H as <- <-. simpl.
    pose proof (is_fresh (dom (variables st))) as Hfresh.
    split_and!.
    + repeat split; simpl.
      * eauto.
      * eauto.
      * intros i w Hi. rewrite dom_insert. apply elem_of_union_r. eauto.
      * intros w Hw. rewrite dom_insert. apply elem_of_union_r. eauto.
    + intros Hp. apply Hfresh. eauto.
    + rewrite dom_insert. clear. set_solver.
    + intros i Hi. apply Hfresh. eauto.
Qed.

Lemma create_variable_wf gen_hint st var st' :
  create_variable gen_hint st = Returned (var, st') -> gc_wf st -> gc_wf st'.
Proof.
  unfold create_variable.
  destruct (do_collect_automatically _ st) as [[st1 c1]| | | |] eqn:E; try done.
  cbn [mbind Outcome_bind].
  destruct (do_allocate st1) as [v st2] eqn:Ea.
  destruct (decide (gMax < gen_hint)); [done|].
  intros [= <- <-] Hwf.
  apply do_collect_automatically_wf in E; [|done].
  destruct (do_allocate_wf _ _ _ Ea E) as ((H1 & H2 & H3 & H4) & Hp & Hd & Ht).
  assert (Hsub : forall i w,
            w ∈ (<[gMax - gen_hint := {[v]} ∪ m_tracked st2 (gMax - gen_hint)]>
                   (m_tracked st2)) i ->
            w ∈ m_tracked st2 i \/ (i = gMax - gen_hint /\ w = v)).
  { intros i w. destruct (decide (i = gMax - gen_hint)) as [->|Hi].
    - rewrite fn_lookup_insert. clear. set_solver.
    - rewrite fn_lookup_insert_ne by done. auto. }
  repeat split; simpl.
  - intros i j w Hi Hj.
    destruct (Hsub _ _ Hi) as [Hi'|[-> ->]], (Hsub _ _ Hj) as [Hj'|[-> Hw]];
      [eauto| | |done].
    + subst w. by apply Ht in Hi'.
    + by apply Ht in Hj'.
  - intros i w Hi. destruct (Hsub _ _ Hi) as [Hi'|[-> ->]]; eauto.
  - intros i w Hi. destruct (Hsub _ _ Hi) as [Hi'|[-> ->]]; eauto.
  - eauto.
Qed.

Lemma collect_variables_wf gen_limit st st' nvars :
  collect_variables gen_limit st = Returned (st', nvars) -> gc_wf st -> gc_wf st'.
Proof.
  unfold collect_variables.
  destruct (do_collect_up_to _ st 0) as [[st1 n1]| | | |] eqn:E; try done.
  cbn [mbind Outcome_bind]. intros [= <- <-] Hwf.
  apply do_collect_up_to_wf in E; [|done].
  revert E. apply gc_wf_shrink; simpl; auto. intros v. clear. set_solver.
Qed.

Lemma do_wipe_shrinks fuel i st st' :
  do_wipe fuel i st = Returned st' ->
  (forall j v, v ∈ m_tracked st' j -> v ∈ m_tracked st j)
  /\ m_pool st' = m_pool st
  /\ m_recur st' = m_recur st
  /\ dom (variables st') = dom (variables st).
Proof.
  unfold do_wipe. intros H.
  eapply (while_erase_inv
            (fun s => (forall j v, v ∈ m_tracked s j -> v ∈ m_tracked st j)
                      /\ m_pool s = m_pool st
                      /\ m_recur s = m_recur st
                      /\ dom (variables s) = dom (variables st))) in H.
  - apply H.
  - intros var s s' (Ht & Hp & Hr & Hd) _ [= <-]. simpl. split_and!; [|done|done|].
    + intros j v. destruct (decide (j = i)) as [->|Hj].
      * rewrite fn_lookup_insert. intros Hv. apply Ht. clear -Hv. set_solver.
      * rewrite fn_lookup_insert_ne by done. apply Ht.
    + rewrite <- Hd. apply set_eq. intros v. rewrite !elem_of_dom.
      destruct (decide (v = var)) as [->|Hv].
      * rewrite lookup_alter_eq. by rewrite fmap_is_Some.
      * by rewrite lookup_alter_ne.
  - done.
Qed.

Lemma do_wipe_all_shrinks gens st nvars st' nvars' :
  do_wipe_all gens st nvars = Returned (st', nvars') ->
  (forall j v, v ∈ m_tracked st' j -> v ∈ m_tracked st j)
  /\ m_pool st' = m_pool st
  /\ m_recur st' = m_recur st
  /\ dom (variables st') = dom (variables st).
Proof.
  revert st nvars. induction gens as [|gen gens IH]; intros st nvars; simpl.
  - by intros [= <- <-].
  - destruct (do_wipe _ _ st) as [st1| | | |] eqn:E; try done.
    cbn [mbind Outcome_bind]. intros H.
    apply do_wipe_shrinks in E as (Ht & Hp & Hr & Hd).
    apply IH in H as (Ht' & Hp' & Hr' & Hd'). split_and!; [eauto|congruence..].
Qed.

Lemma finalize_wf st st' nvars :
  finalize st = Returned (st', nvars) -> gc_wf st -> gc_wf st'.
Proof.
  unfold finalize. destruct (negb _); [done|].
  destruct (do_wipe_all _ _ 0) as [[st1 n1]| | | |] eqn:E; try done.
  cbn [mbind Outcome_bind]. intros [= <- <-].
  apply do_wipe_all_shrinks in E as (Ht & Hp & _ & Hd). simpl in *.
  apply gc_wf_shrink; simpl; [done| |].
  - intros v. clear. set_solver.
  - intros v. by rewrite Hd.
Qed.

End One_Generation.

Section Reachable_States.

Context `{ER : Erase_Random}.

Lemma do_collect_generation_recur gen st st' nvars :
  m_recur st = 0%Z ->
  do_collect_generation gen st = Returned (st', nvars) -> m_recur st' = 0%Z.
Proof.
  intros Hrec H. destruct (decide (gMax < gen)) as [Hgen|Hgen].
  - unfold do_collect_generation in H. rewrite Hrec in H. cbn [Z.eqb negb] in H.
    by destruct (decide (gMax < gen)).
  - by destruct (do_collect_generation_counts gen st st' nvars ltac:(lia) Hrec H).
Qed.

Lemma do_collect_automatically_recur gens st st' collected :
  m_recur st = 0%Z ->
  do_collect_automatically gens st = Returned (st', collected) -> m_recur st' = 0%Z.
Proof.
  revert st collected. induction gens as [|gen gens IH]; intros st collected Hrec;
    simpl.
  - by intros [= <- <-].
  - destruct (Nat.leb _ _); [|by apply IH].
    destruct (do_collect_generation gen st) as [[st1 n1]| | | |] eqn:E; try done.
    cbn [mbind Outcome_bind].
    destruct (do_collect_automatically gens st1) as [[st2 c2]| | | |] eqn:E2;
      try done.
    cbn [mbind Outcome_bind]. intros [= <- <-].
    eapply IH; [|done]. by eapply do_collect_generation_recur.
Qed.

Lemma do_collect_up_to_recur gens st nvars st' nvars' :
  m_recur st = 0%Z ->
  do_collect_up_to gens st nvars = Returned (st', nvars') -> m_recur st' = 0%Z.
Proof.
  revert st nvars. induction gens as [|gen gens IH]; intros st nvars Hrec; simpl.
  - by intros [= <- <-].
  - destruct (do_collect_generation gen st) as [[st1 n1]| | | |] eqn:E; try done.
    cbn [mbind Outcome_bind]. intros H.
    eapply IH; [|done]. by eapply do_collect_generation_recur.
Qed.

Lemma gc_step_wf st st' : gc_step st st' -> gc_wf st -> gc_wf st'.
Proof.
  destruct 1 as [gen_hint st var st' H|gen_limit st st' nvars H|st st' nvars H
                |gen thres st st' H|st|st vars' roots' H].
  - by eapply create_variable_wf.
  - by eapply collect_variables_wf.
  - by eapply finalize_wf.
  - unfold set_threshold in H. destruct (decide (gMax < gen)); [done|].
    injection H as <-. by apply gc_wf_ext.
  - apply gc_wf_shrink; simpl; auto; intros v; clear; set_solver.
  - apply gc_wf_shrink; simpl; auto; intros v; clear -H; set_solver.
Qed.

Lemma gc_step_recur st st' : gc_step st st' -> m_recur st = 0%Z -> m_recur st' = 0%Z.
Proof.
  destruct 1 as [gen_hint st var st' H|gen_limit st st' nvars H|st st' nvars H
                |gen thres st st' H|st|st vars' roots' H]; intros Hrec.
  - unfold create_variable in H.
    destruct (do_collect_automatically _ st) as [[st1 c1]| | | |] eqn:E; try done.
    cbn [mbind Outcome_bind] in H.
    apply do_collect_automatically_recur in E; [|done].
    unfold do_allocate in H.
    destruct (choose_var (m_pool st1)); destruct (decide (gMax < gen_hint));
      try done; by injection H as <- <-.
  - unfold collect_variables in H.
    destruct (do_collect_up_to _ st 0) as [[st1 n1]| | | |] eqn:E; try done.
    cbn [mbind Outcome_bind] in H. injection H as <- <-.
    by apply do_collect_up_to_recur in E.
  - unfold finalize in H. rewrite Hrec in H. cbn [Z.eqb negb] in H.
    destruct (do_wipe_all _ _ 0) as [[st1 n1]| | | |] eqn:E; try done.
    cbn [mbind Outcome_bind] in H. injection H as <- <-.
    apply do_wipe_all_shrinks in E as (_ & _ & Hr & _). simpl in *.
    rewrite Hr. done.
  - unfold set_threshold in H. destruct (decide (gMax < gen)); [done|].
    by injection H as <-.
  - done.
  - done.
Qed.

Lemma gc_reachable_wf st : gc_reachable st -> gc_wf st /\ m_recur st = 0%Z.
Proof.
  induction 1 as [|st st' _ [IH1 IH2] Hstep].
  - split; [apply gc_wf_new|done].
  - split; [by eapply gc_step_wf|by eapply gc_step_recur].
Qed.

Lemma allocate_and_hold_reachable n st :
  gc_reachable st -> gc_reachable (allocate_and_hold n st).
Proof.
  revert st. induction n as [|n IH]; intros st Hst; simpl; [done|].
  destruct (create_variable 0 st) as [[var st']| | | |] eqn:E; try done.
  apply IH. replace st' with (set_variables (variables st') st') at 2
    by (by destruct st').
  eapply gc_reachable_step; [|by apply gc_step_mutate].
  eapply gc_reachable_step; [done|]. by eapply gc_step_create.
Qed.

(** What a collection of a generation that is not the oldest leaves in the
    tracked set of the next one. *)
Lemma do_collect_generation_promotes gen st st' nvars :
  gen < gMax -> gc_wf st -> m_recur st = 0%Z ->
  do_collect_generation gen st = Returned (st', nvars) ->
  (forall v, v ∈ m_tracked st' (gMax - gen - 1) ->
     v ∈ m_tracked st (gMax - gen - 1) \/ v ∈ m_tracked st (gMax - gen))
  /\ m_counts st' (gMax - gen - 1)
     = m_counts st (gMax - gen - 1)
       + size (m_tracked st (gMax - gen) ∩ m_tracked st' (gMax - gen - 1)).
Proof.
  intros Hgen (H1 & _) Hrec. unfold do_collect_generation.
  rewrite Hrec. cbn [Z.eqb negb].
  destruct (decide (gMax < gen)); [lia|].
  destruct (do_collect gen _) as [[st1 n1]| | | |] eqn:E; try done.
  cbn [mbind Outcome_bind]. intros [= <- <-].
  apply do_collect_spec in E as (marked & swept_st & Hm & Hsw & _ & _ & Hfin).
  destruct (decide (gen < gMax)); [|lia].
  destruct Hfin as (promoted_st & Hpr & ->).
  destruct Hm as (_ & _ & _ & Hmcounts & _ & Hmtracked & _).
  simpl in Hmcounts, Hmtracked.
  destruct Hsw as [_ Hst Hstne _ _ _ Hscounts _ _].
  destruct Hpr as [_ Hpnext _ Hpcount _ _ _ _ _ _].
  assert (Hne : gMax - gen - 1 <> gMax - gen) by (unfold gMax in *; lia).
  rewrite Hstne in Hpnext by done. rewrite Hst, Hmtracked in Hpnext, Hpcount.
  rewrite Hscounts, Hmcounts in Hpcount.
  assert (Hdisj : forall v, v ∈ m_tracked st (gMax - gen) ->
                            v ∉ m_tracked st (gMax - gen - 1)).
  { intros v Hv Hv'. apply Hne. eapply H1; eauto. }
  simpl. rewrite !fn_lookup_insert_ne by done. split.
  - intros v. rewrite Hpnext. clear. set_solver.
  - rewrite Hpcount. f_equal. f_equal. rewrite Hpnext.
    apply set_eq. intros v. specialize (Hdisj v). clear -Hdisj. set_solver.
Qed.

End Reachable_States.

(** ** Cycles *)

Lemma all_slots_get_value st o i :
  all_slots (variables st) !! (o, i) = referenced_variables (get_value st o) !! i.
Proof.
  rewrite all_slots_lookup. unfold get_value.
  destruct (variables st !! o); simpl; [done|]. by rewrite lookup_nil.
Qed.

Lemma same_members_slots st st' :
  same_members st st' -> all_slots (variables st') = all_slots (variables st).
Proof.
  intros (_ & _ & _ & _ & _ & _ & _ & Hv). apply map_eq. intros [o i].
  by rewrite !all_slots_get_value, Hv.
Qed.

Lemma references_empty v : references ∅ v = 0%Z.
Proof. unfold references. by rewrite map_filter_empty, map_size_empty. Qed.

Lemma references_nonneg m v : (0 <= references m v)%Z.
Proof. unfold references. lia. Qed.

Lemma references_delete m k w v :
  m !! k = Some w ->
  references m v = (references (delete k m) v + if decide (w = v) then 1 else 0)%Z.
Proof.
  intros Hk. unfold references. rewrite map_filter_delete, map_size_delete.
  destruct (decide (w = v)) as [->|Hne].
  - rewrite (map_lookup_filter_Some_2 _ _ _ _ Hk) by done.
    assert (size (filter (fun kv : slot * var_id => kv.2 = v) m) <> 0); [|lia].
    intros E%map_size_empty_inv.
    assert (filter (fun kv : slot * var_id => kv.2 = v) m !! k = Some v) as Hf
      by (by apply map_lookup_filter_Some_2).
    rewrite E in Hf. by rewrite lookup_empty in Hf.
  - replace (filter (fun kv : slot * var_id => kv.2 = v) m !! k) with (@None var_id).
    + simpl. lia.
    + symmetry. apply map_lookup_filter_None. right. intros x Hx. simpl. congruence.
Qed.



Lemma holds_elem (s : gset var_id) v : v ∈ s -> holds s v = 1%Z.
Proof. unfold holds. intros. by destruct (decide _). Qed.

Lemma holds_not_elem (s : gset var_id) v : v ∉ s -> holds s v = 0%Z.
Proof. unfold holds. intros. by destruct (decide _). Qed.

Lemma get_gc_ref_alter st f v w :
  get_gc_ref (set_variables (alter f v (variables st)) st) w
  = if decide (v = w) then
      match variables st !! w with Some x => m_gc_ref (f x) | None => 0%Z end
    else get_gc_ref st w.
Proof.
  unfold get_gc_ref. simpl. destruct (decide (v = w)) as [->|Hne].
  - rewrite lookup_alter_eq. by destruct (variables st !! w).
  - by rewrite lookup_alter_ne.
Qed.

(** One generation tracks [v], and it is one of those that exist. *)
Lemma tracked_holds_one st i v :
  gc_wf st -> i <= gMax -> v ∈ m_tracked st i -> tracked_holds st v = 1%Z.
Proof.
  intros (H1 & _) Hi Hv. unfold tracked_holds.
  assert (Hne : forall j, j <> i -> holds (m_tracked st j) v = 0%Z).
  { intros j Hj. apply holds_not_elem. intros H. apply Hj. eapply H1; eauto. }
  unfold gMax in Hi. destruct i as [|[|[|i]]]; [| | |lia].
  all: rewrite (holds_elem _ _ Hv), !Hne by done; done.
Qed.

Section Marking.

Context `{ER : Erase_Random}.

(** *** The first loop: what [tracked] reaches *)

Lemma do_scan_step_fields var st :
  variables (do_scan_step var st) = alter (set_gc_ref 1) var (variables st)
  /\ (forall k w, m_staged (do_scan_step var st) !! k = Some w <->
        m_staged st !! k = Some w
        \/ (m_staged st !! k = None
            /\ exists i, k = (var, i) /\ all_slots (variables st) !! (var, i) = Some w))
  /\ (forall w, w ∈ m_temp_1 (do_scan_step var st) <->
        (w ∈ m_temp_1 st /\ w <> var)
        \/ exists i, m_staged st !! (var, i) = None
                     /\ all_slots (variables st) !! (var, i) = Some w).
Proof.
  unfold do_scan_step. set (st1 := set_variables _ _).
  assert (get_value st1 var = get_value st var) as Hval.
  { unfold get_value, st1. simpl. rewrite lookup_alter_eq.
    by destruct (variables st !! var). }
  pose proof (get_variables_staged var (get_value st1 var) (m_staged st1)
                (m_temp_1 st1)) as Hs.
  pose proof (get_variables_temp var (get_value st1 var) (m_staged st1)
                (m_temp_1 st1)) as Ht.
  destruct (get_variables _ _ _ _) as [staged temp]. rewrite Hval in Hs, Ht.
  cbn [fst snd] in Hs, Ht. unfold st1 in Hs, Ht. simpl in Hs, Ht. simpl.
  split; [done|]. split.
  - intros k w. rewrite Hs. by setoid_rewrite all_slots_get_value.
  - intros w. rewrite Ht. setoid_rewrite all_slots_get_value.
    rewrite elem_of_difference, elem_of_singleton. done.
Qed.

Lemma do_scan_step_inv tracked var st :
  var ∈ m_temp_1 st -> scan_inv tracked st -> scan_inv tracked (do_scan_step var st).
Proof.
  intros Hvar (Hsub & Htr & Hst).
  destruct (do_scan_step_fields var st) as (Hvars & Hstaged & Htemp).
  pose proof (do_scan_step_slots var st) as Hslots.
  assert (Hgc : forall v, v ∈ dom (variables st) ->
                  get_gc_ref (do_scan_step var st) v
                  = if decide (var = v) then 1%Z else get_gc_ref st v).
  { intros v Hv. unfold get_gc_ref. rewrite Hvars.
    apply elem_of_dom in Hv as [x Hx].
    destruct (decide (var = v)) as [->|Hne].
    - by rewrite lookup_alter_eq, Hx.
    - by rewrite lookup_alter_ne. }
  assert (Hdom : dom (variables (do_scan_step var st)) = dom (variables st)).
  { rewrite Hvars. apply dom_alter_L. }
  assert (Hkeep : forall v, scanned st v -> scanned (do_scan_step var st) v).
  { intros v [Hv1 Hv2]. split.
    - intros i w. rewrite Hslots. intros Hw. apply Hstaged. left. auto.
    - rewrite Hdom. intros Hv. rewrite Hgc by done.
      destruct (decide (var = v)); auto. }
  assert (Hnew : scanned (do_scan_step var st) var).
  { split.
    - intros i w. rewrite Hslots. intros Hw. apply Hstaged.
      destruct (m_staged st !! (var, i)) as [w'|] eqn:E.
      + left. pose proof (map_subseteq_spec (m_staged st) (all_slots (variables st)))
          as [Hspec _]. specialize (Hspec Hsub _ _ E). congruence.
      + right. eauto.
    - rewrite Hdom. intros Hv. rewrite Hgc by done.
      by destruct (decide (var = var)). }
  assert (Hold : forall v, v ∈ m_temp_1 st \/ scanned st v ->
                   v ∈ m_temp_1 (do_scan_step var st)
                   \/ scanned (do_scan_step var st) v).
  { intros v [Hv|Hv]; [|by auto].
    destruct (decide (v = var)) as [->|Hne]; [by right|].
    left. apply Htemp. by left. }
  split_and!.
  - apply map_subseteq_spec. intros k w [Hk|(_ & i & -> & Hi)]%Hstaged.
    + rewrite Hslots. by eapply map_subseteq_spec.
    + by rewrite Hslots.
  - intros v Hv. auto.
  - intros k v [Hk|(Hk & i & -> & Hi)]%Hstaged.
    + eauto.
    + left. apply Htemp. right. eauto.
Qed.

Lemma do_scan_spec tracked fuel st st' :
  do_scan fuel st = Returned st' -> scan_inv tracked st ->
  m_staged st' ⊆ all_slots (variables st')
  /\ (forall v, v ∈ tracked -> scanned st' v)
  /\ (forall k v, m_staged st' !! k = Some v -> scanned st' v)
  /\ m_temp_1 st' = ∅.
Proof.
  unfold do_scan. intros H Hinv.
  eapply (while_erase_inv (scan_inv tracked)) in H as [(H1 & H2 & H3) H4];
    [|clear H|done].
  - apply choose_var_None in H4. rewrite H4 in H2, H3. split_and!; [done| | |done].
    + intros v Hv. destruct (H2 v Hv) as [Hv'|]; [|done]. by apply elem_of_empty in Hv'.
    + intros k v Hv. destruct (H3 k v Hv) as [Hv'|]; [|done].
      by apply elem_of_empty in Hv'.
  - intros var s s' Hs Hc [= <-]. apply choose_var_Some in Hc.
    by apply do_scan_step_inv.
Qed.

(** *** The second loop: counting the references staged *)

Lemma do_count_step_inv st1 k w st st' :
  m_staged st !! k = Some w -> count_inv st1 st ->
  do_count_step (k, w) st = Returned st' -> count_inv st1 st'.
Proof.
  intros Hk (Hdom & Hsum & Himg) ->%do_count_step_Returned.
  unfold count_inv. simpl. split_and!.
  - by rewrite dom_alter_L.
  - intros v Hv. rewrite <- (Hsum v Hv).
    rewrite (references_delete _ _ _ v Hk).
    rewrite <- Hdom in Hv. apply elem_of_dom in Hv as [x Hx].
    unfold get_gc_ref. simpl.
    destruct (decide (w = v)) as [->|Hne].
    + rewrite lookup_alter_eq, Hx. simpl. lia.
    + rewrite lookup_alter_ne by done. lia.
  - intros k0 v Hv. destruct (Himg k0 v Hv) as [Hin|(k' & Hk')].
    + left. clear -Hin. set_solver.
    + destruct (decide (k' = k)) as [->|Hne].
      * left. assert (v = w) as -> by congruence. clear. set_solver.
      * right. exists k'. by rewrite lookup_delete_ne.
Qed.

Lemma do_count_spec fuel st1 st2 :
  do_count fuel st1 = Returned st2 ->
  m_staged st2 = ∅
  /\ (forall v, v ∈ dom (variables st1) ->
        get_gc_ref st2 v = (get_gc_ref st1 v + references (m_staged st1) v)%Z)
  /\ (forall k v, m_staged st1 !! k = Some v -> v ∈ m_temp_1 st2).
Proof.
  unfold do_count. intros H.
  eapply (while_erase_inv (count_inv st1)) in H as [(H1 & H2 & H3) H4]; [|clear H|].
  - apply choose_ref_None in H4. split_and!; [done| |].
    + intros v Hv. specialize (H2 v Hv). rewrite H4, references_empty in H2. lia.
    + intros k v Hv. destruct (H3 k v Hv) as [|(k' & Hk')]; [done|].
      rewrite H4 in Hk'. by rewrite lookup_empty in Hk'.
  - intros [k w] s s' Hs Hc Hstep. apply choose_ref_Some in Hc.
    by eapply do_count_step_inv.
  - split_and!; eauto.
Qed.

(** *** The third loop: marking *)

Lemma do_reach_step_fields var st :
  variables (do_reach_step var st) = alter (set_gc_ref 0) var (variables st)
  /\ m_unreachable (do_reach_step var st) = m_unreachable st ∖ {[var]}
  /\ m_reachable (do_reach_step var st) = {[var]} ∪ m_reachable st
  /\ m_temp_1 (do_reach_step var st) = m_temp_1 st
  /\ (forall k w, m_staged (do_reach_step var st) !! k = Some w <->
        m_staged st !! k = Some w
        \/ (m_staged st !! k = None
            /\ exists i, k = (var, i) /\ all_slots (variables st) !! (var, i) = Some w))
  /\ (forall w, w ∈ m_temp_2 (do_reach_step var st) <->
        w ∈ m_temp_2 st
        \/ exists i, m_staged st !! (var, i) = None
                     /\ all_slots (variables st) !! (var, i) = Some w).
Proof.
  unfold do_reach_step. set (st1 := set_reachable _ _).
  assert (get_value st1 var = get_value st var) as Hval.
  { unfold get_value, st1. simpl. rewrite lookup_alter_eq.
    by destruct (variables st !! var). }
  pose proof (get_variables_staged var (get_value st1 var) (m_staged st1)
                (m_temp_2 st1)) as Hs.
  pose proof (get_variables_temp var (get_value st1 var) (m_staged st1)
                (m_temp_2 st1)) as Ht.
  destruct (get_variables _ _ _ _) as [staged temp]. rewrite Hval in Hs, Ht.
  cbn [fst snd] in Hs, Ht. unfold st1 in Hs, Ht. simpl in Hs, Ht. simpl.
  split_and!; try done.
  - intros k w. rewrite Hs. by setoid_rewrite all_slots_get_value.
  - intros w. rewrite Ht. by setoid_rewrite all_slots_get_value.
Qed.

Lemma tracked_holds_same st st' v :
  m_tracked st' = m_tracked st -> tracked_holds st' v = tracked_holds st v.
Proof. unfold tracked_holds. by intros ->. Qed.












End Marking.

(** *** The three loops together *)

Section Marking_Spec.

Context `{ER : Erase_Random}.

Lemma do_collect_phases gen st st' nvars :
  do_collect gen st = Returned (st', nvars) ->
  exists st1 st2 marked swept_st,
    do_scan (collection_bound gen st) (scan_start gen st) = Returned st1
    /\ do_count (collection_bound gen st) st1 = Returned st2
    /\ do_mark (collection_bound gen st) (collection_bound gen st) (mark_start gen st2)
       = Returned marked
    /\ swept gen (m_unreachable marked) marked swept_st
    /\ nvars = size (m_unreachable marked)
    /\ (if decide (gen < gMax) then
          exists promoted_st,
            promoted gen (m_reachable marked) swept_st promoted_st
            /\ st' = set_counts_at (gMax - gen) 0 promoted_st
        else st' = set_counts_at (gMax - gen) 0 swept_st).
Proof.
  unfold do_collect. fold (scan_start gen st).
  set (bound := collection_bound gen st).
  destruct (do_scan bound _) as [st1| | | |] eqn:E1; try done.
  cbn [mbind Outcome_bind].
  destruct (do_count bound st1) as [st2| | | |] eqn:E2; try done.
  cbn [mbind Outcome_bind]. fold (mark_start gen st2).
  destruct (do_mark bound bound _) as [st4| | | |] eqn:E4; try done.
  cbn [mbind Outcome_bind].
  destruct (do_sweep bound gen st4) as [[st5 n5]| | | |] eqn:E5; try done.
  cbn [mbind Outcome_bind].
  apply do_sweep_spec in E5 as (Hsw & -> & _).
  destruct (decide (gen < gMax)) as [Hgen|Hgen].
  - destruct (do_promote bound gen st5) as [st6| | | |] eqn:E6; try done.
    cbn [mbind Outcome_bind]. intros [= <- <-].
    apply do_promote_spec in E6 as [Hpr _]; [|done].
    exists st1, st2, st4, st5. split_and!; try done.
    exists st6. split; [|done]. by rewrite (swept_reachable _ _ _ _ Hsw) in Hpr.
  - cbn [mbind Outcome_bind]. intros [= <- <-].
    exists st1, st2, st4, st5. by split_and!.
Qed.


End Marking_Spec.

(** *** What the loops leave of a variable *)

Lemma same_cells_refl st : same_cells st st.
Proof. by intros v. Qed.

Lemma same_cells_trans st1 st2 st3 :
  same_cells st1 st2 -> same_cells st2 st3 -> same_cells st1 st3.
Proof. intros H1 H2 v. by rewrite H2, H1. Qed.

Lemma same_cells_alter st st' f var :
  variables st' = alter f var (variables st) ->
  (forall x, cell_data (f x) = cell_data x) -> same_cells st st'.
Proof.
  intros Hv Hf v. rewrite Hv. destruct (decide (var = v)) as [->|Hne].
  - rewrite lookup_alter_eq. destruct (variables st !! v); simpl; [|done].
    by rewrite Hf.
  - by rewrite lookup_alter_ne.
Qed.

Lemma same_cells_uninitialized st st' v :
  same_cells st st' -> is_uninitialized st v -> is_uninitialized st' v.
Proof.
  intros H (x & Hx & Hval & Hini). specialize (H v). rewrite Hx in H.
  destruct (variables st' !! v) as [y|] eqn:Hy; [|done]. simpl in H.
  injection H as H1 H2 H3.
  exists y. split_and!; congruence.
Qed.


Section Passes.

Context `{ER : Erase_Random}.

Lemma do_scan_cells fuel st st' : do_scan fuel st = Returned st' -> same_cells st st'.
Proof.
  unfold do_scan. intros H.
  eapply (while_erase_inv (same_cells st)) in H as [H _];
    [done| |apply same_cells_refl].
  intros var s s' Hs _ [= <-]. eapply same_cells_trans; [done|].
  eapply (same_cells_alter s _ (set_gc_ref 1) var); [|done].
  exact (proj1 (do_scan_step_fields var s)).
Qed.

Lemma do_count_cells fuel st st' : do_count fuel st = Returned st' -> same_cells st st'.
Proof.
  unfold do_count. intros H.
  eapply (while_erase_inv (same_cells st)) in H as [H _];
    [done| |apply same_cells_refl].
  intros ref s s' Hs _ ->%do_count_step_Returned. eapply same_cells_trans; [done|].
  by eapply (same_cells_alter s _ (fun x => set_gc_ref (m_gc_ref x + 1) x) ref.2).
Qed.

Lemma do_reach_cells fuel var st st' :
  do_reach fuel var st = Returned st' -> same_cells st st'.
Proof.
  unfold do_reach. intros H.
  eapply (while_erase_inv (same_cells st)) in H as [H _]; [done| |].
  - intros v s s' Hs _ [= <-]. eapply same_cells_trans; [done|].
    eapply (same_cells_alter s _ (set_gc_ref 0) v); [|done].
    exact (proj1 (do_reach_step_fields v (set_temp_2 (m_temp_2 s ∖ {[v]}) s))).
  - eapply (same_cells_alter st _ (set_gc_ref 0) var); [|done].
    exact (proj1 (do_reach_step_fields var st)).
Qed.

Lemma do_mark_cells fuel bound st st' :
  do_mark fuel bound st = Returned st' -> same_cells st st'.
Proof.
  unfold do_mark. intros H.
  eapply (while_erase_inv (same_cells st)) in H as [H _];
    [done| |apply same_cells_refl].
  intros var s s' Hs _. unfold do_mark_step. case_match.
  - by intros [= <-].
  - intros Hr%do_reach_cells. eapply same_cells_trans; [done|]. exact Hr.
Qed.

Lemma phases_same gen st st1 st2 marked fuel1 fuel2 fuel3 bound :
  do_scan fuel1 (scan_start gen st) = Returned st1 ->
  do_count fuel2 st1 = Returned st2 ->
  do_mark fuel3 bound (mark_start gen st2) = Returned marked ->
  same_members st marked /\ same_cells st marked.
Proof.
  intros E1 E2 E3. split.
  - apply do_scan_frame in E1 as [E1 _]. apply do_count_frame in E2 as [E2 _].
    apply do_mark_frame in E3.
    eapply same_members_trans; [|exact E3].
    eapply same_members_trans; [|unfold mark_start; split_and!; try reflexivity; done].
    eapply same_members_trans; [|exact E2].
    eapply same_members_trans; [|exact E1].
    unfold scan_start, same_members. simpl. done.
  - apply do_scan_cells in E1. apply do_count_cells in E2. apply do_mark_cells in E3.
    intros v. rewrite (E3 v). simpl. rewrite (E2 v), (E1 v). done.
Qed.


Lemma pass_cells gen marked swept_st st' v :
  swept gen (m_unreachable marked) marked swept_st ->
  (if decide (gen < gMax) then
     exists promoted_st,
       promoted gen (m_reachable marked) swept_st promoted_st
       /\ st' = set_counts_at (gMax - gen) 0 promoted_st
   else st' = set_counts_at (gMax - gen) 0 swept_st) ->
  variables st' !! v
  = if decide (v ∈ m_unreachable marked) then uninitialize <$> variables marked !! v
    else variables marked !! v.
Proof.
  intros Hsw Hfin. rewrite <- (swept_variables _ _ _ _ Hsw).
  destruct (decide (gen < gMax)).
  - destruct Hfin as (promoted_st & Hpr & ->). simpl.
    by rewrite (promoted_variables _ _ _ _ Hpr).
  - by subst st'.
Qed.

Lemma pass_others gen marked swept_st st' :
  swept gen (m_unreachable marked) marked swept_st ->
  (if decide (gen < gMax) then
     exists promoted_st,
       promoted gen (m_reachable marked) swept_st promoted_st
       /\ st' = set_counts_at (gMax - gen) 0 promoted_st
   else st' = set_counts_at (gMax - gen) 0 swept_st) ->
  roots st' = roots marked /\ m_recur st' = m_recur marked.
Proof.
  intros Hsw Hfin. destruct Hsw as [_ _ _ _ Hr1 Hc1 _ _ _].
  destruct (decide (gen < gMax)).
  - destruct Hfin as (promoted_st & Hpr & ->). simpl.
    destruct Hpr as [_ _ _ _ _ _ _ Hr2 Hc2 _]. split; congruence.
  - subst st'. simpl. done.
Qed.


End Passes.

(** ** What a collection finds *)

(** *** Bounds of the reference counts *)

Lemma holds_nonneg (s : gset var_id) v : (0 <= holds s v)%Z.
Proof. unfold holds. destruct (decide _); lia. Qed.

Lemma references_mono m1 m2 v : m1 ⊆ m2 -> (references m1 v <= references m2 v)%Z.
Proof.
  intros H. unfold references. apply inj_le, map_subseteq_size.
  by apply map_filter_subseteq_mono.
Qed.

Lemma references_lt m1 m2 k v :
  m1 ⊆ m2 -> m2 !! k = Some v -> m1 !! k = None ->
  (references m1 v < references m2 v)%Z.
Proof.
  intros Hsub H2 H1. rewrite (references_delete m2 k v v H2).
  destruct (decide (v = v)); [|done].
  assert (m1 ⊆ delete k m2) as Hsub'.
  { apply map_subseteq_spec. intros k' w Hk'.
    destruct (decide (k' = k)) as [->|Hne]; [congruence|].
    rewrite lookup_delete_ne by done. by eapply map_subseteq_spec. }
  pose proof (references_mono _ _ v Hsub'). lia.
Qed.

Lemma tracked_holds_nonneg st v : (0 <= tracked_holds st v)%Z.
Proof.
  unfold tracked_holds.
  pose proof (holds_nonneg (m_tracked st 0) v).
  pose proof (holds_nonneg (m_tracked st 1) v).
  pose proof (holds_nonneg (m_tracked st 2) v). lia.
Qed.

Lemma use_count_held st x : (held_count st x <= use_count st x)%Z.
Proof.
  unfold held_count, use_count, tracked_holds.
  pose proof (holds_nonneg (m_pool st) x).
  pose proof (holds_nonneg (m_temp_1 st) x).
  pose proof (holds_nonneg (m_temp_2 st) x).
  pose proof (holds_nonneg (m_unreachable st) x).
  pose proof (holds_nonneg (m_reachable st) x).
  pose proof (references_nonneg (m_staged st) x). lia.
Qed.

Lemma use_count_reachable st x : x ∈ m_reachable st -> (1 <= use_count st x)%Z.
Proof.
  intros Hx. pose proof (use_count_held st x) as H. unfold held_count in H.
  unfold use_count in *. rewrite (holds_elem (m_reachable st) x Hx).
  pose proof (holds_nonneg (m_pool st) x).
  pose proof (holds_nonneg (m_temp_1 st) x).
  pose proof (holds_nonneg (m_temp_2 st) x).
  pose proof (holds_nonneg (m_unreachable st) x).
  pose proof (holds_nonneg (m_tracked st 0) x).
  pose proof (holds_nonneg (m_tracked st 1) x).
  pose proof (holds_nonneg (m_tracked st 2) x).
  pose proof (references_nonneg (m_staged st) x).
  pose proof (references_nonneg (all_slots (variables st)) x). lia.
Qed.

Section Marking_Sound.

Context `{ER : Erase_Random}.

(** *** The third loop *)

Lemma mark_sound_reach_step var S gc2 st :
  mark_sound (Some var) S gc2 st -> mark_sound None S gc2 (do_reach_step var st).
Proof.
  intros (H1 & H2 & H3 & H4 & H5 & H6 & H7 & H8).
  destruct (do_reach_step_fields var st) as (Hvars & Hun & Hre & Ht1 & Hst & Ht2).
  destruct (do_reach_step_frame var st) as (Hroots & _ & _ & _ & _ & Htr & _).
  assert (Hslots : all_slots (variables (do_reach_step var st))
                   = all_slots (variables st)).
  { rewrite Hvars. by apply all_slots_alter_value. }
  assert (Hheld : forall x, held_count (do_reach_step var st) x = held_count st x).
  { intros x. unfold held_count. by rewrite Hroots, Hslots, (tracked_holds_same _ _ _ Htr). }
  assert (Hgc : forall x, get_gc_ref (do_reach_step var st) x
                          = if decide (var = x) then 0%Z else get_gc_ref st x).
  { intros x. unfold get_gc_ref. rewrite Hvars.
    destruct (decide (var = x)) as [->|Hne].
    - rewrite lookup_alter_eq. by destruct (variables st !! x).
    - by rewrite lookup_alter_ne. }
  unfold mark_sound. rewrite Hslots, Ht1, Hun, Hre. split_and!.
  - intros x Hx. destruct (decide (x = var)) as [->|Hne].
    + right. right. left. clear. set_solver.
    + destruct (H1 x Hx) as [?|[?|[?|?]]]; [by left| | |congruence].
      * right. left. clear -H Hne. set_solver.
      * right. right. left. clear -H. set_solver.
  - intros x [Hx Hne]%elem_of_difference. destruct (H2 x Hx) as (Ha & Hb & Hc).
    rewrite Hheld. split_and!; try done. clear -Hb Hne. set_solver.
  - intros x Hx. rewrite Hgc. destruct (decide (var = x)); [done|].
    apply H3. clear -Hx n. set_solver.
  - intros x Hx. rewrite Hgc. destruct (decide (var = x)) as [->|Hne].
    + exfalso. apply Hx. clear. set_solver.
    + apply H4. clear -Hx. set_solver.
  - intros r i w Hr Hs. apply Hst.
    destruct (decide (r = var)) as [->|Hne].
    + destruct (m_staged st !! (var, i)) as [w'|] eqn:E.
      * left. pose proof (proj1 (map_subseteq_spec _ _) H7 _ _ E). congruence.
      * right. eauto.
    + left. apply H5; [|done]. clear -Hr Hne. set_solver.
  - intros k w [Hk|(Hnone & i & -> & Hi)]%Hst.
    + destruct (H6 k w Hk) as [?|[?|?]].
      * left. clear -H. set_solver.
      * right. left. apply Ht2. by left.
      * left. assert (w = var) as -> by congruence. clear. set_solver.
    + right. left. apply Ht2. right. eauto.
  - apply map_subseteq_spec. intros k w [Hk|(_ & i & -> & Hi)]%Hst.
    + by eapply map_subseteq_spec.
    + done.
  - done.
Qed.

Lemma mark_sound_pop_temp_1 var S gc2 st :
  mark_sound None S gc2 st ->
  mark_sound (Some var) S gc2 (set_temp_1 (m_temp_1 st ∖ {[var]}) st).
Proof.
  intros (H1 & H2 & H3 & H4 & H5 & H6 & H7 & H8). unfold mark_sound. simpl.
  split_and!; try done.
  - intros x Hx. destruct (decide (x = var)) as [->|Hne]; [by repeat right|].
    destruct (H1 x Hx) as [?|[?|[?|?]]]; [|by right; left|by right; right; left|done].
    left. clear -H Hne. set_solver.
  - intros k w Hk. destruct (H6 k w Hk) as [?|[?|?]]; [by left|by right; left|done].
  - intros x Hx. apply H8. clear -Hx. set_solver.
Qed.

Lemma mark_sound_pop_temp_2 var S gc2 st :
  mark_sound None S gc2 st ->
  mark_sound (Some var) S gc2 (set_temp_2 (m_temp_2 st ∖ {[var]}) st).
Proof.
  intros (H1 & H2 & H3 & H4 & H5 & H6 & H7 & H8). unfold mark_sound. simpl.
  split_and!; try done.
  - intros x Hx.
    destruct (H1 x Hx) as [?|[?|[?|?]]];
      [by left|by right; left|by right; right; left|done].
  - intros k w Hk. destruct (decide (w = var)) as [->|Hne]; [by repeat right|].
    destruct (H6 k w Hk) as [?|[?|?]]; [by left| |done].
    right. left. clear -H Hne. set_solver.
Qed.

Lemma do_reach_sound S gc2 fuel var st st' :
  mark_sound (Some var) S gc2 st ->
  do_reach fuel var st = Returned st' ->
  mark_sound None S gc2 st' /\ m_temp_2 st' = ∅.
Proof.
  unfold do_reach. intros Hm H.
  eapply (while_erase_inv (mark_sound None S gc2)) in H as [H Hn].
  - split; [done|]. by apply choose_var_None in Hn.
  - intros v s s' Hs _ [= <-].
    by apply mark_sound_reach_step, mark_sound_pop_temp_2.
  - by apply mark_sound_reach_step.
Qed.

Lemma do_mark_step_sound S gc2 bound var st st' :
  var ∈ m_temp_1 st -> mark_sound None S gc2 st -> m_temp_2 st = ∅ ->
  do_mark_step bound var st = Returned st' ->
  mark_sound None S gc2 st' /\ m_temp_2 st' = ∅.
Proof.
  intros Hin Hm Hempty. unfold do_mark_step.
  pose proof (mark_sound_pop_temp_1 var S gc2 st Hm) as Hm'.
  set (st0 := set_temp_1 (m_temp_1 st ∖ {[var]}) st) in *.
  destruct (is_internal st0 var) eqn:Hint; [|by apply do_reach_sound].
  intros [= <-]. split; [|done].
  apply Z.eqb_eq in Hint.
  destruct Hm as (H1 & H2 & H3 & H4 & H5 & H6 & H7 & H8).
  assert (var ∉ m_reachable st) as HR.
  { intros HR. pose proof (use_count_reachable st0 var HR).
    assert (get_gc_ref st0 var = 0%Z) by (by apply H3). lia. }
  assert (held_count st var <= gc2 var)%Z as Hheld.
  { pose proof (use_count_held st0 var).
    assert (get_gc_ref st0 var = gc2 var) by (by apply H4).
    change (held_count st0 var) with (held_count st var) in *. lia. }
  unfold mark_sound. simpl. split_and!; try done.
  - intros x Hx. destruct (decide (x = var)) as [->|Hne].
    + right. left. clear. set_solver.
    + destruct (H1 x Hx) as [?|[?|[?|?]]]; [| |by right; right; left|done].
      * left. clear -H Hne. set_solver.
      * right. left. clear -H. set_solver.
  - intros x [->%elem_of_singleton|Hx]%elem_of_union.
    + split_and!; [by apply H8|done|done].
    + by apply H2.
  - intros x Hx. apply H8. clear -Hx. set_solver.
Qed.

Lemma do_mark_sound S gc2 fuel bound st st' :
  do_mark fuel bound st = Returned st' ->
  mark_sound None S gc2 st -> m_temp_2 st = ∅ ->
  mark_sound None S gc2 st' /\ m_temp_1 st' = ∅ /\ m_temp_2 st' = ∅.
Proof.
  unfold do_mark. intros H Hm Hempty.
  eapply (while_erase_inv (fun s => mark_sound None S gc2 s /\ m_temp_2 s = ∅)) in H
    as [[Hm' He'] Hn]; [|clear H|done].
  - apply choose_var_None in Hn. done.
  - intros var s s' [Hs He] Hc Hstep. apply choose_var_Some in Hc.
    by eapply do_mark_step_sound.
Qed.

End Marking_Sound.

Section Marking_Facts.

Context `{ER : Erase_Random}.

(** *** Where the first two loops look *)

Lemma do_scan_owner tracked fuel st st' :
  do_scan fuel st = Returned st' -> scan_owner_inv tracked st ->
  scan_owner_inv tracked st'.
Proof.
  unfold do_scan. intros H Hinv.
  eapply (while_erase_inv (scan_owner_inv tracked)) in H as [H _]; [done| |done].
  clear. intros var s s' [H1 H2] Hc [= <-]. apply choose_var_Some in Hc.
  destruct (do_scan_step_fields var s) as (_ & Hst & Ht1).
  assert (Himg : forall x, (exists k, m_staged s !! k = Some x) ->
                           exists k, m_staged (do_scan_step var s) !! k = Some x).
  { intros x [k Hk]. exists k. apply Hst. by left. }
  split.
  - intros x [[Hx _]|(i & Hnone & Hi)]%Ht1.
    + destruct (H1 x Hx) as [|Hk]; [by left|right; by apply Himg].
    + right. exists (var, i). apply Hst. right. eauto.
  - intros o i w [Hk|(_ & j & [= -> ->] & Hj)]%Hst.
    + destruct (H2 o i w Hk) as [|Hk']; [by left|right; by apply Himg].
    + destruct (H1 var Hc) as [|Hk']; [by left|right; by apply Himg].
Qed.

Lemma do_count_temp fuel st1 st2 :
  do_count fuel st1 = Returned st2 -> count_temp_inv st1 st2.
Proof.
  unfold do_count. intros H.
  eapply (while_erase_inv (count_temp_inv st1)) in H as [H _]; [done|clear H|].
  - intros [k w] s s' [H1 H2] Hc ->%do_count_step_Returned.
    apply choose_ref_Some in Hc. unfold count_temp_inv. simpl. split.
    + intros k' w' Hk'. apply lookup_delete_Some in Hk' as [_ Hk']. auto.
    + intros x [->%elem_of_singleton|Hx]%elem_of_union; [|auto].
      right. exists k. auto.
  - split; auto.
Qed.

(** *** The three loops together *)

Lemma marking_sound gen st st1 st2 marked fuel1 fuel2 fuel3 bound :
  do_scan fuel1 (scan_start gen st) = Returned st1 ->
  do_count fuel2 st1 = Returned st2 ->
  do_mark fuel3 bound (mark_start gen st2) = Returned marked ->
  gc_wf st ->
  marking_facts gen st marked (m_temp_1 (mark_start gen st2)).
Proof.
  intros E1 E2 E3 Hwf.
  set (st0 := scan_start gen st) in *.
  set (S := m_temp_1 (mark_start gen st2)).
  assert (Hm0 : same_members st st0) by (by repeat split).
  pose proof (do_scan_frame _ _ _ E1) as [Hm1 Hk1].
  pose proof (do_count_frame _ _ _ E2) as [Hm2 Hk2].
  pose proof (same_members_trans _ _ _ Hm0 Hm1) as Hm01.
  pose proof (same_members_trans _ _ _ Hm01 Hm2) as Hm02.
  pose proof (same_members_slots _ _ Hm01) as Hs1.
  pose proof (same_members_slots _ _ Hm02) as Hs2.
  pose proof (do_mark_frame _ _ _ _ E3) as Hm3.
  assert (Hs3 : all_slots (variables marked) = all_slots (variables st)).
  { rewrite (same_members_slots _ _ Hm3). exact Hs2. }
  (* the first loop *)
  assert (Hinv0 : scan_inv (m_tracked st (gMax - gen)) st0).
  { split_and!.
    - apply map_empty_subseteq.
    - intros v Hv. left. unfold st0, scan_start. simpl. clear -Hv. set_solver.
    - intros k v Hk. unfold st0, scan_start in Hk. simpl in Hk.
      by rewrite lookup_empty in Hk. }
  destruct (do_scan_spec _ _ _ _ E1 Hinv0) as (Hsub1 & Htr1 & Hst1 & Hempty1).
  assert (Hown0 : scan_owner_inv (m_tracked st (gMax - gen)) st0).
  { split.
    - intros x Hx. left. unfold st0, scan_start in Hx. simpl in Hx.
      clear -Hx. set_solver.
    - intros o i w Hk. unfold st0, scan_start in Hk. simpl in Hk.
      by rewrite lookup_empty in Hk. }
  destruct (do_scan_owner _ _ _ _ E1 Hown0) as [_ Hown1].
  (* the second loop *)
  destruct (do_count_spec _ _ _ E2) as (Hstaged2 & Hgc2 & Himg2).
  destruct (do_count_temp _ _ _ E2) as [_ Htemp2].
  assert (Hdom1 : dom (variables st1) = dom (variables st)).
  { by destruct Hm01 as (_ & _ & _ & _ & _ & _ & ? & _). }
  destruct Hm02 as (Hroots2 & _ & _ & _ & _ & Htr2 & _ & _).
  destruct Hk1 as (Ht21 & Hun1 & Hre1). destruct Hk2 as (Ht22 & Hun2 & Hre2).
  (* what the third loop starts from *)
  assert (HS : forall x, x ∈ S <->
            x ∈ m_tracked st (gMax - gen) \/ exists k, m_staged st1 !! k = Some x).
  { intros x. unfold S, mark_start. simpl. rewrite Htr2, elem_of_union. split.
    - intros [Hx|Hx]; [|by left].
      destruct (Htemp2 x Hx) as [Hx'|Hk]; [|by right].
      rewrite Hempty1 in Hx'. by apply elem_of_empty in Hx'.
    - intros [Hx|[k Hk]]; [by right|left]. by eapply Himg2. }
  assert (Hscanned : forall x, x ∈ S -> scanned st1 x).
  { intros x [Hx|[k Hk]]%HS; eauto. }
  assert (Hinit : mark_sound None S (get_gc_ref st2) (mark_start gen st2)).
  { unfold mark_sound, mark_start. simpl. rewrite Hstaged2, Hun2, Hun1, Hre2, Hre1.
    unfold st0, scan_start. simpl. split_and!.
    - intros x Hx. by left.
    - intros x Hx. by apply elem_of_empty in Hx.
    - intros x Hx. by apply elem_of_empty in Hx.
    - done.
    - intros r i w Hr. by apply elem_of_empty in Hr.
    - intros k w Hk. by rewrite lookup_empty in Hk.
    - apply map_empty_subseteq.
    - done. }
  assert (Hempty : m_temp_2 (mark_start gen st2) = ∅).
  { unfold mark_start. simpl. rewrite Ht22, Ht21. done. }
  destruct (do_mark_sound _ _ _ _ _ _ E3 Hinit Hempty)
    as ((F1 & F2 & F3 & F4 & F5 & F6 & F7 & F8) & Hend1 & Hend2).
  rewrite Hs3 in F5, F7.
  assert (Hheld : forall x, held_count marked x = held_count st x).
  { intros x. unfold held_count. rewrite Hs3.
    destruct Hm3 as (Hr & _ & _ & _ & _ & Ht & _).
    rewrite Hr, (tracked_holds_same _ _ _ Ht).
    change (roots (mark_start gen st2)) with (roots st2).
    change (tracked_holds (mark_start gen st2) x) with (tracked_holds st2 x).
    by rewrite Hroots2, (tracked_holds_same _ _ _ Htr2). }
  split.
  - intros x Hx. apply HS. by left.
  - intros o i w Ho Hs. apply HS. right. exists (o, i).
    apply (Hscanned o Ho). by rewrite Hs1.
  - intros x Hx. destruct (F1 x Hx) as [H|[H|[H|H]]]; [|by left|by right|done].
    rewrite Hend1 in H. by apply elem_of_empty in H.
  - intros x Hx. by destruct (F2 x Hx) as (? & ? & _).
  - intros r i w Hr Hs. destruct (F6 _ _ (F5 r i w Hr Hs)) as [H|[H|H]]; [done| |done].
    rewrite Hend2 in H. by apply elem_of_empty in H.
  - intros x Hx (i & Hi & Hin) Hext.
    destruct (F1 x Hx) as [H|[H|[H|H]]]; [|exfalso|done|done].
    { rewrite Hend1 in H. by apply elem_of_empty in H. }
    destruct (F2 x H) as (_ & _ & Hle). rewrite Hheld in Hle.
    assert (x ∈ dom (variables st1)) as Hxdom.
    { rewrite Hdom1. destruct Hwf as (_ & _ & H3 & _). eauto. }
    rewrite (Hgc2 x Hxdom) in Hle.
    destruct (Hscanned x Hx) as [_ Hone]. rewrite (Hone Hxdom) in Hle.
    unfold held_count in Hle. rewrite (tracked_holds_one st i x Hwf Hi Hin) in Hle.
    rewrite <- Hs1 in Hle.
    pose proof (references_mono _ _ x Hsub1) as Hmono.
    destruct Hext as [Hroot|(o & j & Hs & Ho)]; [lia|].
    assert (m_staged st1 !! (o, j) = None) as Hnone.
    { destruct (m_staged st1 !! (o, j)) as [w|] eqn:E; [|done]. exfalso.
      apply Ho, HS. by destruct (Hown1 o j w E) as [?|?]; [left|right]. }
    rewrite <- Hs1 in Hs.
    pose proof (references_lt _ _ _ x Hsub1 Hs Hnone). lia.
Qed.

End Marking_Facts.

Section Collection_Facts.

Context `{ER : Erase_Random}.

(** A collection, with what its loops have found. *)
Lemma do_collect_facts gen st st' nvars :
  do_collect gen st = Returned (st', nvars) -> gc_wf st ->
  exists marked swept_st S,
    marking_facts gen st marked S
    /\ same_members st marked /\ same_cells st marked
    /\ swept gen (m_unreachable marked) marked swept_st
    /\ nvars = size (m_unreachable marked)
    /\ (if decide (gen < gMax) then
          exists promoted_st,
            promoted gen (m_reachable marked) swept_st promoted_st
            /\ st' = set_counts_at (gMax - gen) 0 promoted_st
        else st' = set_counts_at (gMax - gen) 0 swept_st).
Proof.
  intros H Hwf.
  apply do_collect_phases in H
    as (st1 & st2 & marked & swept_st & E1 & E2 & E3 & Hsw & -> & Hfin).
  destruct (phases_same _ _ _ _ _ _ _ _ _ E1 E2 E3) as [Hm Hcells].
  exists marked, swept_st, (m_temp_1 (mark_start gen st2)).
  split_and!; try done. by eapply marking_sound.
Qed.

(** What a rooted variable reaches is not found unreachable, where all of
    it is tracked. *)
Lemma marking_facts_spares gen st marked S v :
  gc_wf st -> marking_facts gen st marked S ->
  1 <= default 0 (roots st !! v) ->
  (forall u, rtc (refers st) v u -> exists i, i <= gMax /\ u ∈ m_tracked st i) ->
  forall w, rtc (refers st) v w -> w ∉ m_unreachable marked.
Proof.
  intros Hwf Hf Hroot Htracked.
  assert (Hgoal : forall w, rtc (refers st) v w ->
            rtc (refers st) v w /\ (w ∈ S -> w ∈ m_reachable marked)).
  { apply (rtc_ind_r (fun w => rtc (refers st) v w
                               /\ (w ∈ S -> w ∈ m_reachable marked))).
    - split; [apply rtc_refl|]. intros Hv.
      apply (mf_external _ _ _ _ Hf); [done| |by left]. apply Htracked, rtc_refl.
    - intros y z Hvy [i Hyz] [_ IH].
      assert (rtc (refers st) v z) as Hvz by (eapply rtc_r; [done|by exists i]).
      split; [done|]. intros Hz.
      destruct (decide (y ∈ S)) as [Hy|Hy].
      + eapply (mf_reachable_closed _ _ _ _ Hf); [|done]. auto.
      + apply (mf_external _ _ _ _ Hf); [done|by apply Htracked|].
        right. eauto. }
  intros w Hw Hu. destruct (Hgoal w Hw) as [_ Hr].
  destruct (mf_unreachable _ _ _ _ Hf w Hu) as [HwS HwR]. auto.
Qed.

End Collection_Facts.

(** ** The assertion of the second loop *)

Section Assertion.

Context `{ER : Erase_Random}.

(** The first loop stages references of what [tracked] reaches. *)
Lemma do_scan_reached (tracked : gset var_id) fuel st0 st1 :
  do_scan fuel st0 = Returned st1 ->
  (forall x, x ∈ m_temp_1 st0 -> exists t, t ∈ tracked /\ rtc (refers st0) t x) ->
  (forall o i w, m_staged st0 !! (o, i) = Some w ->
     exists t, t ∈ tracked /\ rtc (refers st0) t o) ->
  forall o i w, m_staged st1 !! (o, i) = Some w ->
    exists t, t ∈ tracked /\ rtc (refers st0) t o.
Proof.
  unfold do_scan. intros H Ht Hs.
  eapply (while_erase_inv (fun st =>
     all_slots (variables st) = all_slots (variables st0)
     /\ (forall x, x ∈ m_temp_1 st -> exists t, t ∈ tracked /\ rtc (refers st0) t x)
     /\ (forall o i w, m_staged st !! (o, i) = Some w ->
           exists t, t ∈ tracked /\ rtc (refers st0) t o)))
    in H as [(_ & _ & H) _]; [done| |done].
  intros var s s' (Hslots & H1 & H2) Hc [= <-]. apply choose_var_Some in Hc.
  destruct (do_scan_step_fields var s) as (Hvars & Hstaged & Htemp).
  split_and!.
  - by rewrite do_scan_step_slots.
  - intros x [[Hx _]|(i & _ & Hi)]%Htemp; [auto|].
    destruct (H1 var Hc) as (t & Ht1 & Ht2). exists t. split; [done|].
    eapply rtc_r; [done|]. exists i. by rewrite <- Hslots.
  - intros o i w [Hk|(_ & i' & [= -> ->] & _)]%Hstaged; [eauto|]. auto.
Qed.

(** Something keeps [w] besides one reference of a value. *)
Lemma owned_cases st w :
  w ∈ dom (variables st) -> ~ unowned st w ->
  (1 <= Z.of_nat (default 0%nat (roots st !! w)) + holds (m_pool st) w
        + tracked_holds st w)%Z
  \/ references (all_slots (variables st)) w <> 1%Z.
Proof.
  intros Hdom Hown.
  destruct (decide (references (all_slots (variables st)) w = 1%Z)) as [Hr|]; [|by right].
  left. pose proof (holds_nonneg (m_pool st) w). pose proof (tracked_holds_nonneg st w).
  destruct (default 0 (roots st !! w)) as [|n] eqn:Hroot; [|lia].
  destruct (decide (w ∈ m_pool st)) as [Hp|Hp]; [rewrite holds_elem by done; lia|].
  destruct (decide (tracked_holds st w = 0%Z)) as [Ht|Ht]; [|lia].
  exfalso. apply Hown. by repeat split.
Qed.

(** The second loop returns where every variable that a staged reference
    refers to has been counted once and is kept by something else. *)
Lemma do_count_returns fuel st1 :
  size (m_staged st1) <= fuel ->
  m_staged st1 ⊆ all_slots (variables st1) ->
  (forall k v, m_staged st1 !! k = Some v -> v ∈ dom (variables st1) ->
     get_gc_ref st1 v = 1%Z) ->
  (forall k v, m_staged st1 !! k = Some v -> ~ unowned st1 v) ->
  exists st2, do_count fuel st1 = Returned st2.
Proof.
  intros Hfuel Hsub Hone Hown. unfold do_count.
  destruct (while_erase_total
    (fun st => same_members st1 st /\ count_inv st1 st
               /\ m_staged st ⊆ m_staged st1
               /\ (forall v, (references (m_staged st) v
                              < references (m_staged st1) v)%Z -> v ∈ m_temp_1 st))
    (fun st => size (m_staged st))
    (fun st => choose_ref (m_staged st)) do_count_step fuel st1)
    as (st2 & Hr & _); [| |done|by exists st2].
  2:{ split_and!; [apply same_members_refl| |done|intros v; lia].
      unfold count_inv. split_and!; eauto. }
  intros [k w] st (Hm & Hc & Hss & Htemp) Hpick. apply choose_ref_Some in Hpick.
  assert (Hk1 : m_staged st1 !! k = Some w).
  { by eapply map_subseteq_spec. }
  assert (Hstep : exists st', do_count_step (k, w) st = Returned st').
  { unfold do_count_step. cbn [fst snd].
    match goal with |- context [gc_ref_in_range ?s w] =>
      assert (gc_ref_in_range s w = true) as -> end; [|by eexists].
    unfold gc_ref_in_range. apply Z.leb_le.
    rewrite get_gc_ref_alter. destruct (decide (w = w)); [|done].
    unfold use_count. cbn [variables roots m_pool m_tracked m_staged m_temp_1 m_temp_2
      m_unreachable m_reachable set_variables set_staged].
    rewrite all_slots_alter_value by done.
    pose proof (same_members_slots _ _ Hm) as Hslots.
    destruct Hm as (Hroots & _ & Hpool & _ & _ & Htr & Hdom & _).
    destruct Hc as (_ & Hsum & _).
    pose proof (references_delete _ _ _ w Hpick) as Hdel.
    destruct (decide (w = w)); [|done].
    pose proof (references_mono _ _ w Hsub) as Hle1.
    pose proof (references_mono _ _ w Hss) as Hle2.
    pose proof (references_nonneg (delete k (m_staged st)) w).
    pose proof (references_nonneg (all_slots (variables st)) w).
    pose proof (holds_nonneg (m_pool st) w). pose proof (holds_nonneg (m_tracked st 0) w).
    pose proof (holds_nonneg (m_tracked st 1) w).
    pose proof (holds_nonneg (m_tracked st 2) w).
    pose proof (holds_nonneg (m_temp_1 st) w). pose proof (holds_nonneg (m_temp_2 st) w).
    pose proof (holds_nonneg (m_unreachable st) w).
    pose proof (holds_nonneg (m_reachable st) w).
    destruct (variables st !! w) as [x|] eqn:Hx; [|lia].
    assert (Hw : w ∈ dom (variables st1)).
    { rewrite <- Hdom. apply elem_of_dom. eauto. }
    specialize (Hsum w Hw). rewrite (Hone k w Hk1 Hw) in Hsum.
    unfold get_gc_ref in Hsum. rewrite Hx in Hsum.
    assert (Hh : (references (m_staged st) w < references (m_staged st1) w)%Z ->
                 holds (m_temp_1 st) w = 1%Z).
    { intros Hlt. apply holds_elem. auto. }
    destruct (owned_cases st1 w Hw (Hown k w Hk1)) as [Hcase|Hcase].
    - unfold tracked_holds in Hcase. rewrite Hroots, Hpool, Htr, Hslots.
      cbn [m_gc_ref set_gc_ref]. lia.
    - rewrite Hslots. cbn [m_gc_ref set_gc_ref].
      destruct (decide (references (m_staged st) w < references (m_staged st1) w)%Z)
        as [Hlt|Hge]; [rewrite (Hh Hlt)|]; lia. }
  destruct Hstep as [st' Hstep]. exists st'. split; [done|].
  destruct (do_count_step_frame _ _ _ Hstep) as [Hm' _].
  pose proof (do_count_step_inv st1 k w st st' Hpick Hc Hstep) as Hc'.
  apply do_count_step_Returned in Hstep as ->. cbn [fst snd].
  split_and!.
  - by eapply same_members_trans.
  - done.
  - simpl. etrans; [apply delete_subseteq|done].
  - simpl. intros v Hv. destruct (decide (v = w)) as [->|Hne]; [set_solver|].
    apply elem_of_union_r, Htemp.
    pose proof (references_delete _ _ _ v Hpick) as Hdel.
    destruct (decide (w = v)); [done|]. lia.
  - simpl. rewrite map_size_delete_Some by done.
    assert (size (m_staged st) <> 0); [|lia].
    intros E. apply map_size_empty_inv in E. rewrite E in Hpick. done.
Qed.

(** A collection returns where the assertion of its second loop holds. *)
Lemma do_collect_returns gen st :
  count_asserted gen st -> exists r, do_collect gen st = Returned r.
Proof.
  intros Hok.
  destruct (do_collect_total gen st)
    as (st1 & E1 & [(msg & E2 & _)|(st2 & r & _ & Hr)]); [exfalso|by exists r].
  pose proof (do_scan_frame _ _ _ E1) as [Hm _].
  pose proof (same_members_slots _ _ Hm) as Hslots.
  assert (Hinv : scan_inv (m_tracked st (gMax - gen)) (scan_start gen st)).
  { unfold scan_inv, scan_start. simpl. split_and!.
    - apply map_empty_subseteq.
    - intros v Hv. left. set_solver.
    - intros k v Hk. by rewrite lookup_empty in Hk. }
  destruct (do_scan_spec _ _ _ _ E1 Hinv) as (Hsub & _ & Hsc & _).
  pose proof (do_scan_reached (m_tracked st (gMax - gen)) _ _ _ E1) as Hreach.
  destruct (do_count_returns (collection_bound gen st) st1) as [st2 E2'].
  - apply map_subseteq_size in Hsub. rewrite Hslots in Hsub.
    unfold collection_bound. simpl in Hsub. lia.
  - done.
  - intros k v Hk Hv. by apply (Hsc k v Hk).
  - intros [o i] v Hk Hun.
    destruct (Hreach) with (o := o) (i := i) (w := v) as (t & Ht & Hto); [| |done|].
    + simpl. intros x Hx. exists x. split; [set_solver|apply rtc_refl].
    + simpl. intros o' i' w' Hw'. by rewrite lookup_empty in Hw'.
    + apply (Hok t o i v Ht Hto).
      * pose proof (map_subseteq_spec (m_staged st1) (all_slots (variables st1)))
          as [Hspec _]. specialize (Hspec Hsub _ _ Hk). by rewrite Hslots in Hspec.
      * destruct Hm as (Hroots & _ & Hpool & _ & _ & Htr & Hdom & _).
        destruct Hun as (H1 & H2 & H3 & H4 & H5).
        simpl in Hroots, Hpool, Htr, Hdom, Hslots.
        unfold unowned. rewrite <- Hdom, <- Hroots, <- Hpool, <- Hslots.
        unfold tracked_holds in *. rewrite <- Htr. done.
  - rewrite E2 in E2'. done.
Qed.

Lemma do_collect_generation_returns gen st :
  gen <= gMax -> count_asserted gen st ->
  exists r, do_collect_generation gen st = Returned r.
Proof.
  intros Hgen Hok. unfold do_collect_generation.
  destruct (negb _); [by eexists|].
  destruct (decide (gMax < gen)); [lia|].
  destruct (do_collect_returns gen (set_recur (m_recur st + 1) st)) as [[st' nvars] ->];
    [exact Hok|].
  by eexists.
Qed.

End Assertion.

(** ** Generations that keep to themselves *)

Section Reached.

Context `{ER : Erase_Random}.

Variable P : var_id -> Prop.

Lemma marks_within_reach_step st0 var st :
  (forall o i w, P o -> all_slots (variables st0) !! (o, i) = Some w -> P w) ->
  P var -> marks_within P st0 st -> marks_within P st0 (do_reach_step var st).
Proof.
  intros Hclosed Hvar [Hslots Hin].
  destruct (do_reach_step_fields var st) as (Hv & Hu & Hr & Ht1 & _ & Ht2).
  split.
  - rewrite Hv, all_slots_alter_value by done. done.
  - intros x. rewrite Hu, Hr, Ht1, Ht2.
    intros [Hx|[[Hx|(i & _ & Hi)]|[Hx|Hx]]].
    + auto.
    + auto.
    + eapply Hclosed; [exact Hvar|]. by rewrite <- Hslots.
    + apply Hin. clear -Hx. set_solver.
    + apply elem_of_union in Hx as [->%elem_of_singleton|Hx]; auto.
Qed.

Lemma do_mark_within st0 fuel bound st st' :
  (forall o i w, P o -> all_slots (variables st0) !! (o, i) = Some w -> P w) ->
  do_mark fuel bound st = Returned st' -> marks_within P st0 st -> marks_within P st0 st'.
Proof.
  intros Hclosed H Hinit. unfold do_mark in H.
  eapply (while_erase_inv (marks_within P st0)) in H as [H _]; [done|clear H|done].
  intros var s s' Hs Hc. apply choose_var_Some in Hc.
  unfold do_mark_step.
  assert (Hpop : marks_within P st0 (set_temp_1 (m_temp_1 s ∖ {[var]}) s)).
  { destruct Hs as [H1 H2]. split; [done|]. simpl. intros x Hx. apply H2.
    clear -Hx. set_solver. }
  assert (Hvar : P var) by (apply Hs; auto).
  destruct (is_internal _ var).
  - intros [= <-]. destruct Hpop as [H1 H2]. split; [done|]. simpl.
    intros x [Hx|[Hx|[Hx|Hx]]]; [auto|auto| |auto].
    apply elem_of_union in Hx as [->%elem_of_singleton|Hx]; auto.
  - unfold do_reach. intros H.
    eapply (while_erase_inv (marks_within P st0)) in H as [H _]; [done| |].
    + intros v t t' Ht Hv [= <-]. apply choose_var_Some in Hv.
      apply marks_within_reach_step; [done|apply Ht; auto|].
      destruct Ht as [H1 H2]. split; [done|]. simpl. intros x Hx. apply H2.
      clear -Hx. set_solver.
    + by apply marks_within_reach_step.
Qed.

End Reached.

Section Closed_Generations.

Context `{ER : Erase_Random}.

(** What the loops of a collection mark is reached from [tracked]. *)
Lemma marking_reached gen st st1 st2 marked fuel1 fuel2 fuel3 bound :
  do_scan fuel1 (scan_start gen st) = Returned st1 ->
  do_count fuel2 st1 = Returned st2 ->
  do_mark fuel3 bound (mark_start gen st2) = Returned marked ->
  forall x, x ∈ m_unreachable marked \/ x ∈ m_reachable marked ->
    exists t, t ∈ m_tracked st (gMax - gen) /\ rtc (refers st) t x.
Proof.
  intros E1 E2 E3.
  set (P := fun x => exists t, t ∈ m_tracked st (gMax - gen) /\ rtc (refers st) t x).
  assert (Hclosed : forall o i w,
            P o -> all_slots (variables st) !! (o, i) = Some w -> P w).
  { intros o i w (t & Ht & Hto) Hs. exists t. split; [done|].
    eapply rtc_r; [done|]. by exists i. }
  assert (Hm0 : same_members st (scan_start gen st)) by (by repeat split).
  pose proof (do_scan_frame _ _ _ E1) as [Hm1 Hk1].
  pose proof (do_count_frame _ _ _ E2) as [Hm2 Hk2].
  pose proof (same_members_trans _ _ _ Hm0 Hm1) as Hm01.
  pose proof (same_members_trans _ _ _ Hm01 Hm2) as Hm02.
  pose proof (same_members_slots _ _ Hm01) as Hs1.
  pose proof (same_members_slots _ _ Hm02) as Hs2.
  assert (Hinv0 : scan_inv (m_tracked st (gMax - gen)) (scan_start gen st)).
  { split_and!.
    - apply map_empty_subseteq.
    - intros v Hv. left. unfold scan_start. simpl. clear -Hv. set_solver.
    - intros k v Hk. unfold scan_start in Hk. simpl in Hk.
      by rewrite lookup_empty in Hk. }
  destruct (do_scan_spec _ _ _ _ E1 Hinv0) as (Hsub1 & _ & _ & Hempty1).
  pose proof (do_scan_reached (m_tracked st (gMax - gen)) _ _ _ E1) as Hreach.
  destruct (do_count_temp _ _ _ E2) as [_ Htemp2].
  destruct Hk1 as (Ht21 & Hun1 & Hre1). destruct Hk2 as (Ht22 & Hun2 & Hre2).
  assert (Hinit : marks_within P st (mark_start gen st2)).
  { split; [exact Hs2|]. unfold mark_start. simpl.
    rewrite Ht22, Ht21, Hun2, Hun1, Hre2, Hre1. unfold scan_start. simpl.
    intros x [Hx|[Hx|[Hx|Hx]]]; try (by apply elem_of_empty in Hx).
    apply elem_of_union in Hx as [Hx|Hx].
    - destruct (Htemp2 x Hx) as [Hx'|[[o i] Hk]].
      { rewrite Hempty1 in Hx'. by apply elem_of_empty in Hx'. }
      apply (Hclosed o i x).
      + eapply (Hreach); [| |exact Hk].
        * simpl. intros y Hy. exists y. split; [|apply rtc_refl].
          clear -Hy. set_solver.
        * simpl. intros o' i' w' Hw'. by rewrite lookup_empty in Hw'.
      + rewrite <- Hs1. by eapply map_subseteq_spec.
    - exists x. split; [|apply rtc_refl].
      destruct Hm02 as (_ & _ & _ & _ & _ & Htr & _). by rewrite <- Htr. }
  pose proof (do_mark_within P st _ _ _ _ Hclosed E3 Hinit) as [_ Hend].
  intros x [Hx|Hx]; apply Hend; auto.
Qed.

(** A collection, with what its loops have found and where. *)
Lemma do_collect_reached gen st st' nvars :
  do_collect gen st = Returned (st', nvars) -> gc_wf st ->
  exists marked swept_st S,
    marking_facts gen st marked S
    /\ (forall x, x ∈ m_unreachable marked \/ x ∈ m_reachable marked ->
          exists t, t ∈ m_tracked st (gMax - gen) /\ rtc (refers st) t x)
    /\ same_members st marked /\ same_cells st marked
    /\ swept gen (m_unreachable marked) marked swept_st
    /\ (if decide (gen < gMax) then
          exists promoted_st,
            promoted gen (m_reachable marked) swept_st promoted_st
            /\ st' = set_counts_at (gMax - gen) 0 promoted_st
        else st' = set_counts_at (gMax - gen) 0 swept_st).
Proof.
  intros H Hwf.
  apply do_collect_phases in H
    as (st1 & st2 & marked & swept_st & E1 & E2 & E3 & Hsw & -> & Hfin).
  destruct (phases_same _ _ _ _ _ _ _ _ _ E1 E2 E3) as [Hm Hcells].
  exists marked, swept_st, (m_temp_1 (mark_start gen st2)).
  split_and!; try done; [by eapply marking_sound|by eapply marking_reached].
Qed.

(** What is reachable stays within what the third loop has found
    reachable. *)
Lemma marking_facts_reachable gen st marked S r v :
  marking_facts gen st marked S ->
  r ∈ m_reachable marked -> rtc (refers st) r v -> v ∈ m_reachable marked.
Proof.
  intros Hf Hr Hrv. revert Hr. induction Hrv as [|x y z [i Hxy] _ IH]; [done|].
  intros Hx. apply IH. by eapply (mf_reachable_closed _ _ _ _ Hf).
Qed.

(** A collection leaves the generations closed where it finds them
    closed. *)
Lemma do_collect_generation_closed gen st st' nvars T :
  gc_wf st -> m_recur st = 0%Z -> gen <= gMax ->
  do_collect_generation gen st = Returned (st', nvars) ->
  generations_closed st T -> generations_closed st' T.
Proof.
  intros Hwf Hrec Hgen H Hcl.
  unfold do_collect_generation in H. rewrite Hrec in H. cbn [Z.eqb negb] in H.
  destruct (decide (gMax < gen)); [lia|].
  destruct (do_collect gen _) as [[st1 n1]| | | |] eqn:E; try done.
  cbn [mbind Outcome_bind] in H. injection H as <- <-.
  destruct (do_collect_reached gen (set_recur (0 + 1) st) st1 n1 E)
    as (marked & swept_st & S & Hf & Hreached & Hm & Hcells & Hsw & Hfin); [done|].
  simpl in Hreached.
  change (refers (set_recur (0 + 1) st)) with (refers st) in Hreached.
  destruct (pass_others _ _ _ _ Hsw Hfin) as [Hroots _].
  destruct Hm as (Hr & _ & _ & _ & _ & Htr & _ & _). simpl in Hr, Htr.
  assert (Hne : gMax - gen - 1 <> gMax - gen \/ gen = gMax) by (unfold gMax in *; lia).
  assert (Hsub : forall u v, refers st1 u v -> refers st u v).
  { intros u v [i Hi]. exists i. rewrite all_slots_lookup in Hi |- *.
    rewrite (pass_cells _ _ _ _ u Hsw Hfin) in Hi.
    specialize (Hcells u). simpl in Hcells.
    destruct (decide (u ∈ m_unreachable marked)).
    - destruct (variables marked !! u); simpl in Hi; [|done].
      by rewrite lookup_nil in Hi.
    - destruct (variables marked !! u) as [y|], (variables st !! u) as [x|];
        simpl in *; try done.
      injection Hcells as Hv _ _. by rewrite <- Hv. }
  assert (Hrtc : forall u v, rtc (refers st1) u v -> rtc (refers st) u v).
  { intros u v. apply rtc_subrel. exact Hsub. }
  assert (Hsplit : forall x, x ∈ m_tracked st (gMax - gen) ->
            x ∉ m_unreachable marked -> x ∈ m_reachable marked).
  { intros x Hx Hu. destruct (mf_split _ _ _ _ Hf x (mf_tracked _ _ _ _ Hf x Hx)); done. }
  assert (Hdisj : forall x, x ∈ m_unreachable marked -> x ∉ m_reachable marked).
  { intros x Hx. by destruct (mf_unreachable _ _ _ _ Hf x Hx). }
  assert (Hroots1 : roots (set_recur (m_recur st1 - 1) st1) = roots st).
  { simpl. congruence. }
  intros i t v Hi Ht Htv. rewrite Hroots1. apply Hrtc in Htv. simpl in Ht |- *.
  destruct (decide (gen < gMax)) as [Hlt|Hlt].
  - destruct Hfin as (promoted_st & Hpr & ->). simpl in Ht |- *.
    destruct (decide (i = gMax - gen)) as [->|Hi1].
    { rewrite (promoted_tracked _ _ _ _ Hpr), (swept_tracked _ _ _ _ Hsw), Htr in Ht.
      apply elem_of_difference in Ht as [[Ht Hu]%elem_of_difference HR].
      destruct HR. by apply Hsplit. }
    destruct (decide (i = gMax - gen - 1)) as [->|Hi2].
    + rewrite (promoted_next _ _ _ _ Hpr), (swept_tracked _ _ _ _ Hsw),
        (swept_tracked_ne _ _ _ _ Hsw), Htr in Ht |- * by done.
      apply elem_of_difference in Ht as [Ht Hnot].
      apply elem_of_union in Ht as [Ht|[HtR Ht]%elem_of_intersection].
      * destruct (Hcl _ t v Hi Ht Htv) as [Hv|Hv]; [|by right].
        destruct (decide (v ∈ m_reachable marked)) as [HvR|HvR].
        -- destruct (Hreached v (or_intror HvR)) as (t' & Ht' & Htv').
           destruct (Hcl (gMax - gen) t' v ltac:(lia) Ht' Htv') as [Hv'|Hv']; [|by right].
           exfalso. destruct Hwf as (H1 & _). apply Hi1. symmetry. by eapply H1.
        -- left. clear -Hv HvR. set_solver.
      * apply elem_of_difference in Ht as [Ht Hu].
        destruct (Hcl (gMax - gen) t v ltac:(lia) Ht Htv) as [Hv|Hv]; [|by right].
        left. pose proof (marking_facts_reachable _ _ _ _ _ _ Hf HtR Htv) as HvR.
        specialize (Hdisj v). clear -Hv HvR Hdisj. set_solver.
    + rewrite (promoted_tracked_ne _ _ _ _ Hpr), (swept_tracked_ne _ _ _ _ Hsw), Htr
        in Ht |- * by done.
      by apply (Hcl i t v).
  - subst st1. simpl in Ht |- *.
    destruct (decide (i = gMax - gen)) as [->|Hi1].
    + rewrite (swept_tracked _ _ _ _ Hsw), Htr in Ht |- *.
      apply elem_of_difference in Ht as [Ht Hu].
      destruct (Hcl (gMax - gen) t v ltac:(lia) Ht Htv) as [Hv|Hv]; [|by right].
      left. pose proof (Hsplit t Ht Hu) as HtR.
      pose proof (marking_facts_reachable _ _ _ _ _ _ Hf HtR Htv) as HvR.
      specialize (Hdisj v). clear -Hv HvR Hdisj. set_solver.
    + rewrite (swept_tracked_ne _ _ _ _ Hsw), Htr in Ht |- * by done.
      by apply (Hcl i t v).
Qed.

(** Closed generations meet the assertion, where something keeps the
    variables of [T] that are referred to. *)
Lemma generations_closed_asserted gen st T :
  gc_wf st -> gen <= gMax -> generations_closed st T ->
  (forall o i v, all_slots (variables st) !! (o, i) = Some v -> v ∈ T ->
     ~ unowned st v) ->
  count_asserted gen st.
Proof.
  intros Hwf Hgen Hcl HT t o i v Ht Hto Hs Hun.
  assert (rtc (refers st) t v) as Htv by (eapply rtc_r; [done|by exists i]).
  destruct (Hcl (gMax - gen) t v ltac:(lia) Ht Htv) as [Hv|[Hv|Hv]].
  - destruct Hun as (_ & _ & _ & Hz & _).
    rewrite (tracked_holds_one st (gMax - gen) v Hwf ltac:(lia) Hv) in Hz. done.
  - destruct Hun as (_ & Hz & _). lia.
  - by eapply HT.
Qed.

End Closed_Generations.

(** ** Some collectors *)

(** What a set closed under references holds is all that its variables
    reach. *)
Lemma reaches_within st (W : gset var_id) t v :
  (forall a b, a ∈ W -> refers st a b -> b ∈ W) ->
  t ∈ W -> rtc (refers st) t v -> v ∈ W.
Proof.
  intros Hstep Ht Htv. induction Htv as [|x y z Hxy _ IH]; [done|].
  apply IH. by eapply Hstep.
Qed.

Lemma created_reachable `{ER : Erase_Random} gen_hint st :
  gc_reachable st -> gc_reachable (created gen_hint st).
Proof.
  intros Hst. unfold created.
  destruct (create_variable gen_hint st) as [[var st']| | | |] eqn:E; try done.
  eapply gc_reachable_step; [done|]. by eapply gc_step_create.
Qed.

Lemma collected_young_reachable `{ER : Erase_Random} st :
  gc_reachable st -> gc_reachable (collected_young st).
Proof.
  intros Hst. unfold collected_young.
  destruct (collect_variables 0 st) as [[st' nvars]| | | |] eqn:E; try done.
  eapply gc_reachable_step; [done|]. by eapply gc_step_collect.
Qed.

Lemma two_cell_cycle_reachable : gc_reachable two_cell_cycle.
Proof.
  unfold two_cell_cycle. eapply gc_reachable_step.
  - apply allocate_and_hold_reachable, gc_reachable_new.
  - apply gc_step_mutate.
    replace (dom (variables (allocate_and_hold 2 new_Garbage_Collector)))
      with ({[0; 1]} : gset var_id) by (vm_compute; reflexivity).
    rewrite dom_insert_L, dom_singleton_L. set_solver.
Qed.

Lemma two_cell_cycle_slots o i v :
  all_slots (variables two_cell_cycle) !! (o, i) = Some v ->
  (o = 0 /\ v = 1) \/ (o = 1 /\ v = 0).
Proof.
  rewrite all_slots_lookup. unfold two_cell_cycle. simpl.
  destruct (decide (o = 0)) as [->|H0].
  - rewrite lookup_insert_eq. simpl. destruct i as [|i]; simpl; [|done].
    intros [= <-]. by left.
  - rewrite lookup_insert_ne by done. destruct (decide (o = 1)) as [->|H1].
    + rewrite lookup_singleton_eq. simpl. destruct i as [|i]; simpl; [|done].
      intros [= <-]. by right.
    + by rewrite lookup_singleton_ne.
Qed.

Lemma two_cell_cycle_closed : generations_closed two_cell_cycle ∅.
Proof.
  intros i t v Hi Ht Htv. left.
  assert (Hin : t ∈ ({[0; 1]} : gset var_id) /\ i = 2).
  { unfold gMax in Hi. destruct i as [|[|[|i]]]; [| | |lia].
    - by vm_compute in Ht.
    - by vm_compute in Ht.
    - split; [|done]. revert Ht.
      replace (m_tracked two_cell_cycle 2) with ({[0; 1]} : gset var_id)
        by (vm_compute; reflexivity).
      done. }
  destruct Hin as [Hin ->].
  replace (m_tracked two_cell_cycle 2) with ({[0; 1]} : gset var_id)
    by (vm_compute; reflexivity).
  eapply (reaches_within two_cell_cycle); [|exact Hin|exact Htv].
  intros a b _ [j Hab]. apply two_cell_cycle_slots in Hab as [[_ ->]|[_ ->]]; set_solver.
Qed.

Lemma held_pair_reachable : gc_reachable held_pair.
Proof.
  unfold held_pair. eapply gc_reachable_step.
  - apply allocate_and_hold_reachable, gc_reachable_new.
  - apply gc_step_mutate.
    replace (dom (variables (allocate_and_hold 2 new_Garbage_Collector)))
      with ({[0; 1]} : gset var_id) by (vm_compute; reflexivity).
    rewrite dom_insert_L, dom_singleton_L. set_solver.
Qed.

Lemma held_pair_slots o i v :
  all_slots (variables held_pair) !! (o, i) = Some v -> o = 0 /\ v = 1.
Proof.
  rewrite all_slots_lookup. unfold held_pair. simpl.
  destruct (decide (o = 0)) as [->|H0].
  - rewrite lookup_insert_eq. simpl. destruct i as [|i]; simpl; [|done].
    by intros [= <-].
  - rewrite lookup_insert_ne by done. destruct (decide (o = 1)) as [->|H1].
    + rewrite lookup_singleton_eq. simpl. by rewrite lookup_nil.
    + by rewrite lookup_singleton_ne.
Qed.

(** The program holds whatever the two variables reach. *)
Lemma held_pair_reaches t v :
  t ∈ ({[0; 1]} : gset var_id) -> rtc (refers held_pair) t v ->
  1 <= default 0 (roots held_pair !! v).
Proof.
  intros Ht Htv.
  assert (v ∈ ({[0; 1]} : gset var_id)) as Hv.
  { eapply (reaches_within held_pair); [|exact Ht|exact Htv].
    intros a b _ [j Hab]. apply held_pair_slots in Hab as [_ ->]. set_solver. }
  apply elem_of_union in Hv as [->%elem_of_singleton| ->%elem_of_singleton];
    vm_compute; lia.
Qed.

Lemma held_pair_closed : generations_closed held_pair ∅.
Proof.
  intros i t v Hi Ht Htv. right. left.
  apply (held_pair_reaches t v); [|done].
  unfold gMax in Hi. destruct i as [|[|[|i]]]; [| | |lia].
  - by vm_compute in Ht.
  - by vm_compute in Ht.
  - revert Ht.
    replace (m_tracked held_pair 2) with ({[0; 1]} : gset var_id)
      by (vm_compute; reflexivity).
    done.
Qed.

Lemma staggered_pair_reachable : gc_reachable staggered_pair.
Proof.
  unfold staggered_pair. eapply gc_reachable_step.
  - apply created_reachable, created_reachable, gc_reachable_new.
  - apply gc_step_mutate.
    replace (dom (variables (created 1 (created 0 new_Garbage_Collector))))
      with ({[0; 1]} : gset var_id) by (vm_compute; reflexivity).
    rewrite dom_insert_L, dom_singleton_L. set_solver.
Qed.

Lemma staggered_pair_closed : generations_closed staggered_pair ∅.
Proof.
  intros i t v Hi Ht Htv. right. left.
  change (roots staggered_pair) with (roots held_pair).
  apply (held_pair_reaches t v); [|exact Htv].
  unfold gMax in Hi. destruct i as [|[|[|i]]]; [| | |lia].
  - by vm_compute in Ht.
  - revert Ht.
    replace (m_tracked staggered_pair 1) with ({[1]} : gset var_id)
      by (vm_compute; reflexivity).
    clear. set_solver.
  - revert Ht.
    replace (m_tracked staggered_pair 2) with ({[0]} : gset var_id)
      by (vm_compute; reflexivity).
    clear. set_solver.
Qed.

(** The assertion holds for the collections of these collectors. *)
Lemma closed_asserted gen st :
  gc_reachable st -> gen <= gMax -> generations_closed st ∅ -> count_asserted gen st.
Proof.
  intros Hst Hgen Hcl.
  apply (generations_closed_asserted gen st ∅); [by apply gc_reachable_wf|done|done|].
  intros o i v _ Hv. by apply elem_of_empty in Hv.
Qed.

Lemma new_collector_with_threshold_reachable thres :
  gc_reachable (new_collector_with_threshold thres).
Proof.
  unfold new_collector_with_threshold.
  destruct (set_threshold 0 thres new_Garbage_Collector) as [st| | | |] eqn:E;
    try apply gc_reachable_new.
  eapply gc_reachable_step; [apply gc_reachable_new|]. by eapply gc_step_set_threshold.
Qed.

(** Where no value refers to a variable, a variable reaches itself only. *)
Lemma no_slots_closed st :
  all_slots (variables st) = ∅ -> generations_closed st ∅.
Proof.
  intros Hnone i t v _ Ht Htv. left.
  destruct Htv as [|x y z [j Hxy] _]; [done|].
  rewrite Hnone in Hxy. by rewrite lookup_empty in Hxy.
Qed.



(** ** Promotion *)

(** C10: in a state that a program can bring a collector into, no variable
    is tracked by two generations.  The promotion of a collection moves
    the reachable variables of the collected generation into the next one;
    a reachable variable that the collected generation did not track is
    not in the tracked set of the next one afterwards, and the counter of
    the next generation grows by the number of the variables moved.  For a
    whole collection, which returns where the assertion of its second loop
    holds and terminates the program otherwise: when it has returned, no
    variable is tracked by two generations, the next generation tracks
    nothing that neither it nor the collected one tracked before, and its
    counter has grown by the number of variables that have come from the
    collected one. *)
Theorem variable_is_tracked_once `{ER : Erase_Random} st :
  gc_reachable st ->
  (forall i j v, v ∈ m_tracked st i -> v ∈ m_tracked st j -> i = j)
  /\ (forall fuel gen mid mid',
        gen < gMax -> do_promote fuel gen mid = Returned mid' ->
        (forall v, v ∈ m_reachable mid -> v ∉ m_tracked mid (gMax - gen) ->
           v ∉ m_tracked mid' (gMax - gen - 1))
        /\ (forall v, v ∈ m_reachable mid -> v ∈ m_tracked mid (gMax - gen) ->
              v ∈ m_tracked mid' (gMax - gen - 1)
              /\ v ∉ m_tracked mid' (gMax - gen))
        /\ m_counts mid' (gMax - gen - 1)
           = m_counts mid (gMax - gen - 1)
             + size (m_reachable mid ∩ m_tracked mid (gMax - gen)))
  /\ (forall gen, gen < gMax ->
        returns_or_aborts (do_collect_generation gen st)
        /\ (count_asserted gen st ->
            exists st' nvars, do_collect_generation gen st = Returned (st', nvars))
        /\ forall st' nvars,
             do_collect_generation gen st = Returned (st', nvars) ->
             (forall i j v, v ∈ m_tracked st' i -> v ∈ m_tracked st' j -> i = j)
             /\ (forall v, v ∈ m_tracked st' (gMax - gen - 1) ->
                   v ∈ m_tracked st (gMax - gen - 1) \/ v ∈ m_tracked st (gMax - gen))
             /\ m_counts st' (gMax - gen - 1)
                = m_counts st (gMax - gen - 1)
                  + size (m_tracked st (gMax - gen) ∩ m_tracked st' (gMax - gen - 1))).
Proof.
  intros Hst. apply gc_reachable_wf in Hst as [Hwf Hrec]. split_and!.
  - apply Hwf.
  - intros fuel gen mid mid' Hgen H.
    apply do_promote_spec in H as [H _]; [|done].
    destruct H as [Htr Hnext _ Hcount _ _ _ _ _ _]. split_and!.
    + intros v HR HT. rewrite Hnext. clear -HR HT. set_solver.
    + intros v HR HT. rewrite Hnext, Htr. clear -HR HT. set_solver.
    + done.
  - intros gen Hgen. split_and!.
    + apply do_collect_generation_settles. lia.
    + intros Hok.
      destruct (do_collect_generation_returns gen st) as [[st' nvars] Hr]; [lia|done|].
      by exists st', nvars.
    + intros st' nvars Hr.
      split; [by apply (do_collect_generation_wf _ _ _ _ Hr)|].
      by apply (do_collect_generation_promotes gen st st' nvars).
Qed.

(** A variable of generation 0 refers to a variable of generation 1, and
    the program holds both.  The collection of generation 0 moves the
    first into generation 1 and undoes the insertion of the second, which
    generation 1 tracks no more. *)
Lemma variable_is_tracked_once_witness :
  (forall i j v,
     v ∈ m_tracked staggered_pair i -> v ∈ m_tracked staggered_pair j -> i = j)
  /\ m_tracked staggered_pair (gMax - 0) = {[0]}
  /\ m_tracked staggered_pair (gMax - 0 - 1) = {[1]}
  /\ exists st' nvars,
       do_collect_generation 0 staggered_pair = Returned (st', nvars)
       /\ (forall i j v, v ∈ m_tracked st' i -> v ∈ m_tracked st' j -> i = j)
       /\ m_tracked st' (gMax - 0 - 1) = {[0]}
       /\ m_counts st' (gMax - 0 - 1)
          = m_counts staggered_pair (gMax - 0 - 1)
            + size (m_tracked staggered_pair (gMax - 0) ∩ m_tracked st' (gMax - 0 - 1)).
Proof.
  destruct (variable_is_tracked_once staggered_pair staggered_pair_reachable)
    as (H1 & _ & H3).
  split; [exact H1|]. split; [vm_compute; reflexivity|].
  split; [vm_compute; reflexivity|].
  destruct (H3 0 ltac:(unfold gMax; lia)) as (_ & Hret & Hfacts).
  destruct Hret as (st' & nvars & Hr).
  { apply (generations_closed_asserted 0 staggered_pair ∅).
    - apply gc_reachable_wf, staggered_pair_reachable.
    - unfold gMax. lia.
    - apply staggered_pair_closed.
    - intros o i v _ Hv. by apply elem_of_empty in Hv. }
  exists st', nvars. destruct (Hfacts st' nvars Hr) as (Hd & _ & Hc).
  split_and!; [done|done| |done].
  assert (Hc' : match do_collect_generation 0 staggered_pair with
                | Returned (s, _) => m_tracked s (gMax - 0 - 1)
                | _ => ∅
                end = {[0]}) by (vm_compute; reflexivity).
  by rewrite Hr in Hc'.
Defined.

(** ** Thresholds and the loop of [create_variable] *)

Section Automatic_Collection.

Context `{ER : Erase_Random}.

Lemma do_collect_automatically_settles gens st :
  Forall (fun gen => gen <= gMax) gens ->
  returns_or_aborts (do_collect_automatically gens st).
Proof.
  intros Hgens. revert st. induction Hgens as [|gen gens Hgen _ IH]; intros st; simpl.
  - done.
  - destruct (Nat.leb _ _); [|apply IH].
    pose proof (do_collect_generation_settles gen st Hgen) as Hs.
    destruct (do_collect_generation gen st) as [[st1 n1]| | | |]; try done.
    cbn [mbind Outcome_bind]. specialize (IH st1).
    by destruct (do_collect_automatically gens st1) as [[st2 c2]| | | |].
Qed.

Lemma create_variable_settles gen_hint st :
  gen_hint <= gMax -> returns_or_aborts (create_variable gen_hint st).
Proof.
  intros Hgen. unfold create_variable.
  pose proof (do_collect_automatically_settles (List.seq 0 (gMax + 1)) st) as Hs.
  destruct (do_collect_automatically _ st) as [[st1 c1]| | | |]; try done.
  - cbn [mbind Outcome_bind]. destruct (do_allocate st1) as [var st2].
    by destruct (decide (gMax < gen_hint)); [lia|].
  - apply Hs, Forall_forall. intros g Hg%list_elem_of_In%in_seq. lia.
  - apply Hs, Forall_forall. intros g Hg%list_elem_of_In%in_seq. lia.
  - apply Hs, Forall_forall. intros g Hg%list_elem_of_In%in_seq. lia.
Qed.

(** One turn of the loop. *)
Lemma do_collect_automatically_cons gen gens st st' collected :
  do_collect_automatically (gen :: gens) st = Returned (st', collected) ->
  exists mid due rest,
    examined gen st mid due
    /\ do_collect_automatically gens mid = Returned (st', rest)
    /\ collected = (if due then [gen] else []) ++ rest.
Proof.
  simpl. destruct (Nat.leb _ _) eqn:E.
  - destruct (do_collect_generation gen st) as [[st1 n1]| | | |] eqn:Eg; try done.
    cbn [mbind Outcome_bind].
    destruct (do_collect_automatically gens st1) as [[st2 c2]| | | |] eqn:Er; try done.
    cbn [mbind Outcome_bind]. intros [= <- <-].
    exists st1, true, c2. split_and!; [|done|done]. split; [done|]. by exists n1.
  - intros H. exists st, false, collected. split_and!; [|done|done]. by split.
Qed.

Lemma examined_counts gen st mid due :
  gen <= gMax -> m_recur st = 0%Z -> examined gen st mid due ->
  m_recur mid = 0%Z /\ (due = true -> m_counts mid (gMax - gen) = 0).
Proof.
  intros Hgen Hrec [_ H]. destruct due.
  - destruct H as [nvars H].
    destruct (do_collect_generation_counts _ _ _ _ Hgen Hrec H) as (? & _ & ? & _).
    done.
  - subst mid. done.
Qed.

(** Where the assertion holds for generation 0, whose counter is at its
    threshold, and the older generations are far from theirs, the loop of
    [create_variable] collects generation 0 and nothing else. *)
Lemma do_collect_automatically_youngest st :
  m_recur st = 0%Z -> count_asserted 0 st ->
  m_thres st (gMax - 0) <= m_counts st (gMax - 0) ->
  m_counts st (gMax - 1) + size (m_tracked st (gMax - 0)) < m_thres st (gMax - 1) ->
  m_counts st (gMax - 2) < m_thres st (gMax - 2) ->
  exists st1 nvars,
    do_collect_generation 0 st = Returned (st1, nvars)
    /\ do_collect_automatically (List.seq 0 (gMax + 1)) st = Returned (st1, [0])
    /\ m_counts st1 (gMax - 0) = 0.
Proof.
  intros Hrec Hok H0 H1 H2.
  destruct (do_collect_generation_returns 0 st) as [[st1 nvars] Hr];
    [unfold gMax; lia|done|].
  destruct (do_collect_generation_counts 0 st st1 nvars ltac:(unfold gMax; lia)
              Hrec Hr) as (Hrec1 & Hthres & Hzero & Hnext & Hother).
  exists st1, nvars. split; [done|]. split; [|done].
  change (List.seq 0 (gMax + 1)) with [0; 1; 2].
  cbn [do_collect_automatically].
  destruct (Nat.leb_spec (m_thres st (gMax - 0)) (m_counts st (gMax - 0))); [|lia].
  rewrite Hr. cbn [mbind Outcome_bind].
  specialize (Hnext ltac:(unfold gMax; lia)).
  change (gMax - 0 - 1) with (gMax - 1) in Hnext.
  destruct (Nat.leb_spec (m_thres st1 (gMax - 1)) (m_counts st1 (gMax - 1)));
    [rewrite Hthres in *; lia|].
  assert (m_counts st1 (gMax - 2) = m_counts st (gMax - 2)) as Hc2.
  { apply Hother; unfold gMax; lia. }
  destruct (Nat.leb_spec (m_thres st1 (gMax - 2)) (m_counts st1 (gMax - 2)));
    [rewrite Hthres, Hc2 in *; lia|].
  done.
Qed.

End Automatic_Collection.

(** C7 as the code has it: [create_variable] returns, or the assertion of
    a collection terminates the program.  Where it returns, the generations
    have been examined from 0 to [gMax], each has been collected exactly
    when its counter had reached its threshold by the time it was examined,
    a collection has reset the counter of its generation to zero, and the
    allocation has counted the new variable in the generation it is hinted
    to.  Where the counter of generation 0 has reached the threshold, as
    after ten allocations with a threshold set to ten, the older generations
    stay below theirs and the assertion holds for generation 0, the next
    allocation triggers one collection, of generation 0, which resets that
    counter to zero. *)
Theorem allocation_collects_at_threshold `{ER : Erase_Random} st gen_hint :
  m_recur st = 0%Z -> gen_hint <= gMax ->
  returns_or_aborts (create_variable gen_hint st)
  /\ (forall var st',
        create_variable gen_hint st = Returned (var, st') ->
        exists st1 st2 st3 due0 due1 due2,
          examined 0 st st1 due0 /\ examined 1 st1 st2 due1 /\ examined 2 st2 st3 due2
          /\ do_collect_automatically (List.seq 0 (gMax + 1)) st
             = Returned (st3, (if due0 then [0] else []) ++ (if due1 then [1] else [])
                              ++ (if due2 then [2] else []))
          /\ (due0 = true -> m_counts st1 (gMax - 0) = 0)
          /\ (due1 = true -> m_counts st2 (gMax - 1) = 0)
          /\ (due2 = true -> m_counts st3 (gMax - 2) = 0)
          /\ m_counts st' (gMax - gen_hint) = m_counts st3 (gMax - gen_hint) + 1
          /\ var ∈ m_tracked st' (gMax - gen_hint))
  /\ (m_thres st (gMax - 0) <= m_counts st (gMax - 0) ->
      m_counts st (gMax - 1) + size (m_tracked st (gMax - 0)) < m_thres st (gMax - 1) ->
      m_counts st (gMax - 2) < m_thres st (gMax - 2) ->
      count_asserted 0 st ->
      exists st1 nvars var st2,
        do_collect_generation 0 st = Returned (st1, nvars)
        /\ do_collect_automatically (List.seq 0 (gMax + 1)) st = Returned (st1, [0])
        /\ m_counts st1 (gMax - 0) = 0
        /\ create_variable gen_hint st = Returned (var, st2)
        /\ m_counts st2 (gMax - gen_hint) = m_counts st1 (gMax - gen_hint) + 1
        /\ var ∈ m_tracked st2 (gMax - gen_hint)).
Proof.
  intros Hrec Hgen. split; [by apply create_variable_settles|]. split.
  - intros var st' Hc.
    destruct (do_collect_automatically (List.seq 0 (gMax + 1)) st)
      as [[st3 collected]| | | |] eqn:Ha;
      try (unfold create_variable in Hc; rewrite Ha in Hc; discriminate Hc).
    destruct (create_variable_counts gen_hint st st3 collected Hgen Ha)
      as (var' & st'' & Hc' & Hcount & Hin).
    rewrite Hc in Hc'. injection Hc' as <- <-.
    change (List.seq 0 (gMax + 1)) with [0; 1; 2] in Ha |- *.
    apply do_collect_automatically_cons in Ha as (st1 & due0 & r0 & He0 & Ha & ->).
    apply do_collect_automatically_cons in Ha as (st2 & due1 & r1 & He1 & Ha & ->).
    apply do_collect_automatically_cons in Ha as (st3' & due2 & r2 & He2 & Ha & ->).
    injection Ha as <- <-.
    destruct (examined_counts 0 st st1 due0 ltac:(unfold gMax; lia) Hrec He0)
      as [Hrec1 Hz0].
    destruct (examined_counts 1 st1 st2 due1 ltac:(unfold gMax; lia) Hrec1 He1)
      as [Hrec2 Hz1].
    destruct (examined_counts 2 st2 st3' due2 ltac:(unfold gMax; lia) Hrec2 He2)
      as [_ Hz2].
    exists st1, st2, st3', due0, due1, due2. rewrite app_nil_r.
    split_and!; try done.
  - intros H0 H1 H2 Hok.
    destruct (do_collect_automatically_youngest st Hrec Hok H0 H1 H2)
      as (st1 & nvars & Hr & Ha & Hz).
    destruct (create_variable_counts gen_hint st st1 [0] Hgen Ha)
      as (var & st2 & Hc1 & Hc2 & Hc3).
    exists st1, nvars, var, st2. repeat split; assumption.
Qed.

(** Ten allocations after the threshold of generation 0 has been set to
    ten, then the eleventh. *)
Lemma allocation_collects_at_threshold_witness :
  m_counts (allocate_and_hold 10 (new_collector_with_threshold 10)) (gMax - 0) = 10
  /\ exists st1 nvars var st2,
       do_collect_generation 0 (allocate_and_hold 10 (new_collector_with_threshold 10))
       = Returned (st1, nvars)
       /\ do_collect_automatically (List.seq 0 (gMax + 1))
            (allocate_and_hold 10 (new_collector_with_threshold 10))
          = Returned (st1, [0])
       /\ m_counts st1 (gMax - 0) = 0
       /\ create_variable 0 (allocate_and_hold 10 (new_collector_with_threshold 10))
          = Returned (var, st2)
       /\ m_counts st2 (gMax - 0) = m_counts st1 (gMax - 0) + 1
       /\ var ∈ m_tracked st2 (gMax - 0).
Proof.
  split; [vm_compute; reflexivity|].
  destruct (allocation_collects_at_threshold
              (allocate_and_hold 10 (new_collector_with_threshold 10)) 0)
    as (_ & _ & H).
  - vm_compute. reflexivity.
  - unfold gMax. lia.
  - apply H.
    + vm_compute. lia.
    + vm_compute. lia.
    + vm_compute. lia.
    + intros t o i v _ _ Hs.
      replace (all_slots (variables (allocate_and_hold 10
                 (new_collector_with_threshold 10)))) with (∅ : gmap slot var_id) in Hs
        by (vm_compute; reflexivity).
      by rewrite lookup_empty in Hs.
Defined.

(** ** A cycle through the generations *)





Section Cycle.

Context `{ER : Erase_Random}.









End Cycle.







(** The two variables of one generation are counted once each. *)
Lemma two_cell_cycle_collected :
  collected two_cell_cycle = Some (2, [0; 0; 0], [Some V_null; Some V_null]).
Proof. vm_compute. reflexivity. Qed.

(** The variable of the older generation is counted twice: when the
    collection of the younger one uninitializes it, and when its own
    generation lets go of it. *)
Lemma cycle_across_generations_collected :
  collected cycle_across_generations = Some (3, [0; 0; 0], [Some V_null; Some V_null]).
Proof. vm_compute. reflexivity. Qed.

(** * Further properties of the lexer *)

(** ** Searching bytes *)

Lemma char_find_Some s n c i :
  char_find s n c = Some i -> i < n /\ s !! i = Some c.
Proof.
  revert n i. induction s as [|x s IH]; intros [|n] i; simpl; try done.
  destruct (char_eqb x c) eqn:E.
  - intros [= <-]. apply Ascii.eqb_eq in E as ->. split; [lia|done].
  - destruct (char_find s n c) as [k|] eqn:Ek; simpl; [|done].
    intros [= <-]. destruct (IH _ _ Ek). split; [lia|done].
Qed.

Lemma char_find_mono s n m c i :
  char_find s n c = Some i -> n <= m -> char_find s m c = Some i.
Proof.
  revert n m i. induction s as [|x s IH]; intros [|n] m i; simpl; try done.
  intros H Hm. destruct m as [|m]; [lia|]. simpl.
  destruct (char_eqb x c); [done|].
  destruct (char_find s n c) as [k|] eqn:Ek; simpl in H; [|done].
  rewrite (IH n m k Ek) by lia. done.
Qed.

Lemma char_at_lt str i : char_at str i <> NUL -> i < List.length str.
Proof.
  unfold char_at. intros H. destruct (Nat.lt_ge_cases i (List.length str)); [done|].
  by rewrite nth_overflow in H.
Qed.

Lemma char_eqb_at str i c :
  char_eqb (char_at str i) c = true -> c <> NUL -> i < List.length str.
Proof.
  intros H%Ascii.eqb_eq Hc. apply char_at_lt. congruence.
Qed.

Lemma find_if_not_from_bounds pred l n pos :
  pos <= find_if_not_from pred l n pos <= pos + Nat.min n (List.length l).
Proof.
  revert n pos. induction l as [|c l IH]; intros [|n] pos; simpl; try lia.
  destruct (pred c); [|lia]. specialize (IH n (S pos)). lia.
Qed.

Lemma find_if_not_bounds pred str b e :
  b <= find_if_not pred str b e
  /\ (b <= e -> find_if_not pred str b e <= e)
  /\ (b <= List.length str -> find_if_not pred str b e <= List.length str).
Proof.
  unfold find_if_not.
  pose proof (find_if_not_from_bounds pred (skipn b str) (e - b) b) as H.
  rewrite length_skipn in H. lia.
Qed.

Lemma find_if_not_first pred str b e :
  b < e -> b < List.length str -> pred (char_at str b) = true ->
  b < find_if_not pred str b e.
Proof.
  intros He Hb Hp. unfold find_if_not, char_at in *.
  destruct (skipn b str) as [|c l] eqn:E.
  - apply (f_equal (@List.length _)) in E. rewrite length_skipn in E. simpl in E. lia.
  - assert (nth b str NUL = c) as Hc.
    { rewrite <- (Nat.add_0_r b), <- nth_skipn, E. done. }
    rewrite Hc in Hp. destruct (e - b) as [|n] eqn:En; [lia|]. simpl. rewrite Hp.
    pose proof (find_if_not_from_bounds pred l n (S b)). lia.
Qed.

Lemma search_bcomm_term_Some l k :
  search_bcomm_term l = Some k -> k + 2 <= List.length l.
Proof.
  revert k. induction l as [|a l IH]; intros k; simpl; [done|].
  destruct l as [|b l]; [done|].
  destruct (char_eqb a "*" && char_eqb b "/").
  - intros [= <-]. simpl. lia.
  - destruct (search_bcomm_term (b :: l)) as [j|] eqn:E; simpl; [|done].
    intros [= <-]. specialize (IH j eq_refl). simpl in *. lia.
Qed.

(** ** Moving within the line *)

Lemma consume_fits rd add :
  add <= Line_Reader.size_avail rd ->
  Line_Reader.consume rd add
  = Returned {| Line_Reader.m_file := Line_Reader.m_file rd;
                Line_Reader.m_str := Line_Reader.m_str rd;
                Line_Reader.m_line := Line_Reader.m_line rd;
                Line_Reader.m_offset := Line_Reader.m_offset rd + add |}.
Proof.
  intros H. unfold Line_Reader.consume.
  destruct (Nat.ltb_spec (Line_Reader.size_avail rd) add); [lia|done].
Qed.

Lemma settles_bind {A B : Type} (m : Outcome A) (k : A -> Outcome B) :
  settles m -> (forall a, m = Returned a -> settles (k a)) -> settles (m ≫= k).
Proof. destruct m; simpl; auto. Qed.

Lemma same_line_refl rd : same_line rd rd.
Proof. by split_and!. Qed.

Lemma pushes_from_same_line lx from :
  pushes_from lx from -> same_line (reader lx) (reader from).
Proof. intros [->|(qstok & _ & ->)]; by split_and!. Qed.

Lemma pushed_accepts lx from length xtoken :
  pushes_from lx from ->
  Line_Reader.m_offset (reader lx) < Line_Reader.m_offset (reader from) + length
    <= List.length (Line_Reader.m_str (reader lx)) ->
  accepts lx (lx' ← do_push_token from length xtoken; Returned (true, lx')).
Proof.
  intros Hfrom Hlen.
  destruct (pushes_from_same_line _ _ Hfrom) as (_ & Hs & _).
  rewrite do_push_token_fits by (unfold Line_Reader.size_avail; rewrite Hs; lia).
  cbn [mbind Outcome_bind]. unfold accepts. by exists from, length, xtoken.
Qed.

(** A token that has been accepted moves the reader forward within the
    line. *)
Lemma accepts_moves lx lx' :
  accepts lx (Returned (true, lx')) ->
  same_line (reader lx) (reader lx')
  /\ Line_Reader.m_offset (reader lx) < Line_Reader.m_offset (reader lx')
     <= List.length (Line_Reader.m_str (reader lx)).
Proof.
  intros (from & length & xtoken & -> & Hfrom & Hlen).
  destruct (pushes_from_same_line _ _ Hfrom) as (Hf & Hs & Hl).
  unfold pushed, same_line. simpl. destruct Hlen. by split_and!.
Qed.

(** ** The accepting functions *)

(** Every byte that begins a punctuator is a punctuator by itself. *)
Lemma s_punct_chars_ok :
  forallb (fun c =>
    let range := equal_range s_punctuators c in
    existsb (fun j =>
      match s_punctuators !! j with
      | Some el => string_eqb (fst el) [c] && (fst range <=? j) && (j <? snd range)
      | None => false
      end) (List.seq 0 (List.length s_punctuators))) s_punct_chars = true.
Proof. vm_compute. reflexivity. Qed.

Lemma punct_char_entry c :
  is_Some (char_find s_punct_chars (List.length s_punct_chars) c) ->
  exists j el,
    s_punctuators !! j = Some el /\ fst el = [c]
    /\ fst (equal_range s_punctuators c) <= j < snd (equal_range s_punctuators c).
Proof.
  intros [i Hi]. apply char_find_Some in Hi as [_ Hi].
  pose proof s_punct_chars_ok as H. rewrite forallb_forall in H.
  specialize (H c ltac:(by eapply list_elem_of_In, list_elem_of_lookup_2)).
  cbv zeta in H. apply existsb_exists in H as (j & _ & Hj).
  destruct (s_punctuators !! j) as [el|] eqn:E; [|done].
  apply andb_true_iff in Hj as [[H1 H2]%andb_true_iff H3].
  apply string_eqb_eq in H1. apply Nat.leb_le in H2. apply Nat.ltb_lt in H3.
  exists j, el. split_and!; done.
Qed.

Lemma data_avail_head rd :
  0 < Line_Reader.size_avail rd ->
  exists rest,
    Line_Reader.data_avail rd
    = char_at (Line_Reader.m_str rd) (Line_Reader.m_offset rd) :: rest.
Proof.
  intros H. rewrite char_at_data_avail. rewrite <- length_data_avail in H.
  destruct (Line_Reader.data_avail rd) as [|c rest]; simpl in *; [lia|]. by eexists.
Qed.

Lemma do_accept_punctuator_accepts lx :
  0 < Line_Reader.size_avail (reader lx) ->
  accepts lx (do_accept_punctuator lx).
Proof.
  intros Havail. unfold do_accept_punctuator.
  set (rd := reader lx) in *.
  set (head := char_at (Line_Reader.m_str rd) (Line_Reader.m_offset rd)).
  destruct (char_find s_punct_chars _ head) as [k|] eqn:Ek; [|done].
  destruct (punct_char_entry head ltac:(by eexists)) as (j & el & Hj & Hel & Hrange).
  destruct (data_avail_head rd Havail) as [rest Hrest]. fold head in Hrest.
  pose proof (do_match_punctuator_spec s_punctuators
                (fst (equal_range s_punctuators head))
                (snd (equal_range s_punctuators head)
                 - fst (equal_range s_punctuators head))
                (Line_Reader.data_avail rd)) as Hspec.
  destruct (do_match_punctuator _ _ _ _) as [cur|].
  - destruct Hspec as (i & _ & Hi & Hstarts & _).
    destruct (punctuator_entry i cur Hi) as (Hne & _).
    apply andb_true_iff in Hstarts as [Hlen%Nat.leb_le _].
    rewrite length_data_avail in Hlen.
    apply pushed_accepts; [by left|]. fold rd.
    unfold Line_Reader.size_avail in *.
    destruct (fst cur); [done|]. simpl in *. lia.
  - specialize (Hspec j el ltac:(lia) Hj).
    rewrite Hel, Hrest in Hspec. unfold starts_with in Hspec. simpl in Hspec.
    unfold char_eqb in Hspec. rewrite Ascii.eqb_refl in Hspec. done.
Qed.

(** String literals *)

Lemma do_read_hex_settles rd base i xcnt cp : settles (do_read_hex rd base i xcnt cp).
Proof.
  revert i cp. induction xcnt as [|xcnt IH]; intros i cp; cbn [do_read_hex]; [done|].
  destruct (char_find s_digits 32 _); [apply IH|done].
Qed.

Lemma do_translate_escapes_settles fuel rd head : forall tlen value,
  Line_Reader.size_avail rd - tlen < fuel ->
  tlen <= Line_Reader.size_avail rd ->
  match do_translate_escapes fuel rd head tlen value with
  | Returned (tlen', _) => tlen < tlen' <= Line_Reader.size_avail rd
  | Thrown _ => True
  | _ => False
  end.
Proof.
  induction fuel as [|fuel IH]; intros tlen value Hfuel Htlen; [lia|].
  cbn [do_translate_escapes]. cbv zeta.
  destruct (Nat.eqb_spec (Line_Reader.size_avail rd - tlen) 0) as [|Hq]; [done|].
  destruct (char_eqb _ head); [lia|].
  assert (Hnext : forall t v, tlen < t <= Line_Reader.size_avail rd ->
            match do_translate_escapes fuel rd head t v with
            | Returned (tlen', _) => tlen < tlen' <= Line_Reader.size_avail rd
            | Thrown _ => True
            | _ => False
            end).
  { intros t v Ht. specialize (IH t v ltac:(lia) ltac:(lia)).
    destruct (do_translate_escapes fuel rd head t v) as [[t' v']| | | |]; try done.
    lia. }
  destruct (negb _); [apply Hnext; lia|].
  destruct (Nat.ltb_spec (Line_Reader.size_avail rd - tlen) 2) as [|Hq2]; [done|].
  assert (Hhex : forall xcnt next,
            match
              (if (Line_Reader.size_avail rd - tlen <? xcnt + 2)%nat then
                 Thrown (do_make_parser_error rd (Line_Reader.size_avail rd)
                           Parser_Error.code_escape_sequence_incomplete)
               else
                 cp ← do_read_hex rd (Line_Reader.m_offset rd) (S (S tlen)) xcnt 0%Z;
                 if char_eqb next "x"%char then
                   do_translate_escapes fuel rd head (S (S tlen) + xcnt)
                     (value ++ [char_of_code cp])
                 else
                   match utf8_encode value cp with
                   | Some value' =>
                       do_translate_escapes fuel rd head (S (S tlen) + xcnt) value'
                   | None =>
                       Thrown (do_make_parser_error rd (S (S tlen) + xcnt)
                                 Parser_Error.code_escape_utf_code_point_invalid)
                   end)
            with
            | Returned (tlen', _) => tlen < tlen' <= Line_Reader.size_avail rd
            | Thrown _ => True
            | _ => False
            end).
  { intros xcnt next.
    destruct (Nat.ltb_spec (Line_Reader.size_avail rd - tlen) (xcnt + 2)); [done|].
    pose proof (do_read_hex_settles rd (Line_Reader.m_offset rd) (S (S tlen)) xcnt 0)
      as Hr.
    destruct (do_read_hex _ _ _ _ _) as [cp| | | |]; try done.
    cbn [mbind Outcome_bind].
    destruct (char_eqb next "x"); [apply Hnext; lia|].
    destruct (utf8_encode value cp); [apply Hnext; lia|done]. }
  repeat match goal with
         | |- match (if ?b then _ else _) with _ => _ end =>
             destruct b;
               [first [apply Hnext; lia | apply Hhex | apply (Hhex 2 "x"%char)]|]
         end.
  done.
Qed.

Lemma do_accept_string_literal_accepts lx head escapable :
  0 < Line_Reader.size_avail (reader lx) ->
  accepts lx (do_accept_string_literal lx head escapable).
Proof.
  intros Havail. unfold do_accept_string_literal.
  set (rd := reader lx) in *.
  destruct (negb _); [done|].
  assert (Hlit : forall m : Outcome (nat * Cow_String),
            match m with
            | Returned (tlen', _) => 1 <= tlen' <= Line_Reader.size_avail rd
            | Thrown _ => True
            | _ => False
            end ->
            accepts lx ('(tlen, value) ← m;
                        lx' ← do_push_token lx tlen (Token.S_string_literal value);
                        Returned (true, lx'))).
  { intros [[tlen value]| | | |] Hm; try done. cbn [mbind Outcome_bind].
    apply pushed_accepts; [by left|]. fold rd.
    unfold Line_Reader.size_avail in *. lia. }
  apply Hlit. destruct escapable.
  - pose proof (do_translate_escapes_settles (Line_Reader.size_avail rd) rd head 1 []
                  ltac:(lia) ltac:(lia)) as H.
    destruct (do_translate_escapes _ _ _ _ _) as [[t v]| | | |]; try done. lia.
  - destruct (char_find _ _ head) as [k|] eqn:Ek; [|done].
    apply char_find_Some in Ek as [Hk _]. lia.
Qed.

(** Identifiers and keywords *)

Lemma do_accept_identifier_or_keyword_accepts lx keyword_as_identifier :
  0 < Line_Reader.size_avail (reader lx) ->
  accepts lx (do_accept_identifier_or_keyword lx keyword_as_identifier).
Proof.
  intros Havail. unfold do_accept_identifier_or_keyword.
  set (rd := reader lx) in *.
  destruct (char_find s_name_chars 53 _) as [k|] eqn:Ek; [|done].
  apply (char_find_mono _ _ 63) in Ek; [|lia].
  set (tptr := find_if_not _ _ _ _).
  assert (Line_Reader.m_offset rd < tptr <= List.length (Line_Reader.m_str rd)) as Ht.
  { subst tptr. unfold Line_Reader.size_avail in *. split.
    - apply find_if_not_first; [lia..|]. rewrite Ek. by apply bool_decide_eq_true_2.
    - apply find_if_not_bounds. lia. }
  destruct (if keyword_as_identifier then _ else _);
    (apply pushed_accepts; [by left|]; fold rd; lia).
Qed.

(** Numeric literals *)

(** The exponent and the suffix of a literal whose fractional part ends at
    [efrac]. *)
Local Ltac scan_exponent str eptr efrac Hat Hor :=
  let bexp := fresh "bexp" in
  let pbase := fresh "pbase" in
  let Ee := fresh "Ee" in
  let E1 := fresh "E1" in
  let E2 := fresh "E2" in
  let Hbexp := fresh "Hbexp" in
  destruct (if char_eqb (char_at str efrac) "E" || char_eqb (char_at str efrac) "e"
            then _ else _) as [bexp pbase] eqn:Ee;
  assert (efrac <= bexp <= eptr /\ (bexp = efrac \/ bexp = S efrac)) as Hbexp;
  [ destruct (char_eqb (char_at str efrac) "E" || char_eqb (char_at str efrac) "e")
      eqn:E1;
    [ injection Ee as <- <-; apply Hor in E1; [lia|done..] |];
    destruct (char_eqb (char_at str efrac) "P" || char_eqb (char_at str efrac) "p")
      eqn:E2;
    [ injection Ee as <- <-; apply Hor in E2; [lia|done..] |];
    injection Ee as <- <-; lia
  | clear Ee;
    destruct (Nat.eqb_spec bexp efrac) as [->|?]; cbn [negb mbind Outcome_bind];
    [ destruct (negb _ && negb _); [done|]; cbn [eexp]; lia
    | let bexp' := fresh "bexp'" in
      let pneg := fresh "pneg" in
      let Es := fresh "Es" in
      let Hbexp' := fresh "Hbexp'" in
      destruct (if char_eqb (char_at str bexp) "+" then _ else _)
        as [bexp' pneg] eqn:Es;
      assert (bexp <= bexp' <= eptr) as Hbexp';
      [ destruct (char_eqb (char_at str bexp) "+") eqn:E1;
        [ injection Es as <- <-; apply Hat in E1; [lia|done] |];
        destruct (char_eqb (char_at str bexp) "-") eqn:E2;
        [ injection Es as <- <-; apply Hat in E2; [lia|done] |];
        injection Es as <- <-; lia
      | clear Es;
        pose proof (find_if_not_bounds (is_digit_or_sep 20) str bexp' eptr)
          as (? & ? & ?);
        destruct (Nat.eqb_spec (find_if_not (is_digit_or_sep 20) str bexp' eptr) bexp');
        [done|]; cbn [mbind Outcome_bind];
        destruct (negb _ && negb _); [done|]; cbn [eexp]; lia ] ] ].

Lemma do_scan_numeric_bounds rd :
  0 < Line_Reader.size_avail rd ->
  match do_scan_numeric rd with
  | Returned np =>
      Line_Reader.m_offset rd < eexp np <= List.length (Line_Reader.m_str rd)
  | Thrown _ => True
  | _ => False
  end.
Proof.
  intros Havail. unfold do_scan_numeric, Line_Reader.size_avail in *.
  set (str := Line_Reader.m_str rd) in *. set (bptr := Line_Reader.m_offset rd) in *.
  replace (bptr + (List.length str - bptr)) with (List.length str) by lia.
  set (eptr := List.length str).
  assert (Hat : forall i c, char_eqb (char_at str i) c = true -> c <> NUL -> S i <= eptr).
  { intros i c H Hc. by apply (char_eqb_at str i c). }
  assert (Hor : forall i c d,
            char_eqb (char_at str i) c || char_eqb (char_at str i) d = true ->
            c <> NUL -> d <> NUL -> S i <= eptr).
  { intros i c d [H|H]%orb_true_iff Hc Hd; eauto. }
  destruct (if char_eqb (char_at str bptr) "0" then _ else _) as [bintg rbase] eqn:Eb.
  assert (bptr <= bintg <= eptr) as Hbintg.
  { destruct (char_eqb (char_at str bptr) "0"); [|injection Eb as <- <-; lia].
    destruct (char_eqb _ "B" || char_eqb _ "b") eqn:E1.
    { injection Eb as <- <-. apply Hor in E1; [lia|done..]. }
    destruct (char_eqb _ "X" || char_eqb _ "x") eqn:E2.
    { injection Eb as <- <-. apply Hor in E2; [lia|done..]. }
    injection Eb as <- <-. lia. }
  clear Eb.
  set (eintg := find_if_not _ str bintg eptr).
  assert (bintg <= eintg <= eptr) as Heintg.
  { subst eintg. split; apply find_if_not_bounds; lia. }
  destruct (Nat.eqb_spec eintg bintg) as [|Hne]; [done|]. clearbody eintg.
  destruct (char_eqb (char_at str eintg) ".") eqn:Edot.
  - apply Hat in Edot; [|done].
    set (efrac := find_if_not _ str (S eintg) eptr).
    assert (S eintg <= efrac <= eptr) as Hefrac.
    { subst efrac. split; apply find_if_not_bounds; lia. }
    destruct (Nat.eqb_spec efrac (S eintg)); [done|]. cbn [mbind Outcome_bind].
    clearbody efrac. scan_exponent str eptr efrac Hat Hor.
  - cbn [mbind Outcome_bind]. scan_exponent str eptr eintg Hat Hor.
Qed.

Lemma do_parse_exponent_settles err l exp : settles (do_parse_exponent err l exp).
Proof.
  revert exp. induction l as [|ch l IH]; intros exp; cbn [do_parse_exponent]; [done|].
  destruct (char_find s_digits 20 ch); [|apply IH].
  cbv zeta. destruct (_ <? _)%Z; [done|apply IH].
Qed.

Lemma do_parse_significant_settles err rbase l value :
  settles (do_parse_significant err rbase l value).
Proof.
  revert value. induction l as [|ch l IH]; intros value;
    cbn [do_parse_significant]; [done|].
  destruct (char_find s_digits _ ch); [|apply IH].
  cbv zeta. destruct (_ <? _)%Z; [done|apply IH].
Qed.

Lemma do_raise_significant_settles err pbase count value :
  settles (do_raise_significant err pbase count value).
Proof.
  revert value. induction count as [|count IH]; intros value;
    cbn [do_raise_significant]; [done|].
  cbv zeta. destruct (_ <? _)%Z; [done|apply IH].
Qed.

Lemma do_parse_integer_settles rd np exp rneg :
  settles (do_parse_integer rd np exp rneg).
Proof.
  unfold do_parse_integer. destruct (exp <? 0)%Z; [done|].
  apply settles_bind; [apply do_parse_significant_settles|]. intros value _.
  apply settles_bind.
  - destruct (_ && _); [apply do_raise_significant_settles|done].
  - intros value' _. by destruct (_ && _).
Qed.

Lemma do_check_mergeability_adjacent sq rd tok :
  do_check_mergeability sq rd = Some tok ->
  Token.offset tok + Token.length tok = Line_Reader.m_offset rd.
Proof.
  unfold do_check_mergeability. destruct (last sq) as [qstok|]; [|done].
  destruct (negb (Token.line qstok =? _)%Z); [done|].
  destruct (Nat.eqb_spec (Token.offset qstok + Token.length qstok)
              (Line_Reader.offset rd)) as [Heq|]; [|done].
  cbn [negb]. intros H.
  assert (tok = qstok) as ->; [|done].
  repeat case_match; congruence.
Qed.

Section Numeric_Accepts.

Context `{LD : Long_Double_Arith}.

Lemma do_parse_real_settles rd np exp : settles (do_parse_real rd np exp).
Proof.
  unfold do_parse_real. destruct (do_real_value rd np exp) as [value zero].
  destruct (fp_infinite value); [done|]. by destruct (_ && _).
Qed.

Lemma do_accept_numeric_literal_accepts lx integer_as_real :
  0 < Line_Reader.size_avail (reader lx) ->
  accepts lx (do_accept_numeric_literal lx integer_as_real).
Proof.
  intros Havail. unfold do_accept_numeric_literal.
  set (rd := reader lx) in *.
  destruct (char_find s_digits 20 _); [|done].
  pose proof (do_scan_numeric_bounds rd Havail) as Hscan.
  destruct (do_scan_numeric rd) as [np| | | |]; try done. cbn [mbind Outcome_bind].
  pose proof (do_parse_exponent_settles
                (do_make_parser_error_at rd (eexp np)
                   Parser_Error.code_numeric_literal_exponent_overflow)
                (substr (Line_Reader.m_str rd) (bexp np) (eexp np)) 0) as Hexp.
  destruct (do_parse_exponent _ _ _) as [exp| | | |]; try done.
  cbn [mbind Outcome_bind].
  set (overwritten := match do_check_mergeability (seq lx) rd with
                      | Some tok => _
                      | None => lx
                      end).
  assert (pushes_from lx overwritten
          /\ Line_Reader.m_offset (reader overwritten) <= Line_Reader.m_offset rd)
    as [Hfrom Hoff].
  { subst overwritten. destruct (do_check_mergeability _ _) as [tok|] eqn:E.
    - split; [right; by exists tok|].
      apply do_check_mergeability_adjacent in E. simpl. lia.
    - split; [by left|done]. }
  clearbody overwritten.
  assert (Hpush : forall xtoken,
            accepts lx
              (lx' ← do_push_token overwritten
                       (eexp np - Line_Reader.m_offset (reader overwritten)) xtoken;
               Returned (true, lx'))).
  { intros xtoken. apply pushed_accepts; [done|]. fold rd. lia. }
  destruct (negb integer_as_real && _).
  - pose proof (do_parse_integer_settles rd np (if pneg np then (- exp)%Z else exp)
                  match do_check_mergeability (seq lx) rd with
                  | Some tok =>
                      bool_decide (Token.as_punctuator tok = Some Token.punctuator_sub)
                  | None => false
                  end) as Hint.
    destruct (do_parse_integer _ _ _ _) as [value| | | |]; try done.
    cbn [mbind Outcome_bind]. apply Hpush.
  - pose proof (do_parse_real_settles rd np (if pneg np then (- exp)%Z else exp))
      as Hreal.
    destruct (do_parse_real _ _ _) as [value| | | |]; try done.
    cbn [mbind Outcome_bind]. apply Hpush.
Qed.

End Numeric_Accepts.

(** ** The loops over a line and over the lines *)

Lemma utf8_decode_trail_read n : forall cp l read cp' read',
  utf8_decode_trail n cp l read = (true, cp', read') ->
  read' = read + n /\ n <= List.length l.
Proof.
  induction n as [|n IH]; intros cp l read cp' read'; simpl.
  - intros [= <- <-]. lia.
  - destruct l as [|c l]; [done|].
    destruct (_ || _); [done|]. intros H. apply IH in H. simpl. lia.
Qed.

Lemma utf8_decode_read avail cp read :
  utf8_decode avail = (true, cp, read) -> 1 <= read <= List.length avail.
Proof.
  unfold utf8_decode. destruct avail as [|c rest]; [done|]. cbv zeta.
  destruct (char_code c <? 128)%Z; [intros [= <- <-]; simpl; lia|].
  destruct (_ || _); [done|].
  set (u8len := if (char_code c <? 224)%Z then 2 else _).
  assert (2 <= u8len) as Hlen by (subst u8len; repeat case_match; lia).
  destruct (Nat.ltb_spec (List.length (c :: rest)) u8len) as [|Hfit]; [done|].
  destruct (utf8_decode_trail _ _ _ _) as [[ok cp1] read1] eqn:E.
  destruct ok; [|done]. apply utf8_decode_trail_read in E as [-> _].
  intros H. assert (read = 1 + (u8len - 1)) as -> by (repeat case_match; congruence).
  lia.
Qed.

Lemma do_validate_utf8_settles fuel : forall rd,
  Line_Reader.size_avail rd <= fuel ->
  match do_validate_utf8 fuel rd with
  | Returned rd' => same_line rd rd'
  | Thrown _ => True
  | _ => False
  end.
Proof.
  induction fuel as [|fuel IH]; intros rd Hfuel.
  - simpl. destruct (Nat.eqb_spec (Line_Reader.size_avail rd) 0); [|lia].
    apply same_line_refl.
  - cbn [do_validate_utf8].
    destruct (Nat.eqb_spec (Line_Reader.size_avail rd) 0); [apply same_line_refl|].
    destruct (utf8_decode (Line_Reader.data_avail rd)) as [[ok cp] read] eqn:E.
    destruct ok; [|done]. cbn [negb]. destruct (cp =? 0)%Z; [done|].
    apply utf8_decode_read in E. rewrite length_data_avail in E.
    rewrite consume_fits by lia. cbn [mbind Outcome_bind].
    set (rd' := Line_Reader.Line_Reader _ _ _ _).
    specialize (IH rd' ltac:(unfold Line_Reader.size_avail in *; simpl; lia)).
    destruct (do_validate_utf8 fuel rd'); done.
Qed.

Section Load_Settles.

Context `{LD : Long_Double_Arith}.

Lemma accepts_or_else lx a b :
  accepts lx a -> accepts lx (b lx) -> accepts lx (or_else a b).
Proof.
  unfold or_else. destruct a as [[[] lx']| | | |]; simpl; try done.
  by intros ->.
Qed.

(** Where something is left of the line, one of the accepting functions
    takes a token or throws, or none of them knows the byte. *)
Lemma do_accept_any_accepts options lx :
  0 < Line_Reader.size_avail (reader lx) ->
  accepts lx
    (or_else (do_accept_punctuator lx) (fun lx =>
     or_else (do_accept_string_literal lx "034"%char true) (fun lx =>
     or_else (do_accept_string_literal lx "'"%char
                (escapable_single_quote_string options)) (fun lx =>
     or_else (do_accept_identifier_or_keyword lx
                (keyword_as_identifier options)) (fun lx =>
     do_accept_numeric_literal lx (integer_as_real options)))))).
Proof.
  intros Havail.
  apply accepts_or_else; [by apply do_accept_punctuator_accepts|].
  apply accepts_or_else; [by apply do_accept_string_literal_accepts|].
  apply accepts_or_else; [by apply do_accept_string_literal_accepts|].
  apply accepts_or_else; [by apply do_accept_identifier_or_keyword_accepts|].
  by apply do_accept_numeric_literal_accepts.
Qed.

Lemma do_tokenize_line_settles options fuel : forall bcomm lx,
  Line_Reader.size_avail (reader lx) <= fuel ->
  settles (do_tokenize_line fuel options bcomm lx).
Proof.
  induction fuel as [|fuel IH]; intros bcomm lx Hfuel.
  - simpl. by destruct (Nat.eqb_spec (Line_Reader.size_avail (reader lx)) 0); [|lia].
  - cbn [do_tokenize_line]. cbv zeta.
    set (rd := reader lx) in *.
    destruct (Nat.eqb_spec (Line_Reader.size_avail rd) 0) as [|Hne]; [done|].
    assert (Hnext : forall add bcomm',
              1 <= add <= Line_Reader.size_avail rd ->
              settles (rd' ← Line_Reader.consume rd add;
                       do_tokenize_line fuel options bcomm'
                         {| seq := seq lx; reader := rd' |})).
    { intros add bcomm' Hadd. rewrite consume_fits by lia. cbn [mbind Outcome_bind].
      apply IH. unfold Line_Reader.size_avail in *. simpl. lia. }
    destruct (Tack.to_bool bcomm).
    { destruct (search_bcomm_term _) as [k|] eqn:Ek.
      - apply search_bcomm_term_Some in Ek. rewrite length_data_avail in Ek.
        apply Hnext. lia.
      - by rewrite consume_fits by lia. }
    destruct (bool_decide _); [apply Hnext; lia|].
    destruct (char_eqb _ "/" && char_eqb (Line_Reader.peek rd 1) "/").
    { by rewrite consume_fits by lia. }
    destruct (char_eqb _ "/" && char_eqb (Line_Reader.peek rd 1) "*") eqn:Ec.
    { apply Hnext. apply andb_true_iff in Ec as [_ Ec].
      unfold Line_Reader.peek in Ec.
      destruct (Nat.ltb_spec (Line_Reader.size_avail rd) 1); [lia|].
      apply char_eqb_at in Ec; [|done]. unfold Line_Reader.size_avail in *. lia. }
    pose proof (do_accept_any_accepts options lx ltac:(fold rd; lia)) as Hacc.
    destruct (or_else _ _) as [[[] lx']| | | |]; try done; cbn [mbind Outcome_bind].
    apply IH. apply accepts_moves in Hacc as ((_ & Hs & _) & Ho). fold rd in Ho.
    unfold Line_Reader.size_avail in *. rewrite Hs. fold rd. lia.
Qed.

Lemma do_load_lines_settles options fuel : forall cbuf bcomm lx,
  List.length cbuf < fuel -> settles (do_load_lines fuel options cbuf bcomm lx).
Proof.
  induction fuel as [|fuel IH]; intros cbuf bcomm lx Hfuel; [lia|].
  cbn [do_load_lines].
  destruct (Line_Reader.advance (reader lx) cbuf) as [[more rd] cbuf'] eqn:E.
  destruct more; [|done]. cbn [negb]. apply advance_shorter in E.
  destruct (is_shebang rd); [apply IH; lia|].
  pose proof (do_validate_utf8_settles (Line_Reader.size_avail rd) rd ltac:(lia)) as Hv.
  destruct (do_validate_utf8 _ rd) as [rd1| | | |]; try done.
  cbn [mbind Outcome_bind].
  pose proof (do_tokenize_line_settles options
                (Line_Reader.size_avail (Line_Reader.rewind rd1 0)) bcomm
                {| seq := seq lx; reader := Line_Reader.rewind rd1 0 |} ltac:(done))
    as Ht.
  destruct (do_tokenize_line _ _ _ _) as [[bcomm' lx']| | | |]; try done.
  cbn [mbind Outcome_bind]. apply IH. lia.
Qed.

Lemma do_load_settles cbuf file options : settles (do_load cbuf file options).
Proof.
  unfold do_load.
  pose proof (do_load_lines_settles options (S (List.length cbuf)) cbuf Tack.make
                {| seq := []; reader := Line_Reader.make file |} ltac:(lia)) as H.
  destruct (do_load_lines _ _ _ _ _) as [[bcomm lx]| | | |]; try done.
  cbn [mbind Outcome_bind]. by destruct (Tack.to_bool bcomm).
Qed.

End Load_Settles.

(** X1: [load] returns for every stream of bytes and every set of options:
    no call seeks past the end of a line, no byte that begins a punctuator
    is left unhandled, and every loop comes to an end.  It returns [true] with
    the stream in the state of success, or [false] with it in the state of
    error. *)
Theorem load_always_returns `{LD : Long_Double_Arith} ts cbuf file options :
  exists succ ts',
    Token_Stream.load ts cbuf file options = Returned (succ, ts')
    /\ Token_Stream.state ts'
       = (if succ then Token_Stream.state_success else Token_Stream.state_error).
Proof.
  unfold Token_Stream.load.
  pose proof (do_load_settles cbuf file options) as H.
  destruct (do_load cbuf file options) as [sq|err| | |]; try done.
  - by exists true, {| Token_Stream.m_stor := Token_Stream.Stor_tokens (rev sq) |}.
  - by exists false, {| Token_Stream.m_stor := Token_Stream.Stor_error err |}.
Qed.

(** ** The stream of tokens *)

Lemma shift_n_tokens k : forall sq,
  k <= List.length sq ->
  shift_n k {| Token_Stream.m_stor := Token_Stream.Stor_tokens (rev sq) |}
  = Returned {| Token_Stream.m_stor := Token_Stream.Stor_tokens (rev (skipn k sq)) |}.
Proof.
  induction k as [|k IH]; intros sq Hk; [done|].
  destruct sq as [|tok sq]; [simpl in Hk; lia|].
  cbn [shift_n]. unfold Token_Stream.shift. cbn [Token_Stream.m_stor rev].
  destruct (rev sq ++ [tok]) as [|x l] eqn:E.
  { by apply app_eq_nil in E as [_ ?]. }
  rewrite <- E, removelast_last. cbn [mbind Outcome_bind].
  apply IH. simpl in Hk. lia.
Qed.

Lemma last_rev {A : Type} (l : list A) : last (rev l) = head l.
Proof. destruct l as [|x l]; [done|]. simpl. by rewrite last_snoc. Qed.

(** X2: the tokens of a load that has succeeded come out in the order in
    which they were read: after [k] shifts the token at the front is the
    [k]-th that the lexer has left, the stream is empty once all have been
    shifted out, and one more shift is a runtime error. *)
Theorem tokens_come_in_order `{LD : Long_Double_Arith} ts cbuf file options ts' :
  Token_Stream.load ts cbuf file options = Returned (true, ts') ->
  exists sq,
    do_load cbuf file options = Returned sq
    /\ forall k, k <= List.length sq ->
         exists ts_k,
           shift_n k ts' = Returned ts_k
           /\ Token_Stream.peek_opt ts_k = Returned (sq !! k)
           /\ Token_Stream.empty ts_k = bool_decide (k = List.length sq)
           /\ (k = List.length sq ->
               exists msg, Token_Stream.shift ts_k = Runtime_Error msg).
Proof.
  unfold Token_Stream.load.
  destruct (do_load cbuf file options) as [sq| | | |]; try done.
  intros [= <-]. exists sq. split; [done|]. intros k Hk.
  eexists. split; [by apply shift_n_tokens|].
  unfold Token_Stream.peek_opt, Token_Stream.empty, Token_Stream.shift.
  cbn [Token_Stream.m_stor]. rewrite last_rev.
  destruct (skipn k sq) as [|tok rest] eqn:E.
  - apply (f_equal (@List.length _)) in E. rewrite length_skipn in E. simpl in E.
    assert (k = List.length sq) as -> by lia.
    rewrite lookup_ge_None_2 by lia. simpl.
    rewrite bool_decide_eq_true_2 by done. split_and!; try done. by eexists.
  - assert (sq !! k = Some tok) as ->.
    { pose proof (lookup_drop sq k 0) as Hd. rewrite E, Nat.add_0_r in Hd.
      by rewrite <- Hd. }
    assert (k <> List.length sq) as Hne.
    { intros ->. by rewrite skipn_all in E. }
    split_and!; [done| |done]. rewrite bool_decide_eq_false_2 by done.
    simpl. by destruct (rev rest ++ [tok]) eqn:E'; [apply app_eq_nil in E' as [_ ?]|].
Qed.

Lemma tokens_come_in_order_witness :
  exists sq,
    do_load (sref "a = 1;") (sref "file") default_options = Returned sq
    /\ forall k, k <= List.length sq ->
         exists ts_k,
           shift_n k {| Token_Stream.m_stor :=
                          Token_Stream.Stor_tokens
                            (rev [tok 1 0 1 (Token.S_identifier (sref "a")) (sref "file");
                                  tok 1 2 1 (Token.S_punctuator Token.punctuator_assign)
                                    (sref "file");
                                  tok 1 4 1 (Token.S_integer_literal 1) (sref "file");
                                  tok 1 5 1 (Token.S_punctuator Token.punctuator_semicol)
                                    (sref "file")]) |}
           = Returned ts_k
           /\ Token_Stream.peek_opt ts_k = Returned (sq !! k)
           /\ Token_Stream.empty ts_k = bool_decide (k = List.length sq)
           /\ (k = List.length sq ->
               exists msg, Token_Stream.shift ts_k = Runtime_Error msg).
Proof.
  apply (tokens_come_in_order
           {| Token_Stream.m_stor := Token_Stream.Stor_null |}
           (sref "a = 1;") (sref "file") default_options).
  vm_compute. reflexivity.
Defined.

(** ** Keywords and identifiers *)

Lemma find_if_not_from_run pred l1 l2 n pos :
  Forall (fun ch => pred ch = true) l1 ->
  match l2 with [] => True | ch :: _ => pred ch = false end ->
  List.length l1 <= n ->
  find_if_not_from pred (l1 ++ l2) n pos = pos + List.length l1.
Proof.
  intros H1 H2. revert n pos. induction H1 as [|c l1 Hc _ IH]; intros n pos Hn.
  - simpl. destruct n, l2; simpl; try lia. rewrite H2. lia.
  - destruct n as [|n]; [simpl in Hn; lia|]. simpl. rewrite Hc.
    rewrite IH by (simpl in Hn; lia). lia.
Qed.

Lemma do_match_keyword_find range name :
  do_match_keyword range name
  = snd <$> List.find (fun el => string_eqb name (fst el)) range.
Proof.
  induction range as [|cur range IH]; [done|]. simpl.
  destruct (string_eqb name (fst cur)) eqn:E.
  - apply string_eqb_eq in E as ->. by rewrite Nat.eqb_refl.
  - by rewrite andb_false_r.
Qed.

Lemma find_filter {A : Type} (p q : A -> bool) l :
  (forall x, p x = true -> q x = true) ->
  List.find p (List.filter q l) = List.find p l.
Proof.
  intros Hpq. induction l as [|x l IH]; [done|]. simpl.
  destruct (q x) eqn:Eq; simpl.
  - by rewrite IH.
  - destruct (p x) eqn:Ep; [|done]. apply Hpq in Ep. congruence.
Qed.

(** The table of keywords is sorted by the first byte: the range that the
    binary search finds holds the keywords that begin with the byte, all of
    them. *)
Lemma s_keywords_range c :
  firstn (snd (equal_range s_keywords c) - fst (equal_range s_keywords c))
    (skipn (fst (equal_range s_keywords c)) s_keywords)
  = List.filter (fun el => char_eqb (first_char el) c) s_keywords.
Proof.
  destruct c as [b0 b1 b2 b3 b4 b5 b6 b7].
  destruct b0, b1, b2, b3, b4, b5, b6, b7; vm_compute; reflexivity.
Qed.

(** X3: a word, that is a run of name bytes that begins with a letter or
    an underscore and that no name byte follows, is taken whole.  It makes a
    keyword if the table of keywords has the word, all of it, and keywords
    are not to be read as identifiers; it makes an identifier otherwise. *)
Theorem keyword_is_a_whole_word lx keyword_as_identifier head name rest :
  Line_Reader.data_avail (reader lx) = head :: name ++ rest ->
  is_Some (char_find s_name_chars 53 head) ->
  Forall (fun ch => is_Some (char_find s_name_chars 63 ch)) name ->
  match rest with [] => True | ch :: _ => char_find s_name_chars 63 ch = None end ->
  do_accept_identifier_or_keyword lx keyword_as_identifier
  = Returned (true,
      pushed lx (S (List.length name))
        match (if keyword_as_identifier then None else keyword_of (head :: name)) with
        | Some kw => Token.S_keyword kw
        | None => Token.S_identifier (head :: name)
        end).
Proof.
  intros Hdata [k Hk] Hname Hrest. unfold do_accept_identifier_or_keyword.
  set (rd := reader lx) in *.
  assert (Hhead : char_at (Line_Reader.m_str rd) (Line_Reader.m_offset rd) = head).
  { by rewrite char_at_data_avail, Hdata. }
  rewrite Hhead, Hk.
  assert (Hsize : Line_Reader.size_avail rd = S (List.length name + List.length rest)).
  { rewrite <- length_data_avail, Hdata. simpl. by rewrite length_app. }
  assert (Htptr : find_if_not
                    (fun ch => bool_decide (is_Some (char_find s_name_chars 63 ch)))
                    (Line_Reader.m_str rd) (Line_Reader.m_offset rd)
                    (Line_Reader.m_offset rd + Line_Reader.size_avail rd)
                  - Line_Reader.m_offset rd = S (List.length name)).
  { unfold find_if_not. fold (Line_Reader.data_avail rd). rewrite Hdata.
    rewrite (find_if_not_from_run _ (head :: name) rest).
    - simpl. lia.
    - constructor.
      + apply bool_decide_eq_true_2. exists k. apply (char_find_mono _ 53); [done|lia].
      + eapply Forall_impl; [exact Hname|]. intros ch Hch.
        by apply bool_decide_eq_true_2.
    - destruct rest as [|ch rest']; [done|]. apply bool_decide_eq_false_2.
      rewrite Hrest. by intros [? ?].
    - simpl. lia. }
  rewrite Htptr, Hdata.
  assert (firstn (S (List.length name)) (head :: name ++ rest) = head :: name) as ->.
  { simpl. by rewrite firstn_app, Nat.sub_diag, firstn_all, app_nil_r. }
  rewrite s_keywords_range, do_match_keyword_find.
  rewrite find_filter.
  2:{ intros el Hel. apply string_eqb_eq in Hel. unfold first_char. rewrite <- Hel.
      simpl. apply Ascii.eqb_refl. }
  fold (keyword_of (head :: name)).
  destruct (if keyword_as_identifier then None else keyword_of (head :: name));
    rewrite do_push_token_fits by (fold rd; lia); done.
Qed.

Lemma keyword_is_a_whole_word_witness :
  do_accept_identifier_or_keyword (lexer_at (sref "while(x)")) false
  = Returned (true,
      pushed (lexer_at (sref "while(x)")) (S (List.length (sref "hile")))
        match (if false then None else keyword_of ("w"%char :: sref "hile")) with
        | Some kw => Token.S_keyword kw
        | None => Token.S_identifier ("w"%char :: sref "hile")
        end).
Proof.
  apply (keyword_is_a_whole_word (lexer_at (sref "while(x)")) false "w"%char
           (sref "hile") (sref "(x)")).
  - reflexivity.
  - vm_compute. eexists. reflexivity.
  - repeat constructor; vm_compute; eexists; reflexivity.
  - reflexivity.
Defined.

(** ** String literals *)

Lemma char_find_app_Some body rest n c :
  c ∉ body -> List.length body < n ->
  char_find (body ++ c :: rest) n c = Some (List.length body).
Proof.
  revert n. induction body as [|x body IH]; intros n Hc Hn.
  - destruct n; [simpl in Hn; lia|]. simpl. unfold char_eqb. by rewrite Ascii.eqb_refl.
  - destruct n as [|n]; [lia|]. simpl.
    destruct (char_eqb x c) eqn:E.
    { apply Ascii.eqb_eq in E as ->. exfalso. apply Hc. by left. }
    rewrite IH; [done| |simpl in Hn; lia]. intros ?. apply Hc. by right.
Qed.

Lemma char_find_None body n c : c ∉ body -> char_find body n c = None.
Proof.
  revert n. induction body as [|x body IH]; intros n Hc; [by destruct n|].
  destruct n as [|n]; [done|]. simpl.
  destruct (char_eqb x c) eqn:E.
  { apply Ascii.eqb_eq in E as ->. exfalso. apply Hc. by left. }
  rewrite IH; [done|]. intros ?. apply Hc. by right.
Qed.

Lemma char_at_avail rd i :
  char_at (Line_Reader.m_str rd) (Line_Reader.m_offset rd + i)
  = nth i (Line_Reader.data_avail rd) NUL.
Proof. unfold char_at, Line_Reader.data_avail. by rewrite nth_skipn. Qed.

(** The loop over a body that holds neither the quote nor a backslash. *)
Lemma do_translate_escapes_plain rd head suf : forall fuel pre value tail,
  Line_Reader.data_avail rd = pre ++ suf ++ tail ->
  head ∉ suf -> "\"%char ∉ suf ->
  List.length suf < fuel ->
  do_translate_escapes fuel rd head (List.length pre) value
  = match tail with
    | [] =>
        Thrown (do_make_parser_error rd (Line_Reader.size_avail rd)
                  Parser_Error.code_string_literal_unclosed)
    | ch :: _ =>
        if char_eqb ch head
        then Returned (S (List.length pre + List.length suf), value ++ suf)
        else do_translate_escapes (fuel - List.length suf) rd head
               (List.length pre + List.length suf) (value ++ suf)
    end.
Proof.
  induction suf as [|c suf IH]; intros fuel pre value tail Hdata Hh Hb Hfuel.
  - simpl in Hdata. rewrite !Nat.add_0_r, app_nil_r, Nat.sub_0_r.
    destruct fuel as [|fuel]; [simpl in Hfuel; lia|].
    assert (Hsize : Line_Reader.size_avail rd = List.length pre + List.length tail).
    { by rewrite <- length_data_avail, Hdata, length_app. }
    destruct tail as [|ch tail].
    + cbn [do_translate_escapes]. cbv zeta. rewrite Hsize. simpl.
      by rewrite Nat.add_0_r, Nat.sub_diag.
    + destruct (char_eqb ch head) eqn:E; [|done].
      cbn [do_translate_escapes]. cbv zeta.
      destruct (Nat.eqb_spec (Line_Reader.size_avail rd - List.length pre) 0) as [He|_].
      { rewrite Hsize in He. simpl in He. lia. }
      rewrite char_at_avail, Hdata, app_nth2, Nat.sub_diag by lia. simpl.
      by rewrite E.
  - destruct fuel as [|fuel]; [lia|].
    assert (Hsize : Line_Reader.size_avail rd
                    = List.length pre + S (List.length suf + List.length tail)).
    { rewrite <- length_data_avail, Hdata, length_app. simpl. by rewrite length_app. }
    cbn [do_translate_escapes]. cbv zeta.
    destruct (Nat.eqb_spec (Line_Reader.size_avail rd - List.length pre) 0) as [He|_].
    { rewrite Hsize in He. lia. }
    rewrite char_at_avail, Hdata, app_nth2, Nat.sub_diag by lia. simpl nth.
    destruct (char_eqb c head) eqn:E1.
    { apply Ascii.eqb_eq in E1 as ->. exfalso. apply Hh. by left. }
    destruct (char_eqb c "\") eqn:E2.
    { apply Ascii.eqb_eq in E2 as ->. exfalso. apply Hb. by left. }
    cbn [negb].
    specialize (IH fuel (pre ++ [c]) (value ++ [c]) tail).
    rewrite length_app in IH. simpl in IH.
    replace (List.length pre + 1) with (S (List.length pre)) in IH by lia.
    rewrite IH.
    + simpl. rewrite <- !app_assoc. simpl.
      replace (List.length pre + S (List.length suf))
        with (S (List.length pre + List.length suf)) by lia.
      done.
    + by rewrite Hdata, <- app_assoc.
    + intros ?. apply Hh. by right.
    + intros ?. apply Hb. by right.
    + simpl in Hfuel. lia.
Qed.

(** X4: a string literal whose body holds neither its quote nor, where
    escape sequences are translated, a backslash is the bytes of its body,
    and the token extends over the body and the two quotes. *)
Theorem plain_string_literal_is_its_body lx head escapable body rest :
  Line_Reader.data_avail (reader lx) = head :: body ++ head :: rest ->
  head ∉ body ->
  (escapable = true -> "\"%char ∉ body) ->
  do_accept_string_literal lx head escapable
  = Returned (true, pushed lx (List.length body + 2) (Token.S_string_literal body)).
Proof.
  intros Hdata Hh Hb. unfold do_accept_string_literal.
  set (rd := reader lx) in *.
  rewrite char_at_data_avail, Hdata. simpl nth. unfold char_eqb at 1.
  rewrite Ascii.eqb_refl. cbn [negb].
  assert (Hsize : Line_Reader.size_avail rd = S (List.length body + S (List.length rest))).
  { rewrite <- length_data_avail, Hdata. simpl. by rewrite length_app. }
  destruct escapable.
  - pose proof (do_translate_escapes_plain rd head body (Line_Reader.size_avail rd)
                  [head] [] (head :: rest) Hdata Hh (Hb eq_refl) ltac:(lia)) as Ht.
    cbn [List.length app] in Ht. rewrite Ht.
    unfold char_eqb. rewrite Ascii.eqb_refl. cbn [mbind Outcome_bind].
    rewrite do_push_token_fits by (fold rd; simpl; lia).
    simpl. do 3 f_equal. lia.
  - change (skipn 1 (head :: body ++ head :: rest)) with (body ++ head :: rest).
    rewrite char_find_app_Some by (done || lia).
    cbn [mbind Outcome_bind].
    rewrite do_push_token_fits by (fold rd; lia).
    by rewrite firstn_app, Nat.sub_diag, firstn_all, app_nil_r.
Qed.

Lemma plain_string_literal_is_its_body_witness :
  do_accept_string_literal (lexer_at (sref "'a b' + 1")) "'"%char true
  = Returned (true, pushed (lexer_at (sref "'a b' + 1")) (List.length (sref "a b") + 2)
                      (Token.S_string_literal (sref "a b"))).
Proof.
  apply (plain_string_literal_is_its_body (lexer_at (sref "'a b' + 1")) "'"%char true
           (sref "a b") (sref " + 1")).
  - reflexivity.
  - intros H. by repeat (apply elem_of_cons in H as [H|H]; [done|]);
      apply elem_of_nil in H.
  - intros _ H. by repeat (apply elem_of_cons in H as [H|H]; [done|]);
      apply elem_of_nil in H.
Defined.

(** X5: a string literal that the line ends in, whose body holds neither
    its quote nor, where escape sequences are translated, a backslash, is
    refused as unclosed; the error extends from the quote to the end of the
    line. *)
Theorem unclosed_string_literal_is_refused lx head escapable body :
  Line_Reader.data_avail (reader lx) = head :: body ->
  head ∉ body ->
  (escapable = true -> "\"%char ∉ body) ->
  do_accept_string_literal lx head escapable
  = Thrown (Parser_Error.Parser_Error (Line_Reader.line (reader lx))
              (Line_Reader.offset (reader lx)) (S (List.length body))
              Parser_Error.code_string_literal_unclosed).
Proof.
  intros Hdata Hh Hb. unfold do_accept_string_literal.
  set (rd := reader lx) in *.
  rewrite char_at_data_avail, Hdata. simpl nth. unfold char_eqb at 1.
  rewrite Ascii.eqb_refl. cbn [negb].
  assert (Hsize : Line_Reader.size_avail rd = S (List.length body)).
  { by rewrite <- length_data_avail, Hdata. }
  destruct escapable.
  - pose proof (do_translate_escapes_plain rd head body (Line_Reader.size_avail rd)
                  [head] [] [] ltac:(by rewrite app_nil_r) Hh (Hb eq_refl) ltac:(lia))
      as Ht.
    cbn [List.length app] in Ht. rewrite Ht.
    cbn [mbind Outcome_bind]. unfold do_make_parser_error. by rewrite Hsize.
  - change (skipn 1 (head :: body)) with body. rewrite char_find_None by done.
    cbn [mbind Outcome_bind]. unfold do_make_parser_error. by rewrite Hsize.
Qed.

Lemma unclosed_string_literal_is_refused_witness :
  do_accept_string_literal (lexer_at (sref "'a b")) "'"%char false
  = Thrown (Parser_Error.Parser_Error
              (Line_Reader.line (reader (lexer_at (sref "'a b"))))
              (Line_Reader.offset (reader (lexer_at (sref "'a b"))))
              (S (List.length (sref "a b")))
              Parser_Error.code_string_literal_unclosed).
Proof.
  apply (unclosed_string_literal_is_refused (lexer_at (sref "'a b")) "'"%char false
           (sref "a b")).
  - reflexivity.
  - intros H. by repeat (apply elem_of_cons in H as [H|H]; [done|]);
      apply elem_of_nil in H.
  - intros H. discriminate H.
Defined.

(** ** Lines *)

Lemma buffer_line_splits input : forall acc str rest eof,
  Line_Reader.buffer_line input acc = (str, rest, eof) ->
  exists line,
    str = acc ++ line /\ "010"%char ∉ line
    /\ (if eof then input = line /\ rest = [] else input = line ++ "010"%char :: rest).
Proof.
  induction input as [|ich input IH]; intros acc str rest eof; simpl.
  - intros [= <- <- <-]. exists []. rewrite app_nil_r. split_and!; try done.
    apply not_elem_of_nil.
  - destruct (char_eqb ich "010") eqn:E.
    + apply Ascii.eqb_eq in E as ->. intros [= <- <- <-]. exists [].
      rewrite app_nil_r. split_and!; try done. apply not_elem_of_nil.
    + intros H. apply IH in H as (line & -> & Hline & Hin).
      exists (ich :: line). rewrite <- app_assoc. split_and!; [done| |].
      * intros [Heq|?]%elem_of_cons; [|done]. subst ich.
        unfold char_eqb in E. by rewrite Ascii.eqb_refl in E.
      * destruct eof; [destruct Hin as [-> ->]|rewrite Hin]; done.
Qed.

(** X6: [advance] takes the bytes up to the first line feed as the line,
    and the line feed with them; without a line feed it takes all the bytes,
    and it reports the end of the stream only when there are none.  The
    line has no line feed in it, the offset is zero, and the line number
    has been incremented if and only if a line has been read. *)
Theorem advance_takes_a_line rd cbuf :
  exists more rd' rest,
    Line_Reader.advance rd cbuf = (more, rd', rest)
    /\ Line_Reader.m_file rd' = Line_Reader.m_file rd
    /\ Line_Reader.m_offset rd' = 0
    /\ "010"%char ∉ Line_Reader.m_str rd'
    /\ (if more then
          Line_Reader.m_line rd' = ((Line_Reader.m_line rd + 1) mod 2 ^ 32)%Z
          /\ (cbuf = Line_Reader.m_str rd' ++ "010"%char :: rest
              \/ (cbuf = Line_Reader.m_str rd' /\ cbuf <> [] /\ rest = []))
        else
          cbuf = [] /\ rest = [] /\ Line_Reader.m_str rd' = []
          /\ Line_Reader.m_line rd' = Line_Reader.m_line rd).
Proof.
  unfold Line_Reader.advance.
  destruct (Line_Reader.buffer_line cbuf []) as [[str rest] eof] eqn:E.
  apply buffer_line_splits in E as (line & -> & Hline & Hin). simpl in *.
  destruct eof; simpl.
  - destruct Hin as [-> ->]. destruct line as [|c line]; simpl.
    + do 3 eexists. split; [done|]. simpl. split_and!; done.
    + do 3 eexists. split; [done|]. simpl. split_and!; try done. right. done.
  - do 3 eexists. split; [done|]. simpl. split_and!; try done. by left.
Qed.

(** ** The positions of the tokens *)

Lemma in_order_snoc sq t' :
  in_order (sq ++ [t'])
  <-> in_order sq
      /\ forall t, last sq = Some t -> ends_before t (Token.line t') (Token.offset t').
Proof.
  induction sq as [|t sq IH].
  - simpl. split; [|done]. intros _. split; [done|]. by intros t.
  - change ((t :: sq) ++ [t']) with (t :: (sq ++ [t'])).
    cbn [in_order]. rewrite IH. destruct sq as [|t2 sq].
    + simpl. split.
      * intros [H _]. split; [done|]. by intros ? [= <-].
      * intros [_ H]. split; [by apply H|]. split; [done|]. by intros.
    + change ((t2 :: sq) ++ [t']) with (t2 :: (sq ++ [t'])).
      change (last (t :: t2 :: sq)) with (last (t2 :: sq)).
      split.
      * intros (H1 & H2 & H3). by split_and!.
      * intros ((H1 & H2) & H3). by split_and!.
Qed.

Lemma removelast_snoc {A : Type} (l : list A) x : last l = Some x -> l = removelast l ++ [x].
Proof.
  intros H. destruct (last_Some l x) as [[l' ->] _]; [done|].
  by rewrite removelast_last.
Qed.

Lemma ends_before_mono t line offset offset' :
  ends_before t line offset -> offset <= offset' -> ends_before t line offset'.
Proof. intros [H|[H1 H2]] Ho; [by left|right; split; [done|lia]]. Qed.

Lemma do_check_mergeability_last sq rd tok :
  do_check_mergeability sq rd = Some tok ->
  last sq = Some tok /\ Token.line tok = Line_Reader.m_line rd.
Proof.
  unfold do_check_mergeability. destruct (last sq) as [qstok|]; [|done].
  destruct (Z.eqb_spec (Token.line qstok) (Line_Reader.line rd)) as [Heq|]; [|done].
  cbn [negb]. intros H.
  assert (tok = qstok) as ->; [|done].
  repeat case_match; congruence.
Qed.

Lemma tokens_behind_consume file lx add :
  tokens_behind file lx ->
  tokens_behind file
    {| seq := seq lx;
       reader := {| Line_Reader.m_file := Line_Reader.m_file (reader lx);
                    Line_Reader.m_str := Line_Reader.m_str (reader lx);
                    Line_Reader.m_line := Line_Reader.m_line (reader lx);
                    Line_Reader.m_offset := Line_Reader.m_offset (reader lx) + add |} |}.
Proof.
  intros (H1 & H2 & H3). split_and!; try done. simpl. intros t Ht.
  eapply ends_before_mono; [by apply H3|lia].
Qed.

(** A token that is pushed where the reader is, or in place of the sign
    that is merged into it, keeps the tokens in order. *)
Lemma tokens_behind_accepts file lx lx' :
  Line_Reader.m_file (reader lx) = file ->
  (1 <= Line_Reader.m_line (reader lx))%Z ->
  tokens_behind file lx -> accepts lx (Returned (true, lx')) ->
  tokens_behind file lx'.
Proof.
  intros Hfile Hline (Hord & Hall & Hlast) (from & length & xtoken & -> & Hfrom & Hlen).
  assert (tokens_behind file from
          /\ Line_Reader.m_file (reader from) = file
          /\ Line_Reader.m_line (reader from) = Line_Reader.m_line (reader lx)
          /\ Line_Reader.m_offset (reader from) <= Line_Reader.m_offset (reader lx))
    as ((Hord' & Hall' & Hlast') & Hfile' & Hline' & Hoff').
  { destruct Hfrom as [->|(qstok & Hq & ->)]; [by split_and!|].
    pose proof (do_check_mergeability_adjacent _ _ _ Hq) as Hadj.
    apply do_check_mergeability_last in Hq as [Hq Hql].
    apply removelast_snoc in Hq. simpl. rewrite Hq in Hord, Hall.
    apply in_order_snoc in Hord as [Hord Hprev].
    apply Forall_app in Hall as [Hall _].
    split_and!; try done; [|lia]. split_and!; try done. simpl.
    intros t Ht. rewrite <- Hql. by apply Hprev. }
  unfold pushed. split_and!; simpl.
  - apply in_order_snoc. split; [done|]. simpl. done.
  - apply Forall_app. split; [done|]. constructor; [|done].
    unfold well_placed, Line_Reader.file, Line_Reader.line. simpl.
    split_and!; [done|lia|lia].
  - intros t. rewrite last_snoc. intros [= <-]. right. simpl.
    unfold Line_Reader.line, Line_Reader.offset. split; [done|lia].
Qed.

Section Token_Positions.

Context `{LD : Long_Double_Arith}.

Lemma do_tokenize_line_behind file options fuel : forall bcomm lx bcomm' lx',
  do_tokenize_line fuel options bcomm lx = Returned (bcomm', lx') ->
  Line_Reader.m_file (reader lx) = file ->
  (1 <= Line_Reader.m_line (reader lx))%Z ->
  tokens_behind file lx ->
  tokens_behind file lx' /\ same_line (reader lx) (reader lx').
Proof.
  induction fuel as [|fuel IH]; intros bcomm lx bcomm' lx' H Hfile Hline Hinv.
  - simpl in H. destruct (Line_Reader.size_avail (reader lx) =? 0); [|done].
    injection H as <- <-. split; [done|apply same_line_refl].
  - cbn [do_tokenize_line] in H. cbv zeta in H.
    set (rd := reader lx) in *.
    destruct (Nat.eqb_spec (Line_Reader.size_avail rd) 0) as [|Hne].
    { injection H as <- <-. split; [done|apply same_line_refl]. }
    assert (Hnext : forall add bcomm1,
              (rd' ← Line_Reader.consume rd add;
               do_tokenize_line fuel options bcomm1 {| seq := seq lx; reader := rd' |})
              = Returned (bcomm', lx') ->
              tokens_behind file lx' /\ same_line rd (reader lx')).
    { intros add bcomm1 H1. unfold Line_Reader.consume in H1.
      destruct (_ <? _); [done|]. cbn [mbind Outcome_bind] in H1.
      apply IH in H1 as [H1 (? & ? & ?)]; try done.
      by apply tokens_behind_consume. }
    assert (Hskip : forall add,
              (rd' ← Line_Reader.consume rd add;
               Returned (bcomm, {| seq := seq lx; reader := rd' |}))
              = Returned (bcomm', lx') ->
              tokens_behind file lx' /\ same_line rd (reader lx')).
    { intros add H1. unfold Line_Reader.consume in H1.
      destruct (_ <? _); [done|]. cbn [mbind Outcome_bind] in H1.
      injection H1 as <- <-. split; [by apply tokens_behind_consume|done]. }
    destruct (Tack.to_bool bcomm).
    { destruct (search_bcomm_term _); [by eapply Hnext|by eapply Hskip]. }
    destruct (bool_decide _); [by eapply Hnext|].
    destruct (char_eqb _ "/" && char_eqb (Line_Reader.peek rd 1) "/");
      [by eapply Hskip|].
    destruct (char_eqb _ "/" && char_eqb (Line_Reader.peek rd 1) "*");
      [by eapply Hnext|].
    pose proof (do_accept_any_accepts options lx ltac:(fold rd; lia)) as Hacc.
    destruct (or_else _ _) as [[[] lx1]| | | |]; try done;
      cbn [mbind Outcome_bind] in H.
    pose proof (accepts_moves _ _ Hacc) as ((Hf1 & Hs1 & Hl1) & _).
    clear Hnext Hskip. subst rd.
    apply IH in H as [H (? & ? & ?)].
    + split; [done|]. unfold same_line. split_and!; congruence.
    + congruence.
    + by rewrite Hl1.
    + by eapply tokens_behind_accepts.
Qed.

Lemma advance_line rd cbuf rd' rest :
  Line_Reader.advance rd cbuf = (true, rd', rest) ->
  Line_Reader.m_file rd' = Line_Reader.m_file rd
  /\ Line_Reader.m_offset rd' = 0
  /\ Line_Reader.m_line rd' = ((Line_Reader.m_line rd + 1) mod 2 ^ 32)%Z.
Proof.
  unfold Line_Reader.advance.
  destruct (Line_Reader.buffer_line cbuf []) as [[str rest'] eof].
  destruct (_ && _); [done|]. by intros [= <- <-].
Qed.

Lemma do_validate_utf8_same_line fuel rd rd' :
  do_validate_utf8 fuel rd = Returned rd' -> same_line rd rd'.
Proof.
  revert rd. induction fuel as [|fuel IH]; intros rd; simpl.
  - destruct (_ =? _); [|done]. intros [= <-]. apply same_line_refl.
  - destruct (_ =? _); [intros [= <-]; apply same_line_refl|].
    destruct (utf8_decode _) as [[ok cp] read]. destruct ok; [|done]. cbn [negb].
    destruct (cp =? 0)%Z; [done|]. unfold Line_Reader.consume.
    destruct (_ <? _); [done|]. cbn [mbind Outcome_bind]. intros H.
    apply IH in H as (? & ? & ?). by split_and!.
Qed.

Lemma do_load_lines_in_order file options fuel : forall cbuf bcomm lx bcomm' lx',
  do_load_lines fuel options cbuf bcomm lx = Returned (bcomm', lx') ->
  Line_Reader.m_file (reader lx) = file ->
  (0 <= Line_Reader.m_line (reader lx))%Z ->
  (Line_Reader.m_line (reader lx) + Z.of_nat (List.length cbuf) < 2 ^ 32)%Z ->
  in_order (seq lx) -> Forall (well_placed file) (seq lx) ->
  (forall t, last (seq lx) = Some t ->
     (Token.line t <= Line_Reader.m_line (reader lx))%Z) ->
  in_order (seq lx') /\ Forall (well_placed file) (seq lx').
Proof.
  induction fuel as [|fuel IH];
    intros cbuf bcomm lx bcomm' lx' H Hfile Hline Hroom Hord Hall Hlast; [done|].
  cbn [do_load_lines] in H.
  destruct (Line_Reader.advance (reader lx) cbuf) as [[more rd] cbuf'] eqn:E.
  destruct more; cbn [negb] in H; [|by injection H as <- <-].
  pose proof (advance_shorter _ _ _ _ E) as Hshort.
  apply advance_line in E as (Hf & Ho & Hl).
  rewrite Z.mod_small in Hl by lia.
  destruct (is_shebang rd).
  { apply IH in H; simpl; try done; [congruence|lia|lia|].
    intros t Ht. specialize (Hlast t Ht). lia. }
  destruct (do_validate_utf8 _ rd) as [rd1| | | |] eqn:Ev; try done.
  cbn [mbind Outcome_bind] in H.
  apply do_validate_utf8_same_line in Ev as (Hf1 & Hs1 & Hl1).
  destruct (do_tokenize_line _ _ _ _) as [[bcomm1 lx1]| | | |] eqn:Et; try done.
  cbn [mbind Outcome_bind] in H.
  apply (do_tokenize_line_behind file) in Et as [(Hord1 & Hall1 & Hlast1) Hsame];
    simpl; try congruence; try lia.
  2:{ split_and!; try done. simpl. intros t Ht. left. specialize (Hlast t Ht). lia. }
  destruct Hsame as (Hf2 & Hs2 & Hl2). simpl in Hf2, Hs2, Hl2.
  apply IH in H; simpl; try done; try congruence; try lia.
  intros t Ht. destruct (Hlast1 t Ht) as [?|[? _]]; lia.
Qed.

End Token_Positions.

(** X7: the tokens of a stream of fewer than [2^32] bytes are in the order
    of the source: every token is of the file, on a line from [1] on and
    at least one byte long, and it ends before the next one begins, on an
    earlier line or on the same line at or before the offset of the
    next. *)
Theorem tokens_are_in_source_order `{LD : Long_Double_Arith} cbuf file options sq :
  (Z.of_nat (List.length cbuf) < 2 ^ 32)%Z ->
  do_load cbuf file options = Returned sq ->
  in_order sq /\ Forall (well_placed file) sq.
Proof.
  intros Hlen. unfold do_load.
  destruct (do_load_lines _ _ _ _ _) as [[bcomm lx]| | | |] eqn:E; try done.
  cbn [mbind Outcome_bind]. destruct (Tack.to_bool bcomm); [done|].
  intros [= <-].
  apply (do_load_lines_in_order file) in E; simpl; try done; lia.
Qed.

Lemma tokens_are_in_source_order_witness :
  in_order [tok 1 0 1 (Token.S_punctuator Token.punctuator_assign) (sref "file");
            tok 2 1 2 (Token.S_integer_literal (-1)) (sref "file")]
  /\ Forall (well_placed (sref "file"))
       [tok 1 0 1 (Token.S_punctuator Token.punctuator_assign) (sref "file");
        tok 2 1 2 (Token.S_integer_literal (-1)) (sref "file")].
Proof.
  apply (tokens_are_in_source_order
           ("="%char :: "010"%char :: sref " -1") (sref "file") default_options).
  - vm_compute. reflexivity.
  - vm_compute. reflexivity.
Defined.

(** ** Streams of white space *)

Lemma is_blank_find ch :
  is_blank ch ->
  is_Some (char_find [" "; "009"; "011"; "012"; "013"; "010"]%char 6 ch).
Proof.
  unfold is_blank. intros H.
  repeat (apply elem_of_cons in H as [->|H]; [by eexists|]).
  by apply elem_of_nil in H.
Qed.

Lemma is_blank_ascii ch : is_blank ch -> (0 < char_code ch < 128)%Z.
Proof.
  unfold is_blank. intros H.
  repeat (apply elem_of_cons in H as [->|H]; [by vm_compute|]).
  by apply elem_of_nil in H.
Qed.

Lemma data_avail_cons rd ch rest :
  Line_Reader.data_avail rd = ch :: rest ->
  0 < Line_Reader.size_avail rd
  /\ Line_Reader.data_avail
       {| Line_Reader.m_file := Line_Reader.m_file rd;
          Line_Reader.m_str := Line_Reader.m_str rd;
          Line_Reader.m_line := Line_Reader.m_line rd;
          Line_Reader.m_offset := Line_Reader.m_offset rd + 1 |} = rest.
Proof.
  intros H. split.
  - rewrite <- length_data_avail, H. simpl. lia.
  - unfold Line_Reader.data_avail in *. simpl.
    rewrite Nat.add_comm, <- skipn_skipn, H. done.
Qed.

(** A line of bytes of ASCII other than the null byte is valid. *)
Lemma do_validate_utf8_ascii fuel : forall rd,
  Forall (fun ch => (0 < char_code ch < 128)%Z) (Line_Reader.data_avail rd) ->
  Line_Reader.size_avail rd <= fuel ->
  exists rd', do_validate_utf8 fuel rd = Returned rd' /\ same_line rd rd'.
Proof.
  induction fuel as [|fuel IH]; intros rd Hall Hfuel.
  - simpl. destruct (Nat.eqb_spec (Line_Reader.size_avail rd) 0); [|lia].
    eexists. split; [done|apply same_line_refl].
  - cbn [do_validate_utf8].
    destruct (Nat.eqb_spec (Line_Reader.size_avail rd) 0) as [|Hne].
    { eexists. split; [done|apply same_line_refl]. }
    destruct (Line_Reader.data_avail rd) as [|ch rest] eqn:E.
    { rewrite <- length_data_avail, E in Hne. done. }
    apply Forall_cons in Hall as [Hch Hrest].
    destruct (data_avail_cons _ _ _ E) as [Havail Hnext].
    unfold utf8_decode. destruct (Z.ltb_spec (char_code ch) 128) as [_|]; [|lia].
    cbn [negb]. destruct (Z.eqb_spec (char_code ch) 0); [lia|].
    rewrite consume_fits by lia. cbn [mbind Outcome_bind].
    destruct (IH _ ltac:(by rewrite Hnext)
                ltac:(unfold Line_Reader.size_avail in *; simpl; lia))
      as (rd' & -> & Hs).
    exists rd'. split; [done|]. destruct Hs as (? & ? & ?). by split_and!.
Qed.

Section Blank_Streams.

Context `{LD : Long_Double_Arith}.

(** White space is skipped. *)
Lemma do_tokenize_line_blank options fuel : forall bcomm lx,
  Tack.to_bool bcomm = false ->
  Forall is_blank (Line_Reader.data_avail (reader lx)) ->
  Line_Reader.size_avail (reader lx) <= fuel ->
  exists rd',
    do_tokenize_line fuel options bcomm lx
    = Returned (bcomm, {| seq := seq lx; reader := rd' |}).
Proof.
  induction fuel as [|fuel IH]; intros bcomm lx Hb Hall Hfuel.
  - simpl. destruct (Nat.eqb_spec (Line_Reader.size_avail (reader lx)) 0); [|lia].
    exists (reader lx). by destruct lx.
  - cbn [do_tokenize_line]. cbv zeta.
    destruct (Nat.eqb_spec (Line_Reader.size_avail (reader lx)) 0) as [|Hne].
    { exists (reader lx). by destruct lx. }
    rewrite Hb.
    destruct (Line_Reader.data_avail (reader lx)) as [|ch rest] eqn:E.
    { rewrite <- length_data_avail, E in Hne. done. }
    apply Forall_cons in Hall as [Hch Hrest].
    destruct (data_avail_cons _ _ _ E) as [Havail Hnext].
    assert (Line_Reader.peek (reader lx) 0 = ch) as ->.
    { unfold Line_Reader.peek.
      destruct (Nat.ltb_spec (Line_Reader.size_avail (reader lx)) 0); [lia|].
      by rewrite char_at_avail, E. }
    rewrite bool_decide_eq_true_2 by by apply is_blank_find.
    rewrite consume_fits by lia. cbn [mbind Outcome_bind].
    apply (IH bcomm (mkLexer (seq lx) _)); [done|simpl; by rewrite Hnext|].
    unfold Line_Reader.size_avail in *. simpl. lia.
Qed.

Lemma is_shebang_blank rd :
  Forall is_blank (Line_Reader.data_avail rd) -> is_shebang rd = false.
Proof.
  intros Hall. unfold is_shebang.
  destruct (Line_Reader.data_avail rd) as [|ch rest] eqn:E.
  { rewrite <- length_data_avail, E. simpl. by rewrite andb_false_r. }
  apply Forall_cons in Hall as [Hch _].
  destruct (char_eqb ch "#") eqn:Ec.
  2:{ destruct rest; simpl; rewrite Ec; by rewrite !andb_false_r. }
  apply Ascii.eqb_eq in Ec as ->. unfold is_blank in Hch.
  repeat (apply elem_of_cons in Hch as [Hch|Hch]; [done|]).
  by apply elem_of_nil in Hch.
Qed.

Lemma do_load_lines_blank options fuel : forall cbuf bcomm lx,
  Tack.to_bool bcomm = false -> Forall is_blank cbuf -> List.length cbuf < fuel ->
  exists rd',
    do_load_lines fuel options cbuf bcomm lx
    = Returned (bcomm, {| seq := seq lx; reader := rd' |}).
Proof.
  induction fuel as [|fuel IH]; intros cbuf bcomm lx Hb Hall Hfuel; [lia|].
  cbn [do_load_lines].
  destruct (Line_Reader.advance (reader lx) cbuf) as [[more rd] cbuf'] eqn:E.
  destruct more; cbn [negb]; [|by eexists].
  pose proof (advance_shorter _ _ _ _ E) as Hshort.
  assert (Forall is_blank (Line_Reader.data_avail rd) /\ Forall is_blank cbuf')
    as [Hline Hrest].
  { unfold Line_Reader.advance in E.
    destruct (Line_Reader.buffer_line cbuf []) as [[str rest] eof] eqn:Eb.
    apply buffer_line_splits in Eb as (line & -> & _ & Hin). simpl in E.
    destruct (_ && _); [done|]. injection E as <- <-.
    unfold Line_Reader.data_avail. simpl.
    destruct eof.
    - destruct Hin as [-> ->]. split; [done|constructor].
    - rewrite Hin in Hall. apply Forall_app in Hall as [H1 H2].
      apply Forall_cons in H2 as [_ H2]. done. }
  rewrite is_shebang_blank by done.
  destruct (do_validate_utf8_ascii (Line_Reader.size_avail rd) rd) as (rd1 & -> & Hs);
    [|done|].
  { eapply Forall_impl; [exact Hline|]. apply is_blank_ascii. }
  cbn [mbind Outcome_bind].
  assert (Line_Reader.data_avail (Line_Reader.rewind rd1 0) = Line_Reader.data_avail rd)
    as Hdata.
  { apply advance_line in E as (_ & Ho & _). destruct Hs as (_ & Hstr & _).
    unfold Line_Reader.data_avail. simpl. by rewrite Hstr, Ho. }
  destruct (do_tokenize_line_blank options
              (Line_Reader.size_avail (Line_Reader.rewind rd1 0)) bcomm
              {| seq := seq lx; reader := Line_Reader.rewind rd1 0 |} Hb)
    as (rd2 & ->); [simpl; by rewrite Hdata|done|].
  cbn [mbind Outcome_bind seq reader].
  destruct (IH cbuf' bcomm
              {| seq := seq lx; reader := Line_Reader.rewind rd2 0 |} Hb Hrest
              ltac:(lia)) as (rd3 & ->).
  by exists rd3.
Qed.

End Blank_Streams.

(** X8: a stream of white space only, the empty stream among them, is
    loaded with success and leaves no token: the stream of tokens is empty
    and there is no token to peek at. *)
Theorem blank_stream_has_no_tokens `{LD : Long_Double_Arith} ts cbuf file options :
  Forall is_blank cbuf ->
  exists ts',
    Token_Stream.load ts cbuf file options = Returned (true, ts')
    /\ Token_Stream.state ts' = Token_Stream.state_success
    /\ Token_Stream.empty ts' = true
    /\ Token_Stream.peek_opt ts' = Returned None.
Proof.
  intros Hall. unfold Token_Stream.load, do_load.
  destruct (do_load_lines_blank options (S (List.length cbuf)) cbuf Tack.make
              {| seq := []; reader := Line_Reader.make file |} eq_refl Hall ltac:(lia))
    as (rd & ->).
  cbn [mbind Outcome_bind]. simpl. by eexists.
Qed.

Lemma blank_stream_has_no_tokens_witness :
  exists ts',
    Token_Stream.load no_stream [" "; "010"; "009"; "013"; "010"]%char (sref "file")
      default_options
    = Returned (true, ts')
    /\ Token_Stream.state ts' = Token_Stream.state_success
    /\ Token_Stream.empty ts' = true
    /\ Token_Stream.peek_opt ts' = Returned None.
Proof.
  apply (blank_stream_has_no_tokens no_stream [" "; "010"; "009"; "013"; "010"]%char
           (sref "file") default_options).
  unfold is_blank. repeat constructor.
Defined.

(** ** The null byte *)

Lemma do_validate_utf8_null rd pre : forall fuel tail,
  Line_Reader.data_avail rd = pre ++ NUL :: tail ->
  Forall (fun ch => (0 < char_code ch < 128)%Z) pre ->
  List.length pre < fuel ->
  do_validate_utf8 fuel rd
  = Thrown (Parser_Error.Parser_Error (Line_Reader.m_line rd)
              (Line_Reader.m_offset rd + List.length pre) 1
              Parser_Error.code_null_character_disallowed).
Proof.
  revert rd. induction pre as [|ch pre IH]; intros rd fuel tail Hdata Hall Hfuel;
    (destruct fuel as [|fuel]; [simpl in Hfuel; lia|]); cbn [do_validate_utf8].
  - destruct (data_avail_cons _ _ _ Hdata) as [Havail _].
    destruct (Nat.eqb_spec (Line_Reader.size_avail rd) 0); [lia|].
    rewrite Hdata. simpl. unfold do_make_parser_error_at, do_make_parser_error.
    unfold Line_Reader.line, Line_Reader.offset. do 2 f_equal; lia.
  - destruct (data_avail_cons _ _ _ Hdata) as [Havail Hnext].
    destruct (Nat.eqb_spec (Line_Reader.size_avail rd) 0); [lia|].
    apply Forall_cons in Hall as [Hch Hall].
    rewrite Hdata. change ((ch :: pre) ++ NUL :: tail) with (ch :: (pre ++ NUL :: tail)).
    unfold utf8_decode. destruct (Z.ltb_spec (char_code ch) 128) as [_|]; [|lia].
    cbn [negb]. destruct (Z.eqb_spec (char_code ch) 0); [lia|].
    rewrite consume_fits by lia. cbn [mbind Outcome_bind].
    rewrite (IH _ fuel tail Hnext Hall) by (simpl in Hfuel; lia).
    simpl. do 2 f_equal. lia.
Qed.

Lemma buffer_line_prefix pre c rest :
  Forall (fun ch => ch <> "010"%char) pre -> c <> "010"%char ->
  forall acc str rest' eof,
    Line_Reader.buffer_line (pre ++ c :: rest) acc = (str, rest', eof) ->
    exists tail, str = acc ++ pre ++ c :: tail.
Proof.
  intros Hall Hc. induction Hall as [|ch pre Hch _ IH]; intros acc str rest' eof; simpl.
  - destruct (char_eqb c "010") eqn:Ec.
    { by apply Ascii.eqb_eq in Ec. }
    intros H. apply buffer_line_splits in H as (line & -> & _).
    exists line. by rewrite <- app_assoc.
  - destruct (char_eqb ch "010") eqn:Ec.
    { by apply Ascii.eqb_eq in Ec. }
    intros H. apply IH in H as [tail ->]. exists tail.
    by rewrite <- app_assoc.
Qed.

(** X9: the lines are validated before they are broken down into tokens: a
    null byte on the first line, after bytes of ASCII that do not make a
    shebang line, is refused wherever it is, be it in a comment or in a
    string literal, and the error is at the null byte. *)
Theorem null_byte_is_refused `{LD : Long_Double_Arith} ts pre rest file options :
  Forall (fun ch => (0 < char_code ch < 128)%Z /\ ch <> "010"%char) pre ->
  firstn 2 pre <> sref "#!" ->
  Token_Stream.load ts (pre ++ NUL :: rest) file options
  = Returned (false,
      {| Token_Stream.m_stor :=
           Token_Stream.Stor_error
             (Parser_Error.Parser_Error 1 (List.length pre) 1
                Parser_Error.code_null_character_disallowed) |}).
Proof.
  intros Hall Hshebang. unfold Token_Stream.load, do_load.
  cbn [do_load_lines reader seq].
  destruct (Line_Reader.advance (Line_Reader.make file) (pre ++ NUL :: rest))
    as [[more rd] cbuf'] eqn:E.
  assert (more = true /\ Line_Reader.m_line rd = 1%Z /\ Line_Reader.m_offset rd = 0
          /\ exists tail, Line_Reader.m_str rd = pre ++ NUL :: tail)
    as (-> & Hline & Hoff & tail & Hstr).
  { unfold Line_Reader.advance in E.
    destruct (Line_Reader.buffer_line (pre ++ NUL :: rest) []) as [[str rest'] eof]
      eqn:Eb.
    assert (exists tail, str = [] ++ pre ++ NUL :: tail) as [tail ->].
    { apply (buffer_line_prefix pre NUL rest) in Eb; [done| |done].
      eapply Forall_impl; [exact Hall|]. by intros ch [_ ?]. }
    destruct (eof && _) eqn:Ee.
    { apply andb_true_iff in Ee as [_ Ee]. by destruct pre. }
    injection E as <- <- <-. simpl. split_and!; try done. by exists tail. }
  cbn [negb].
  assert (is_shebang rd = false) as ->.
  { unfold is_shebang, Line_Reader.data_avail. rewrite Hoff, Hstr. simpl.
    destruct (string_eqb _ _) eqn:Es; [|by rewrite andb_false_r].
    apply string_eqb_eq in Es. exfalso. apply Hshebang.
    destruct pre as [|a [|b pre]]; simpl in *; done. }
  rewrite (do_validate_utf8_null rd pre (Line_Reader.size_avail rd) tail).
  - cbn [mbind Outcome_bind]. by rewrite Hline, Hoff.
  - unfold Line_Reader.data_avail. by rewrite Hoff, Hstr.
  - eapply Forall_impl; [exact Hall|]. by intros ch [? _].
  - unfold Line_Reader.size_avail. rewrite Hoff, Hstr, length_app. simpl. lia.
Qed.

Lemma null_byte_is_refused_witness :
  Token_Stream.load no_stream (sref "// a" ++ NUL :: sref "b") (sref "file")
    default_options
  = Returned (false,
      {| Token_Stream.m_stor :=
           Token_Stream.Stor_error
             (Parser_Error.Parser_Error 1 (List.length (sref "// a")) 1
                Parser_Error.code_null_character_disallowed) |}).
Proof.
  apply (null_byte_is_refused no_stream (sref "// a") (sref "b") (sref "file")
           default_options).
  - repeat constructor; done.
  - discriminate.
Defined.

(** ** Block comments *)

Lemma search_bcomm_term_drop a l :
  search_bcomm_term (a ++ l) = None -> search_bcomm_term l = None.
Proof.
  induction a as [|x a IH]; [done|]. simpl.
  destruct (a ++ l) as [|y t] eqn:E.
  - intros _. destruct a; [|done]. simpl in E. by subst l.
  - destruct (char_eqb x "*" && char_eqb y "/"); [done|].
    destruct (search_bcomm_term (y :: t)); [done|]. intros _. by apply IH.
Qed.

Lemma search_bcomm_term_take l b :
  search_bcomm_term (l ++ b) = None -> search_bcomm_term l = None.
Proof.
  induction l as [|x l IH]; [done|]. simpl.
  destruct (l ++ b) as [|y t] eqn:E.
  - intros _. apply app_eq_nil in E as [-> _]. done.
  - destruct l as [|y' l'].
    + done.
    + simpl in E. injection E as <- <-.
      destruct (char_eqb x "*" && char_eqb y' "/"); [done|].
      destruct (search_bcomm_term (y' :: l' ++ b)) eqn:Es; [done|].
      intros _. by rewrite (IH eq_refl).
Qed.

Lemma line_of_prefix (l r p body : Cow_String) :
  "010"%char ∉ l -> "010"%char ∉ p ->
  l ++ "010"%char :: r = p ++ body ->
  exists b1, l = p ++ b1 /\ body = b1 ++ "010"%char :: r.
Proof.
  revert l. induction p as [|c p IH]; intros l Hl Hp H; simpl in *.
  - by exists l.
  - destruct l as [|c' l]; simpl in H.
    + injection H as <- _. exfalso. apply Hp. by left.
    + injection H as -> H. destruct (IH l) as (b1 & -> & ->); [..|done|].
      * intros ?. apply Hl. by right.
      * intros ?. apply Hp. by right.
      * by exists b1.
Qed.

Section Block_Comments.

Context `{LD : Long_Double_Arith}.

(** White space is skipped, and the rest of the line is broken down from
    there. *)
Lemma do_tokenize_line_skip options bl : forall fuel bcomm lx rest,
  Tack.to_bool bcomm = false ->
  Line_Reader.data_avail (reader lx) = bl ++ rest ->
  Forall is_blank bl ->
  do_tokenize_line (List.length bl + fuel) options bcomm lx
  = do_tokenize_line fuel options bcomm
      {| seq := seq lx;
         reader := {| Line_Reader.m_file := Line_Reader.m_file (reader lx);
                      Line_Reader.m_str := Line_Reader.m_str (reader lx);
                      Line_Reader.m_line := Line_Reader.m_line (reader lx);
                      Line_Reader.m_offset
                        := Line_Reader.m_offset (reader lx) + List.length bl |} |}.
Proof.
  induction bl as [|ch bl IH]; intros fuel bcomm lx rest Hb Hdata Hall.
  - simpl. rewrite Nat.add_0_r. by destruct lx as [sq []].
  - apply Forall_cons in Hall as [Hch Hall].
    destruct (data_avail_cons _ _ _ Hdata) as [Havail Hnext].
    change (List.length (ch :: bl) + fuel) with (S (List.length bl + fuel)).
    cbn [do_tokenize_line]. cbv zeta.
    destruct (Nat.eqb_spec (Line_Reader.size_avail (reader lx)) 0); [lia|].
    rewrite Hb.
    assert (Line_Reader.peek (reader lx) 0 = ch) as ->.
    { unfold Line_Reader.peek.
      destruct (Nat.ltb_spec (Line_Reader.size_avail (reader lx)) 0); [lia|].
      by rewrite char_at_avail, Hdata. }
    rewrite bool_decide_eq_true_2 by by apply is_blank_find.
    rewrite consume_fits by lia. cbn [mbind Outcome_bind].
    rewrite (IH fuel bcomm (mkLexer (seq lx) _) rest Hb Hnext Hall). simpl.
    do 3 f_equal. lia.
Qed.

(** A line with no end of the comment in it is skipped. *)
Lemma do_tokenize_line_in_comment options fuel bcomm lx :
  Tack.to_bool bcomm = true ->
  search_bcomm_term (Line_Reader.data_avail (reader lx)) = None ->
  1 <= fuel ->
  exists rd',
    do_tokenize_line fuel options bcomm lx
    = Returned (bcomm, {| seq := seq lx; reader := rd' |}).
Proof.
  intros Hb Hs Hfuel. destruct fuel as [|fuel]; [lia|].
  cbn [do_tokenize_line]. cbv zeta.
  destruct (Line_Reader.size_avail (reader lx) =? 0).
  { exists (reader lx). by destruct lx. }
  rewrite Hb, Hs, consume_fits by lia. by eexists.
Qed.

Lemma do_load_lines_in_comment options fuel : forall cbuf bcomm lx,
  Tack.to_bool bcomm = true ->
  Forall (fun ch => (0 < char_code ch < 128)%Z) cbuf ->
  search_bcomm_term cbuf = None ->
  List.length cbuf < fuel ->
  exists rd',
    do_load_lines fuel options cbuf bcomm lx
    = Returned (bcomm, {| seq := seq lx; reader := rd' |}).
Proof.
  induction fuel as [|fuel IH]; intros cbuf bcomm lx Hb Hall Hs Hfuel; [lia|].
  cbn [do_load_lines].
  destruct (Line_Reader.advance (reader lx) cbuf) as [[more rd] cbuf'] eqn:E.
  destruct more; cbn [negb]; [|by eexists].
  pose proof (advance_shorter _ _ _ _ E) as Hshort.
  assert ((Forall (fun ch => (0 < char_code ch < 128)%Z) (Line_Reader.data_avail rd)
           /\ search_bcomm_term (Line_Reader.data_avail rd) = None)
          /\ Forall (fun ch => (0 < char_code ch < 128)%Z) cbuf'
          /\ search_bcomm_term cbuf' = None)
    as ((Hline & Hsl) & Hrest & Hsr).
  { unfold Line_Reader.advance in E.
    destruct (Line_Reader.buffer_line cbuf []) as [[str rest] eof] eqn:Eb.
    apply buffer_line_splits in Eb as (line & -> & _ & Hin). simpl in E.
    destruct (_ && _); [done|]. injection E as <- <-.
    unfold Line_Reader.data_avail. simpl.
    destruct eof.
    - destruct Hin as [-> ->]. split_and!; try done.
    - rewrite Hin in Hall, Hs. apply Forall_app in Hall as [H1 H2].
      apply Forall_cons in H2 as [_ H2]. split_and!; try done.
      + by apply search_bcomm_term_take in Hs.
      + apply search_bcomm_term_drop in Hs.
        by apply (search_bcomm_term_drop ["010"%char]) in Hs. }
  destruct (is_shebang rd).
  { destruct (IH cbuf' bcomm {| seq := seq lx; reader := rd |} Hb Hrest Hsr
                ltac:(lia)) as (rd3 & ->). by exists rd3. }
  destruct (do_validate_utf8_ascii (Line_Reader.size_avail rd) rd Hline)
    as (rd1 & -> & Hsame); [done|].
  cbn [mbind Outcome_bind].
  assert (Line_Reader.data_avail (Line_Reader.rewind rd1 0) = Line_Reader.data_avail rd)
    as Hdata.
  { apply advance_line in E as (_ & Ho & _). destruct Hsame as (_ & Hstr & _).
    unfold Line_Reader.data_avail. simpl. by rewrite Hstr, Ho. }
  destruct (Nat.eq_dec (Line_Reader.size_avail (Line_Reader.rewind rd1 0)) 0) as [Hz|Hz].
  - rewrite Hz. simpl. rewrite Hz. simpl. cbn [mbind Outcome_bind seq reader].
    destruct (IH cbuf' bcomm
                {| seq := seq lx;
                   reader := Line_Reader.rewind (Line_Reader.rewind rd1 0) 0 |}
                Hb Hrest Hsr ltac:(lia)) as (rd3 & ->). by exists rd3.
  - destruct (do_tokenize_line_in_comment options
                (Line_Reader.size_avail (Line_Reader.rewind rd1 0)) bcomm
                {| seq := seq lx; reader := Line_Reader.rewind rd1 0 |} Hb)
      as (rd2 & ->); [simpl; by rewrite Hdata|lia|].
    cbn [mbind Outcome_bind seq reader].
    destruct (IH cbuf' bcomm
                {| seq := seq lx; reader := Line_Reader.rewind rd2 0 |} Hb Hrest Hsr
                ltac:(lia)) as (rd3 & ->). by exists rd3.
Qed.

End Block_Comments.

(** X10: a block comment goes on over the lines until it is closed.  Where
    it is opened on the first line after white space only and is not
    closed in what is left of the stream, bytes of ASCII other than the
    null byte, the load fails and the error is at the two bytes that open
    the comment. *)
Theorem unclosed_block_comment_is_refused `{LD : Long_Double_Arith}
    ts pre body file options :
  Forall (fun ch => is_blank ch /\ ch <> "010"%char) pre ->
  Forall (fun ch => (0 < char_code ch < 128)%Z) body ->
  search_bcomm_term body = None ->
  Token_Stream.load ts (pre ++ "/"%char :: "*"%char :: body) file options
  = Returned (false,
      {| Token_Stream.m_stor :=
           Token_Stream.Stor_error
             (Parser_Error.Parser_Error 1 (List.length pre) 2
                Parser_Error.code_block_comment_unclosed) |}).
Proof.
  intros Hpre Hbody Hs. unfold Token_Stream.load, do_load.
  set (cbuf := pre ++ "/"%char :: "*"%char :: body).
  cbn [do_load_lines reader seq].
  destruct (Line_Reader.advance (Line_Reader.make file) cbuf)
    as [[more rd] cbuf'] eqn:E.
  assert (Hblank : Forall is_blank pre).
  { eapply Forall_impl; [exact Hpre|]. by intros ch [? _]. }
  assert (Hnolf : "010"%char ∉ pre ++ ["/"; "*"]%char).
  { intros [H|H]%elem_of_app.
    - rewrite Forall_forall in Hpre. by destruct (Hpre _ H).
    - by repeat (apply elem_of_cons in H as [H|H]; [done|]); apply elem_of_nil in H. }
  assert (more = true /\ Line_Reader.m_line rd = 1%Z /\ Line_Reader.m_offset rd = 0
          /\ Line_Reader.m_file rd = file
          /\ exists b1,
               Line_Reader.m_str rd = pre ++ "/"%char :: "*"%char :: b1
               /\ Forall (fun ch => (0 < char_code ch < 128)%Z) b1
               /\ search_bcomm_term b1 = None
               /\ Forall (fun ch => (0 < char_code ch < 128)%Z) cbuf'
               /\ search_bcomm_term cbuf' = None
               /\ List.length cbuf' < List.length cbuf)
    as (-> & Hline & Hoff & Hfile & b1 & Hstr & Hb1 & Hs1 & Hrest & Hsr & Hshort).
  { pose proof E as E'. unfold Line_Reader.advance in E.
    destruct (Line_Reader.buffer_line cbuf []) as [[str rest'] eof] eqn:Eb.
    apply buffer_line_splits in Eb as (line & -> & Hline & Hin). simpl in E.
    assert (exists b1, line = (pre ++ ["/"; "*"]%char) ++ b1
                       /\ (if eof then body = b1 /\ rest' = []
                           else body = b1 ++ "010"%char :: rest')) as (b1 & -> & Hb).
    { subst cbuf. destruct eof.
      - destruct Hin as [<- ->]. exists body. by rewrite <- app_assoc.
      - symmetry in Hin.
        replace (pre ++ "/"%char :: "*"%char :: body)
          with ((pre ++ ["/"; "*"]%char) ++ body) in Hin by by rewrite <- app_assoc.
        by apply line_of_prefix in Hin. }
    rewrite <- app_assoc in E. simpl in E.
    destruct (eof && _) eqn:Ee.
    { apply andb_true_iff in Ee as [_ Ee]. by destruct pre. }
    injection E as <- <- <-. simpl. split_and!; try done.
    exists b1.
    destruct eof.
    - destruct Hb as [<- ->]. split_and!; try done. subst cbuf.
      rewrite length_app. simpl. lia.
    - rewrite Hb in Hbody, Hs. apply Forall_app in Hbody as [H1 H2].
      apply Forall_cons in H2 as [_ H2].
      split_and!; try done.
      + by apply search_bcomm_term_take in Hs.
      + apply search_bcomm_term_drop in Hs.
        by apply (search_bcomm_term_drop ["010"%char]) in Hs.
      + subst cbuf. rewrite Hb, !length_app. simpl. rewrite length_app. simpl. lia. }
  cbn [negb].
  assert (Hdata : Line_Reader.data_avail rd = pre ++ "/"%char :: "*"%char :: b1).
  { unfold Line_Reader.data_avail. by rewrite Hoff, Hstr. }
  assert (is_shebang rd = false) as ->.
  { unfold is_shebang. rewrite Hdata.
    destruct (string_eqb _ _) eqn:Es; [|by rewrite andb_false_r].
    apply string_eqb_eq in Es. exfalso.
    destruct pre as [|a pre]; simpl in Es; [done|].
    injection Es as -> _. apply Forall_cons in Hblank as [Ha _]. unfold is_blank in Ha.
    by repeat (apply elem_of_cons in Ha as [Ha|Ha]; [done|]); apply elem_of_nil in Ha. }
  destruct (do_validate_utf8_ascii (Line_Reader.size_avail rd) rd) as (rd1 & -> & Hsame);
    [|done|].
  { rewrite Hdata. apply Forall_app. split.
    - eapply Forall_impl; [exact Hblank|]. apply is_blank_ascii.
    - repeat (constructor; [by vm_compute|]). done. }
  cbn [mbind Outcome_bind].
  destruct Hsame as (Hf1 & Hstr1 & Hl1).
  set (lx0 := {| seq := []; reader := Line_Reader.rewind rd1 0 |}).
  assert (Hdata0 : Line_Reader.data_avail (reader lx0)
                   = pre ++ "/"%char :: "*"%char :: b1).
  { unfold Line_Reader.data_avail. simpl. by rewrite Hstr1, Hstr. }
  assert (Hsize0 : Line_Reader.size_avail (reader lx0)
                   = List.length pre + S (S (List.length b1))).
  { rewrite <- length_data_avail, Hdata0, length_app. done. }
  change (Line_Reader.size_avail (Line_Reader.rewind rd1 0))
    with (Line_Reader.size_avail (reader lx0)).
  rewrite Hsize0.
  rewrite (do_tokenize_line_skip options pre _ Tack.make lx0 _ eq_refl Hdata0 Hblank).
  set (lx1 := mkLexer _ _).
  assert (Hdata1 : Line_Reader.data_avail (reader lx1) = "/"%char :: "*"%char :: b1).
  { unfold Line_Reader.data_avail. simpl. rewrite Hstr1, Hstr.
    by rewrite drop_app_length. }
  assert (Hsize1 : Line_Reader.size_avail (reader lx1) = S (S (List.length b1))).
  { by rewrite <- length_data_avail, Hdata1. }
  cbn [do_tokenize_line]. cbv zeta. rewrite Hsize1. cbn [Nat.eqb].
  change (Tack.to_bool Tack.make) with false. cbv iota.
  assert (Line_Reader.peek (reader lx1) 0 = "/"%char) as ->.
  { unfold Line_Reader.peek. rewrite Hsize1. cbn [Nat.ltb Nat.leb].
    by rewrite char_at_avail, Hdata1. }
  assert (Line_Reader.peek (reader lx1) 1 = "*"%char) as ->.
  { unfold Line_Reader.peek. rewrite Hsize1. cbn [Nat.ltb Nat.leb].
    by rewrite char_at_avail, Hdata1. }
  rewrite bool_decide_eq_false_2 by (intros [? ?]; done).
  change (char_eqb "/" "/" && char_eqb "*" "/") with false.
  change (char_eqb "/" "/" && char_eqb "*" "*") with true. cbv iota.
  rewrite consume_fits by lia. cbn [mbind Outcome_bind].
  set (bcomm := Tack.set Tack.make (reader lx1) 2).
  set (lx2 := mkLexer _ _).
  assert (Hb : Tack.to_bool bcomm = true).
  { unfold bcomm, Tack.to_bool, Tack.set, Line_Reader.line. simpl.
    by rewrite Hl1, Hline. }
  assert (Hdata2 : Line_Reader.data_avail (reader lx2) = b1).
  { unfold Line_Reader.data_avail. subst lx2. simpl. rewrite Hstr1, Hstr.
    replace (List.length pre + 2) with (2 + List.length pre) by lia.
    rewrite <- skipn_skipn. by rewrite drop_app_length. }
  match goal with
  | |- match (?m ≫= _) ≫= _ with _ => _ end = _ =>
      assert (exists rd2, m = Returned (bcomm, {| seq := []; reader := rd2 |}))
        as [rd2 ->]
  end.
  { destruct (Line_Reader.size_avail (reader lx2) =? 0); [by eexists|].
    rewrite Hb, Hdata2, Hs1, consume_fits by lia. by eexists. }
  cbn [mbind Outcome_bind seq reader].
  destruct (do_load_lines_in_comment options (List.length cbuf) cbuf' bcomm
              {| seq := []; reader := Line_Reader.rewind rd2 0 |} Hb Hrest Hsr Hshort)
    as (rd3 & ->).
  cbn [mbind Outcome_bind]. rewrite Hb.
  unfold bcomm, Tack.set, Line_Reader.line, Line_Reader.offset. simpl.
  rewrite Hl1, Hline. do 4 f_equal; lia.
Qed.

Lemma unclosed_block_comment_is_refused_witness :
  Token_Stream.load no_stream
    (sref "  " ++ "/"%char :: "*"%char :: "a"%char :: "010"%char :: sref "b *")
    (sref "file") default_options
  = Returned (false,
      {| Token_Stream.m_stor :=
           Token_Stream.Stor_error
             (Parser_Error.Parser_Error 1 (List.length (sref "  ")) 2
                Parser_Error.code_block_comment_unclosed) |}).
Proof.
  apply (unclosed_block_comment_is_refused no_stream (sref "  ")
           ("a"%char :: "010"%char :: sref "b *") (sref "file") default_options).
  - unfold is_blank. repeat constructor; done.
  - repeat constructor; done.
  - reflexivity.
Defined.

(** * Further properties of the garbage collector *)

(** ** Single collections *)


(** X11: where the assertion of its second loop holds, a collection of a
    generation returns and uninitializes nothing that a variable with a
    reference of the program reaches, if all that the variable reaches is
    tracked by a generation: the cells are as they were. *)
Theorem collection_spares_reachable `{ER : Erase_Random} gen st v :
  gc_wf st -> m_recur st = 0%Z -> gen <= gMax -> count_asserted gen st ->
  1 <= default 0 (roots st !! v) ->
  (forall u, rtc (refers st) v u -> exists i, i <= gMax /\ u ∈ m_tracked st i) ->
  exists st' nvars,
    do_collect_generation gen st = Returned (st', nvars)
    /\ forall w, rtc (refers st) v w ->
         cell_data <$> variables st' !! w = cell_data <$> variables st !! w.
Proof.
  intros Hwf Hrec Hgen Hok Hroot Htracked.
  destruct (do_collect_generation_returns gen st Hgen Hok) as [[st' nvars] H].
  exists st', nvars. split; [done|]. intros w Hw.
  unfold do_collect_generation in H. rewrite Hrec in H. cbn [Z.eqb negb] in H.
  destruct (decide (gMax < gen)); [lia|].
  destruct (do_collect gen _) as [[st1 n1]| | | |] eqn:E; try done.
  cbn [mbind Outcome_bind] in H. injection H as <- <-.
  destruct (do_collect_facts gen (set_recur (0 + 1) st) st1 n1 E)
    as (marked & swept_st & S & Hf & Hm & Hcells & Hsw & _ & Hfin); [done|].
  pose proof (marking_facts_spares gen (set_recur (0 + 1) st) marked S v Hwf Hf
                Hroot Htracked w Hw) as Hu.
  simpl. rewrite (pass_cells _ _ _ _ w Hsw Hfin).
  destruct (decide (w ∈ m_unreachable marked)); [done|]. apply Hcells.
Qed.

(** A new collector, two variables created and held, the first made to
    refer to the second. *)
Lemma collection_spares_reachable_witness :
  exists st' nvars,
    do_collect_generation 0 held_pair = Returned (st', nvars)
    /\ forall w, rtc (refers held_pair) 0 w ->
         cell_data <$> variables st' !! w = cell_data <$> variables held_pair !! w.
Proof.
  assert (Htr : m_tracked held_pair 2 = {[0; 1]}) by (vm_compute; reflexivity).
  apply (collection_spares_reachable 0 held_pair 0).
  - apply gc_reachable_wf, held_pair_reachable.
  - apply gc_reachable_wf, held_pair_reachable.
  - unfold gMax. lia.
  - apply closed_asserted;
      [apply held_pair_reachable|unfold gMax; lia|apply held_pair_closed].
  - vm_compute. lia.
  - intros u Hu. exists 2. split; [unfold gMax; lia|]. rewrite Htr.
    assert (forall a b, a ∈ ({[0; 1]} : gset var_id) -> refers held_pair a b ->
                        b ∈ ({[0; 1]} : gset var_id)) as Hstep.
    { intros a b _ [i Hab]. apply held_pair_slots in Hab as [_ ->]. set_solver. }
    revert u Hu. apply (rtc_ind_r (fun u => u ∈ ({[0; 1]} : gset var_id))).
    + set_solver.
    + intros y z _ Hyz Hy. by eapply Hstep.
Defined.

(** X12: where the assertion of its second loop holds, a collection
    returns, and every variable of the generation collected is pooled,
    uninitialized and tracked no more, or it is as it was and is tracked by
    the next generation or, if there is none, by its own.  A generation
    that is not the oldest tracks nothing afterwards. *)
Theorem collection_sweeps_or_promotes `{ER : Erase_Random} gen st :
  gc_wf st -> m_recur st = 0%Z -> gen <= gMax -> count_asserted gen st ->
  exists st' nvars,
    do_collect_generation gen st = Returned (st', nvars)
    /\ (gen < gMax -> m_tracked st' (gMax - gen) = ∅)
    /\ forall x, x ∈ m_tracked st (gMax - gen) ->
         (x ∈ m_pool st' /\ is_uninitialized st' x /\ forall i, x ∉ m_tracked st' i)
         \/ (x ∉ m_pool st'
             /\ cell_data <$> variables st' !! x = cell_data <$> variables st !! x
             /\ x ∈ m_tracked st' (if decide (gen < gMax) then gMax - gen - 1
                                   else gMax - gen)).
Proof.
  intros Hwf Hrec Hgen Hok.
  destruct (do_collect_generation_returns gen st Hgen Hok) as [[st' nvars] H].
  exists st', nvars. split; [done|].
  pose proof (do_collect_generation_wf _ _ _ _ H Hwf) as Hwf'.
  unfold do_collect_generation in H. rewrite Hrec in H. cbn [Z.eqb negb] in H.
  destruct (decide (gMax < gen)); [lia|].
  destruct (do_collect gen _) as [[st1 n1]| | | |] eqn:E; try done.
  cbn [mbind Outcome_bind] in H. injection H as <- <-.
  destruct (do_collect_facts gen (set_recur (0 + 1) st) st1 n1 E)
    as (marked & swept_st & S & Hf & Hm & Hcells & Hsw & _ & Hfin); [done|].
  destruct Hm as (_ & _ & Hpool & _ & _ & Htr & Hdom & _).
  simpl in Hpool, Htr, Hdom.
  assert (Hsplit : forall x, x ∈ m_tracked st (gMax - gen) ->
            (x ∈ m_unreachable marked /\ x ∉ m_reachable marked)
            \/ (x ∉ m_unreachable marked /\ x ∈ m_reachable marked)).
  { intros x Hx. pose proof (mf_tracked _ _ _ _ Hf x Hx) as HxS.
    destruct (mf_split _ _ _ _ Hf x HxS) as [Hu|Hr].
    - left. split; [done|]. by apply (mf_unreachable _ _ _ _ Hf).
    - right. split; [|done]. intros Hu.
      by destruct (mf_unreachable _ _ _ _ Hf x Hu). }
  assert (Htracked1 : m_tracked st1 (gMax - gen)
                      = (m_tracked st (gMax - gen) ∖ m_unreachable marked)
                          ∖ (if decide (gen < gMax) then m_reachable marked else ∅)).
  { destruct (decide (gen < gMax)).
    - destruct Hfin as (promoted_st & Hpr & ->). simpl.
      rewrite (promoted_tracked _ _ _ _ Hpr), (swept_tracked _ _ _ _ Hsw), Htr. done.
    - subst st1. simpl. rewrite (swept_tracked _ _ _ _ Hsw), Htr.
      clear. set_solver. }
  assert (Hpool1 : m_pool st1
                   = m_pool st ∪ (m_unreachable marked ∩ m_tracked st (gMax - gen))).
  { destruct (decide (gen < gMax)).
    - destruct Hfin as (promoted_st & Hpr & ->). simpl.
      by rewrite (promoted_pool _ _ _ _ Hpr), (swept_pool _ _ _ _ Hsw), Hpool, Htr.
    - subst st1. simpl. by rewrite (swept_pool _ _ _ _ Hsw), Hpool, Htr. }
  split.
  - intros Hlt. simpl. rewrite Htracked1. destruct (decide (gen < gMax)); [|lia].
    apply leibniz_equiv, elem_of_equiv_empty. intros x Hx.
    apply elem_of_difference in Hx as [[Hx Hu]%elem_of_difference Hr].
    destruct (Hsplit x Hx) as [[? ?]|[? ?]]; done.
  - intros x Hx. simpl.
    destruct (Hsplit x Hx) as [[Hu Hr]|[Hu Hr]].
    + left.
      assert (x ∈ m_pool st1) as Hp.
      { rewrite Hpool1. clear -Hu Hx. set_solver. }
      split_and!; [done| |].
      * pose proof (pass_cells _ _ _ _ x Hsw Hfin) as Hc.
        destruct (decide (x ∈ m_unreachable marked)); [|done].
        assert (x ∈ dom (variables marked)) as [y Hy]%elem_of_dom.
        { rewrite Hdom. destruct Hwf as (_ & _ & H3 & _). eauto. }
        rewrite Hy in Hc. exists (uninitialize y). by split_and!.
      * intros i Hi. destruct Hwf' as (_ & H2 & _). by apply (H2 i x Hi).
    + right.
      assert (x ∈ m_tracked st1
                (if decide (gen < gMax) then gMax - gen - 1 else gMax - gen)) as Ht.
      { destruct (decide (gen < gMax)).
        - destruct Hfin as (promoted_st & Hpr & ->). simpl.
          rewrite (promoted_next _ _ _ _ Hpr), (swept_tracked _ _ _ _ Hsw), Htr.
          clear -Hx Hu Hr. set_solver.
        - rewrite Htracked1. clear -Hx Hu. set_solver. }
      split_and!; [|
        |done].
      * destruct Hwf' as (_ & H2 & _). by eapply (H2 _ x Ht).
      * rewrite (pass_cells _ _ _ _ x Hsw Hfin).
        destruct (decide (x ∈ m_unreachable marked)); [done|]. apply Hcells.
Qed.

Lemma collection_sweeps_or_promotes_witness :
  exists st' nvars,
    do_collect_generation 0 held_pair = Returned (st', nvars)
    /\ (0 < gMax -> m_tracked st' (gMax - 0) = ∅)
    /\ forall x, x ∈ m_tracked held_pair (gMax - 0) ->
         (x ∈ m_pool st' /\ is_uninitialized st' x /\ forall i, x ∉ m_tracked st' i)
         \/ (x ∉ m_pool st'
             /\ cell_data <$> variables st' !! x
                = cell_data <$> variables held_pair !! x
             /\ x ∈ m_tracked st' (if decide (0 < gMax) then gMax - 0 - 1
                                   else gMax - 0)).
Proof.
  apply (collection_sweeps_or_promotes 0 held_pair).
  - apply gc_reachable_wf, held_pair_reachable.
  - apply gc_reachable_wf, held_pair_reachable.
  - unfold gMax. lia.
  - apply closed_asserted;
      [apply held_pair_reachable|unfold gMax; lia|apply held_pair_closed].
Defined.

(** X13: the promotion undoes an insertion by an erasure.  Where the
    assertion of its second loop holds, a collection returns, and a
    variable of the next generation that the program holds and a variable
    of the generation collected refers to is tracked by no generation
    afterwards, though it is neither uninitialized nor pooled. *)
Theorem promotion_untracks_referenced `{ER : Erase_Random} gen st x w :
  gc_wf st -> m_recur st = 0%Z -> gen < gMax -> count_asserted gen st ->
  x ∈ m_tracked st (gMax - gen) -> refers st x w ->
  w ∈ m_tracked st (gMax - gen - 1) -> 1 <= default 0 (roots st !! w) ->
  exists st' nvars,
    do_collect_generation gen st = Returned (st', nvars)
    /\ (forall i, w ∉ m_tracked st' i)
    /\ w ∉ m_pool st'
    /\ cell_data <$> variables st' !! w = cell_data <$> variables st !! w.
Proof.
  intros Hwf Hrec Hgen Hok Hx [j Hxw] Hw Hroot.
  destruct (do_collect_generation_returns gen st ltac:(lia) Hok) as [[st' nvars] H].
  exists st', nvars. split; [done|].
  unfold do_collect_generation in H. rewrite Hrec in H. cbn [Z.eqb negb] in H.
  destruct (decide (gMax < gen)); [lia|].
  destruct (do_collect gen _) as [[st1 n1]| | | |] eqn:E; try done.
  cbn [mbind Outcome_bind] in H. injection H as <- <-.
  destruct (do_collect_facts gen (set_recur (0 + 1) st) st1 n1 E)
    as (marked & swept_st & S & Hf & Hm & Hcells & Hsw & _ & Hfin); [done|].
  destruct Hm as (_ & _ & Hpool & _ & _ & Htr & Hdom & _).
  simpl in Hpool, Htr, Hdom.
  assert (Hne : gMax - gen - 1 <> gMax - gen) by (unfold gMax in *; lia).
  assert (HwT : w ∉ m_tracked st (gMax - gen)).
  { intros Hw'. destruct Hwf as (H1 & _). apply Hne. eapply H1; eauto. }
  assert (w ∈ S) as HwS.
  { eapply (mf_closed _ _ _ _ Hf); [|exact Hxw]. by apply (mf_tracked _ _ _ _ Hf). }
  assert (w ∈ m_reachable marked) as HwR.
  { apply (mf_external _ _ _ _ Hf); [done| |by left].
    exists (gMax - gen - 1). split; [lia|done]. }
  assert (w ∉ m_unreachable marked) as HwU.
  { intros Hu. by destruct (mf_unreachable _ _ _ _ Hf w Hu). }
  destruct (decide (gen < gMax)); [|lia].
  destruct Hfin as (promoted_st & Hpr & ->). simpl.
  split_and!.
  - intros i. destruct (decide (i = gMax - gen)) as [->|Hi].
    + rewrite (promoted_tracked _ _ _ _ Hpr). clear -HwR. set_solver.
    + destruct (decide (i = gMax - gen - 1)) as [->|Hi'].
      * rewrite (promoted_next _ _ _ _ Hpr), (swept_tracked _ _ _ _ Hsw), Htr.
        clear -HwR HwT. set_solver.
      * rewrite (promoted_tracked_ne _ _ _ _ Hpr), (swept_tracked_ne _ _ _ _ Hsw),
          Htr by done.
        intros Hin. destruct Hwf as (H1 & _). apply Hi'. eapply H1; eauto.
  - rewrite (promoted_pool _ _ _ _ Hpr), (swept_pool _ _ _ _ Hsw), Hpool, Htr.
    destruct Hwf as (_ & H2 & _). specialize (H2 _ _ Hw).
    clear -H2 HwT. set_solver.
  - rewrite (promoted_variables _ _ _ _ Hpr), (swept_variables _ _ _ _ Hsw).
    destruct (decide (w ∈ m_unreachable marked)); [done|]. apply Hcells.
Qed.

Lemma promotion_untracks_referenced_witness :
  exists st' nvars,
    do_collect_generation 0 staggered_pair = Returned (st', nvars)
    /\ (forall i, 1 ∉ m_tracked st' i)
    /\ 1 ∉ m_pool st'
    /\ cell_data <$> variables st' !! 1 = cell_data <$> variables staggered_pair !! 1.
Proof.
  apply (promotion_untracks_referenced 0 staggered_pair 0 1).
  - apply gc_reachable_wf, staggered_pair_reachable.
  - apply gc_reachable_wf, staggered_pair_reachable.
  - unfold gMax. lia.
  - apply closed_asserted;
      [apply staggered_pair_reachable|unfold gMax; lia|apply staggered_pair_closed].
  - replace (m_tracked staggered_pair (gMax - 0)) with ({[0]} : gset var_id)
      by (vm_compute; reflexivity).
    set_solver.
  - exists 0. reflexivity.
  - replace (m_tracked staggered_pair (gMax - 0 - 1)) with ({[1]} : gset var_id)
      by (vm_compute; reflexivity).
    set_solver.
  - vm_compute. lia.
Defined.

(** ** [finalize] *)

Section Finalize.

Context `{ER : Erase_Random}.

Lemma do_wipe_spec i st :
  exists st', do_wipe (size (m_tracked st i)) i st = Returned st' /\ wiped i st st'.
Proof.
  unfold do_wipe.
  destruct (while_erase_total
    (fun s =>
       m_tracked s i ⊆ m_tracked st i
       /\ (forall v, variables s !! v
             = if decide (v ∈ m_tracked st i ∖ m_tracked s i)
               then uninitialize <$> variables st !! v else variables st !! v)
       /\ (forall j, j <> i -> m_tracked s j = m_tracked st j)
       /\ m_pool s = m_pool st /\ roots s = roots st /\ m_recur s = m_recur st
       /\ m_counts s = m_counts st /\ m_thres s = m_thres st)
    (fun s => size (m_tracked s i))
    (fun s => choose_var (m_tracked s i))
    (fun var s =>
       Returned (set_variables (alter uninitialize var (variables s))
                   (set_tracked_at i (m_tracked s i ∖ {[var]}) s)))
    (size (m_tracked st i)) st) as (st' & Hr & Hinv & Hnone).
  - intros var s (Hsub & Hvars & Hne & Hrest) Hc. apply choose_var_Some in Hc.
    eexists. split; [done|]. simpl. rewrite fn_lookup_insert. split_and!.
    + clear -Hsub. set_solver.
    + intros v. destruct (decide (v = var)) as [->|Hv].
      * rewrite lookup_alter_eq, Hvars.
        destruct (decide (var ∈ m_tracked st i ∖ m_tracked s i)) as [Hd|Hd];
          [exfalso; clear -Hd Hc; set_solver|].
        destruct (decide (var ∈ m_tracked st i ∖ (m_tracked s i ∖ {[var]})))
          as [Hd'|Hd']; [done|exfalso]. apply Hd'. clear -Hsub Hc. set_solver.
      * rewrite lookup_alter_ne by done. rewrite Hvars.
        destruct (decide (v ∈ m_tracked st i ∖ m_tracked s i)) as [Hd|Hd];
          destruct (decide (v ∈ m_tracked st i ∖ (m_tracked s i ∖ {[var]})))
            as [Hd'|Hd']; try done; exfalso; clear -Hd Hd' Hv; set_solver.
    + intros j Hj. rewrite fn_lookup_insert_ne by done. by apply Hne.
    + apply Hrest.
    + apply Hrest.
    + apply Hrest.
    + apply Hrest.
    + apply Hrest.
    + pose proof (size_erase (m_tracked s i) var Hc). lia.
  - split_and!; try done. intros v.
    destruct (decide (v ∈ m_tracked st i ∖ m_tracked st i)) as [Hd|Hd]; [|done].
    exfalso. clear -Hd. set_solver.
  - done.
  - exists st'. split; [done|].
    apply choose_var_None in Hnone.
    destruct Hinv as (Hsub & Hvars & Hne & Hp & Hro & Hre & Hco & Hth).
    split; try done. intros v. rewrite Hvars, Hnone.
    destruct (decide (v ∈ m_tracked st i ∖ ∅)) as [Hd|Hd];
      destruct (decide (v ∈ m_tracked st i)) as [Hd'|Hd']; try done;
      exfalso; clear -Hd Hd'; set_solver.
Qed.

Lemma uninitialize_idemp x : uninitialize (uninitialize x) = uninitialize x.
Proof. done. Qed.

End Finalize.

(** X14: [finalize] terminates the program during a collection.  Otherwise
    it returns the number of the variables tracked and pooled, every
    generation tracks nothing afterwards and the pool is empty, the
    variables that were tracked are uninitialized and the others are as
    they were; the counters and thresholds of the generations are not
    reset. *)
Theorem finalize_wipes_all `{ER : Erase_Random} st :
  (m_recur st <> 0%Z -> exists msg, finalize st = Terminated msg)
  /\ (m_recur st = 0%Z ->
      exists st',
        finalize st
        = Returned (st', size (m_tracked st 2) + size (m_tracked st 1)
                         + size (m_tracked st 0) + size (m_pool st))
        /\ (forall i, i <= gMax -> m_tracked st' i = ∅)
        /\ m_pool st' = ∅ /\ m_recur st' = 0%Z
        /\ m_counts st' = m_counts st /\ m_thres st' = m_thres st
        /\ roots st' = roots st
        /\ forall v,
             variables st' !! v
             = if decide (v ∈ m_tracked st 2 ∪ m_tracked st 1 ∪ m_tracked st 0)
               then uninitialize <$> variables st !! v else variables st !! v).
Proof.
  split.
  - intros Hrec. unfold finalize.
    destruct (Z.eqb_spec (m_recur st) 0); [done|]. cbn [negb]. by eexists.
  - intros Hrec. unfold finalize. rewrite Hrec. cbn [Z.eqb negb].
    change (List.seq 0 (gMax + 1)) with [0; 1; 2]. cbn [do_wipe_all].
    set (s0 := clear_temporaries _).
    change (gMax - 0) with 2. change (gMax - 1) with 1. change (gMax - 2) with 0.
    destruct (do_wipe_spec 2 s0) as (s1 & -> & W1). cbn [mbind Outcome_bind].
    destruct (do_wipe_spec 1 s1) as (s2 & -> & W2). cbn [mbind Outcome_bind].
    destruct (do_wipe_spec 0 s2) as (s3 & -> & W3). cbn [mbind Outcome_bind].
    destruct W1 as [V1 T1 N1 P1 Ro1 Re1 C1 Th1].
    destruct W2 as [V2 T2 N2 P2 Ro2 Re2 C2 Th2].
    destruct W3 as [V3 T3 N3 P3 Ro3 Re3 C3 Th3].
    eexists. split.
    { f_equal. f_equal. rewrite (N2 0), (N1 0), (N1 1), P3, P2, P1 by done.
      subst s0. simpl. lia. }
    simpl. split_and!.
    + intros i Hi. unfold gMax in Hi.
      destruct i as [|[|[|i]]]; [done| | |lia].
      * rewrite (N3 1) by done. done.
      * rewrite (N3 2), (N2 2) by done. done.
    + done.
    + rewrite Re3, Re2, Re1. subst s0. simpl. lia.
    + by rewrite C3, C2, C1.
    + by rewrite Th3, Th2, Th1.
    + by rewrite Ro3, Ro2, Ro1.
    + intros v. rewrite V3, V2, V1, (N2 0), (N1 0), (N1 1) by done.
      subst s0. simpl.
      destruct (decide (v ∈ m_tracked st 0)), (decide (v ∈ m_tracked st 1)),
        (decide (v ∈ m_tracked st 2)),
        (decide (v ∈ m_tracked st 2 ∪ m_tracked st 1 ∪ m_tracked st 0)) as [Hd|Hd];
        try (exfalso; clear -Hd e; set_solver);
        try (exfalso; clear -Hd e0; set_solver);
        try (exfalso; clear -Hd e1; set_solver);
        try (exfalso; clear -Hd n n0 n1; set_solver);
        destruct (variables st !! v); done.
Qed.

(** ** Allocation *)

Section Allocation.

Context `{ER : Erase_Random}.

(** The loop of [create_variable] returns where the generations are
    closed: a collection leaves them closed for the next. *)
Lemma do_collect_automatically_returns gens st :
  Forall (fun gen => gen <= gMax) gens ->
  gc_wf st -> generations_closed st ∅ ->
  exists r, do_collect_automatically gens st = Returned r.
Proof.
  intros Hgens. revert st.
  induction Hgens as [|gen gens Hgen _ IH]; intros st Hwf Hcl; simpl.
  - by eexists.
  - destruct (Nat.leb _ _); [|by apply IH].
    destruct (decide (m_recur st = 0%Z)) as [Hrec|Hrec].
    + destruct (do_collect_generation_returns gen st Hgen) as [[st1 n1] E].
      { apply (generations_closed_asserted gen st ∅); [done|done|done|].
        intros o i v _ Hv. by apply elem_of_empty in Hv. }
      rewrite E. cbn [mbind Outcome_bind].
      destruct (IH st1) as [[st2 c2] ->].
      * by eapply do_collect_generation_wf.
      * by eapply do_collect_generation_closed.
      * cbn [mbind Outcome_bind]. by eexists.
    + rewrite do_collect_generation_recursive by done. cbn [mbind Outcome_bind].
      destruct (IH st Hwf Hcl) as [[st2 c2] ->].
      cbn [mbind Outcome_bind]. by eexists.
Qed.

Lemma do_collect_automatically_idle gens st :
  (forall gen, gen ∈ gens -> m_counts st (gMax - gen) < m_thres st (gMax - gen)) ->
  do_collect_automatically gens st = Returned (st, []).
Proof.
  induction gens as [|gen gens IH]; intros H; simpl; [done|].
  destruct (Nat.leb_spec (m_thres st (gMax - gen)) (m_counts st (gMax - gen))) as [Hle|_].
  - specialize (H gen ltac:(left)). lia.
  - apply IH. intros g Hg. apply H. by right.
Qed.

End Allocation.

(** X15: where everything that a tracked variable reaches is tracked by
    the same generation or held by the program, so that the assertion of no
    collection fails, [create_variable] returns for every generation that
    exists.  The variable it returns is tracked by that generation and by
    no other, is not pooled, and the tracked sets stay disjoint from one
    another and from the pool. *)
Theorem create_variable_tracks_once `{ER : Erase_Random} gen_hint st :
  gc_wf st -> gen_hint <= gMax -> generations_closed st ∅ ->
  exists var st',
    create_variable gen_hint st = Returned (var, st')
    /\ gc_wf st'
    /\ var ∈ m_tracked st' (gMax - gen_hint)
    /\ (forall i, var ∈ m_tracked st' i -> i = gMax - gen_hint)
    /\ var ∉ m_pool st'
    /\ var ∈ dom (variables st').
Proof.
  intros Hwf Hgen Hcl.
  destruct (do_collect_automatically_returns (List.seq 0 (gMax + 1)) st)
    as [[st1 collected] Ha]; [|done|done|].
  { apply Forall_forall. intros g Hg%list_elem_of_In%in_seq. lia. }
  destruct (create_variable_counts gen_hint st st1 collected Hgen Ha)
    as (var & st2 & Hc & _ & Hin).
  exists var, st2. split; [done|].
  pose proof (create_variable_wf _ _ _ _ Hc Hwf) as Hwf'.
  destruct Hwf' as (H1 & H2 & H3 & H4).
  split_and!; eauto. by repeat split.
Qed.

(** The allocation that collects generation 0 first, whose counter has
    reached the threshold of ten. *)
Lemma create_variable_tracks_once_witness :
  m_thres (allocate_and_hold 10 (new_collector_with_threshold 10)) (gMax - 0)
  <= m_counts (allocate_and_hold 10 (new_collector_with_threshold 10)) (gMax - 0)
  /\ exists var st',
       create_variable 1 (allocate_and_hold 10 (new_collector_with_threshold 10))
       = Returned (var, st')
       /\ gc_wf st'
       /\ var ∈ m_tracked st' (gMax - 1)
       /\ (forall i, var ∈ m_tracked st' i -> i = gMax - 1)
       /\ var ∉ m_pool st'
       /\ var ∈ dom (variables st').
Proof.
  split; [vm_compute; lia|].
  apply (create_variable_tracks_once 1
           (allocate_and_hold 10 (new_collector_with_threshold 10))).
  - apply gc_reachable_wf, allocate_and_hold_reachable,
      new_collector_with_threshold_reachable.
  - unfold gMax. lia.
  - apply no_slots_closed. vm_compute. reflexivity.
Defined.

(** X16: where no counter has reached its threshold, [create_variable]
    collects nothing: it takes a variable out of the pool if there is one
    and allocates a new one otherwise, adds it to the tracked set of the
    generation and increments the counter of the generation, and leaves the
    other sets and counters, the thresholds and the references of the
    program as they are. *)
Theorem create_variable_reuses_pool `{ER : Erase_Random} gen_hint st :
  gc_wf st -> gen_hint <= gMax ->
  (forall gen, gen <= gMax -> m_counts st (gMax - gen) < m_thres st (gMax - gen)) ->
  exists var st',
    create_variable gen_hint st = Returned (var, st')
    /\ (forall i, var ∉ m_tracked st i)
    /\ m_tracked st'
       = <[gMax - gen_hint := {[var]} ∪ m_tracked st (gMax - gen_hint)]> (m_tracked st)
    /\ m_counts st'
       = <[gMax - gen_hint := m_counts st (gMax - gen_hint) + 1]> (m_counts st)
    /\ m_thres st' = m_thres st /\ roots st' = roots st /\ m_recur st' = m_recur st
    /\ (m_pool st <> ∅ ->
        var ∈ m_pool st /\ m_pool st' = m_pool st ∖ {[var]}
        /\ variables st' = variables st)
    /\ (m_pool st = ∅ ->
        var ∉ dom (variables st) /\ m_pool st' = ∅
        /\ variables st' = <[var := new_Variable]> (variables st)).
Proof.
  intros Hwf Hgen Hidle. unfold create_variable.
  rewrite do_collect_automatically_idle
    by (intros g Hg%list_elem_of_In%in_seq; apply Hidle; lia).
  cbn [mbind Outcome_bind].
  destruct (do_allocate st) as [var st1] eqn:Ea.
  destruct (decide (gMax < gen_hint)); [lia|].
  exists var. eexists. split; [done|]. simpl.
  destruct Hwf as (H1 & H2 & H3 & H4).
  unfold do_allocate in Ea. destruct (choose_var (m_pool st)) as [v|] eqn:Ec.
  - apply choose_var_Some in Ec. injection Ea as <- <-. simpl. split_and!; try done.
    + intros i Hi. by apply (H2 i v).
    + intros Hempty. rewrite Hempty in Ec. by apply elem_of_empty in Ec.
  - apply choose_var_None in Ec. injection Ea as <- <-. simpl.
    pose proof (is_fresh (dom (variables st))) as Hfresh. split_and!; try done.
    + intros i Hi. apply Hfresh. eauto.
Qed.

Lemma create_variable_reuses_pool_witness :
  exists var st',
    create_variable 0 held_pair = Returned (var, st')
    /\ (forall i, var ∉ m_tracked held_pair i)
    /\ m_tracked st'
       = <[gMax - 0 := {[var]} ∪ m_tracked held_pair (gMax - 0)]> (m_tracked held_pair)
    /\ m_counts st'
       = <[gMax - 0 := m_counts held_pair (gMax - 0) + 1]> (m_counts held_pair)
    /\ m_thres st' = m_thres held_pair /\ roots st' = roots held_pair
    /\ m_recur st' = m_recur held_pair
    /\ (m_pool held_pair <> ∅ ->
        var ∈ m_pool held_pair /\ m_pool st' = m_pool held_pair ∖ {[var]}
        /\ variables st' = variables held_pair)
    /\ (m_pool held_pair = ∅ ->
        var ∉ dom (variables held_pair) /\ m_pool st' = ∅
        /\ variables st' = <[var := new_Variable]> (variables held_pair)).
Proof.
  apply (create_variable_reuses_pool 0 held_pair).
  - apply gc_reachable_wf, held_pair_reachable.
  - unfold gMax. lia.
  - intros gen Hgen. unfold gMax in *.
    destruct gen as [|[|[|gen]]]; [vm_compute; lia..|lia].
Defined.

(** ** Thresholds *)

(** X17: a threshold that has been set is the one that is read; the
    thresholds of the other generations, the tracked sets, the counters,
    the pool and the variables are as they were.  A generation that does
    not exist is refused by both functions. *)
Theorem threshold_round_trip gen thres st :
  (gen <= gMax ->
   exists st',
     set_threshold gen thres st = Returned st'
     /\ get_threshold gen st' = Returned thres
     /\ (forall g, g <= gMax -> g <> gen -> get_threshold g st' = get_threshold g st)
     /\ m_tracked st' = m_tracked st /\ m_counts st' = m_counts st
     /\ m_pool st' = m_pool st /\ variables st' = variables st)
  /\ (gMax < gen ->
      (exists msg, set_threshold gen thres st = Runtime_Error msg)
      /\ exists msg, get_threshold gen st = Runtime_Error msg).
Proof.
  unfold set_threshold, get_threshold. split.
  - intros Hgen. destruct (decide (gMax < gen)); [lia|].
    eexists. split; [done|]. simpl. destruct (decide (gMax < gen)); [lia|].
    rewrite fn_lookup_insert. split_and!; try done.
    intros g Hg Hne. destruct (decide (gMax < g)); [done|].
    rewrite fn_lookup_insert_ne by lia. done.
  - intros Hgen. destruct (decide (gMax < gen)); [|lia]. split; by eexists.
Qed.

(** ** Collection up to a generation *)

Section Collect_Variables.

Context `{ER : Erase_Random}.

(** What one collection leaves alone, and what it leaves of the generation
    collected. *)
Lemma do_collect_generation_frame gen st st' nvars :
  gc_wf st -> m_recur st = 0%Z -> gen <= gMax ->
  do_collect_generation gen st = Returned (st', nvars) ->
  roots st' = roots st
  /\ (gen < gMax -> m_tracked st' (gMax - gen) = ∅)
  /\ (forall i, i <> gMax - gen -> (gen < gMax -> i <> gMax - gen - 1) ->
        m_tracked st' i = m_tracked st i)
  /\ (forall i v, v ∈ m_tracked st' i -> exists j, v ∈ m_tracked st j).
Proof.
  intros Hwf Hrec Hgen H.
  unfold do_collect_generation in H. rewrite Hrec in H. cbn [Z.eqb negb] in H.
  destruct (decide (gMax < gen)); [lia|].
  destruct (do_collect gen _) as [[st1 n1]| | | |] eqn:E; try done.
  cbn [mbind Outcome_bind] in H. injection H as <- <-.
  destruct (do_collect_facts gen (set_recur (0 + 1) st) st1 n1 E)
    as (marked & swept_st & S & Hf & Hm & Hcells & Hsw & _ & Hfin); [done|].
  destruct (pass_others _ _ _ _ Hsw Hfin) as [Hroots _].
  destruct Hm as (Hr & _ & Hpool & _ & _ & Htr & Hdom & _).
  simpl in Hr, Hpool, Htr, Hdom. simpl.
  assert (Hsplit : forall x, x ∈ m_tracked st (gMax - gen) ->
            x ∈ m_unreachable marked \/ x ∈ m_reachable marked).
  { intros x Hx. apply (mf_split _ _ _ _ Hf x), (mf_tracked _ _ _ _ Hf x Hx). }
  split_and!.
  - congruence.
  - intros Hlt. destruct (decide (gen < gMax)); [|lia].
    destruct Hfin as (promoted_st & Hpr & ->). simpl.
    rewrite (promoted_tracked _ _ _ _ Hpr), (swept_tracked _ _ _ _ Hsw), Htr.
    apply leibniz_equiv, elem_of_equiv_empty. intros x Hx.
    apply elem_of_difference in Hx as [[Hx Hu]%elem_of_difference Hx'].
    destruct (Hsplit x Hx); done.
  - intros i Hi Hi'. destruct (decide (gen < gMax)).
    + destruct Hfin as (promoted_st & Hpr & ->). simpl.
      rewrite (promoted_tracked_ne _ _ _ _ Hpr) by auto.
      rewrite (swept_tracked_ne _ _ _ _ Hsw) by done. by rewrite Htr.
    + subst st1. simpl. rewrite (swept_tracked_ne _ _ _ _ Hsw) by done.
      by rewrite Htr.
  - intros i v Hv.
    assert (Hswept : forall k, m_tracked swept_st k ⊆ m_tracked st k).
    { intros k. destruct (decide (k = gMax - gen)) as [->|Hk].
      - rewrite (swept_tracked _ _ _ _ Hsw), Htr. clear. set_solver.
      - rewrite (swept_tracked_ne _ _ _ _ Hsw), Htr by done. done. }
    destruct (decide (gen < gMax)).
    + destruct Hfin as (promoted_st & Hpr & ->). simpl in Hv.
      destruct (decide (i = gMax - gen)) as [->|Hi].
      { rewrite (promoted_tracked _ _ _ _ Hpr) in Hv.
        apply elem_of_difference in Hv as [Hv _]. exists (gMax - gen).
        by apply Hswept. }
      destruct (decide (i = gMax - gen - 1)) as [->|Hi'].
      { rewrite (promoted_next _ _ _ _ Hpr) in Hv.
        apply elem_of_difference in Hv as [Hv _].
        apply elem_of_union in Hv as [Hv|[_ Hv]%elem_of_intersection].
        - exists (gMax - gen - 1). by apply Hswept.
        - exists (gMax - gen). by apply Hswept. }
      rewrite (promoted_tracked_ne _ _ _ _ Hpr) in Hv by done.
      exists i. by apply Hswept.
    + subst st1. simpl in Hv. exists i. by apply Hswept.
Qed.

Lemma do_collect_up_to_spec n : forall a st acc,
  a + n <= gMax + 1 -> gc_wf st -> m_recur st = 0%Z -> generations_closed st ∅ ->
  exists st' nvars,
    do_collect_up_to (List.seq a n) st acc = Returned (st', nvars)
    /\ gc_wf st' /\ m_recur st' = 0%Z /\ m_thres st' = m_thres st
    /\ roots st' = roots st
    /\ (forall gen, a <= gen < a + n -> gen < gMax -> m_tracked st' (gMax - gen) = ∅)
    /\ (forall gen, a <= gen < a + n -> m_counts st' (gMax - gen) = 0)
    /\ (forall i, gMax - a < i \/ i + a + n < gMax \/ n = 0 ->
          m_tracked st' i = m_tracked st i /\ m_counts st' i = m_counts st i)
    /\ (forall i v, v ∈ m_tracked st' i -> exists j, v ∈ m_tracked st j).
Proof.
  induction n as [|n IH]; intros a st acc Han Hwf Hrec Hcl; simpl.
  - exists st, acc. split_and!; try done; [intros; lia..|]. eauto.
  - assert (Ha : a <= gMax) by lia.
    destruct (do_collect_generation_returns a st Ha) as [[st1 n1] E].
    { apply (generations_closed_asserted a st ∅); [done|done|done|].
      intros o i v _ Hv. by apply elem_of_empty in Hv. }
    rewrite E. cbn [mbind Outcome_bind].
    pose proof (do_collect_generation_closed _ _ _ _ ∅ Hwf Hrec Ha E Hcl) as Hcl1.
    pose proof (do_collect_generation_wf _ _ _ _ E Hwf) as Hwf1.
    destruct (do_collect_generation_counts _ _ _ _ Ha Hrec E)
      as (Hrec1 & Hth1 & Hc1 & _ & Hcframe).
    destruct (do_collect_generation_frame _ _ _ _ Hwf Hrec Ha E)
      as (Hroots1 & Hempty1 & Htframe & Hold1).
    destruct (IH (S a) st1 (acc + n1) ltac:(lia) Hwf1 Hrec1 Hcl1)
      as (st' & nvars & -> & Hwf' & Hrec' & Hth' & Hroots' & Hempty' & Hc' & Hframe'
          & Hold').
    exists st', nvars. split_and!; try done; try congruence.
    + intros gen Hgen Hlt. destruct (decide (gen = a)) as [->|Hne].
      * destruct (Hframe' (gMax - a) ltac:(lia)) as [-> _]. by apply Hempty1.
      * apply Hempty'; [lia|done].
    + intros gen Hgen. destruct (decide (gen = a)) as [->|Hne].
      * destruct (Hframe' (gMax - a) ltac:(lia)) as [_ ->]. done.
      * apply Hc'. lia.
    + intros i Hi. destruct (Hframe' i ltac:(lia)) as [-> ->].
      rewrite Htframe, Hcframe by lia. done.
    + intros i v Hv. destruct (Hold' i v Hv) as [j Hj]. by apply (Hold1 j).
Qed.

End Collect_Variables.

(** X18: where everything that a tracked variable reaches is tracked by
    the same generation or held by the program, so that the assertion of no
    collection fails, [collect_variables] returns for every limit.
    Afterwards the pool is empty, every generation up to the limit has its
    counter at zero and, unless it is the oldest, tracks nothing, a
    generation older than the one after the limit is as it was, and no set
    tracks a variable that none tracked before. *)
Theorem collect_variables_empties_young `{ER : Erase_Random} gen_limit st :
  gc_wf st -> m_recur st = 0%Z -> generations_closed st ∅ ->
  exists st' nvars,
    collect_variables gen_limit st = Returned (st', nvars)
    /\ gc_wf st' /\ m_pool st' = ∅ /\ m_recur st' = 0%Z
    /\ m_thres st' = m_thres st /\ roots st' = roots st
    /\ (forall gen, gen <= gen_limit -> gen < gMax -> m_tracked st' (gMax - gen) = ∅)
    /\ (forall gen, gen <= gen_limit -> gen <= gMax -> m_counts st' (gMax - gen) = 0)
    /\ (forall i, i + gen_limit + 1 < gMax ->
          m_tracked st' i = m_tracked st i /\ m_counts st' i = m_counts st i)
    /\ (forall i v, v ∈ m_tracked st' i -> exists j, v ∈ m_tracked st j).
Proof.
  intros Hwf Hrec Hcl.
  destruct (do_collect_up_to_spec (S (Nat.min gMax gen_limit)) 0 st 0
              ltac:(lia) Hwf Hrec Hcl)
    as (st1 & nvars & E & Hwf1 & Hrec1 & Hth1 & Hroots1 & Hempty & Hc & Hframe & Hold).
  exists (set_pool ∅ st1), nvars.
  assert (Hcv : collect_variables gen_limit st = Returned (set_pool ∅ st1, nvars)).
  { unfold collect_variables. rewrite E. done. }
  split; [done|]. split; [by eapply collect_variables_wf|]. simpl.
  split_and!; try done.
  - intros gen Hgen Hlt. apply Hempty; lia.
  - intros gen Hgen Hle. apply Hc. lia.
  - intros i Hi. apply Hframe. lia.
Qed.

Lemma collect_variables_empties_young_witness :
  exists st' nvars,
    collect_variables 0 held_pair = Returned (st', nvars)
    /\ gc_wf st' /\ m_pool st' = ∅ /\ m_recur st' = 0%Z
    /\ m_thres st' = m_thres held_pair /\ roots st' = roots held_pair
    /\ (forall gen, gen <= 0 -> gen < gMax -> m_tracked st' (gMax - gen) = ∅)
    /\ (forall gen, gen <= 0 -> gen <= gMax -> m_counts st' (gMax - gen) = 0)
    /\ (forall i, i + 0 + 1 < gMax ->
          m_tracked st' i = m_tracked held_pair i
          /\ m_counts st' i = m_counts held_pair i)
    /\ (forall i v, v ∈ m_tracked st' i -> exists j, v ∈ m_tracked held_pair j).
Proof.
  apply (collect_variables_empties_young 0 held_pair).
  - apply gc_reachable_wf, held_pair_reachable.
  - apply gc_reachable_wf, held_pair_reachable.
  - apply held_pair_closed.
Defined.

(** X19: where the assertion of its second loop holds, a collection
    returns, and the number that it returns is the number of the
    variables that it has found unreachable.  It uninitializes these and
    leaves the others as they were, and it pools those of them that the
    generation tracked.  A variable among them that a generation tracks is
    not held by the program, and every variable that refers to it is among
    them as well. *)
Theorem collection_counts_what_it_wipes `{ER : Erase_Random} gen st :
  gc_wf st -> m_recur st = 0%Z -> gen <= gMax -> count_asserted gen st ->
  exists st' nvars U,
    do_collect_generation gen st = Returned (st', nvars)
    /\ nvars = size U
    /\ (forall v,
          cell_data <$> variables st' !! v
          = cell_data <$> (if decide (v ∈ U) then uninitialize <$> variables st !! v
                           else variables st !! v))
    /\ m_pool st' = m_pool st ∪ (U ∩ m_tracked st (gMax - gen))
    /\ forall v i, v ∈ U -> i <= gMax -> v ∈ m_tracked st i ->
         default 0 (roots st !! v) = 0
         /\ forall o k, all_slots (variables st) !! (o, k) = Some v -> o ∈ U.
Proof.
  intros Hwf Hrec Hgen Hassert.
  destruct (do_collect_generation_returns gen st Hgen Hassert) as [[st' nvars] H].
  unfold do_collect_generation in H. rewrite Hrec in H. cbn [Z.eqb negb] in H.
  destruct (decide (gMax < gen)); [lia|].
  destruct (do_collect gen _) as [[st1 n1]| | | |] eqn:E; try done.
  cbn [mbind Outcome_bind] in H.
  destruct (do_collect_facts gen (set_recur (0 + 1) st) st1 n1 E)
    as (marked & swept_st & S & Hf & Hm & Hcells & Hsw & Hn & Hfin); [done|].
  exists st', nvars, (m_unreachable marked). split.
  { unfold do_collect_generation. rewrite Hrec. cbn [Z.eqb negb].
    destruct (decide (gMax < gen)); [lia|]. by rewrite E. }
  injection H as <- <-.
  destruct Hm as (_ & _ & Hpool & _ & _ & Htr & _ & _). simpl in Hpool, Htr.
  split_and!.
  - done.
  - intros v. simpl. rewrite (pass_cells _ _ _ _ v Hsw Hfin).
    specialize (Hcells v). simpl in Hcells.
    destruct (decide (v ∈ m_unreachable marked)); [|done].
    destruct (variables marked !! v) as [x|], (variables st !! v) as [y|];
      simpl in *; try done.
    injection Hcells as _ Himm _. unfold cell_data. simpl. by rewrite Himm.
  - simpl. destruct (decide (gen < gMax)).
    + destruct Hfin as (promoted_st & Hpr & ->). simpl.
      by rewrite (promoted_pool _ _ _ _ Hpr), (swept_pool _ _ _ _ Hsw), Hpool, Htr.
    + subst st1. simpl. by rewrite (swept_pool _ _ _ _ Hsw), Hpool, Htr.
  - intros v i Hv Hi Hvi.
    destruct (mf_unreachable _ _ _ _ Hf v Hv) as [HvS HvR].
    split.
    + destruct (default 0 (roots st !! v)) as [|m] eqn:Hroot; [done|].
      exfalso. apply HvR. apply (mf_external _ _ _ _ Hf v HvS).
      * exists i. by split.
      * left. simpl. rewrite Hroot. lia.
    + intros o k Hok. destruct (decide (o ∈ S)) as [HoS|HoS].
      * destruct (mf_split _ _ _ _ Hf o HoS) as [Hu|Hr]; [done|].
        exfalso. apply HvR. by eapply (mf_reachable_closed _ _ _ _ Hf).
      * exfalso. apply HvR. apply (mf_external _ _ _ _ Hf v HvS).
        -- exists i. by split.
        -- right. exists o, k. by split.
Qed.

Lemma collection_counts_what_it_wipes_witness :
  exists st' nvars U,
    do_collect_generation 0 two_cell_cycle = Returned (st', nvars)
    /\ nvars = size U
    /\ (forall v,
          cell_data <$> variables st' !! v
          = cell_data <$> (if decide (v ∈ U)
                           then uninitialize <$> variables two_cell_cycle !! v
                           else variables two_cell_cycle !! v))
    /\ m_pool st' = m_pool two_cell_cycle ∪ (U ∩ m_tracked two_cell_cycle (gMax - 0))
    /\ forall v i, v ∈ U -> i <= gMax -> v ∈ m_tracked two_cell_cycle i ->
         default 0 (roots two_cell_cycle !! v) = 0
         /\ forall o k, all_slots (variables two_cell_cycle) !! (o, k) = Some v -> o ∈ U.
Proof.
  apply (collection_counts_what_it_wipes 0 two_cell_cycle).
  - apply gc_reachable_wf, two_cell_cycle_reachable.
  - apply gc_reachable_wf, two_cell_cycle_reachable.
  - unfold gMax. lia.
  - apply closed_asserted;
      [apply two_cell_cycle_reachable|unfold gMax; lia|apply two_cell_cycle_closed].
Defined.

(** ** The assertion of the second loop, failing *)

Section Assertion_Fails.

Context `{ER : Erase_Random}.

(** The first loop has scanned whatever [tracked] reaches. *)
Lemma do_scan_reaches (tracked : gset var_id) fuel st0 st1 t o :
  do_scan fuel st0 = Returned st1 -> scan_inv tracked st0 ->
  t ∈ tracked -> rtc (refers st0) t o -> scanned st1 o.
Proof.
  intros E Hinv Ht Hto.
  pose proof (do_scan_frame _ _ _ E) as [Hm _].
  pose proof (same_members_slots _ _ Hm) as Hslots.
  destruct (do_scan_spec _ _ _ _ E Hinv) as (_ & Htr & Hst & _).
  revert o Hto. apply (rtc_ind_r (fun o => scanned st1 o)); [by apply Htr|].
  intros x y _ [j Hxy] [Hx _]. apply (Hst (x, j)). apply Hx. by rewrite Hslots.
Qed.

(** The second loop does not return where a staged reference refers to a
    variable that nothing else keeps. *)
Lemma do_count_aborts fuel st1 st2 k v :
  do_count fuel st1 = Returned st2 ->
  m_staged st1 ⊆ all_slots (variables st1) ->
  m_temp_1 st1 = ∅ -> m_temp_2 st1 = ∅ -> m_unreachable st1 = ∅ -> m_reachable st1 = ∅ ->
  m_staged st1 !! k = Some v -> get_gc_ref st1 v = 1%Z -> unowned st1 v -> False.
Proof.
  unfold do_count. intros H Hsub Ht1 Ht2 Hun Hre Hk Hone (Hdom & Hroot & Hpool & Htr & Href).
  eapply (while_erase_inv (fun s =>
     same_members st1 s /\ same_marks st1 s /\ count_inv st1 s
     /\ m_staged s ⊆ m_staged st1
     /\ (forall x, x ∈ m_temp_1 s ->
           (references (m_staged s) x < references (m_staged st1) x)%Z)
     /\ m_staged s !! k = Some v)) in H as [(_ & _ & _ & _ & _ & Hlast) Hnone].
  - apply choose_ref_None in Hnone. rewrite Hnone in Hlast.
    by rewrite lookup_empty in Hlast.
  - clear H. intros [k' w] s s' (Hm & Hmk & Hc & Hss & Htemp & Hin) Hpick Hstep.
    apply choose_ref_Some in Hpick.
    destruct (do_count_step_frame _ _ _ Hstep) as [Hm' Hmk'].
    pose proof (do_count_step_inv st1 k' w s s' Hpick Hc Hstep) as Hc'.
    destruct (decide (k' = k)) as [->|Hne].
    + exfalso. assert (w = v) as -> by congruence.
      unfold do_count_step in Hstep. cbn [fst snd] in Hstep.
      match type of Hstep with (if ?b then _ else _) = _ =>
        destruct b eqn:Hr; [|discriminate Hstep] end.
      apply Z.leb_le in Hr. rewrite get_gc_ref_alter in Hr.
      destruct (decide (v = v)); [|done].
      unfold use_count in Hr.
      cbn [variables roots m_pool m_tracked m_staged m_temp_1 m_temp_2
        m_unreachable m_reachable set_variables set_staged] in Hr.
      rewrite all_slots_alter_value in Hr by done.
      pose proof (same_members_slots _ _ Hm) as Hslots.
      destruct Hm as (Hroots & _ & Hpools & _ & _ & Htrs & Hdoms & _).
      destruct Hmk as (Hs2 & Hsu & Hsr).
      destruct Hc as (_ & Hsum & _).
      rewrite Hroots, Hpools, Htrs, Hslots, Hs2, Hsu, Hsr, Ht2, Hun, Hre in Hr.
      rewrite Hroot, Href in Hr. unfold tracked_holds in Htr.
      rewrite (holds_not_elem _ _ Hpool) in Hr.
      rewrite !(holds_not_elem ∅ v) in Hr by (clear; set_solver).
      pose proof (references_delete _ _ _ v Hpick) as Hdel.
      destruct (decide (v = v)); [|done].
      pose proof (references_mono _ _ v Hsub) as Hle1.
      pose proof (references_mono _ _ v Hss) as Hle2.
      pose proof (references_nonneg (delete k (m_staged s)) v).
      assert (holds (m_temp_1 s) v = 0%Z) as Hh.
      { apply holds_not_elem. intros Hv. specialize (Htemp v Hv). lia. }
      specialize (Hsum v Hdom). rewrite Hone in Hsum.
      rewrite <- Hdoms in Hdom. apply elem_of_dom in Hdom as [x Hx].
      unfold get_gc_ref in Hsum. rewrite Hx in Hsum, Hr.
      cbn [m_gc_ref set_gc_ref] in Hr.
      pose proof (holds_nonneg (m_tracked st1 0) v).
      pose proof (holds_nonneg (m_tracked st1 1) v).
      pose proof (holds_nonneg (m_tracked st1 2) v).
      lia.
    + apply do_count_step_Returned in Hstep as Hs'. subst s'. cbn [fst snd] in *.
      split_and!; try done.
      * by eapply same_members_trans.
      * simpl. etrans; [apply delete_subseteq|done].
      * simpl. intros x Hx.
        pose proof (references_delete _ _ _ x Hpick) as Hdel.
        pose proof (references_mono _ _ x Hss) as Hle.
        apply elem_of_union in Hx as [->%elem_of_singleton|Hx].
        -- destruct (decide (w = w)); [|done]. lia.
        -- specialize (Htemp x Hx). destruct (decide (w = x)); lia.
      * simpl. by rewrite lookup_delete_ne.
  - split; [apply same_members_refl|]. split; [by repeat split|].
    split; [unfold count_inv; split_and!; eauto|]. split; [done|]. split; [|done].
    intros x Hx. rewrite Ht1 in Hx. by apply elem_of_empty in Hx.
Qed.

(** A collection terminates the program where a variable that its
    generation reaches refers to a variable that nothing else keeps. *)
Lemma do_collect_aborts gen st t o i v :
  t ∈ m_tracked st (gMax - gen) -> rtc (refers st) t o ->
  all_slots (variables st) !! (o, i) = Some v -> unowned st v ->
  exists msg, do_collect gen st = Terminated msg.
Proof.
  intros Ht Hto Hs Hun.
  destruct (do_collect_total gen st)
    as (st1 & E1 & [(msg & _ & Hr)|(st2 & r & E2 & _)]); [by exists msg|exfalso].
  pose proof (do_scan_frame _ _ _ E1) as [Hm (Hk2 & Hku & Hkr)].
  pose proof (same_members_slots _ _ Hm) as Hslots.
  assert (Hinv : scan_inv (m_tracked st (gMax - gen)) (scan_start gen st)).
  { unfold scan_inv, scan_start. simpl. split_and!.
    - apply map_empty_subseteq.
    - intros x Hx. left. clear -Hx. set_solver.
    - intros k x Hk. by rewrite lookup_empty in Hk. }
  destruct (do_scan_spec _ _ _ _ E1 Hinv) as (Hsub & _ & Hst & Hempty).
  pose proof (do_scan_reaches _ _ _ _ t o E1 Hinv Ht Hto) as [Ho _].
  assert (Hk : m_staged st1 !! (o, i) = Some v).
  { apply Ho. by rewrite Hslots. }
  destruct Hm as (Hroots & _ & Hpool & _ & _ & Htr & Hdom & _).
  simpl in Hroots, Hpool, Htr, Hdom, Hslots.
  destruct Hun as (H1 & H2 & H3 & H4 & H5).
  apply (do_count_aborts _ _ _ (o, i) v E2); try done.
  - destruct (Hst _ _ Hk) as [_ Hone]. apply Hone. by rewrite Hdom.
  - unfold unowned, tracked_holds in *. rewrite Hdom, Hroots, Hpool, Htr, Hslots. done.
Qed.

End Assertion_Fails.

(** X20: a collection of a generation that exists, asked for while none is in
    progress, returns where the assertion of its second loop holds, that
    is where no variable that the generation reaches refers to a variable
    that nothing else keeps; where one does, the assertion terminates the
    program. *)
Theorem collection_aborts_on_unowned `{ER : Erase_Random} gen st :
  gen <= gMax -> m_recur st = 0%Z ->
  (count_asserted gen st ->
   exists st' nvars, do_collect_generation gen st = Returned (st', nvars))
  /\ (forall t o i v,
        t ∈ m_tracked st (gMax - gen) -> rtc (refers st) t o ->
        all_slots (variables st) !! (o, i) = Some v -> unowned st v ->
        exists msg, do_collect_generation gen st = Terminated msg).
Proof.
  intros Hgen Hrec. split.
  - intros Hok.
    destruct (do_collect_generation_returns gen st Hgen Hok) as [[st' nvars] H].
    by exists st', nvars.
  - intros t o i v Ht Hto Hs Hun. unfold do_collect_generation.
    rewrite Hrec. cbn [Z.eqb negb]. destruct (decide (gMax < gen)); [lia|].
    destruct (do_collect_aborts gen (set_recur (0 + 1) st) t o i v) as [msg ->]; try done.
    by exists msg.
Qed.

Lemma stale_reference_reachable : gc_reachable stale_reference.
Proof.
  unfold stale_reference. eapply gc_reachable_step.
  - apply collected_young_reachable, staggered_pair_reachable.
  - replace (collected_young staggered_pair)
      with (set_variables (variables (collected_young staggered_pair))
              (collected_young staggered_pair)) at 2 by (by destruct (collected_young _)).
    by apply gc_step_mutate.
Qed.

(** The program has dropped its reference to the variable that the
    collection of generation 0 has left tracked by none. *)
Lemma collection_aborts_on_unowned_witness :
  gc_reachable stale_reference
  /\ exists msg, do_collect_generation 1 stale_reference = Terminated msg.
Proof.
  split; [apply stale_reference_reachable|].
  destruct (collection_aborts_on_unowned 1 stale_reference) as [_ H].
  - unfold gMax. lia.
  - vm_compute. reflexivity.
  - apply (H 0 0 0 1).
    + replace (m_tracked stale_reference (gMax - 1)) with ({[0]} : gset var_id)
        by (vm_compute; reflexivity).
      clear. set_solver.
    + apply rtc_refl.
    + vm_compute. reflexivity.
    + unfold unowned. split_and!.
      * apply elem_of_dom. eexists. vm_compute. reflexivity.
      * vm_compute. reflexivity.
      * replace (m_pool stale_reference) with (∅ : gset var_id)
          by (vm_compute; reflexivity).
        apply not_elem_of_empty.
      * vm_compute. reflexivity.
      * vm_compute. reflexivity.
Defined.

(** X21: where everything that a tracked variable reaches is tracked by
    the same generation or held by the program, a collection of a
    generation returns, and what it leaves is such a state again: the
    tracked sets are disjoint, and everything that a tracked variable
    reaches is tracked by the same generation or held by the program. *)
Theorem closed_generations_stay_closed `{ER : Erase_Random} gen st :
  gc_wf st -> m_recur st = 0%Z -> gen <= gMax -> generations_closed st ∅ ->
  exists st' nvars,
    do_collect_generation gen st = Returned (st', nvars)
    /\ gc_wf st' /\ m_recur st' = 0%Z /\ generations_closed st' ∅
    /\ forall gen', gen' <= gMax -> count_asserted gen' st'.
Proof.
  intros Hwf Hrec Hgen Hcl.
  destruct (do_collect_generation_returns gen st Hgen) as [[st' nvars] H].
  { apply (generations_closed_asserted gen st ∅); [done|done|done|].
    intros o i v _ Hv. by apply elem_of_empty in Hv. }
  pose proof (do_collect_generation_wf _ _ _ _ H Hwf) as Hwf'.
  pose proof (do_collect_generation_closed _ _ _ _ ∅ Hwf Hrec Hgen H Hcl) as Hcl'.
  exists st', nvars. split_and!; [done|done| |done|].
  - by eapply do_collect_generation_recur.
  - intros gen' Hgen'.
    apply (generations_closed_asserted gen' st' ∅); [done|done|done|].
    intros o i v _ Hv. by apply elem_of_empty in Hv.
Qed.

(** The collection that undoes the promotion of the second variable: the
    program holds it. *)
Lemma closed_generations_stay_closed_witness :
  exists st' nvars,
    do_collect_generation 0 staggered_pair = Returned (st', nvars)
    /\ gc_wf st' /\ m_recur st' = 0%Z /\ generations_closed st' ∅
    /\ forall gen', gen' <= gMax -> count_asserted gen' st'.
Proof.
  apply (closed_generations_stay_closed 0 staggered_pair).
  - apply gc_reachable_wf, staggered_pair_reachable.
  - apply gc_reachable_wf, staggered_pair_reachable.
  - unfold gMax. lia.
  - apply staggered_pair_closed.
Defined.
